(** * Sales analytics pipeline: parsing, validation, aggregation, enrichment

    A shallow embedding of [utils/file_handler.py], [utils/data_processor.py],
    [create_product_mapping] of [utils/api_handler.py] and the enrichment
    loop of [main.py], followed by the properties the specification states
    about them and by further properties of the code.

    Conventions of the embedding:
    - a Python [float] is an IEEE binary64 value, Rocq's primitive [float];
      [+], [*], [/], [<], [<=], [==] are the primitive operations;
    - a Python [int] is a [Z];
    - a Python [str] is a [string]; its characters are the code points 0..255;
    - a call that may raise returns an [outcome];
    - a [dict] whose iteration order the code relies on is an association
      list in insertion order. *)

From Stdlib Require Import ZArith QArith Qabs Qpower Lqa List Bool String Ascii Floats Lia.
From Stdlib Require Import Sorted Permutation.
Import ListNotations.

Set Warnings "-inexact-float".

Open Scope string_scope.
Open Scope Z_scope.

(** ** Exceptions *)

Inductive exn : Type :=
| OverflowError
| ZeroDivisionError.

Inductive outcome (A : Type) : Type :=
| Returns (a : A)
| Raises (e : exn).

Arguments Returns {A} a.
Arguments Raises {A} e.

Definition bind {A B : Type} (m : outcome A) (k : A -> outcome B) : outcome B :=
  match m with
  | Returns a => k a
  | Raises e => Raises e
  end.

Notation "x <- m ;; k" := (bind m (fun x => k))
  (at level 61, m at next level, right associativity).

Fixpoint mapM {A B : Type} (f : A -> outcome B) (l : list A) : outcome (list B) :=
  match l with
  | [] => Returns []
  | a :: l' => b <- f a ;; bs <- mapM f l' ;; Returns (b :: bs)
  end.

(** ** Python floats *)

Module PyFloat.

(** [float(n)] for an [int]: the nearest binary64 value, ties to even;
    [OverflowError] when that would be infinite. *)
Definition of_int (n : Z) : outcome float :=
  match binary_normalize prec emax n 0 false with
  | S754_infinity _ => Raises OverflowError
  | sf => Returns (SF2Prim sf)
  end.

(** [x / y] raises on a zero divisor. *)
Definition div (x y : float) : outcome float :=
  if (y =? 0)%float then Raises ZeroDivisionError else Returns (x / y)%float.

(** [num / den] rounded to the nearest integer, ties to the even one
    ([den > 0]). *)
Definition round_half_even_div (num den : Z) : Z :=
  let (q, r) := Z.div_eucl num den in
  match Z.compare (2 * r) den with
  | Lt => q
  | Gt => q + 1
  | Eq => if Z.even q then q else q + 1
  end.

(** The binary64 value nearest to [(-1)^neg * n * 10^e10] ([n >= 0]):
    what [strtod] returns for that decimal. *)
Definition of_decimal (neg : bool) (n : Z) (e10 : Z) : float :=
  match n with
  | Zpos p =>
    if 0 <=? e10
    then SF2Prim (binary_normalize prec emax
                    (if neg then - (n * 10 ^ e10) else n * 10 ^ e10) 0 false)
    else SF2Prim (SFdiv prec emax (S754_finite neg p 0)
                    (S754_finite false (Z.to_pos (10 ^ (- e10))) 0))
  | _ => if neg then neg_zero else zero
  end.

(** The digits [round(x, ndigits)] keeps: the integer nearest to
    [|x| * 10^ndigits], ties to even, computed on the exact value of [x]. *)
Definition round_digits (x : float) (ndigits : Z) : Z :=
  match Prim2SF x with
  | S754_finite _ m e =>
    let scaled := Zpos m * 10 ^ ndigits in
    if 0 <=? e then scaled * 2 ^ e
    else round_half_even_div scaled (2 ^ (- e))
  | _ => 0
  end.

(** [round(x, ndigits)] with [ndigits >= 0]: infinities and NaN round to
    themselves; a finite [x] is rounded to a decimal with [ndigits] digits
    after the point, which is then read back as a float; the sign of [x]
    is kept, also on a zero. *)
Definition round (x : float) (ndigits : Z) : float :=
  match Prim2SF x with
  | S754_finite s _ _ => of_decimal s (round_digits x ndigits) (- ndigits)
  | _ => x
  end.

(** The exact value of a finite float; 0 for the others. *)
Definition to_Q (x : float) : Q :=
  match Prim2SF x with
  | S754_finite s m e =>
    let v := if 0 <=? e then inject_Z (Zpos m * 2 ^ e)
             else Qmake (Zpos m) (Z.to_pos (2 ^ (- e))) in
    if s then Qopp v else v
  | _ => 0%Q
  end.

(** The decimal value [(-1)^neg * n / 10^ndigits]. *)
Definition decimal_Q (neg : bool) (n : Z) (ndigits : Z) : Q :=
  let v := Qmake n (Z.to_pos (10 ^ ndigits)) in
  if neg then Qopp v else v.

(** [sum] of floats up to Python 3.11: plain left-to-right addition from
    the [int] 0. *)
Definition sum_plain (l : list float) : float :=
  fold_left (fun acc x => (acc + x)%float) l 0%float.

(** [sum] of floats from Python 3.12 on: Neumaier's compensated summation.
    The first item is added to the [int] 0, the others go through the
    compensated loop. *)
Fixpoint neumaier (l : list float) (f c : float) : float :=
  match l with
  | [] => if negb (c =? 0)%float && is_finite c then (f + c)%float else f
  | x :: l' =>
    let t := (f + x)%float in
    let c' := if (abs x <=? abs f)%float
              then (c + ((f - t) + x))%float
              else (c + ((x - t) + f))%float in
    neumaier l' t c'
  end.

Definition sum_compensated (l : list float) : float :=
  match l with
  | [] => 0%float
  | x :: l' => neumaier l' (0 + x)%float 0%float
  end.

End PyFloat.

(** ** Python strings *)

Module PyStr.

(** [str.isspace] on the code points 0..255. *)
Definition is_space (c : ascii) : bool :=
  let n := nat_of_ascii c in
  ((9 <=? n) && (n <=? 13) || (28 <=? n) && (n <=? 32)
   || (n =? 133) || (n =? 160))%nat.

(** [s.split(sep)] for a one-character separator. *)
Fixpoint split (sep : ascii) (s : string) : list string :=
  match s with
  | EmptyString => [""]
  | String c s' =>
    if Ascii.eqb c sep then "" :: split sep s'
    else match split sep s' with
         | [] => [String c ""]
         | f :: fs => String c f :: fs
         end
  end.

(** [s.replace(old, new)] for a one-character [old]. *)
Fixpoint replace (old : ascii) (new : string) (s : string) : string :=
  match s with
  | EmptyString => ""
  | String c s' =>
    if Ascii.eqb c old then new ++ replace old new s'
    else String c (replace old new s')
  end.

Fixpoint lstrip (s : string) : string :=
  match s with
  | EmptyString => ""
  | String c s' => if is_space c then lstrip s' else s
  end.

Fixpoint rstrip (s : string) : string :=
  match s with
  | EmptyString => ""
  | String c s' =>
    match rstrip s' with
    | EmptyString => if is_space c then "" else String c ""
    | r => String c r
    end
  end.

(** [s.strip()] *)
Definition strip (s : string) : string := rstrip (lstrip s).

(** [s.startswith(p)] *)
Definition startswith (p s : string) : bool := String.prefix p s.

(** Truth value of a string: non-empty. *)
Definition truthy (s : string) : bool := negb (s =? "")%string.

(** First and last character of a string. *)
Definition first (s : string) : option ascii :=
  match s with
  | EmptyString => None
  | String c _ => Some c
  end.

Fixpoint last (s : string) : option ascii :=
  match s with
  | EmptyString => None
  | String c EmptyString => Some c
  | String _ s' => last s'
  end.

End PyStr.

(** ** The conversions [int(s)] and [float(s)]

    [None] stands for [ValueError].  The models cover strings of the code
    points 0..255: decimal digits are the ASCII ones.  (The limit CPython
    3.11 puts on the number of digits [int] reads is not modelled; the
    parser below takes the conversions as parameters, and these are their
    instances for the examples.) *)

Module PyNum.

Definition is_digit (c : ascii) : bool :=
  let n := nat_of_ascii c in ((48 <=? n) && (n <=? 57))%nat.

Definition digit_value (c : ascii) : Z := Z.of_nat (nat_of_ascii c) - 48.

(** An underscore may stand between two digits only; underscores are then
    dropped. *)
Fixpoint drop_underscores (prev : option ascii) (s : list ascii)
  : option (list ascii) :=
  match s with
  | [] => match prev with
          | Some "_"%char => None
          | _ => Some []
          end
  | c :: s' =>
    if Ascii.eqb c "_" then
      match prev with
      | Some p => if is_digit p then drop_underscores (Some c) s' else None
      | None => None
      end
    else
      match prev with
      | Some "_"%char =>
        if is_digit c then option_map (cons c) (drop_underscores (Some c) s')
        else None
      | _ => option_map (cons c) (drop_underscores (Some c) s')
      end
  end.

(** A leading sign: [(negative, rest)]. *)
Definition sign (s : list ascii) : bool * list ascii :=
  match s with
  | "-"%char :: s' => (true, s')
  | "+"%char :: s' => (false, s')
  | _ => (false, s)
  end.

(** The leading digits of [s]: their value after [acc], how many there
    are, and what follows them. *)
Fixpoint digits (s : list ascii) (acc : Z) (count : Z) : Z * Z * list ascii :=
  match s with
  | c :: s' =>
    if is_digit c then digits s' (10 * acc + digit_value c) (count + 1)
    else (acc, count, s)
  | [] => (acc, count, [])
  end.

(** [int(s)] *)
Definition py_int (s : string) : option Z :=
  match drop_underscores None (list_ascii_of_string (PyStr.strip s)) with
  | None => None
  | Some cs =>
    let (neg, body) := sign cs in
    match digits body 0 0 with
    | (n, count, []) =>
      if 0 <? count then Some (if neg then - n else n) else None
    | _ => None
    end
  end.

Definition lower (c : ascii) : ascii :=
  let n := nat_of_ascii c in
  if ((65 <=? n) && (n <=? 90))%nat then ascii_of_nat (n + 32) else c.

(** The exponent part of a decimal: [e], an optional sign, digits. *)
Definition exponent (s : list ascii) : option Z :=
  match s with
  | [] => Some 0
  | c :: s' =>
    if Ascii.eqb (lower c) "e" then
      let (neg, body) := sign s' in
      match digits body 0 0 with
      | (n, count, []) =>
        if 0 <? count then Some (if neg then - n else n) else None
      | _ => None
      end
    else None
  end.

(** [float(s)] *)
Definition py_float (s : string) : option float :=
  match drop_underscores None (list_ascii_of_string (PyStr.strip s)) with
  | None => None
  | Some cs =>
    let (neg, body) := sign cs in
    let word := string_of_list_ascii (map lower body) in
    if ((word =? "inf") || (word =? "infinity"))%string
    then Some (if neg then neg_infinity else infinity)
    else if (word =? "nan")%string then Some nan
    else
      let '(ip, icount, rest) := digits body 0 0 in
      let '(n, fcount, rest') :=
        match rest with
        | "."%char :: r => digits r ip 0
        | _ => (ip, 0, rest)
        end in
      if 0 <? icount + fcount then
        match exponent rest' with
        | Some e => Some (PyFloat.of_decimal neg n (e - fcount))
        | None => None
        end
      else None
  end.

End PyNum.

(** ** [utils/file_handler.py] *)

(** *** [read_sales_data]

    The file system is an argument: what [open(filename, 'r',
    encoding=encoding)] followed by [f.readlines()] gives for an encoding,
    the lines read or the exception raised.  The messages the function
    prints are not part of its result. *)

Inductive encoding : Type := utf_8 | latin_1 | cp1252.

Inductive file_error : Type :=
| UnicodeDecodeError
| FileNotFoundError
| OtherError.

(** The lines read or returned, or the exception that comes out. *)
Inductive file_outcome : Type :=
| Got (lines : list string)
| Failed (e : file_error).

Definition encodings_to_try : list encoding := [utf_8; latin_1; cp1252].

(** The loop over the encodings: the first one whose reading does not
    raise [UnicodeDecodeError] decides. *)
Fixpoint read_loop (open_file : encoding -> file_outcome)
  (encodings : list encoding) : file_outcome :=
  match encodings with
  | [] => Got []
  | encoding :: rest =>
    match open_file encoding with
    | Got lines =>
      let cleaned_lines :=
        map PyStr.strip
            (filter (fun line => PyStr.truthy (PyStr.strip line)) lines) in
      match cleaned_lines with
      | _ :: data => Got data
      | [] => Got []
      end
    | Failed UnicodeDecodeError => read_loop open_file rest
    | Failed FileNotFoundError => Got []
    | Failed OtherError => Failed OtherError
    end
  end.

Definition read_sales_data (open_file : encoding -> file_outcome) : file_outcome :=
  read_loop open_file encodings_to_try.

(** *** [parse_transactions] and [validate_and_filter] *)

(** A parsed record: the dictionary [parse_transactions] builds. *)
Record transaction : Type := {
  TransactionID : string;
  Date : string;
  ProductID : string;
  ProductName : string;
  Quantity : Z;
  UnitPrice : float;
  CustomerID : string;
  Region : string
}.

(** [t['Quantity'] * t['UnitPrice']]: the [int] is converted to a float
    first, which raises when it is too large. *)
Definition amount (t : transaction) : outcome float :=
  q <- PyFloat.of_int (Quantity t) ;;
  Returns (q * UnitPrice t)%float.

Section Parser.

(** [int] and [float] on strings; [None] is [ValueError]. *)
Variable to_int : string -> option Z.
Variable to_float : string -> option float.

(** One turn of the loop of [parse_transactions]: the record the line
    gives, or [None] when the loop goes on to the next line. *)
Definition parse_line (line : string) : option transaction :=
  match PyStr.split "|" line with
  | [t_id; date; p_id; p_name; qty_str; price_str; c_id; region] =>
    let clean_p_name := PyStr.replace "," " " p_name in
    match to_int (PyStr.replace "," "" qty_str) with
    | None => None
    | Some clean_qty =>
      match to_float (PyStr.replace "," "" price_str) with
      | None => None
      | Some clean_price =>
        Some {| TransactionID := PyStr.strip t_id;
                Date := PyStr.strip date;
                ProductID := PyStr.strip p_id;
                ProductName := PyStr.strip clean_p_name;
                Quantity := clean_qty;
                UnitPrice := clean_price;
                CustomerID := PyStr.strip c_id;
                Region := PyStr.strip region |}
      end
    end
  | _ => None
  end.

Fixpoint parse_transactions (raw_lines : list string) : list transaction :=
  match raw_lines with
  | [] => []
  | line :: rest =>
    match parse_line line with
    | Some t => t :: parse_transactions rest
    | None => parse_transactions rest
    end
  end.

End Parser.

(** The validation rules, as the loop body sets [is_valid]. *)
Definition required_fields (t : transaction) : list string :=
  [TransactionID t; Date t; ProductID t; ProductName t; CustomerID t; Region t].

Definition is_valid (t : transaction) : bool :=
  negb (Quantity t <=? 0)
  && negb (UnitPrice t <=? 0)%float
  && forallb PyStr.truthy (required_fields t)
  && PyStr.startswith "T" (TransactionID t)
  && PyStr.startswith "P" (ProductID t)
  && PyStr.startswith "C" (CustomerID t).

(** The validation loop: the valid records in order, and the number of
    invalid ones. *)
Fixpoint validate (transactions : list transaction) : list transaction * Z :=
  match transactions with
  | [] => ([], 0)
  | t :: rest =>
    let (valid, invalid_count) := validate rest in
    if is_valid t then (t :: valid, invalid_count)
    else (valid, invalid_count + 1)
  end.

Record filter_summary : Type := {
  total_input : Z;
  invalid : Z;
  filtered_by_region : Z;
  filtered_by_amount : Z;
  final_count : Z
}.

Definition len {A : Type} (l : list A) : Z := Z.of_nat (List.length l).

Arguments len : simpl never.

(** The region stage: applied when [region] is given and not empty. *)
Definition region_applies (region : option string) : bool :=
  match region with
  | Some r => PyStr.truthy r
  | None => false
  end.

Definition region_stage (region : option string) (current : list transaction)
  : list transaction * Z :=
  match region with
  | Some r =>
    if PyStr.truthy r then
      let next := filter (fun t => (Region t =? r)%string) current in
      (next, len current - len next)
    else (current, 0)
  | None => (current, 0)
  end.

(** The amount test of one record in the amount stage.  The bounds are
    floats here; an [int] bound compares by its exact value. *)
Definition amount_passes (min_amount max_amount : option float) (a : float) : bool :=
  let passed := true in
  let passed := match min_amount with
                | Some lo => if (a <? lo)%float then false else passed
                | None => passed
                end in
  let passed := match max_amount with
                | Some hi => if (hi <? a)%float then false else passed
                | None => passed
                end in
  passed.

Fixpoint amount_loop (min_amount max_amount : option float)
  (current : list transaction) : outcome (list transaction) :=
  match current with
  | [] => Returns []
  | t :: rest =>
    a <- amount t ;;
    next <- amount_loop min_amount max_amount rest ;;
    Returns (if amount_passes min_amount max_amount a then t :: next else next)
  end.

Definition amount_applies (min_amount max_amount : option float) : bool :=
  match min_amount, max_amount with
  | None, None => false
  | _, _ => true
  end.

Definition amount_stage (min_amount max_amount : option float)
  (current : list transaction) : outcome (list transaction * Z) :=
  if amount_applies min_amount max_amount then
    next <- amount_loop min_amount max_amount current ;;
    Returns (next, len current - len next)
  else Returns (current, 0).

(** [validate_and_filter(transactions, region, min_amount, max_amount)].
    The two lines it prints before filtering are not part of the result;
    the amounts it computes for the second one are, since computing them
    may raise. *)
Definition validate_and_filter (transactions : list transaction)
  (region : option string) (min_amount max_amount : option float)
  : outcome (list transaction * Z * filter_summary) :=
  let (temp_valid_transactions, invalid_count) := validate transactions in
  amounts <- mapM amount temp_valid_transactions ;;
  let current_transactions := temp_valid_transactions in
  let (current_transactions, filtered_by_region_count) :=
    region_stage region current_transactions in
  stage <- amount_stage min_amount max_amount current_transactions ;;
  let (filtered_transactions, filtered_by_amount_count) := stage in
  let summary := {| total_input := len transactions;
                    invalid := invalid_count;
                    filtered_by_region := filtered_by_region_count;
                    filtered_by_amount := filtered_by_amount_count;
                    final_count := len filtered_transactions |} in
  Returns (filtered_transactions, invalid_count, summary).

(** ** Dictionaries and sorting *)

Module Dict.
Section Ops.
Context {V : Type}.

(** [d.get(k)] *)
Fixpoint get (k : string) (d : list (string * V)) : option V :=
  match d with
  | [] => None
  | (k', v) :: d' => if (k =? k')%string then Some v else get k d'
  end.

(** [if k not in d: d[k] = init] followed by [d[k] = f(d[k])]: a new
    key goes to the end, a known key keeps its place. *)
Fixpoint update (k : string) (init : V) (f : V -> V) (d : list (string * V))
  : list (string * V) :=
  match d with
  | [] => [(k, f init)]
  | (k', v) :: d' =>
    if (k =? k')%string then (k', f v) :: d'
    else (k', v) :: update k init f d'
  end.
End Ops.
End Dict.

(** A [set] of strings: a list without duplicates.  Python fixes no
    iteration order for a set; nothing below depends on the one chosen
    here. *)
Fixpoint set_add (x : string) (s : list string) : list string :=
  match s with
  | [] => [x]
  | y :: s' => if (x =? y)%string then s else y :: set_add x s'
  end.

Section Sorting.
Context {A K : Type}.
Variable lt : K -> K -> bool.
Variable key : A -> K.

(** Ascending: [x], which stood before every element of [l], goes before
    the first [y] whose key is not smaller than its own. *)
Fixpoint insert_asc (x : A) (l : list A) : list A :=
  match l with
  | [] => [x]
  | y :: l' => if lt (key y) (key x) then y :: insert_asc x l' else x :: l
  end.

(** Descending: [x] goes before the first [y] whose key is not greater
    than its own. *)
Fixpoint insert_desc (x : A) (l : list A) : list A :=
  match l with
  | [] => [x]
  | y :: l' => if lt (key x) (key y) then y :: insert_desc x l' else x :: l
  end.

(** [sorted(l, key=key, reverse=reverse)]: the stable sort by [<] on the
    keys.  Python defines the result where [<] orders the keys
    consistently (no NaN among float keys); there it is the list computed
    here, whatever the algorithm. *)
Definition py_sorted (reverse : bool) (l : list A) : list A :=
  fold_right (if reverse then insert_desc else insert_asc) [] l.

(** [max(first :: rest, key=key)]: the first item is kept until a later
    one has a greater key. *)
Definition py_max (first : A) (rest : list A) : A :=
  fold_left (fun best item => if lt (key best) (key item) then item else best)
            rest first.
End Sorting.

(** The regions [validate_and_filter] prints before it filters:
    [sorted(list(set(t['Region'] for t in temp_valid_transactions if
    t['Region'])))].  The elements of a set are distinct, so the sorted
    list is the same whatever the order in which the set yields them. *)
Fixpoint region_set (temp_valid_transactions : list transaction)
  (s : list string) : list string :=
  match temp_valid_transactions with
  | [] => s
  | t :: rest =>
    if PyStr.truthy (Region t) then region_set rest (set_add (Region t) s)
    else region_set rest s
  end.

Definition available_regions (temp_valid_transactions : list transaction)
  : list string :=
  py_sorted String.ltb (fun r => r) false (region_set temp_valid_transactions []).

(** ** [utils/data_processor.py] *)

Module RegionStats.
(** The entry of [region_stats] while the records are read. *)
Record acc : Type := { acc_total_sales : float; acc_transaction_count : Z }.
(** The entry returned. *)
Record t : Type := { total_sales : float; transaction_count : Z; percentage : float }.
End RegionStats.

Module CustomerStats.
Record acc : Type := {
  acc_total_spent : float; acc_purchase_count : Z; products_set : list string }.
Record t : Type := {
  total_spent : float; purchase_count : Z; avg_order_value : float;
  products_bought : list string }.
End CustomerStats.

Module DailyStats.
Record acc : Type := {
  acc_revenue : float; acc_transaction_count : Z; customers_set : list string }.
Record t : Type := { revenue : float; transaction_count : Z; unique_customers : Z }.
End DailyStats.

Section Aggregation.

(** The builtin [sum] on a list of floats ([PyFloat.sum_plain] or
    [PyFloat.sum_compensated], by the version of Python). *)
Variable py_sum : list float -> float.

Definition calculate_total_revenue (transactions : list transaction)
  : outcome float :=
  amounts <- mapM amount transactions ;;
  Returns (py_sum amounts).

(** *** [region_wise_sales] *)

Definition region_step (region : string) (a : float)
  (region_stats : list (string * RegionStats.acc)) :=
  Dict.update region
    {| RegionStats.acc_total_sales := 0; RegionStats.acc_transaction_count := 0 |}
    (fun s => {| RegionStats.acc_total_sales := (RegionStats.acc_total_sales s + a)%float;
                 RegionStats.acc_transaction_count := RegionStats.acc_transaction_count s + 1 |})
    region_stats.

Fixpoint region_loop (transactions : list transaction)
  (region_stats : list (string * RegionStats.acc))
  : outcome (list (string * RegionStats.acc)) :=
  match transactions with
  | [] => Returns region_stats
  | t :: rest =>
    a <- amount t ;;
    region_loop rest (region_step (Region t) a region_stats)
  end.

Definition region_final (total_revenue : float) (item : string * RegionStats.acc)
  : outcome (string * RegionStats.t) :=
  let (region, stats) := item in
  share <- PyFloat.div (RegionStats.acc_total_sales stats) total_revenue ;;
  let percentage := (share * 100)%float in
  Returns (region,
           {| RegionStats.total_sales := PyFloat.round (RegionStats.acc_total_sales stats) 2;
              RegionStats.transaction_count := RegionStats.acc_transaction_count stats;
              RegionStats.percentage := PyFloat.round percentage 2 |}).

Definition region_wise_sales (transactions : list transaction)
  : outcome (list (string * RegionStats.t)) :=
  total_revenue <- calculate_total_revenue transactions ;;
  if (total_revenue =? 0)%float then Returns []
  else
    region_stats <- region_loop transactions [] ;;
    final_stats <- mapM (region_final total_revenue) region_stats ;;
    Returns (py_sorted PrimFloat.ltb
               (fun item => RegionStats.total_sales (snd item)) true final_stats).

End Aggregation.

(** *** [top_selling_products] *)

Module ProductStats.
(** The entry of [product_stats]. *)
Record acc : Type := { quantity : Z; revenue : float }.
End ProductStats.

Definition product_step (p_name : string) (qty : Z) (revenue : float)
  (product_stats : list (string * ProductStats.acc)) :=
  Dict.update p_name
    {| ProductStats.quantity := 0; ProductStats.revenue := 0 |}
    (fun s => {| ProductStats.quantity := ProductStats.quantity s + qty;
                 ProductStats.revenue := (ProductStats.revenue s + revenue)%float |})
    product_stats.

Fixpoint product_loop (transactions : list transaction)
  (product_stats : list (string * ProductStats.acc))
  : outcome (list (string * ProductStats.acc)) :=
  match transactions with
  | [] => Returns product_stats
  | t :: rest =>
    revenue <- amount t ;;
    product_loop rest
      (product_step (ProductName t) (Quantity t) revenue product_stats)
  end.

(** [l[:n]]: the first [n] items; all but the last [-n] when [n] is
    negative. *)
Definition slice_to {A : Type} (n : Z) (l : list A) : list A :=
  if n <? 0 then firstn (Z.to_nat (len l + n)) l else firstn (Z.to_nat n) l.

(** The tuple [(name, quantity, revenue)] of an entry. *)
Definition product_tuple (item : string * ProductStats.acc) : string * Z * float :=
  (fst item, ProductStats.quantity (snd item), ProductStats.revenue (snd item)).

(** The quantities are [int]s, which [<] orders totally: the stable sort
    has one result. *)
Definition top_selling_products (transactions : list transaction) (n : Z)
  : outcome (list (string * Z * float)) :=
  product_stats <- product_loop transactions [] ;;
  let product_list := map product_tuple product_stats in
  let product_list := py_sorted Z.ltb (fun x => snd (fst x)) true product_list in
  Returns (slice_to n product_list).

(** *** [customer_analysis] *)

Definition customer_step (c_id : string) (a : float) (p_name : string)
  (customer_stats : list (string * CustomerStats.acc)) :=
  Dict.update c_id
    {| CustomerStats.acc_total_spent := 0; CustomerStats.acc_purchase_count := 0;
       CustomerStats.products_set := [] |}
    (fun s => {| CustomerStats.acc_total_spent := (CustomerStats.acc_total_spent s + a)%float;
                 CustomerStats.acc_purchase_count := CustomerStats.acc_purchase_count s + 1;
                 CustomerStats.products_set := set_add p_name (CustomerStats.products_set s) |})
    customer_stats.

Fixpoint customer_loop (transactions : list transaction)
  (customer_stats : list (string * CustomerStats.acc))
  : outcome (list (string * CustomerStats.acc)) :=
  match transactions with
  | [] => Returns customer_stats
  | t :: rest =>
    a <- amount t ;;
    customer_loop rest (customer_step (CustomerID t) a (ProductName t) customer_stats)
  end.

(** [stats['total_spent'] / stats['purchase_count'] if stats['purchase_count'] > 0 else 0] *)
Definition avg_value (stats : CustomerStats.acc) : outcome float :=
  if 0 <? CustomerStats.acc_purchase_count stats then
    n <- PyFloat.of_int (CustomerStats.acc_purchase_count stats) ;;
    PyFloat.div (CustomerStats.acc_total_spent stats) n
  else Returns 0%float.

Definition customer_final (item : string * CustomerStats.acc)
  : outcome (string * CustomerStats.t) :=
  let (c_id, stats) := item in
  avg <- avg_value stats ;;
  Returns (c_id,
           {| CustomerStats.total_spent := PyFloat.round (CustomerStats.acc_total_spent stats) 2;
              CustomerStats.purchase_count := CustomerStats.acc_purchase_count stats;
              CustomerStats.avg_order_value := PyFloat.round avg 2;
              CustomerStats.products_bought := CustomerStats.products_set stats |}).

Definition customer_analysis (transactions : list transaction)
  : outcome (list (string * CustomerStats.t)) :=
  customer_stats <- customer_loop transactions [] ;;
  final_stats <- mapM customer_final customer_stats ;;
  Returns (py_sorted PrimFloat.ltb
             (fun item => CustomerStats.total_spent (snd item)) true final_stats).

(** *** [daily_sales_trend] and [find_peak_sales_day] *)

Definition daily_step (date : string) (a : float) (c_id : string)
  (daily_stats : list (string * DailyStats.acc)) :=
  Dict.update date
    {| DailyStats.acc_revenue := 0; DailyStats.acc_transaction_count := 0;
       DailyStats.customers_set := [] |}
    (fun s => {| DailyStats.acc_revenue := (DailyStats.acc_revenue s + a)%float;
                 DailyStats.acc_transaction_count := DailyStats.acc_transaction_count s + 1;
                 DailyStats.customers_set := set_add c_id (DailyStats.customers_set s) |})
    daily_stats.

Fixpoint daily_loop (transactions : list transaction)
  (daily_stats : list (string * DailyStats.acc))
  : outcome (list (string * DailyStats.acc)) :=
  match transactions with
  | [] => Returns daily_stats
  | t :: rest =>
    a <- amount t ;;
    daily_loop rest (daily_step (Date t) a (CustomerID t) daily_stats)
  end.

Definition daily_final (item : string * DailyStats.acc) : string * DailyStats.t :=
  let (date, stats) := item in
  (date,
   {| DailyStats.revenue := PyFloat.round (DailyStats.acc_revenue stats) 2;
      DailyStats.transaction_count := DailyStats.acc_transaction_count stats;
      DailyStats.unique_customers := len (DailyStats.customers_set stats) |}).

Definition daily_sales_trend (transactions : list transaction)
  : outcome (list (string * DailyStats.t)) :=
  daily_stats <- daily_loop transactions [] ;;
  let final_stats := map daily_final daily_stats in
  Returns (py_sorted String.ltb fst false final_stats).

(** The result is [None] or the tuple [(date, revenue, count)]. *)
Definition find_peak_sales_day (transactions : list transaction)
  : outcome (option (string * float * Z)) :=
  daily_stats <- daily_sales_trend transactions ;;
  match daily_stats with
  | [] => Returns None
  | first :: rest =>
    let peak_day :=
      py_max PrimFloat.ltb (fun item => DailyStats.revenue (snd item)) first rest in
    Returns (Some (fst peak_day,
                   DailyStats.revenue (snd peak_day),
                   DailyStats.transaction_count (snd peak_day)))
  end.

(** *** The low performers of [generate_sales_report]

    The report formats and writes text; of its figures, the products with
    the smallest quantities are computed by a loop of its own:
    [product_sales], its items sorted by quantity, the first three. *)

(** [d[k] = v]: a new key goes to the end, a known key keeps its place. *)
Fixpoint dict_set {V : Type} (k : string) (v : V) (d : list (string * V))
  : list (string * V) :=
  match d with
  | [] => [(k, v)]
  | (k', v') :: d' =>
    if (k =? k')%string then (k', v) :: d' else (k', v') :: dict_set k v d'
  end.

(** [d.get(k, default)] *)
Definition dict_get_default {V : Type} (k : string) (default : V)
  (d : list (string * V)) : V :=
  match Dict.get k d with
  | Some v => v
  | None => default
  end.

Fixpoint product_sales_loop (transactions : list transaction)
  (product_sales : list (string * Z)) : list (string * Z) :=
  match transactions with
  | [] => product_sales
  | t :: rest =>
    let pid := ProductName t in
    product_sales_loop rest
      (dict_set pid (dict_get_default pid 0 product_sales + Quantity t)
                product_sales)
  end.

Definition low_performers (transactions : list transaction) : list (string * Z) :=
  let product_sales := product_sales_loop transactions [] in
  let sorted_products := py_sorted Z.ltb snd false product_sales in
  slice_to 3 sorted_products.

(** ** The enrichment loop of [main.py] *)

(** A key of the product mapping: an [int] or a [str]. *)
Inductive product_key : Type :=
| IntKey (n : Z)
| StrKey (s : string).

Definition product_key_eqb (a b : product_key) : bool :=
  match a, b with
  | IntKey n, IntKey m => n =? m
  | StrKey s, StrKey r => (s =? r)%string
  | _, _ => false
  end.

(** A value of the mapping, as [create_product_mapping] builds it: a
    dictionary with four keys, hence true in a condition. *)
Record product_info : Type := {
  title : string; category : string; brand : string; rating : float }.

Definition product_mapping : Type := list (product_key * product_info).

(** [product_map.get(k)] *)
Fixpoint product_get (k : product_key) (product_map : product_mapping)
  : option product_info :=
  match product_map with
  | [] => None
  | (k', v) :: rest => if product_key_eqb k k' then Some v else product_get k rest
  end.

(** *** [create_product_mapping] of [utils/api_handler.py]

    A product of the list [fetch_all_products] returns, as far as
    [create_product_mapping] reads it: [p.get('id')], which is [None] for
    a product without an id, and the four values it copies, which nothing
    inspects afterwards.  The ids are the [int]s and [str]s the lookup of
    the enrichment loop asks for. *)
Record api_product : Type := {
  p_id : option product_key;
  p_info : product_info
}.

(** [mapping[k] = v]: a new key goes to the end, a known key keeps its
    place and takes the new value. *)
Fixpoint product_set (k : product_key) (v : product_info)
  (mapping : product_mapping) : product_mapping :=
  match mapping with
  | [] => [(k, v)]
  | (k', v') :: rest =>
    if product_key_eqb k k' then (k', v) :: rest
    else (k', v') :: product_set k v rest
  end.

Fixpoint mapping_loop (api_products : list api_product)
  (mapping : product_mapping) : product_mapping :=
  match api_products with
  | [] => mapping
  | p :: rest =>
    match p_id p with
    | Some k => mapping_loop rest (product_set k (p_info p) mapping)
    | None => mapping_loop rest mapping
    end
  end.

Definition create_product_mapping (api_products : list api_product)
  : product_mapping :=
  mapping_loop api_products [].

(** The copy of the record with the keys of the match and the flag. *)
Record enriched_transaction : Type := {
  base : transaction;
  info : option product_info;
  enriched : bool
}.

Section Enrichment.

Variable to_int : string -> option Z.

Definition matched_info (product_map : product_mapping) (t : transaction)
  : option product_info :=
  let pid_clean := PyStr.replace "P" "" (ProductID t) in
  match to_int pid_clean with
  | Some pid_int => product_get (IntKey pid_int) product_map
  | None => product_get (StrKey (ProductID t)) product_map
  end.

Definition enrich (product_map : product_mapping) (t : transaction)
  : enriched_transaction :=
  match matched_info product_map t with
  | Some i => {| base := t; info := Some i; enriched := true |}
  | None => {| base := t; info := None; enriched := false |}
  end.

Definition enrich_all (product_map : product_mapping)
  (valid_transactions : list transaction) : list enriched_transaction :=
  map (enrich product_map) valid_transactions.

End Enrichment.

(** ** The checks of [test_assignment.py]

    What the test asserts of the results of the analyses, as a boolean:
    [true] is an assertion that passes.  Two lists are compared with [==]
    element by element.  (Python takes an object to be equal to itself
    before it compares values, which shows on NaN only.) *)

Fixpoint list_eqb {A : Type} (eqb : A -> A -> bool) (l1 l2 : list A) : bool :=
  match l1, l2 with
  | [], [] => true
  | a :: l1', b :: l2' => eqb a b && list_eqb eqb l1' l2'
  | _, _ => false
  end.

(** [revenues == sorted(revenues, reverse=True)] *)
Definition check_region_order (region_stats : list (string * RegionStats.t)) : bool :=
  let revenues := map (fun d => RegionStats.total_sales (snd d)) region_stats in
  list_eqb PrimFloat.eqb revenues
           (py_sorted PrimFloat.ltb (fun x => x) true revenues).

(** [len(top_products) <= 3] and
    [quantities == sorted(quantities, reverse=True)] *)
Definition check_top_products (top_products : list (string * Z * float)) : bool :=
  (len top_products <=? 3)
  && let quantities := map (fun p => snd (fst p)) top_products in
     list_eqb Z.eqb quantities (py_sorted Z.ltb (fun x => x) true quantities).

(** [spends == sorted(spends, reverse=True)] *)
Definition check_customer_order (cust_stats : list (string * CustomerStats.t))
  : bool :=
  let spends := map (fun d => CustomerStats.total_spent (snd d)) cust_stats in
  list_eqb PrimFloat.eqb spends (py_sorted PrimFloat.ltb (fun x => x) true spends).

(** [dates == sorted(dates)] *)
Definition check_dates_order (daily_stats : list (string * DailyStats.t)) : bool :=
  let dates := map fst daily_stats in
  list_eqb String.eqb dates (py_sorted String.ltb (fun x => x) false dates).

(** The maximum the test computes for itself, from 0. *)
Definition max_rev (daily_stats : list (string * DailyStats.t)) : float :=
  fold_left
    (fun max_rev item =>
       if (max_rev <? DailyStats.revenue (snd item))%float
       then DailyStats.revenue (snd item) else max_rev)
    daily_stats 0%float.

(** [peak_day[1] == max_rev], asserted when [peak_day] is not [None]. *)
Definition check_peak_day (peak_day : option (string * float * Z))
  (daily_stats : list (string * DailyStats.t)) : bool :=
  match peak_day with
  | Some (_, revenue, _) => (revenue =? max_rev daily_stats)%float
  | None => true
  end.

(** * Vocabulary of the statements

    What the properties below speak of: the notions the specification
    names, the common shape of the loops, and the inputs the statements are
    evaluated at. *)

Open Scope list_scope.

(** ** The stages of the filter *)

(** The records that enter the amount stage. *)
Definition after_region (region : option string) (valid : list transaction)
  : list transaction :=
  match region with
  | Some r => if PyStr.truthy r
              then filter (fun t => (Region t =? r)%string) valid
              else valid
  | None => valid
  end.

(** [lo <= a <= hi], a bound that is not given being open. *)
Definition within (lo hi : option float) (a : float) : bool :=
  match lo with Some l => (l <=? a)%float | None => true end
  && match hi with Some h => (a <=? h)%float | None => true end.

Definition not_nan_bound (b : option float) : bool :=
  match b with Some x => negb (is_nan x) | None => true end.

(** ** Strings and lines *)

Definition no_comma (s : string) : bool :=
  forallb (fun c => negb (Ascii.eqb c ",")) (list_ascii_of_string s).

(** No whitespace at either end. *)
Definition trimmed (s : string) : bool :=
  match PyStr.first s, PyStr.last s with
  | Some a, Some b => negb (PyStr.is_space a) && negb (PyStr.is_space b)
  | _, _ => true
  end.

(** The string without its occurrences of [c]. *)
Definition without_char (c : ascii) (s : string) : string :=
  string_of_list_ascii
    (filter (fun a => negb (Ascii.eqb a c)) (list_ascii_of_string s)).

Definition has_char (c : ascii) (s : string) : bool :=
  existsb (fun a => Ascii.eqb a c) (list_ascii_of_string s).

Definition is_some {A : Type} (o : option A) : bool :=
  match o with Some _ => true | None => false end.

(** The cleaning of the product name. *)
Definition clean_name (p_name : string) : string :=
  PyStr.strip (PyStr.replace "," " " p_name).

Section ParserVocabulary.

Variable to_int : string -> option Z.
Variable to_float : string -> option float.

(** A line can be parsed: it has exactly 8 fields, and its quantity and
    unit price convert once their commas are removed. *)
Definition parseable (line : string) : bool :=
  match PyStr.split "|" line with
  | [_; _; _; _; qty_str; price_str; _; _] =>
    is_some (to_int (PyStr.replace "," "" qty_str))
    && is_some (to_float (PyStr.replace "," "" price_str))
  | _ => false
  end.

End ParserVocabulary.

(** ** The lookup with a single leading [P] *)

(** The lookup as the specification words it: a single leading [P] is
    stripped from the product id. *)
Definition strip_leading_P (s : string) : string :=
  match s with
  | String "P" rest => rest
  | _ => s
  end.

Definition matched_info_single_P (to_int : string -> option Z)
  (product_map : product_mapping) (t : transaction) : option product_info :=
  match to_int (strip_leading_P (ProductID t)) with
  | Some pid_int => product_get (IntKey pid_int) product_map
  | None => product_get (StrKey (ProductID t)) product_map
  end.

(** The statement about one transaction and one mapping: the match is the
    one of the single-[P] lookup, and no match gives [enriched = false]. *)
Definition single_P_lookup_statement (to_int : string -> option Z)
  (product_map : product_mapping) (t : transaction) : Prop :=
  matched_info to_int product_map t = matched_info_single_P to_int product_map t
  /\ (matched_info_single_P to_int product_map t = None ->
      enriched (enrich to_int product_map t) = false).

(** ** Classes of floats *)

(** The comparisons of binary64 values are read off a rank: no rank for
    NaN, and for the others a triple compared lexicographically (class and
    sign, exponent, mantissa). *)
Module FloatRank.

Definition triple : Type := (Z * Z * Z)%type.

Definition rank_sf (x : spec_float) : option triple :=
  match x with
  | S754_nan => None
  | S754_infinity true => Some (-2, 0, 0)
  | S754_finite true m e => Some (-1, - e, Zneg m)
  | S754_zero _ => Some (0, 0, 0)
  | S754_finite false m e => Some (1, e, Zpos m)
  | S754_infinity false => Some (2, 0, 0)
  end.

Definition rank (x : float) : option triple := rank_sf (Prim2SF x).

Definition lex_compare (a b : triple) : comparison :=
  let '(a1, a2, a3) := a in
  let '(b1, b2, b3) := b in
  match a1 ?= b1 with
  | Eq => match a2 ?= b2 with
          | Eq => a3 ?= b3
          | c => c
          end
  | c => c
  end.

Definition rank_compare (a b : option triple) : option comparison :=
  match a, b with
  | Some a, Some b => Some (lex_compare a b)
  | _, _ => None
  end.

Definition rank_ltb (a b : option triple) : bool :=
  match rank_compare a b with Some Lt => true | _ => false end.

Definition rank_leb (a b : option triple) : bool :=
  match rank_compare a b with Some (Lt | Eq) => true | _ => false end.

Definition rank_eqb (a b : option triple) : bool :=
  match rank_compare a b with Some Eq => true | _ => false end.

End FloatRank.

(** The sign classes of binary64 values that are numbers and not
    negative: the zeros, the positive finite values and [+infinity]. *)
Definition nonneg_sf (x : spec_float) : bool :=
  match x with
  | S754_zero _ | S754_finite false _ _ | S754_infinity false => true
  | _ => false
  end.

Definition nonneg (x : float) : bool := nonneg_sf (Prim2SF x).

(** Neither NaN nor an infinity. *)
Definition finite (x : float) : bool :=
  match Prim2SF x with
  | S754_nan | S754_infinity _ => false
  | _ => true
  end.

(** The sign class of the binary64 values that are greater than zero. *)
Definition positive_sf (x : spec_float) : bool :=
  match x with
  | S754_finite false _ _ | S754_infinity false => true
  | _ => false
  end.

(** What a rounding keeps of a mantissa [m] and an exponent [e]: the
    result is positive and its magnitude does not fall below that of
    [m * 2^e]. *)
Definition rounds_above (m e : Z) (x : spec_float) : Prop :=
  match x with
  | S754_finite false m' e' => Zdigits2 m + e <= Zdigits2 (Zpos m') + e'
  | S754_infinity false => True
  | _ => False
  end.

(** A record with a positive quantity and a positive, finite unit price. *)
Definition positive_record (t : transaction) : bool :=
  (0 <? Quantity t) && (0 <? UnitPrice t)%float && (UnitPrice t <? infinity)%float.

(** ** Sorted lists *)

Section SortedPairs.

Context {A K : Type}.
Variable lt : K -> K -> bool.
Variable key : A -> K.

(** In the order of a sorted result, no element is followed by one that
    should stand before it. *)
Definition desc_pair (a b : A) : Prop := lt (key a) (key b) = false.

Definition asc_pair (a b : A) : Prop := lt (key b) (key a) = false.

End SortedPairs.

(** ** Groups *)

Definition mem (k : string) (l : list string) : bool := existsb (String.eqb k) l.

(** The elements of [l] not in [seen], each once, in the order of their
    first occurrence. *)
Fixpoint new_keys (seen l : list string) : list string :=
  match l with
  | [] => []
  | k :: l' => if mem k seen then new_keys seen l' else k :: new_keys (k :: seen) l'
  end.

(** The distinct elements of [l] in the order of their first occurrence. *)
Definition first_seen (l : list string) : list string := new_keys [] l.

(** The records whose key is [k], in the order of the input. *)
Definition select (keyf : transaction -> string) (k : string)
  (ts : list transaction) : list transaction :=
  filter (fun t => (keyf t =? k)%string) ts.

(** The amounts of the records added one after the other to [acc]. *)
Fixpoint accumulate (sel : list transaction) (acc : float) : outcome float :=
  match sel with
  | [] => Returns acc
  | t :: rest => a <- amount t ;; accumulate rest (acc + a)%float
  end.

(** The distinct values of [f] on the records, as a set. *)
Fixpoint collect (f : transaction -> string) (sel : list transaction)
  (s : list string) : list string :=
  match sel with
  | [] => s
  | t :: rest => collect f rest (set_add (f t) s)
  end.

Section GroupLoopShape.

Context {V : Type}.
Variable keyf : transaction -> string.
Variable init : V.
Variable step : transaction -> float -> V -> V.

(** The common shape of the aggregation loops. *)
Fixpoint group_loop (ts : list transaction) (d : list (string * V))
  : outcome (list (string * V)) :=
  match ts with
  | [] => Returns d
  | t :: rest =>
    a <- amount t ;;
    group_loop rest (Dict.update (keyf t) init (step t a) d)
  end.

(** The entry of one key: its records folded in order. *)
Fixpoint fold_group (sel : list transaction) (v : V) : outcome V :=
  match sel with
  | [] => Returns v
  | t :: rest => a <- amount t ;; fold_group rest (step t a v)
  end.

End GroupLoopShape.

(** The initial entry and the step of each of the three loops. *)
Definition region_init : RegionStats.acc :=
  {| RegionStats.acc_total_sales := 0; RegionStats.acc_transaction_count := 0 |}.

Definition region_add (t : transaction) (a : float) (s : RegionStats.acc)
  : RegionStats.acc :=
  {| RegionStats.acc_total_sales := (RegionStats.acc_total_sales s + a)%float;
     RegionStats.acc_transaction_count := RegionStats.acc_transaction_count s + 1 |}.

Definition customer_init : CustomerStats.acc :=
  {| CustomerStats.acc_total_spent := 0; CustomerStats.acc_purchase_count := 0;
     CustomerStats.products_set := [] |}.

Definition customer_add (t : transaction) (a : float) (s : CustomerStats.acc)
  : CustomerStats.acc :=
  {| CustomerStats.acc_total_spent := (CustomerStats.acc_total_spent s + a)%float;
     CustomerStats.acc_purchase_count := CustomerStats.acc_purchase_count s + 1;
     CustomerStats.products_set :=
       set_add (ProductName t) (CustomerStats.products_set s) |}.

Definition daily_init : DailyStats.acc :=
  {| DailyStats.acc_revenue := 0; DailyStats.acc_transaction_count := 0;
     DailyStats.customers_set := [] |}.

Definition daily_add (t : transaction) (a : float) (s : DailyStats.acc)
  : DailyStats.acc :=
  {| DailyStats.acc_revenue := (DailyStats.acc_revenue s + a)%float;
     DailyStats.acc_transaction_count := DailyStats.acc_transaction_count s + 1;
     DailyStats.customers_set :=
       set_add (CustomerID t) (DailyStats.customers_set s) |}.

Definition product_init : ProductStats.acc :=
  {| ProductStats.quantity := 0; ProductStats.revenue := 0 |}.

Definition product_add (t : transaction) (a : float) (s : ProductStats.acc)
  : ProductStats.acc :=
  {| ProductStats.quantity := ProductStats.quantity s + Quantity t;
     ProductStats.revenue := (ProductStats.revenue s + a)%float |}.

(** The entry [region_final] builds when the total is not zero. *)
Definition region_entry (total_revenue : float) (item : string * RegionStats.acc)
  : string * RegionStats.t :=
  (fst item,
   {| RegionStats.total_sales :=
        PyFloat.round (RegionStats.acc_total_sales (snd item)) 2;
      RegionStats.transaction_count := RegionStats.acc_transaction_count (snd item);
      RegionStats.percentage :=
        PyFloat.round (RegionStats.acc_total_sales (snd item) / total_revenue * 100)%float 2 |}).

(** The percentage of a region before it is rounded. *)
Definition unrounded_percentage (total : float) (ts : list transaction)
  (r : string) : float :=
  match accumulate (select Region r ts) 0 with
  | Returns tot => (tot / total * 100)%float
  | Raises _ => nan
  end.

(** ** Roundings and exact sums *)

(** The decimal [round(x, ndigits)] stands for, before it is read back as
    a float. *)
Definition rounded_value (x : float) (ndigits : Z) : Q :=
  match Prim2SF x with
  | S754_finite s _ _ => PyFloat.decimal_Q s (PyFloat.round_digits x ndigits) ndigits
  | _ => PyFloat.to_Q x
  end.

Fixpoint Qsum (l : list Q) : Q :=
  match l with
  | [] => 0%Q
  | q :: l' => (q + Qsum l')%Q
  end.

(** The sum of the percentages of a result, as an exact number. *)
Definition percentage_sum (res : list (string * RegionStats.t)) : Q :=
  Qsum (map (fun e => PyFloat.to_Q (RegionStats.percentage (snd e))) res).

(** The statement for one input: the percentages sum to 100 within 0.1. *)
Definition percentage_sum_within_tolerance (py_sum : list float -> float)
  (ts : list transaction) : Prop :=
  forall total res,
    calculate_total_revenue py_sum ts = Returns total ->
    (total =? 0)%float = false ->
    region_wise_sales py_sum ts = Returns res ->
    (Qabs (percentage_sum res - 100) <= (1 # 10))%Q.

(** ** Exact values of floats *)

(** The power [2^e] as a rational, for any integer [e]. *)
Definition p2 (e : Z) : Q := (2 ^ e)%Q.

(** The magnitude of a finite binary64 value; 0 for the others. *)
Definition sf_mag (x : spec_float) : Q :=
  match x with
  | S754_finite _ m e => (inject_Z (Zpos m) * p2 e)%Q
  | _ => 0%Q
  end.

(** The value of a finite binary64 value, with its sign; 0 for the
    others. *)
Definition sf_val (x : spec_float) : Q :=
  match x with
  | S754_finite true m e => (- (inject_Z (Zpos m) * p2 e))%Q
  | S754_finite false m e => (inject_Z (Zpos m) * p2 e)%Q
  | _ => 0%Q
  end.

(** A positive finite float. *)
Definition pos_finite (x : float) : bool :=
  match Prim2SF x with
  | S754_finite false _ _ => true
  | _ => false
  end.

(** The bound on the relative error of one rounding that the statements
    use, [2^-49], and the bound on the absolute error of a rounding in the
    subnormal range, [2^-1073]. *)
Definition rel_err : Q := 1 # 562949953421312.

Definition abs_err : Q := p2 (-1073).

(** The amount of a record as an exact number (0 where it raises), and the
    exact sum of the amounts of a list of records. *)
Definition exact_amount (t : transaction) : Q :=
  match amount t with
  | Returns a => PyFloat.to_Q a
  | Raises _ => 0%Q
  end.

Definition exact_total (ts : list transaction) : Q := Qsum (map exact_amount ts).

(** A record whose amount is a positive float, finite or not. *)
Definition positive_amount (t : transaction) : Prop :=
  exists a, amount t = Returns a /\ (0 <? a)%float = true.

(** The float [round] reads back from the decimal [n / 100] is within
    [2^-40] of it. *)
Definition decimal_read_back_close (n : Z) : bool :=
  Qle_bool (Qabs (PyFloat.to_Q (PyFloat.of_decimal false n (-2)) - (n # 100)))
           (1 # 1099511627776).

(** The decimals [0.00] to [100.10]. *)
Definition percent_decimals : list Z := map Z.of_nat (seq 0 (Z.to_nat 10011)).

(** ** The file as it is read *)

(** A line of whitespace only. *)
Definition blank (line : string) : bool := negb (PyStr.truthy (PyStr.strip line)).

(** The reading with [f] applied to its lines, where it has lines. *)
Definition with_lines (f : list string -> list string) (o : file_outcome)
  : file_outcome :=
  match o with
  | Got lines => Got (f lines)
  | Failed e => Failed e
  end.

(** [lines] with [line] put in before position [i]. *)
Definition insert_at (i : nat) (line : string) (lines : list string) : list string :=
  firstn i lines ++ line :: skipn i lines.

(** The lines that follow the first line that is not blank. *)
Fixpoint after_header (lines : list string) : list string :=
  match lines with
  | [] => []
  | line :: rest => if blank line then after_header rest else rest
  end.

(** The encodings are tried in order: [lines] is what the first one that
    decodes the file gives. *)
Definition decoded_as (open_file : encoding -> file_outcome) (lines : list string)
  : Prop :=
  open_file utf_8 = Got lines
  \/ (open_file utf_8 = Failed UnicodeDecodeError /\ open_file latin_1 = Got lines)
  \/ (open_file utf_8 = Failed UnicodeDecodeError
      /\ open_file latin_1 = Failed UnicodeDecodeError
      /\ open_file cp1252 = Got lines).

(** [f] applied to the first and [g] to the last element of a list. *)
Definition map_first {A : Type} (f : A -> A) (l : list A) : list A :=
  match l with
  | [] => []
  | a :: l' => f a :: l'
  end.

Fixpoint map_last {A : Type} (g : A -> A) (l : list A) : list A :=
  match l with
  | [] => []
  | [a] => [g a]
  | a :: l' => a :: map_last g l'
  end.

(** ** The fields of a parsed record *)

(** A string field as the parser leaves it: no whitespace at its ends and
    no separator in it. *)
Definition clean_field (f : string) : bool := trimmed f && negb (has_char "|" f).

Definition clean_record (t : transaction) : bool :=
  forallb clean_field (required_fields t) && no_comma (ProductName t).

(** ** The filter as one test *)

Definition region_ok (region : option string) (t : transaction) : bool :=
  match region with
  | Some r => if PyStr.truthy r then (Region t =? r)%string else true
  | None => true
  end.

Definition amount_ok (min_amount max_amount : option float) (t : transaction)
  : bool :=
  if amount_applies min_amount max_amount then
    match amount t with
    | Returns a => amount_passes min_amount max_amount a
    | Raises _ => false
    end
  else true.

(** The record is in the result of [validate_and_filter]. *)
Definition kept (region : option string) (min_amount max_amount : option float)
  (t : transaction) : bool :=
  is_valid t && region_ok region t && amount_ok min_amount max_amount t.

(** The summary of a call that removes nothing from [out]. *)
Definition unchanged_summary (out : list transaction) : filter_summary :=
  {| total_input := len out; invalid := 0; filtered_by_region := 0;
     filtered_by_amount := 0; final_count := len out |}.

(** ** Totals of a group *)

Fixpoint Zsum (l : list Z) : Z :=
  match l with
  | [] => 0
  | z :: l' => z + Zsum l'
  end.

(** The quantity sold in the records. *)
Definition total_quantity (sel : list transaction) : Z := Zsum (map Quantity sel).

(** The values of [f] on the records, each once. *)
Definition distinct (f : transaction -> string) (sel : list transaction)
  : list string := first_seen (map f sel).

(** The name and the quantity of a tuple of [top_selling_products]. *)
Definition tuple_name (x : string * Z * float) : string := fst (fst x).

Definition tuple_quantity (x : string * Z * float) : Z := snd (fst x).

(** All the tuples, sorted: what [top_selling_products] slices. *)
Definition product_ranking (product_stats : list (string * ProductStats.acc))
  : list (string * Z * float) :=
  py_sorted Z.ltb tuple_quantity true (map product_tuple product_stats).

(** ** The product mapping *)

Definition has_id (k : product_key) (p : api_product) : bool :=
  match p_id p with
  | Some k' => product_key_eqb k k'
  | None => false
  end.

(** The values of the last product of the list whose id is [k]. *)
Fixpoint last_info (k : product_key) (api_products : list api_product)
  : option product_info :=
  match api_products with
  | [] => None
  | p :: rest =>
    match last_info k rest with
    | Some v => Some v
    | None => if has_id k p then Some (p_info p) else None
    end
  end.

(** The ids of the products that have one, each once, in the order of
    their first occurrence. *)
Fixpoint new_ids (seen : list product_key) (api_products : list api_product)
  : list product_key :=
  match api_products with
  | [] => []
  | p :: rest =>
    match p_id p with
    | Some k =>
      if existsb (product_key_eqb k) seen then new_ids seen rest
      else k :: new_ids (k :: seen) rest
    | None => new_ids seen rest
    end
  end.

(** The key the enrichment loop looks up for a record. *)
Definition lookup_key (to_int : string -> option Z) (t : transaction) : product_key :=
  match to_int (PyStr.replace "P" "" (ProductID t)) with
  | Some pid_int => IntKey pid_int
  | None => StrKey (ProductID t)
  end.

(** ** Inputs *)

Definition sale (t_id date p_id p_name : string) (qty : Z) (price : float)
  (c_id region : string) : transaction :=
  {| TransactionID := t_id; Date := date; ProductID := p_id;
     ProductName := p_name; Quantity := qty; UnitPrice := price;
     CustomerID := c_id; Region := region |}.

(** Six lines: three valid records, one with a quantity of 0, one whose
    quantity is no number, one with too few fields. *)
Definition example_lines : list string :=
  ["T001|2024-12-01|P101|Mouse,Wireless|10|25.00|C001|North";
   "T002|2024-12-01|P102|Keyboard|5|50.00|C002|North";
   "T003|2024-12-02|P103|Monitor|2|100.00|C001|South";
   "T004|2024-12-02|P104|Cable|0|5.00|C003|South";
   "T005|2024-12-03|P105|Webcam|three|40.00|C003|East";
   "T006|2024-12-03|P106"].

Definition example_records : list transaction :=
  [sale "T001" "2024-12-01" "P101" "Mouse Wireless" 10 25 "C001" "North";
   sale "T002" "2024-12-01" "P102" "Keyboard" 5 50 "C002" "North";
   sale "T003" "2024-12-02" "P103" "Monitor" 2 100 "C001" "South";
   sale "T004" "2024-12-02" "P104" "Cable" 0 5 "C003" "South"].

Definition example_valid : list transaction := firstn 3 example_records.

Definition example_summary : filter_summary :=
  {| total_input := 4; invalid := 1; filtered_by_region := 1;
     filtered_by_amount := 0; final_count := 2 |}.

Definition example_region_result : list (string * RegionStats.t) :=
  [("North", {| RegionStats.total_sales := 500;
                RegionStats.transaction_count := 2;
                RegionStats.percentage := 71.43 |});
   ("South", {| RegionStats.total_sales := 200;
                RegionStats.transaction_count := 1;
                RegionStats.percentage := 28.57 |})].

(** A product id with a second [P], and a mapping with the key 12. *)
Definition product_P1P2 : transaction :=
  sale "T001" "2024-12-01" "P1P2" "Mouse" 1 25 "C001" "North".

Definition mapping_12 : product_mapping :=
  [(IntKey 12, {| title := "Mascara"; category := "beauty";
                  brand := "Essence"; rating := 4.5 |})].

Definition product_P101 : transaction :=
  sale "T001" "2024-12-01" "P101" "Mouse Wireless" 10 25 "C001" "North".

Definition region_name (i : nat) : string :=
  String "R" (String (ascii_of_nat (48 + i / 10))
                     (String (ascii_of_nat (48 + i mod 10)) "")).

Definition one_sale (i : nat) : transaction :=
  sale "T001" "2024-12-01" "P101" "Mouse Wireless" 1 1 "C001" (region_name i).

(** Sixty regions with one sale of 1.00 each. *)
Definition sixty_regions : list transaction := map one_sale (seq 0 60).

(** A line whose unit price reads [nan], and its record. *)
Definition nan_price_line : string := "T900|2024-12-05|P900|Cable|1|nan|C900|North".

Definition nan_price_record : transaction :=
  sale "T900" "2024-12-05" "P900" "Cable" 1 nan "C900" "North".

(** Three lines of three regions; the unit price of the second reads [nan]. *)
Definition nan_region_lines : list string :=
  ["T901|2024-12-05|P901|Cable|1|1.0|C901|East";
   "T902|2024-12-05|P902|Cable|1|nan|C902|North";
   "T903|2024-12-05|P903|Cable|1|3.0|C903|South"].

Definition nan_region_records : list transaction :=
  [sale "T901" "2024-12-05" "P901" "Cable" 1 1 "C901" "East";
   sale "T902" "2024-12-05" "P902" "Cable" 1 nan "C902" "North";
   sale "T903" "2024-12-05" "P903" "Cable" 1 3 "C903" "South"].

Definition nan_region_result : list (string * RegionStats.t) :=
  [("East", {| RegionStats.total_sales := 1; RegionStats.transaction_count := 1;
               RegionStats.percentage := nan |});
   ("North", {| RegionStats.total_sales := nan; RegionStats.transaction_count := 1;
                RegionStats.percentage := nan |});
   ("South", {| RegionStats.total_sales := 3; RegionStats.transaction_count := 1;
                RegionStats.percentage := nan |})].

(** Two lines of two days; the unit price of the first reads [nan]. *)
Definition nan_day_lines : list string :=
  ["T911|2024-12-01|P911|Cable|1|nan|C911|North";
   "T912|2024-12-02|P912|Mouse|1|8.0|C912|South"].

Definition nan_day_records : list transaction :=
  [sale "T911" "2024-12-01" "P911" "Cable" 1 nan "C911" "North";
   sale "T912" "2024-12-02" "P912" "Mouse" 1 8 "C912" "South"].

Definition nan_day_trend : list (string * DailyStats.t) :=
  [("2024-12-01", {| DailyStats.revenue := nan; DailyStats.transaction_count := 1;
                     DailyStats.unique_customers := 1 |});
   ("2024-12-02", {| DailyStats.revenue := 8; DailyStats.transaction_count := 1;
                     DailyStats.unique_customers := 1 |})].

(** A file that is not UTF-8 and reads as Latin-1: a header, a blank line
    and the first three of the example lines, with whitespace around them. *)
Definition example_file_lines : list string :=
  ["TransactionID|Date|ProductID|ProductName|Quantity|UnitPrice|CustomerID|Region ";
   "   ";
   "T001|2024-12-01|P101|Mouse,Wireless|10|25.00|C001|North ";
   " T002|2024-12-01|P102|Keyboard|5|50.00|C002|North";
   "T003|2024-12-02|P103|Monitor|2|100.00|C001|South"].

Definition example_file (encoding : encoding) : file_outcome :=
  match encoding with
  | utf_8 => Failed UnicodeDecodeError
  | _ => Got example_file_lines
  end.

Definition example_top : list (string * Z * float) :=
  [("Mouse Wireless", 10, 250%float); ("Keyboard", 5, 250%float)].

Definition example_customer_result : list (string * CustomerStats.t) :=
  [("C001", {| CustomerStats.total_spent := 450;
               CustomerStats.purchase_count := 2;
               CustomerStats.avg_order_value := 225;
               CustomerStats.products_bought := ["Mouse Wireless"; "Monitor"] |});
   ("C002", {| CustomerStats.total_spent := 250;
               CustomerStats.purchase_count := 1;
               CustomerStats.avg_order_value := 250;
               CustomerStats.products_bought := ["Keyboard"] |})].

Definition example_trend_result : list (string * DailyStats.t) :=
  [("2024-12-01", {| DailyStats.revenue := 500;
                     DailyStats.transaction_count := 2;
                     DailyStats.unique_customers := 2 |});
   ("2024-12-02", {| DailyStats.revenue := 200;
                     DailyStats.transaction_count := 1;
                     DailyStats.unique_customers := 1 |})].

(** Three products of the API: two with the id 101, one without an id. *)
Definition example_products : list api_product :=
  [{| p_id := Some (IntKey 101);
      p_info := {| title := "Mouse"; category := "accessories";
                   brand := "Essence"; rating := 4.5 |} |};
   {| p_id := None;
      p_info := {| title := "Lamp"; category := "furniture";
                   brand := "Annibale"; rating := 3.5 |} |};
   {| p_id := Some (IntKey 101);
      p_info := {| title := "Wireless Mouse"; category := "accessories";
                   brand := "Essence"; rating := 4.75 |} |}].

(** * Properties *)

(** ** The error monad *)

Lemma bind_returns {A B : Type} (m : outcome A) (k : A -> outcome B) (b : B) :
  bind m k = Returns b -> exists a, m = Returns a /\ k a = Returns b.
Proof.
  destruct m as [a|e]; simpl; intros H; [exists a; auto | discriminate].
Qed.

Ltac inv_bind H :=
  let a := fresh "a" in
  let Ha := fresh "Ha" in
  apply bind_returns in H; destruct H as [a [Ha H]].

Tactic Notation "bind_inv" hyp(H) "as" ident(a) ident(Ha) :=
  apply bind_returns in H; destruct H as [a [Ha H]].

Lemma mapM_length {A B : Type} (f : A -> outcome B) (l : list A) (bs : list B) :
  mapM f l = Returns bs -> List.length bs = List.length l.
Proof.
  revert bs; induction l as [|a l IH]; simpl; intros bs H.
  - inversion H; reflexivity.
  - inv_bind H. inv_bind H. inversion H; subst. simpl. f_equal. eauto.
Qed.

Lemma mapM_returns_iff {A B : Type} (f : A -> outcome B) (l : list A) :
  (exists bs, mapM f l = Returns bs) <-> Forall (fun a => exists b, f a = Returns b) l.
Proof.
  induction l as [|a l IH]; simpl.
  - split; [constructor | exists []; reflexivity].
  - split.
    + intros [bs H]. inv_bind H. inv_bind H. constructor; [eauto|].
      apply IH; eauto.
    + intros H. inversion H as [|? ? [b Hb] Hl]; subst.
      apply IH in Hl. destruct Hl as [bs Hbs].
      exists (b :: bs). rewrite Hb, Hbs. reflexivity.
Qed.

Lemma mapM_filter {A B : Type} (f : A -> outcome B) (p : A -> bool) (l : list A) :
  (exists bs, mapM f l = Returns bs) ->
  exists bs, mapM f (filter p l) = Returns bs.
Proof.
  rewrite !mapM_returns_iff, !Forall_forall.
  intros H a Ha. apply filter_In in Ha. apply H, Ha.
Qed.

(** ** Validation and filtering *)

Lemma len_nonneg {A : Type} (l : list A) : 0 <= len l.
Proof. unfold len; lia. Qed.

Lemma len_cons {A : Type} (a : A) (l : list A) : len (a :: l) = len l + 1.
Proof. unfold len; simpl List.length; lia. Qed.

Lemma len_filter_split {A : Type} (p : A -> bool) (l : list A) :
  len l = len (filter p l) + len (filter (fun a => negb (p a)) l).
Proof.
  induction l as [|a l IH]; cbn [filter]; [reflexivity|].
  destruct (p a); cbn [negb]; rewrite !len_cons; lia.
Qed.

Lemma validate_filter (transactions : list transaction) :
  validate transactions =
  (filter is_valid transactions,
   len (filter (fun t => negb (is_valid t)) transactions)).
Proof.
  induction transactions as [|t ts IH]; simpl; [reflexivity|].
  rewrite IH. destruct (is_valid t); simpl; [reflexivity|].
  rewrite len_cons. reflexivity.
Qed.

Lemma amount_loop_filter (lo hi : option float) (current next : list transaction) :
  amount_loop lo hi current = Returns next ->
  exists amounts, mapM amount current = Returns amounts /\
    next = map fst (filter (fun p => amount_passes lo hi (snd p))
                           (combine current amounts)).
Proof.
  revert next; induction current as [|t ts IH]; simpl; intros next H.
  - inversion H. exists []. auto.
  - inv_bind H. inv_bind H. inversion H; subst; clear H.
    destruct (IH _ Ha0) as [amounts [Hm Hn]].
    exists (a :: amounts). rewrite Ha, Hm. simpl. split; [reflexivity|].
    destruct (amount_passes lo hi a); simpl; congruence.
Qed.

Lemma amount_loop_returns (lo hi : option float) (current : list transaction) :
  (exists amounts, mapM amount current = Returns amounts) ->
  exists next, amount_loop lo hi current = Returns next.
Proof.
  induction current as [|t ts IH]; simpl; intros [amounts H].
  - eauto.
  - inv_bind H. inv_bind H. destruct IH as [next Hn]; [eauto|].
    rewrite Ha, Hn. simpl. eauto.
Qed.

Lemma amount_loop_len (lo hi : option float) (current next : list transaction) :
  amount_loop lo hi current = Returns next -> len next <= len current.
Proof.
  revert next; induction current as [|t ts IH]; simpl; intros next H.
  - inversion H. lia.
  - inv_bind H. inv_bind H. inversion H; subst.
    specialize (IH _ Ha0).
    destruct (amount_passes lo hi a); rewrite ?len_cons; lia.
Qed.

Lemma region_stage_after_region (region : option string) (valid : list transaction) :
  region_stage region valid =
  (after_region region valid, len valid - len (after_region region valid)).
Proof.
  unfold region_stage, after_region.
  destruct region as [r|]; [destruct (PyStr.truthy r)|];
    rewrite ?Z.sub_diag; reflexivity.
Qed.

(** The shape of a returned result. *)
Lemma validate_and_filter_returns_inv ts region lo hi out inv s :
  validate_and_filter ts region lo hi = Returns (out, inv, s) ->
  let valid := filter is_valid ts in
  let entering := after_region region valid in
  inv = len (filter (fun t => negb (is_valid t)) ts) /\
  s = {| total_input := len ts;
         invalid := inv;
         filtered_by_region := len valid - len entering;
         filtered_by_amount := len entering - len out;
         final_count := len out |} /\
  (if amount_applies lo hi then amount_loop lo hi entering = Returns out
   else out = entering).
Proof.
  unfold validate_and_filter. rewrite validate_filter.
  intros H. inv_bind H. rewrite region_stage_after_region in H.
  inv_bind H. destruct a0 as [filtered n].
  inversion H; subst; clear H. cbv zeta.
  unfold amount_stage in Ha0.
  destruct (amount_applies lo hi).
  - inv_bind Ha0. inversion Ha0; subst. auto.
  - inversion Ha0; subst. repeat split. f_equal. lia.
Qed.

(** [validate_and_filter] returns whenever the amount of every valid
    record can be computed. *)
Lemma validate_and_filter_returns ts region lo hi :
  Forall (fun t => exists a, amount t = Returns a) (filter is_valid ts) ->
  exists out s,
    validate_and_filter ts region lo hi =
    Returns (out, len (filter (fun t => negb (is_valid t)) ts), s).
Proof.
  intros Hall. apply mapM_returns_iff in Hall.
  unfold validate_and_filter. rewrite validate_filter.
  destruct Hall as [amounts Hm]. rewrite Hm. cbn [bind].
  rewrite region_stage_after_region.
  unfold amount_stage. destruct (amount_applies lo hi).
  - destruct (amount_loop_returns lo hi (after_region region (filter is_valid ts)))
      as [next Hn].
    + unfold after_region. destruct region as [r|]; [destruct (PyStr.truthy r)|];
        eauto using mapM_filter.
    + rewrite Hn. cbn [bind]. eauto.
  - cbn [bind]. eauto.
Qed.

(** C1. Count conservation.  In the summary [validate_and_filter] returns,
    the input count is the invalid count plus the number of records that
    pass validation; that number is the final count plus the two filter
    counts; each filter count is the number of records its stage removed
    from the list that entered it (the valid records for the region stage,
    the output of the region stage for the amount stage), hence not
    negative; and the count of a stage that is not applied is 0. *)
Theorem count_conservation ts region lo hi out inv s :
  validate_and_filter ts region lo hi = Returns (out, inv, s) ->
  let valid := filter is_valid ts in
  let entering := after_region region valid in
  total_input s = len ts /\
  invalid s = len (filter (fun t => negb (is_valid t)) ts) /\
  total_input s = invalid s + len valid /\
  len valid = final_count s + filtered_by_region s + filtered_by_amount s /\
  filtered_by_region s = len valid - len entering /\
  filtered_by_amount s = len entering - len out /\
  final_count s = len out /\
  0 <= filtered_by_region s /\
  0 <= filtered_by_amount s /\
  (region_applies region = false -> filtered_by_region s = 0) /\
  (amount_applies lo hi = false -> filtered_by_amount s = 0).
Proof.
  intros H. apply validate_and_filter_returns_inv in H.
  cbv zeta in H. destruct H as [Hinv [Hs Hout]]. subst s inv. cbn.
  pose proof (len_filter_split is_valid ts) as Hsplit.
  assert (Hregion : len (after_region region (filter is_valid ts))
                    <= len (filter is_valid ts)).
  { unfold after_region. destruct region as [r|]; [|lia].
    destruct (PyStr.truthy r); [|lia].
    rewrite (len_filter_split (fun t => (Region t =? r)%string) (filter is_valid ts)).
    pose proof (len_nonneg (filter (fun a => negb (Region a =? r)%string)
                                   (filter is_valid ts))). lia. }
  assert (Hamount : len out <= len (after_region region (filter is_valid ts))).
  { destruct (amount_applies lo hi).
    - apply amount_loop_len in Hout. exact Hout.
    - subst out. lia. }
  repeat split; try lia.
  - intros Hr. unfold after_region.
    destruct region as [r|]; [|lia].
    cbn in Hr. rewrite Hr. lia.
  - intros Ha. rewrite Ha in Hout. subst out. lia.
Qed.

(** C9. An empty region string is no region: the call behaves as the call
    without a region, the region stage removes nothing and its count in
    the summary is 0. *)
Theorem empty_region_is_no_region ts lo hi :
  validate_and_filter ts (Some "") lo hi = validate_and_filter ts None lo hi /\
  region_applies (Some "") = false /\
  (forall current, region_stage (Some "") current = (current, 0)) /\
  (forall out inv s,
      validate_and_filter ts (Some "") lo hi = Returns (out, inv, s) ->
      filtered_by_region s = 0).
Proof.
  split; [reflexivity|]. split; [reflexivity|]. split; [reflexivity|].
  intros out inv s H.
  apply validate_and_filter_returns_inv in H. cbv zeta in H.
  destruct H as [_ [Hs _]]. subst s. cbn. lia.
Qed.

(** ** Strings *)

Lemma replace_no_match (old : ascii) (new s : string) :
  forallb (fun c => negb (Ascii.eqb c old)) (list_ascii_of_string s) = true ->
  PyStr.replace old new s = s.
Proof.
  induction s as [|c s IH]; simpl; [reflexivity|].
  intros H. apply andb_true_iff in H. destruct H as [Hc Hs].
  destruct (Ascii.eqb c old); [discriminate|]. rewrite IH; auto.
Qed.

Lemma replace_comma_no_comma (s : string) :
  no_comma (PyStr.replace "," " " s) = true.
Proof.
  unfold no_comma. induction s as [|c s IH]; simpl; [reflexivity|].
  destruct (Ascii.eqb c ",") eqn:E; simpl; [exact IH|].
  rewrite E. simpl. exact IH.
Qed.

Lemma lstrip_first (s : string) (c : ascii) :
  PyStr.first s = Some c -> PyStr.is_space c = false -> PyStr.lstrip s = s.
Proof.
  destruct s as [|a s]; simpl; intros H Hc; [reflexivity|].
  inversion H; subst. rewrite Hc. reflexivity.
Qed.

Lemma rstrip_last (s : string) (c : ascii) :
  PyStr.last s = Some c -> PyStr.is_space c = false -> PyStr.rstrip s = s.
Proof.
  induction s as [|a s IH]; intros H Hc; [reflexivity|].
  destruct s as [|b s].
  - simpl in *. inversion H; subst. rewrite Hc. reflexivity.
  - change (PyStr.last (String a (String b s))) with (PyStr.last (String b s)) in H.
    change (PyStr.rstrip (String a (String b s)))
      with (match PyStr.rstrip (String b s) with
            | EmptyString => if PyStr.is_space a then "" else String a ""
            | r => String a r
            end).
    rewrite (IH H Hc). reflexivity.
Qed.

Lemma strip_trimmed (s : string) : trimmed s = true -> PyStr.strip s = s.
Proof.
  unfold trimmed, PyStr.strip.
  destruct (PyStr.first s) as [a|] eqn:Ha.
  - destruct (PyStr.last s) as [b|] eqn:Hb.
    + intros H. apply andb_true_iff in H. destruct H as [H1 H2].
      apply negb_true_iff in H1, H2.
      rewrite (lstrip_first s a Ha H1). apply (rstrip_last s b Hb H2).
    + destruct s; [discriminate|]. exfalso.
      clear Ha. revert a0 Hb. induction s as [|c s IH]; intros a0 Hb.
      * discriminate.
      * apply (IH c). exact Hb.
  - destruct s; [reflexivity | discriminate].
Qed.

Lemma lstrip_first_not_space (s : string) (c : ascii) :
  PyStr.first (PyStr.lstrip s) = Some c -> PyStr.is_space c = false.
Proof.
  induction s as [|a s IH]; simpl; [discriminate|].
  destruct (PyStr.is_space a) eqn:E; [exact IH|].
  simpl. intros H. inversion H; subst. exact E.
Qed.

Lemma rstrip_last_not_space (s : string) (c : ascii) :
  PyStr.last (PyStr.rstrip s) = Some c -> PyStr.is_space c = false.
Proof.
  revert c. induction s as [|a s IH]; intros c; [discriminate|].
  cbn [PyStr.rstrip].
  destruct (PyStr.rstrip s) as [|b r] eqn:E.
  - destruct (PyStr.is_space a) eqn:Ea; [discriminate|].
    simpl. intros H. inversion H; subst. exact Ea.
  - intros H. apply IH. exact H.
Qed.

Lemma rstrip_first (s : string) (c : ascii) :
  PyStr.first s = Some c -> PyStr.is_space c = false ->
  PyStr.first (PyStr.rstrip s) = Some c.
Proof.
  destruct s as [|a s]; [discriminate|].
  cbn [PyStr.first PyStr.rstrip]. intros H Hc. inversion H; subst.
  destruct (PyStr.rstrip s); [rewrite Hc|]; reflexivity.
Qed.

Lemma last_first_none (s : string) : PyStr.first s = None -> s = "".
Proof. destruct s; [reflexivity | discriminate]. Qed.

Lemma strip_is_trimmed (s : string) : trimmed (PyStr.strip s) = true.
Proof.
  unfold trimmed, PyStr.strip.
  destruct (PyStr.first (PyStr.rstrip (PyStr.lstrip s))) as [a|] eqn:Ha; [|reflexivity].
  destruct (PyStr.last (PyStr.rstrip (PyStr.lstrip s))) as [b|] eqn:Hb; [|reflexivity].
  rewrite (rstrip_last_not_space _ _ Hb), andb_true_r.
  destruct (PyStr.first (PyStr.lstrip s)) as [c|] eqn:Hc.
  - pose proof (lstrip_first_not_space _ _ Hc) as Hs.
    rewrite (rstrip_first _ _ Hc Hs) in Ha. inversion Ha; subst.
    rewrite Hs. reflexivity.
  - apply last_first_none in Hc. rewrite Hc in Ha. discriminate.
Qed.

Lemma lstrip_no_comma (s : string) :
  no_comma s = true -> no_comma (PyStr.lstrip s) = true.
Proof.
  unfold no_comma. induction s as [|a s IH]; simpl; [auto|].
  intros H. apply andb_true_iff in H. destruct H as [H1 H2].
  destruct (PyStr.is_space a); [auto|]. simpl. rewrite H1, H2. reflexivity.
Qed.

Lemma rstrip_no_comma (s : string) :
  no_comma s = true -> no_comma (PyStr.rstrip s) = true.
Proof.
  unfold no_comma. induction s as [|a s IH]; [auto|].
  cbn [list_ascii_of_string forallb PyStr.rstrip].
  intros H. apply andb_true_iff in H. destruct H as [H1 H2].
  specialize (IH H2).
  destruct (PyStr.rstrip s) as [|b r].
  - destruct (PyStr.is_space a); [reflexivity|]. simpl. rewrite H1. reflexivity.
  - cbn [list_ascii_of_string forallb] in *. rewrite H1. exact IH.
Qed.

(** ** Parsing *)

Section ParserFacts.

Variable to_int : string -> option Z.
Variable to_float : string -> option float.

Lemma parse_line_parseable (line : string) :
  is_some (parse_line to_int to_float line) = parseable to_int to_float line.
Proof.
  unfold parse_line, parseable.
  destruct (PyStr.split "|" line) as [|f1 [|f2 [|f3 [|f4 [|f5 [|f6 [|f7 [|f8 [|f9 l]]]]]]]]];
    try reflexivity.
  destruct (to_int (PyStr.replace "," "" f5)); [|reflexivity].
  destruct (to_float (PyStr.replace "," "" f6)); reflexivity.
Qed.

Lemma parse_transactions_app (l1 l2 : list string) :
  parse_transactions to_int to_float (l1 ++ l2) =
  parse_transactions to_int to_float l1 ++ parse_transactions to_int to_float l2.
Proof.
  induction l1 as [|line l1 IH]; simpl; [reflexivity|].
  destruct (parse_line to_int to_float line); simpl; rewrite IH; reflexivity.
Qed.

Lemma parse_transactions_len (lines : list string) :
  len (parse_transactions to_int to_float lines)
  = len (filter (parseable to_int to_float) lines).
Proof.
  induction lines as [|line lines IH]; cbn [parse_transactions filter]; [reflexivity|].
  rewrite <- parse_line_parseable.
  destruct (parse_line to_int to_float line); cbn [is_some];
    rewrite ?len_cons, IH; reflexivity.
Qed.

End ParserFacts.

Section ParserProperties.

Variable to_int : string -> option Z.
Variable to_float : string -> option float.

Lemma parse_line_some (line : string) (t : transaction) :
  parse_line to_int to_float line = Some t <->
  exists t_id date p_id p_name qty_str price_str c_id region q p,
    PyStr.split "|" line = [t_id; date; p_id; p_name; qty_str; price_str; c_id; region]
    /\ to_int (PyStr.replace "," "" qty_str) = Some q
    /\ to_float (PyStr.replace "," "" price_str) = Some p
    /\ t = {| TransactionID := PyStr.strip t_id;
              Date := PyStr.strip date;
              ProductID := PyStr.strip p_id;
              ProductName := clean_name p_name;
              Quantity := q;
              UnitPrice := p;
              CustomerID := PyStr.strip c_id;
              Region := PyStr.strip region |}.
Proof.
  unfold parse_line, clean_name. split.
  - destruct (PyStr.split "|" line)
      as [|f1 [|f2 [|f3 [|f4 [|f5 [|f6 [|f7 [|f8 [|f9 l]]]]]]]]];
      try discriminate.
    destruct (to_int (PyStr.replace "," "" f5)) as [q|] eqn:Eq; [|discriminate].
    destruct (to_float (PyStr.replace "," "" f6)) as [p|] eqn:Ep; [|discriminate].
    intros H. inversion H; subst.
    exists f1, f2, f3, f4, f5, f6, f7, f8, q, p. auto.
  - intros (f1 & f2 & f3 & f4 & f5 & f6 & f7 & f8 & q & p & Hs & Hq & Hp & Ht).
    rewrite Hs, Hq, Hp. subst t. reflexivity.
Qed.

(** C6. A line gives a record exactly when it splits on [|] into 8
    fields whose quantity and unit price convert after their commas are
    removed.  A line that does not is left out as if it were not in the
    input: the output holds one record per parseable line and nothing
    else.  The validator counts over the parsed records only, so such a
    line is not among its invalid ones. *)
Theorem unparseable_lines_are_dropped_silently (lines : list string) :
  (forall line, (exists t, parse_line to_int to_float line = Some t)
                <-> parseable to_int to_float line = true) /\
  (forall l1 line l2,
      parseable to_int to_float line = false ->
      parse_transactions to_int to_float (l1 ++ line :: l2) =
      parse_transactions to_int to_float (l1 ++ l2)) /\
  (forall l1 line l2,
      parseable to_int to_float line = true ->
      exists t, parse_line to_int to_float line = Some t /\
        parse_transactions to_int to_float (l1 ++ line :: l2) =
        parse_transactions to_int to_float l1
          ++ t :: parse_transactions to_int to_float l2) /\
  len (parse_transactions to_int to_float lines)
    = len (filter (parseable to_int to_float) lines) /\
  (forall region lo hi out inv s,
      validate_and_filter (parse_transactions to_int to_float lines) region lo hi
        = Returns (out, inv, s) ->
      total_input s = len (filter (parseable to_int to_float) lines) /\
      invalid s = len (filter (fun t => negb (is_valid t))
                              (parse_transactions to_int to_float lines)) /\
      invalid s <= len (filter (parseable to_int to_float) lines)).
Proof.
  assert (Hsome : forall line,
             (exists t, parse_line to_int to_float line = Some t)
             <-> parseable to_int to_float line = true).
  { intros line. rewrite <- parse_line_parseable.
    destruct (parse_line to_int to_float line) as [t|]; cbn [is_some]; split.
    - reflexivity.
    - eauto.
    - intros [t Ht]; discriminate.
    - discriminate. }
  split; [exact Hsome|]. split; [|split; [|split]].
  - intros l1 line l2 Hp. rewrite !parse_transactions_app.
    cbn [parse_transactions].
    rewrite <- parse_line_parseable in Hp.
    destruct (parse_line to_int to_float line); [discriminate | reflexivity].
  - intros l1 line l2 Hp. apply Hsome in Hp. destruct Hp as [t Ht].
    exists t. split; [exact Ht|].
    rewrite parse_transactions_app. cbn [parse_transactions].
    rewrite Ht. reflexivity.
  - apply parse_transactions_len.
  - intros region lo hi out inv s H.
    apply validate_and_filter_returns_inv in H. cbv zeta in H.
    destruct H as [Hinv [Hs _]]. subst s inv. cbn.
    rewrite <- parse_transactions_len.
    split; [reflexivity|]. split; [reflexivity|].
    pose proof (len_filter_split is_valid
                  (parse_transactions to_int to_float lines)) as Hsplit.
    pose proof (len_nonneg (filter is_valid
                  (parse_transactions to_int to_float lines))).
    lia.
Qed.

(** C8. Parsing keeps no state between lines: the lines parsed twice
    give the same records twice.  The cleaning of the product name leaves
    a name without commas and without whitespace at its ends unchanged,
    and so leaves its own output unchanged. *)
Theorem parse_idempotent :
  (forall lines,
      parse_transactions to_int to_float (lines ++ lines) =
      parse_transactions to_int to_float lines
        ++ parse_transactions to_int to_float lines) /\
  (forall name, no_comma name = true -> trimmed name = true ->
                clean_name name = name) /\
  (forall name, clean_name (clean_name name) = clean_name name).
Proof.
  assert (Hclean : forall name, no_comma name = true -> trimmed name = true ->
                                clean_name name = name).
  { intros name Hc Ht. unfold clean_name.
    rewrite replace_no_match by exact Hc. apply strip_trimmed, Ht. }
  split; [intros; apply parse_transactions_app|]. split; [exact Hclean|].
  intros name. apply Hclean.
  - unfold clean_name, PyStr.strip.
    apply rstrip_no_comma, lstrip_no_comma, replace_comma_no_comma.
  - apply strip_is_trimmed.
Qed.

End ParserProperties.

(** ** Enrichment *)

Lemma replace_empty_without (c : ascii) (s : string) :
  PyStr.replace c "" s = without_char c s.
Proof.
  unfold without_char. induction s as [|a s IH]; simpl; [reflexivity|].
  destruct (Ascii.eqb a c); simpl; rewrite IH; reflexivity.
Qed.

Lemma without_char_absent (c : ascii) (s : string) :
  has_char c s = false -> without_char c s = s.
Proof.
  unfold without_char, has_char. induction s as [|a s IH]; simpl; [reflexivity|].
  intros H. apply orb_false_iff in H. destruct H as [Ha Hs].
  rewrite Ha. simpl. rewrite IH; auto.
Qed.

(** C3, as stated, fails: on the product id [P1P2] the code removes both
    [P]s, reads 12 and finds the product 12; stripping a single leading
    [P] leaves [1P2], which is no integer, and the lookup by the string
    [P1P2] finds nothing. *)
Lemma single_P_lookup_counterexample :
  ~ single_P_lookup_statement PyNum.py_int mapping_12 product_P1P2.
Proof.
  unfold single_P_lookup_statement. intros [H _]. vm_compute in H. discriminate.
Qed.

(** C3, amended.  The lookup removes every [P] of the product id, converts
    what is left to an integer and looks that key up; when the conversion
    fails it looks the unchanged product id up as a string.  The record is
    flagged [enriched = false] exactly when that lookup finds nothing.  On
    a product id that is a [P] followed by a string without [P], this is
    the lookup that strips a single leading [P]. *)
Theorem enrichment_lookup (to_int : string -> option Z)
  (product_map : product_mapping) (t : transaction) :
  matched_info to_int product_map t =
    match to_int (without_char "P" (ProductID t)) with
    | Some pid_int => product_get (IntKey pid_int) product_map
    | None => product_get (StrKey (ProductID t)) product_map
    end /\
  base (enrich to_int product_map t) = t /\
  info (enrich to_int product_map t) = matched_info to_int product_map t /\
  (enriched (enrich to_int product_map t) = false
   <-> matched_info to_int product_map t = None) /\
  (forall rest, ProductID t = String "P" rest -> has_char "P" rest = false ->
                matched_info to_int product_map t
                = matched_info_single_P to_int product_map t).
Proof.
  split; [|split; [|split; [|split]]].
  - unfold matched_info. rewrite replace_empty_without. reflexivity.
  - unfold enrich. destruct (matched_info to_int product_map t); reflexivity.
  - unfold enrich. destruct (matched_info to_int product_map t); reflexivity.
  - unfold enrich. destruct (matched_info to_int product_map t); cbn;
      split; congruence.
  - intros rest Hp Hrest. unfold matched_info, matched_info_single_P.
    rewrite replace_empty_without, Hp.
    unfold without_char. cbn.
    change (string_of_list_ascii
              (filter (fun a => negb (Ascii.eqb a "P")) (list_ascii_of_string rest)))
      with (without_char "P" rest).
    rewrite without_char_absent by exact Hrest. reflexivity.
Qed.

Lemma enrichment_lookup_witness :
  matched_info PyNum.py_int mapping_12 product_P101
  = matched_info_single_P PyNum.py_int mapping_12 product_P101
  /\ enriched (enrich PyNum.py_int mapping_12 product_P101) = false.
Proof.
  destruct (enrichment_lookup PyNum.py_int mapping_12 product_P101)
    as (_ & _ & _ & Hflag & Hsame).
  split.
  - apply (Hsame "101"); reflexivity.
  - apply Hflag. vm_compute. reflexivity.
Defined.

(** ** The order of floats *)

Module FloatOrder.

Import FloatRank.

Lemma SFcompare_rank (x y : spec_float) :
  SFcompare x y = rank_compare (rank_sf x) (rank_sf y).
Proof.
  destruct x as [sx|sx| |sx mx ex], y as [sy|sy| |sy my ey];
    try destruct sx; try destruct sy; try reflexivity.
  cbn. rewrite Z.compare_opp, (Z.compare_antisym ex ey).
  destruct (ex ?= ey); reflexivity.
Qed.

Lemma ltb_rank (x y : float) : (x <? y)%float = rank_ltb (rank x) (rank y).
Proof. rewrite ltb_spec. unfold SFltb, rank_ltb, rank. now rewrite SFcompare_rank. Qed.

Lemma leb_rank (x y : float) : (x <=? y)%float = rank_leb (rank x) (rank y).
Proof. rewrite leb_spec. unfold SFleb, rank_leb, rank. now rewrite SFcompare_rank. Qed.

Lemma eqb_rank (x y : float) : (x =? y)%float = rank_eqb (rank x) (rank y).
Proof. rewrite eqb_spec. unfold SFeqb, rank_eqb, rank. now rewrite SFcompare_rank. Qed.

Lemma is_nan_rank (x : float) :
  is_nan x = match rank x with None => true | Some _ => false end.
Proof.
  unfold is_nan. rewrite eqb_rank. unfold rank_eqb, rank_compare.
  destruct (rank x) as [[[a1 a2] a3]|]; [|reflexivity].
  cbn. rewrite !Z.compare_refl. reflexivity.
Qed.

(** Turns the float comparisons of the goal and the hypotheses into
    integer comparisons of ranks and decides them. *)
Ltac to_ranks :=
  rewrite ?ltb_rank, ?leb_rank, ?eqb_rank, ?is_nan_rank in *;
  repeat match goal with
         | x : float |- _ =>
           let r := fresh "r" in
           generalize dependent (rank x); intros r;
           clear x
         end.

Ltac split_rank :=
  repeat match goal with
         | r : option triple |- _ => destruct r as [[[? ?] ?]|]
         end;
  unfold rank_ltb, rank_leb, rank_eqb, rank_compare, lex_compare in *.

Ltac by_compare :=
  repeat match goal with
         | H : context [?a ?= ?b] |- _ =>
           destruct (Z.compare_spec a b); subst
         | |- context [?a ?= ?b] =>
           destruct (Z.compare_spec a b); subst
         end;
  try discriminate; try reflexivity; try lia.

Ltac order := intros; to_ranks; intros; split_rank; by_compare.

Lemma ltb_leb (x y : float) : (x <? y)%float = true -> (x <=? y)%float = true.
Proof. revert x y. order. Qed.

Lemma ltb_asym (x y : float) : (x <? y)%float = true -> (y <? x)%float = false.
Proof. revert x y. order. Qed.

Lemma ltb_not_leb (x y : float) : (x <? y)%float = true -> (y <=? x)%float = false.
Proof. revert x y. order. Qed.

Lemma leb_false_ltb_false (x y : float) :
  (x <=? y)%float = false -> (x <? y)%float = false.
Proof. revert x y. order. Qed.

Lemma not_ltb_then_ltb (b e x : float) :
  (b <? e)%float = false -> (b <? x)%float = true -> (x <=? e)%float = false.
Proof. revert b e x. order. Qed.

Lemma eqb_leb (x y : float) : (x =? y)%float = true -> (x <=? y)%float = true.
Proof. revert x y. order. Qed.

Lemma eqb_sym (x y : float) : (x =? y)%float = (y =? x)%float.
Proof. revert x y. order. Qed.

Lemma not_ltb_leb (x y : float) :
  is_nan x = false -> is_nan y = false ->
  (x <? y)%float = false -> (y <=? x)%float = true.
Proof. revert x y. order. Qed.

Lemma tie_not_ltb (x y v : float) :
  (x =? v)%float = true -> (y =? v)%float = true -> (x <? y)%float = false.
Proof. revert x y v. order. Qed.

Lemma leb_trans (x y z : float) :
  (x <=? y)%float = true -> (y <=? z)%float = true -> (x <=? z)%float = true.
Proof. revert x y z. order. Qed.

Lemma leb_antisym_eqb (x y : float) :
  (x <=? y)%float = true -> (y <=? x)%float = true -> (x =? y)%float = true.
Proof. revert x y. order. Qed.

Lemma eqb_not_nan (x y : float) : (x =? y)%float = true -> is_nan x = false.
Proof. revert x y. order. Qed.

End FloatOrder.

(** ** Floats that are not negative

    Sums, products and roundings of non-negative numbers are non-negative
    numbers, never NaN. *)

Section SignClass.

Variables prec emax : Z.

Lemma shr_1_nonneg mrs : 0 <= shr_m mrs -> 0 <= shr_m (shr_1 mrs).
Proof.
  destruct mrs as [m r s]. cbn. destruct m as [|[p|p|]|p]; cbn; lia.
Qed.

Lemma iter_pos_shr_1_nonneg (p : positive) mrs :
  0 <= shr_m mrs -> 0 <= shr_m (iter_pos shr_1 p mrs).
Proof.
  revert mrs. induction p as [p IH|p IH|]; intros mrs H; cbn.
  - apply IH, IH, shr_1_nonneg, H.
  - apply IH, IH, H.
  - apply shr_1_nonneg, H.
Qed.

Lemma shr_fexp_nonneg m e l :
  0 <= m -> 0 <= shr_m (fst (shr_fexp prec emax m e l)).
Proof.
  intros H. unfold shr_fexp, shr.
  assert (H0 : 0 <= shr_m (shr_record_of_loc m l)).
  { destruct l as [|[| |]]; exact H. }
  destruct (fexp prec emax (Zdigits2 m + e) - e); cbn [fst]; auto.
  apply iter_pos_shr_1_nonneg, H0.
Qed.

Lemma round_nearest_even_nonneg m l : 0 <= m -> 0 <= round_nearest_even m l.
Proof.
  intros H. unfold round_nearest_even.
  destruct l as [|[| |]]; try destruct (Z.even m); lia.
Qed.

Lemma binary_round_aux_nonneg mx ex lx :
  0 <= mx -> nonneg_sf (binary_round_aux prec emax false mx ex lx) = true.
Proof.
  intros H. unfold binary_round_aux.
  pose proof (shr_fexp_nonneg mx ex lx H) as H1.
  destruct (shr_fexp prec emax mx ex lx) as [mrs' e']. cbn [fst] in H1.
  pose proof (shr_fexp_nonneg _ e' loc_Exact
                (round_nearest_even_nonneg _ (loc_of_shr_record mrs') H1)) as H2.
  destruct (shr_fexp prec emax (round_nearest_even (shr_m mrs') (loc_of_shr_record mrs')) e' loc_Exact)
    as [mrs'' e'']. cbn [fst] in H2.
  destruct (shr_m mrs'') as [|m|m]; [reflexivity| |lia].
  destruct (e'' <=? emax - prec); reflexivity.
Qed.

Lemma binary_round_nonneg mx ex :
  nonneg_sf (binary_round prec emax false mx ex) = true.
Proof.
  unfold binary_round.
  destruct (shl_align mx ex (fexp prec emax (Z.pos (digits2_pos mx) + ex))) as [mz ez].
  apply binary_round_aux_nonneg. lia.
Qed.

Lemma binary_normalize_nonneg m e :
  0 <= m -> nonneg_sf (binary_normalize prec emax m e false) = true.
Proof.
  intros H. unfold binary_normalize. destruct m; [reflexivity| |lia].
  apply binary_round_nonneg.
Qed.

Lemma SFadd_nonneg x y :
  nonneg_sf x = true -> nonneg_sf y = true -> nonneg_sf (SFadd prec emax x y) = true.
Proof.
  destruct x as [sx|[|]| |[|] mx ex], y as [sy|[|]| |[|] my ey]; cbn; try discriminate; intros _ _;
    try reflexivity.
  - destruct sx, sy; reflexivity.
  - apply binary_round_nonneg.
Qed.

Lemma SFmul_nonneg x y :
  nonneg_sf x = true -> nonneg_sf y = true ->
  (forall s, y <> S754_infinity s) ->
  (forall s, y <> S754_zero s) ->
  nonneg_sf (SFmul prec emax x y) = true.
Proof.
  destruct x as [sx|[|]| |[|] mx ex], y as [sy|[|]| |[|] my ey]; cbn; try discriminate; intros _ _ Hi Hz;
    try reflexivity; try (exfalso; eapply Hi; reflexivity); try (exfalso; eapply Hz; reflexivity).
  apply binary_round_aux_nonneg. lia.
Qed.

Lemma SFdiv_nonneg mx ex my ey :
  nonneg_sf (SFdiv prec emax (S754_finite false mx ex) (S754_finite false my ey)) = true.
Proof.
  cbn [SFdiv xorb]. unfold SFdiv_core_binary.
  set (s := _ - _ - _).
  set (m' := match s with Z.pos _ => Z.shiftl (Z.pos mx) s | 0 => Z.pos mx | Z.neg _ => 0 end).
  assert (Hm : 0 <= m').
  { unfold m'. destruct s; try lia. apply Z.shiftl_nonneg. lia. }
  pose proof (Z_div_mod m' (Z.pos my) ltac:(lia)) as Hd.
  destruct (Z.div_eucl m' (Z.pos my)) as [q r].
  apply binary_round_aux_nonneg. nia.
Qed.

Lemma SFldexp_nonneg x e :
  nonneg_sf x = true -> nonneg_sf (SFldexp prec emax x e) = true.
Proof.
  destruct x as [sx|[|]| |[|] mx ex]; cbn; try discriminate; intros _; try reflexivity.
  apply binary_round_nonneg.
Qed.
End SignClass.

Lemma Prim2SF_zero : Prim2SF 0 = S754_zero false.
Proof. reflexivity. Qed.

Lemma leb_zero_nonneg (x : float) : (0 <=? x)%float = nonneg x.
Proof.
  rewrite leb_spec, Prim2SF_zero. unfold nonneg.
  destruct (Prim2SF x) as [s|[|]| |[|] m e]; reflexivity.
Qed.

Lemma nonneg_not_nan (x : float) : nonneg x = true -> is_nan x = false.
Proof.
  unfold nonneg. rewrite FloatOrder.is_nan_rank. unfold FloatRank.rank.
  destruct (Prim2SF x) as [s|[|]| |[|] m e]; cbn; congruence.
Qed.

Lemma add_nonneg (x y : float) :
  nonneg x = true -> nonneg y = true -> nonneg (x + y) = true.
Proof. unfold nonneg. rewrite add_spec. apply SFadd_nonneg. Qed.

Lemma of_uint63_nonneg n : nonneg (of_uint63 n) = true.
Proof.
  unfold nonneg. rewrite of_uint63_spec. apply binary_normalize_nonneg.
  pose proof (Uint63.to_Z_bounded n). lia.
Qed.

Lemma SF2Prim_nonneg sf : nonneg_sf sf = true -> nonneg (SF2Prim sf) = true.
Proof.
  destruct sf as [[|]|[|]| |[|] m e]; cbn [nonneg_sf]; try discriminate; intros _;
    try reflexivity.
  unfold nonneg, SF2Prim. rewrite Z_ldexp_spec.
  apply SFldexp_nonneg. apply of_uint63_nonneg.
Qed.

Lemma mul_nonneg (q p : float) :
  nonneg q = true -> (0 <? p)%float = true -> (p <? infinity)%float = true ->
  nonneg (q * p) = true.
Proof.
  unfold nonneg. rewrite !ltb_spec, mul_spec, Prim2SF_zero.
  change (Prim2SF infinity) with (S754_infinity false).
  intros Hq H0 Hi. apply SFmul_nonneg; try assumption;
    destruct (Prim2SF p) as [s|[|]| |[|] m e]; try discriminate; reflexivity.
Qed.

Lemma of_int_nonneg (n : Z) (q : float) :
  0 <= n -> PyFloat.of_int n = Returns q -> nonneg q = true.
Proof.
  unfold PyFloat.of_int. intros Hn H.
  pose proof (binary_normalize_nonneg prec emax n 0 Hn) as Hc.
  set (sf := binary_normalize prec emax n 0 false) in *.
  assert (Hq : SF2Prim sf = q).
  { destruct sf; try discriminate H; inversion H; reflexivity. }
  rewrite <- Hq. apply SF2Prim_nonneg, Hc.
Qed.

Lemma amount_nonneg (t : transaction) (a : float) :
  positive_record t = true -> amount t = Returns a -> nonneg a = true.
Proof.
  unfold positive_record, amount. intros Hp H.
  apply andb_true_iff in Hp. destruct Hp as [Hp Hi].
  apply andb_true_iff in Hp. destruct Hp as [Hq Hp].
  apply Z.ltb_lt in Hq.
  destruct (PyFloat.of_int (Quantity t)) as [q|] eqn:E; [|discriminate].
  cbn in H. inversion H; subst a.
  apply mul_nonneg; try assumption.
  eapply of_int_nonneg; [|exact E]. lia.
Qed.

Lemma accumulate_nonneg (sel : list transaction) (acc tot : float) :
  forallb positive_record sel = true -> nonneg acc = true ->
  accumulate sel acc = Returns tot -> nonneg tot = true.
Proof.
  revert acc. induction sel as [|t sel IH]; intros acc Hs Hacc H; cbn in *.
  - inversion H; subst; exact Hacc.
  - apply andb_true_iff in Hs. destruct Hs as [Ht Hs].
    destruct (amount t) as [a|] eqn:E; [|discriminate]. cbn in H.
    apply (IH (acc + a)%float); try assumption.
    apply add_nonneg; [exact Hacc|]. eapply amount_nonneg; eassumption.
Qed.

Lemma round_nonneg (x : float) (ndigits : Z) :
  nonneg x = true -> nonneg (PyFloat.round x ndigits) = true.
Proof.
  unfold PyFloat.round. intros Hx. unfold nonneg in Hx.
  destruct (Prim2SF x) as [s|[|]| |[|] m e] eqn:E; try discriminate;
    try (unfold nonneg; rewrite E; reflexivity).
  unfold PyFloat.of_decimal, PyFloat.round_digits. rewrite E.
  set (n := if 0 <=? e then _ else _).
  destruct n as [|p|p] eqn:En; try reflexivity.
  destruct (0 <=? - ndigits).
  - apply SF2Prim_nonneg, binary_normalize_nonneg.
    apply Z.mul_nonneg_nonneg; [lia|]. apply Z.pow_nonneg. lia.
  - apply SF2Prim_nonneg, SFdiv_nonneg.
Qed.

Lemma select_positive keyf k ts :
  forallb positive_record ts = true -> forallb positive_record (select keyf k ts) = true.
Proof.
  rewrite !forallb_forall. intros H t Ht. apply filter_In in Ht. apply H, Ht.
Qed.

(** ** The order of strings *)

Lemma string_leb_trans (s1 s2 s3 : string) :
  (s1 <=? s2)%string = true -> (s2 <=? s3)%string = true ->
  (s1 <=? s3)%string = true.
Proof.
  unfold String.leb. revert s2 s3.
  induction s1 as [|a s1 IH]; intros [|b s2] [|c s3]; simpl; try congruence.
  unfold Ascii.compare.
  destruct (N.compare_spec (N_of_ascii a) (N_of_ascii b)) as [Hab|Hab|Hab];
    destruct (N.compare_spec (N_of_ascii b) (N_of_ascii c)) as [Hbc|Hbc|Hbc];
    destruct (N.compare_spec (N_of_ascii a) (N_of_ascii c)) as [Hac|Hac|Hac];
    try congruence; try lia.
  apply IH.
Qed.

Lemma string_not_ltb_leb (s1 s2 : string) :
  (s2 <? s1)%string = false -> (s1 <=? s2)%string = true.
Proof.
  unfold String.ltb, String.leb. rewrite (String.compare_antisym s1 s2).
  destruct (String.compare s2 s1); cbn; congruence.
Qed.

Lemma string_ltb_asym (s1 s2 : string) :
  (s1 <? s2)%string = true -> (s2 <? s1)%string = false.
Proof.
  unfold String.ltb. rewrite (String.compare_antisym s2 s1).
  destruct (String.compare s1 s2); cbn; congruence.
Qed.

(** ** Sorting and maximum *)

Section SortingFacts.
Context {A K : Type}.
Variable lt : K -> K -> bool.
Variable key : A -> K.

Lemma insert_asc_perm (x : A) (l : list A) :
  Permutation (insert_asc lt key x l) (x :: l).
Proof.
  induction l as [|y l IH]; simpl; [apply Permutation_refl|].
  destruct (lt (key y) (key x)); [|apply Permutation_refl].
  eapply Permutation_trans; [apply perm_skip, IH | apply perm_swap].
Qed.

Lemma insert_desc_perm (x : A) (l : list A) :
  Permutation (insert_desc lt key x l) (x :: l).
Proof.
  induction l as [|y l IH]; simpl; [apply Permutation_refl|].
  destruct (lt (key x) (key y)); [|apply Permutation_refl].
  eapply Permutation_trans; [apply perm_skip, IH | apply perm_swap].
Qed.

Lemma py_sorted_perm (reverse : bool) (l : list A) :
  Permutation (py_sorted lt key reverse l) l.
Proof.
  unfold py_sorted. induction l as [|x l IH]; simpl; [constructor|].
  destruct reverse.
  - eapply Permutation_trans; [apply insert_desc_perm | apply perm_skip, IH].
  - eapply Permutation_trans; [apply insert_asc_perm | apply perm_skip, IH].
Qed.

Hypothesis lt_asym : forall x y, lt x y = true -> lt y x = false.

Lemma insert_desc_sorted (x : A) (l : list A) :
  Sorted (desc_pair lt key) l -> Sorted (desc_pair lt key) (insert_desc lt key x l).
Proof.
  induction l as [|y l IH]; simpl; intros Hs.
  - repeat constructor.
  - destruct (lt (key x) (key y)) eqn:E.
    + inversion Hs as [|? ? Hl Hh]; subst.
      constructor; [apply IH, Hl|].
      destruct l as [|z l]; simpl.
      * constructor. apply lt_asym, E.
      * destruct (lt (key x) (key z)).
        -- inversion Hh; subst. constructor. assumption.
        -- constructor. apply lt_asym, E.
    + constructor; [exact Hs | constructor; exact E].
Qed.

Lemma insert_asc_sorted (x : A) (l : list A) :
  Sorted (asc_pair lt key) l -> Sorted (asc_pair lt key) (insert_asc lt key x l).
Proof.
  induction l as [|y l IH]; simpl; intros Hs.
  - repeat constructor.
  - destruct (lt (key y) (key x)) eqn:E.
    + inversion Hs as [|? ? Hl Hh]; subst.
      constructor; [apply IH, Hl|].
      destruct l as [|z l]; simpl.
      * constructor. apply lt_asym, E.
      * destruct (lt (key z) (key x)).
        -- inversion Hh; subst. constructor. assumption.
        -- constructor. apply lt_asym, E.
    + constructor; [exact Hs | constructor; exact E].
Qed.

Lemma py_sorted_desc (l : list A) : Sorted (desc_pair lt key) (py_sorted lt key true l).
Proof.
  unfold py_sorted. induction l as [|x l IH]; simpl; [constructor|].
  apply insert_desc_sorted, IH.
Qed.

Lemma py_sorted_asc (l : list A) : Sorted (asc_pair lt key) (py_sorted lt key false l).
Proof.
  unfold py_sorted. induction l as [|x l IH]; simpl; [constructor|].
  apply insert_asc_sorted, IH.
Qed.

(** Stability: elements none of which is less than another keep their
    order. *)
Section Stable.
Variable P : A -> bool.
Hypothesis ties : forall x y, P x = true -> P y = true ->
                              lt (key x) (key y) = false.

Lemma insert_desc_filter (x : A) (l : list A) :
  filter P (insert_desc lt key x l) = filter P (x :: l).
Proof.
  induction l as [|y l IH]; [reflexivity|].
  cbn [insert_desc]. destruct (lt (key x) (key y)) eqn:E; [|reflexivity].
  cbn [filter] in *. rewrite IH.
  destruct (P x) eqn:Px; [|reflexivity].
  destruct (P y) eqn:Py; [|reflexivity].
  rewrite (ties x y Px Py) in E. discriminate.
Qed.

Lemma insert_asc_filter (x : A) (l : list A) :
  filter P (insert_asc lt key x l) = filter P (x :: l).
Proof.
  induction l as [|y l IH]; [reflexivity|].
  cbn [insert_asc]. destruct (lt (key y) (key x)) eqn:E; [|reflexivity].
  cbn [filter] in *. rewrite IH.
  destruct (P x) eqn:Px; [|reflexivity].
  destruct (P y) eqn:Py; [|reflexivity].
  rewrite (ties y x Py Px) in E. discriminate.
Qed.

Lemma py_sorted_stable (reverse : bool) (l : list A) :
  filter P (py_sorted lt key reverse l) = filter P l.
Proof.
  unfold py_sorted. induction l as [|x l IH]; [reflexivity|].
  cbn [fold_right]. destruct reverse.
  - rewrite insert_desc_filter. cbn [filter]. rewrite IH. reflexivity.
  - rewrite insert_asc_filter. cbn [filter]. rewrite IH. reflexivity.
Qed.
End Stable.

End SortingFacts.

(** ** Grouping by a key *)

Section DictFacts.
Context {V : Type}.

Lemma mem_In (k : string) (l : list string) : mem k l = true <-> In k l.
Proof.
  unfold mem. rewrite existsb_exists. split.
  - intros [x [Hx He]]. apply String.eqb_eq in He. subst. exact Hx.
  - intros H. exists k. split; [exact H | apply String.eqb_refl].
Qed.

Lemma get_none_keys (k : string) (d : list (string * V)) :
  Dict.get k d = None <-> ~ In k (map fst d).
Proof.
  induction d as [|[k' v] d IH]; simpl.
  - tauto.
  - destruct (String.eqb_spec k k') as [E|E].
    + split; [discriminate | intros H; exfalso; apply H; left; auto].
    + rewrite IH. split; [intros H [H1|H1]; auto | tauto].
Qed.

Lemma get_In (k : string) (v : V) (d : list (string * V)) :
  NoDup (map fst d) -> In (k, v) d -> Dict.get k d = Some v.
Proof.
  induction d as [|[k' v'] d IH]; simpl; intros Hn Hi; [tauto|].
  inversion Hn as [|? ? Hnot Hn']; subst.
  destruct Hi as [Hi|Hi].
  - inversion Hi; subst. rewrite String.eqb_refl. reflexivity.
  - destruct (String.eqb_spec k k') as [E|E].
    + subst. exfalso. apply Hnot. apply (in_map fst) in Hi. exact Hi.
    + apply IH; assumption.
Qed.

Lemma update_keys (k : string) (init : V) (f : V -> V) (d : list (string * V)) :
  map fst (Dict.update k init f d) =
  if mem k (map fst d) then map fst d else map fst d ++ [k].
Proof.
  unfold mem. induction d as [|[k' v] d IH]; simpl; [reflexivity|].
  destruct (String.eqb_spec k k') as [E|E]; simpl.
  - subst. reflexivity.
  - rewrite IH. destruct (existsb (String.eqb k) (map fst d)); reflexivity.
Qed.

Lemma get_update (k k0 : string) (init : V) (f : V -> V) (d : list (string * V)) :
  Dict.get k (Dict.update k0 init f d) =
  if (k =? k0)%string
  then Some (f (match Dict.get k0 d with Some v => v | None => init end))
  else Dict.get k d.
Proof.
  induction d as [|[k' v] d IH]; simpl.
  - destruct (String.eqb_spec k k0); reflexivity.
  - destruct (String.eqb_spec k0 k') as [E|E]; simpl.
    + subst k'. destruct (String.eqb_spec k k0); reflexivity.
    + rewrite IH. destruct (String.eqb_spec k k') as [E1|E1].
      * subst k'. destruct (String.eqb_spec k k0); [congruence | reflexivity].
      * reflexivity.
Qed.

Lemma new_keys_ext (s1 s2 l : list string) :
  (forall x, mem x s1 = mem x s2) -> new_keys s1 l = new_keys s2 l.
Proof.
  revert s1 s2. induction l as [|k l IH]; intros s1 s2 H; simpl; [reflexivity|].
  rewrite (H k). destruct (mem k s2).
  - apply IH, H.
  - f_equal. apply IH. intros x. unfold mem in *. simpl. rewrite H. reflexivity.
Qed.

Lemma new_keys_not_seen (seen l : list string) (k : string) :
  In k (new_keys seen l) -> In k l /\ ~ In k seen.
Proof.
  revert seen. induction l as [|x l IH]; intros seen; simpl; [tauto|].
  destruct (mem x seen) eqn:E.
  - intros H. apply IH in H. tauto.
  - intros [H|H].
    + subst. split; [auto|]. rewrite <- mem_In. congruence.
    + apply IH in H. simpl in H. tauto.
Qed.

Lemma new_keys_NoDup (seen l : list string) : NoDup (new_keys seen l).
Proof.
  revert seen. induction l as [|x l IH]; intros seen; simpl; [constructor|].
  destruct (mem x seen); [apply IH|].
  constructor; [|apply IH].
  intros H. apply new_keys_not_seen in H. simpl in H. tauto.
Qed.

Lemma new_keys_complete (seen l : list string) (k : string) :
  In k l -> ~ In k seen -> In k (new_keys seen l).
Proof.
  revert seen. induction l as [|x l IH]; intros seen; simpl; [tauto|].
  intros Hin Hseen. destruct (mem x seen) eqn:E.
  - apply IH; [|exact Hseen]. destruct Hin as [Hx|Hx]; [|exact Hx].
    subst. apply mem_In in E. contradiction.
  - destruct (String.eqb_spec x k) as [Ek|Ek]; [left; exact Ek|].
    right. destruct Hin as [Hx|Hx]; [contradiction|].
    apply IH; [exact Hx|]. simpl. tauto.
Qed.

End DictFacts.

Section GroupLoop.
Context {V : Type}.
Variable keyf : transaction -> string.
Variable init : V.
Variable step : transaction -> float -> V -> V.

Lemma group_loop_keys ts d d' :
  group_loop keyf init step ts d = Returns d' ->
  map fst d' = map fst d ++ new_keys (map fst d) (map keyf ts).
Proof.
  revert d. induction ts as [|t rest IH]; intros d H; simpl in *.
  - inversion H. rewrite app_nil_r. reflexivity.
  - inv_bind H. apply IH in H. rewrite H, update_keys.
    destruct (mem (keyf t) (map fst d)) eqn:E; [reflexivity|].
    rewrite <- app_assoc. simpl. do 2 f_equal.
    apply new_keys_ext. intros x. unfold mem.
    rewrite existsb_app. simpl. rewrite orb_false_r. apply orb_comm.
Qed.

Lemma group_loop_get ts d d' k v' :
  group_loop keyf init step ts d = Returns d' ->
  Dict.get k d' = Some v' ->
  exists v0,
    (Dict.get k d = Some v0
     \/ (Dict.get k d = None /\ v0 = init /\ select keyf k ts <> []))
    /\ fold_group step (select keyf k ts) v0 = Returns v'.
Proof.
  revert d. induction ts as [|t rest IH]; intros d H Hg; simpl in *.
  - inversion H; subst. exists v'. auto.
  - inv_bind H. destruct (IH _ H Hg) as [v1 [Hv1 Hf]]. clear IH.
    rewrite get_update in Hv1. unfold select in *. simpl.
    rewrite (String.eqb_sym (keyf t) k).
    destruct (String.eqb_spec k (keyf t)) as [E|E].
    + subst k. destruct Hv1 as [Hv1|[Hv1 _]]; [|discriminate].
      inversion Hv1; subst v1; clear Hv1.
      destruct (Dict.get (keyf t) d) as [v0|] eqn:Hd.
      * exists v0. split; [left; reflexivity|]. simpl. rewrite Ha. exact Hf.
      * exists init. split; [right; repeat split; discriminate|].
        simpl. rewrite Ha. exact Hf.
    + exists v1. split; [|exact Hf]. exact Hv1.
Qed.

(** From the empty dictionary: the keys are the distinct keys of the
    records in the order of their first occurrence, and the entry of a
    key is the fold of its records, of which there is at least one. *)
Lemma group_loop_spec ts d' :
  group_loop keyf init step ts [] = Returns d' ->
  map fst d' = first_seen (map keyf ts) /\
  NoDup (map fst d') /\
  (forall k v', In (k, v') d' ->
     select keyf k ts <> [] /\ fold_group step (select keyf k ts) init = Returns v').
Proof.
  intros H. pose proof (group_loop_keys _ _ _ H) as Hk. simpl in Hk.
  split; [exact Hk|]. split; [rewrite Hk; apply new_keys_NoDup|].
  intros k v' Hin.
  assert (Hg : Dict.get k d' = Some v').
  { apply get_In; [rewrite Hk; apply new_keys_NoDup | exact Hin]. }
  destruct (group_loop_get _ _ _ _ _ H Hg) as [v0 [[Hv0|[_ [Hv0 Hne]]] Hf]].
  - discriminate.
  - subst v0. auto.
Qed.

Lemma group_loop_returns ts d :
  (exists amounts, mapM amount ts = Returns amounts) ->
  exists d', group_loop keyf init step ts d = Returns d'.
Proof.
  revert d. induction ts as [|t rest IH]; intros d [amounts H]; simpl in *.
  - eauto.
  - inv_bind H. inv_bind H. rewrite Ha. simpl. apply IH. eauto.
Qed.

End GroupLoop.

(** ** The three loops as groupings *)

Lemma mapM_In {A B : Type} (f : A -> outcome B) (l : list A) (bs : list B) (b : B) :
  mapM f l = Returns bs -> In b bs -> exists a, In a l /\ f a = Returns b.
Proof.
  revert bs. induction l as [|a l IH]; simpl; intros bs H Hin.
  - inversion H; subst. destruct Hin.
  - bind_inv H as b0 Hb0. bind_inv H as bs0 Hbs0. inversion H; subst; clear H.
    destruct Hin as [Hb|Hb].
    + subst. exists a. auto.
    + destruct (IH _ Hbs0 Hb) as [x [Hx Hfx]]. exists x. auto.
Qed.

Lemma mapM_map_fst {A B : Type} (f : string * A -> outcome (string * B))
  (l : list (string * A)) (bs : list (string * B)) :
  (forall a b, f a = Returns b -> fst b = fst a) ->
  mapM f l = Returns bs -> map fst bs = map fst l.
Proof.
  intros Hf. revert bs. induction l as [|a l IH]; simpl; intros bs H.
  - inversion H; reflexivity.
  - bind_inv H as b0 Hb0. bind_inv H as bs0 Hbs0. inversion H; subst; clear H.
    simpl. rewrite (Hf _ _ Hb0). f_equal. apply IH, Hbs0.
Qed.

Lemma region_loop_group ts d :
  region_loop ts d = group_loop Region region_init region_add ts d.
Proof.
  revert d. induction ts as [|t rest IH]; intros d; simpl; [reflexivity|].
  destruct (amount t); simpl; [apply IH | reflexivity].
Qed.

Lemma region_fold_group sel s :
  fold_group region_add sel s =
  (tot <- accumulate sel (RegionStats.acc_total_sales s) ;;
   Returns {| RegionStats.acc_total_sales := tot;
              RegionStats.acc_transaction_count :=
                RegionStats.acc_transaction_count s + len sel |}).
Proof.
  revert s. induction sel as [|t rest IH]; intros s; cbn [fold_group accumulate].
  - cbn [bind]. destruct s; cbn. rewrite Z.add_0_r. reflexivity.
  - destruct (amount t) as [a|e]; cbn [bind]; [|reflexivity].
    rewrite IH. cbn. destruct (accumulate rest _); cbn [bind]; [|reflexivity].
    rewrite len_cons. do 2 f_equal. lia.
Qed.

Lemma customer_loop_group ts d :
  customer_loop ts d = group_loop CustomerID customer_init customer_add ts d.
Proof.
  revert d. induction ts as [|t rest IH]; intros d; simpl; [reflexivity|].
  destruct (amount t); simpl; [apply IH | reflexivity].
Qed.

Lemma customer_fold_group sel s :
  fold_group customer_add sel s =
  (tot <- accumulate sel (CustomerStats.acc_total_spent s) ;;
   Returns {| CustomerStats.acc_total_spent := tot;
              CustomerStats.acc_purchase_count :=
                CustomerStats.acc_purchase_count s + len sel;
              CustomerStats.products_set :=
                collect ProductName sel (CustomerStats.products_set s) |}).
Proof.
  revert s. induction sel as [|t rest IH]; intros s; cbn [fold_group accumulate collect].
  - cbn [bind]. destruct s; cbn. rewrite Z.add_0_r. reflexivity.
  - destruct (amount t) as [a|e]; cbn [bind]; [|reflexivity].
    rewrite IH. cbn. destruct (accumulate rest _); cbn [bind]; [|reflexivity].
    rewrite len_cons. do 2 f_equal. lia.
Qed.

Lemma daily_loop_group ts d :
  daily_loop ts d = group_loop Date daily_init daily_add ts d.
Proof.
  revert d. induction ts as [|t rest IH]; intros d; simpl; [reflexivity|].
  destruct (amount t); simpl; [apply IH | reflexivity].
Qed.

Lemma daily_fold_group sel s :
  fold_group daily_add sel s =
  (tot <- accumulate sel (DailyStats.acc_revenue s) ;;
   Returns {| DailyStats.acc_revenue := tot;
              DailyStats.acc_transaction_count :=
                DailyStats.acc_transaction_count s + len sel;
              DailyStats.customers_set :=
                collect CustomerID sel (DailyStats.customers_set s) |}).
Proof.
  revert s. induction sel as [|t rest IH]; intros s; cbn [fold_group accumulate collect].
  - cbn [bind]. destruct s; cbn. rewrite Z.add_0_r. reflexivity.
  - destruct (amount t) as [a|e]; cbn [bind]; [|reflexivity].
    rewrite IH. cbn. destruct (accumulate rest _); cbn [bind]; [|reflexivity].
    rewrite len_cons. do 2 f_equal. lia.
Qed.

Lemma len_pos_nonempty {A : Type} (l : list A) : l <> [] -> 1 <= len l.
Proof. destruct l; [congruence|]. intros _. rewrite len_cons. pose proof (len_nonneg l). lia. Qed.

(** ** Customer analysis *)

(** C10. Every entry [customer_analysis] produces belongs to a customer id
    that occurs in the input; its purchase count is the number of that
    customer's records, which is at least 1.  So the guard of the average
    always takes the division: the average order value is the total spent
    (the amounts of the customer's records added in order, not rounded)
    divided by the purchase count, rounded to 2 decimals. *)
Theorem customer_purchase_count_positive ts res :
  customer_analysis ts = Returns res ->
  (exists customer_stats,
      customer_loop ts [] = Returns customer_stats /\
      Forall (fun e => (0 <? CustomerStats.acc_purchase_count (snd e)) = true)
             customer_stats) /\
  (forall c_id st, In (c_id, st) res ->
     let mine := select CustomerID c_id ts in
     mine <> [] /\
     CustomerStats.purchase_count st = len mine /\
     1 <= CustomerStats.purchase_count st /\
     exists spent n,
       accumulate mine 0 = Returns spent /\
       PyFloat.of_int (CustomerStats.purchase_count st) = Returns n /\
       (n =? 0)%float = false /\
       CustomerStats.avg_order_value st = PyFloat.round (spent / n) 2 /\
       CustomerStats.total_spent st = PyFloat.round spent 2).
Proof.
  unfold customer_analysis. intros H.
  bind_inv H as stats Ha. bind_inv H as final Ha0.
  inversion H; subst res; clear H.
  rewrite customer_loop_group in Ha.
  pose proof (group_loop_spec _ _ _ _ _ Ha) as [Hkeys [Hnodup Hentries]].
  assert (Hacc : forall c acc, In (c, acc) stats ->
            select CustomerID c ts <> [] /\
            exists spent, accumulate (select CustomerID c ts) 0 = Returns spent /\
              acc = {| CustomerStats.acc_total_spent := spent;
                       CustomerStats.acc_purchase_count := len (select CustomerID c ts);
                       CustomerStats.products_set :=
                         collect ProductName (select CustomerID c ts) [] |}).
  { intros c acc Hin. destruct (Hentries _ _ Hin) as [Hne Hf].
    split; [exact Hne|].
    rewrite customer_fold_group in Hf. bind_inv Hf as spent Hs. cbn in Hs.
    exists spent. split; [exact Hs|]. inversion Hf. reflexivity. }
  split.
  - exists stats. split; [rewrite customer_loop_group; exact Ha|].
    apply Forall_forall. intros [c acc] Hin.
    destruct (Hacc _ _ Hin) as [Hne [spent [_ Hacc']]]. subst acc. cbn.
    apply Z.ltb_lt. pose proof (len_pos_nonempty _ Hne). lia.
  - intros c_id st Hin. cbv zeta.
    apply (Permutation_in _ (py_sorted_perm _ _ _ _)) in Hin.
    destruct (mapM_In _ _ _ _ Ha0 Hin) as [[c acc] [Hin' Hfinal]].
    unfold customer_final in Hfinal. bind_inv Hfinal as avg Ha1.
    inversion Hfinal; subst c st; clear Hfinal.
    destruct (Hacc _ _ Hin') as [Hne [spent [Hspent Hacc']]]. subst acc.
    pose proof (len_pos_nonempty _ Hne) as Hpos.
    unfold avg_value in Ha1. cbn in Ha1. cbn.
    assert (Hlt : (0 <? len (select CustomerID c_id ts)) = true)
      by (apply Z.ltb_lt; lia).
    rewrite Hlt in Ha1. bind_inv Ha1 as n Hn0.
    unfold PyFloat.div in Ha1.
    destruct (n =? 0)%float eqn:Hn; [discriminate|].
    inversion Ha1; subst avg.
    repeat split; try assumption.
    exists spent, n. repeat split; assumption.
Qed.

(** ** Daily trend and peak day *)

Lemma Sorted_impl {A : Type} (R R' : A -> A -> Prop) (l : list A) :
  (forall a b, R a b -> R' a b) -> Sorted R l -> Sorted R' l.
Proof.
  intros HR. induction 1 as [|a l Hs IH Hh]; constructor; [exact IH|].
  destruct Hh; constructor; auto.
Qed.

Lemma StronglySorted_middle {A : Type} (R : A -> A -> Prop) (l1 l2 : list A) (x : A) :
  StronglySorted R (l1 ++ x :: l2) -> Forall (R x) l2.
Proof.
  induction l1 as [|a l1 IH]; simpl; intros H; inversion H; subst; auto.
Qed.

Lemma string_leb_refl (s : string) : (s <=? s)%string = true.
Proof. destruct (String.leb_total s s); assumption. Qed.

Section FloatMax.
Context {A : Type}.
Variable key : A -> float.

(** [max] returns an item of the list; no item after it has a greater
    key, and every item before it has a key that is neither greater nor
    equal. *)
Lemma py_max_split (rest : list A) (first : A) :
  let r := py_max PrimFloat.ltb key first rest in
  exists l1 l2,
    first :: rest = l1 ++ r :: l2 /\
    (forall e, In e l1 -> (key r <=? key e)%float = false) /\
    (forall e, In e l2 -> (key r <? key e)%float = false).
Proof.
  cbv zeta. unfold py_max.
  induction rest as [|x rest IH] using rev_ind.
  - exists [], []. simpl. repeat split; intros e [].
  - rewrite fold_left_app. cbn [fold_left].
    destruct IH as [l1 [l2 [Heq [H1 H2]]]].
    set (b := fold_left
                (fun best item => if (key best <? key item)%float then item else best)
                rest first) in *.
    destruct (key b <? key x)%float eqn:E.
    + exists (l1 ++ b :: l2), []. split; [|split].
      * rewrite app_comm_cons, Heq. reflexivity.
      * intros e He. apply in_app_or in He. destruct He as [He|[He|He]].
        -- apply (FloatOrder.not_ltb_then_ltb (key b)); [|exact E].
           apply FloatOrder.leb_false_ltb_false, H1, He.
        -- subst e. apply FloatOrder.ltb_not_leb, E.
        -- apply (FloatOrder.not_ltb_then_ltb (key b)); [|exact E].
           apply H2, He.
      * intros e [].
    + exists l1, (l2 ++ [x]). split; [|split].
      * rewrite app_comm_cons, Heq, <- app_assoc. reflexivity.
      * exact H1.
      * intros e He. apply in_app_or in He. destruct He as [He|[He|[]]].
        -- apply H2, He.
        -- subst e. exact E.
Qed.
End FloatMax.

Lemma daily_trend_inv ts trend :
  daily_sales_trend ts = Returns trend ->
  exists daily_stats,
    group_loop Date daily_init daily_add ts [] = Returns daily_stats /\
    trend = py_sorted String.ltb fst false (map daily_final daily_stats).
Proof.
  unfold daily_sales_trend. intros H. bind_inv H as stats Hs.
  rewrite daily_loop_group in Hs. inversion H. eauto.
Qed.

Lemma first_seen_nonempty (l : list string) : l <> [] -> first_seen l <> [].
Proof. destruct l; [congruence|]. intros _. unfold first_seen. simpl. discriminate. Qed.

(** [find_peak_sales_day] on any input.  It returns [None] on an empty
    list.  On a
    non-empty one it returns the date, the rounded revenue and the
    transaction count of an entry of the daily trend; the trend is in
    ascending order of date; no entry has a greater revenue; no entry
    before it has a revenue that is greater or equal, so that among the
    entries with the same revenue it has the earliest date.  Where no
    revenue is NaN, every revenue is at most the returned one; the records
    with a positive quantity and a positive finite unit price never give a
    NaN revenue. *)
Theorem peak_day_is_first_maximum ts trend :
  daily_sales_trend ts = Returns trend ->
  find_peak_sales_day [] = Returns None /\
  StronglySorted (fun a b => (fst a <=? fst b)%string = true) trend /\
  (forall d e, In (d, e) trend ->
     exists tot, accumulate (select Date d ts) 0 = Returns tot /\
       DailyStats.revenue e = PyFloat.round tot 2 /\
       DailyStats.transaction_count e = len (select Date d ts)) /\
  (ts <> [] ->
   exists date st before after,
     find_peak_sales_day ts
       = Returns (Some (date, DailyStats.revenue st, DailyStats.transaction_count st)) /\
     trend = before ++ (date, st) :: after /\
     (forall e, In e before ->
        (DailyStats.revenue st <=? DailyStats.revenue (snd e))%float = false) /\
     (forall e, In e after ->
        (DailyStats.revenue st <? DailyStats.revenue (snd e))%float = false) /\
     (forall d e, In (d, e) trend ->
        (DailyStats.revenue e =? DailyStats.revenue st)%float = true ->
        (date <=? d)%string = true) /\
     ((forall d e, In (d, e) trend -> is_nan (DailyStats.revenue e) = false) ->
      forall d e, In (d, e) trend ->
        (DailyStats.revenue e <=? DailyStats.revenue st)%float = true)) /\
  (forallb positive_record ts = true ->
   forall d e, In (d, e) trend -> is_nan (DailyStats.revenue e) = false).
Proof.
  intros H. pose proof (daily_trend_inv _ _ H) as [stats [Hloop Htrend]].
  pose proof (group_loop_spec _ _ _ _ _ Hloop) as [Hkeys [Hnodup Hentries]].
  assert (Hsorted : StronglySorted (fun a b => (fst a <=? fst b)%string = true) trend).
  { apply Sorted_StronglySorted.
    - intros a b c Hab Hbc. eapply string_leb_trans; eassumption.
    - subst trend.
      eapply Sorted_impl; [|apply py_sorted_asc; exact string_ltb_asym].
      intros a b Hab. apply string_not_ltb_leb, Hab. }
  assert (Hrev : forall d e, In (d, e) trend ->
            exists tot, accumulate (select Date d ts) 0 = Returns tot /\
              DailyStats.revenue e = PyFloat.round tot 2 /\
              DailyStats.transaction_count e = len (select Date d ts)).
  { intros d e Hin. rewrite Htrend in Hin.
    apply (Permutation_in _ (py_sorted_perm _ _ _ _)) in Hin.
    apply in_map_iff in Hin. destruct Hin as [[d' acc] [Hfin Hin]].
    unfold daily_final in Hfin. inversion Hfin; subst d' e; clear Hfin.
    destruct (Hentries _ _ Hin) as [_ Hf].
    rewrite daily_fold_group in Hf. bind_inv Hf as tot Htot. cbn in Htot.
    inversion Hf; subst acc. exists tot. cbn. auto. }
  split; [reflexivity|]. split; [exact Hsorted|]. split; [exact Hrev|].
  split; [|intros Hpos d e Hin;
            destruct (Hrev _ _ Hin) as [tot [Htot [Hr _]]];
            rewrite Hr; apply nonneg_not_nan, round_nonneg;
            apply (accumulate_nonneg _ 0%float tot
                     (select_positive Date d ts Hpos) eq_refl Htot)].
  - intros Hne.
    destruct trend as [|first rest] eqn:Et.
    { exfalso. apply (first_seen_nonempty (map Date ts)).
      - destruct ts; [congruence | discriminate].
      - rewrite <- Hkeys.
        pose proof (Permutation_length
                      (py_sorted_perm String.ltb fst false (map daily_final stats))) as Hl.
        rewrite <- Htrend in Hl. simpl in Hl.
        rewrite length_map in Hl. destruct stats; [reflexivity | discriminate]. }
    pose proof (py_max_split (fun item => DailyStats.revenue (snd item)) rest first)
      as Hmax. cbv zeta in Hmax.
    destruct Hmax as [before [after [Hsplit [Hbefore Hafter]]]].
    set (peak := py_max PrimFloat.ltb
                   (fun item => DailyStats.revenue (snd item)) first rest) in *.
    exists (fst peak), (snd peak), before, after.
    split; [|split; [|split; [|split; [|split]]]].
    + unfold find_peak_sales_day. rewrite H. reflexivity.
    + rewrite <- surjective_pairing. exact Hsplit.
    + exact Hbefore.
    + exact Hafter.
    + intros d e Hin Htie. rewrite Hsplit in Hin.
      apply in_app_or in Hin. destruct Hin as [Hin|[Hin|Hin]].
      * specialize (Hbefore _ Hin). cbn in Hbefore.
        rewrite FloatOrder.eqb_sym in Htie.
        apply FloatOrder.eqb_leb in Htie. congruence.
      * rewrite Hin. apply string_leb_refl.
      * rewrite Hsplit in Hsorted.
        apply StronglySorted_middle in Hsorted.
        rewrite Forall_forall in Hsorted. apply (Hsorted _ Hin).
    + intros Hnan d e Hin.
      assert (Hpeak : is_nan (DailyStats.revenue (snd peak)) = false).
      { apply (Hnan (fst peak)). rewrite <- surjective_pairing, Hsplit.
        apply in_or_app. right. left. reflexivity. }
      specialize (Hnan _ _ Hin).
      apply FloatOrder.not_ltb_leb; [exact Hpeak | exact Hnan |].
      rewrite Hsplit in Hin.
      apply in_app_or in Hin. destruct Hin as [Hin|[Hin|Hin]].
      * apply FloatOrder.leb_false_ltb_false. apply (Hbefore _ Hin).
      * rewrite Hin. cbn.
        destruct (DailyStats.revenue e <? DailyStats.revenue e)%float eqn:E;
          [|reflexivity].
        pose proof (FloatOrder.ltb_asym _ _ E). congruence.
      * apply (Hafter _ Hin).
Qed.

(** ** Sales by region *)

Lemma Sorted_impl_In {A : Type} (R R' : A -> A -> Prop) (l : list A) :
  (forall a b, In a l -> In b l -> R a b -> R' a b) -> Sorted R l -> Sorted R' l.
Proof.
  intros HR Hs. induction Hs as [|a l Hs IH Hh]; constructor.
  - apply IH. intros x y Hx Hy. apply HR; right; assumption.
  - destruct Hh as [|b l' Hab]; constructor.
    apply HR; [left; reflexivity | right; left; reflexivity | exact Hab].
Qed.

Lemma region_final_entry total stats :
  (total =? 0)%float = false ->
  mapM (region_final total) stats = Returns (map (region_entry total) stats).
Proof.
  intros Hz. induction stats as [|[r acc] stats IH]; simpl; [reflexivity|].
  unfold PyFloat.div. rewrite Hz. cbn [bind]. rewrite IH. reflexivity.
Qed.

Lemma region_stats_entry ts stats r acc :
  group_loop Region region_init region_add ts [] = Returns stats ->
  In (r, acc) stats ->
  exists tot,
    accumulate (select Region r ts) 0 = Returns tot /\
    acc = {| RegionStats.acc_total_sales := tot;
             RegionStats.acc_transaction_count := len (select Region r ts) |}.
Proof.
  intros Hstats Hin.
  pose proof (group_loop_spec _ _ _ _ _ Hstats) as [_ [_ Hentries]].
  destruct (Hentries _ _ Hin) as [_ Hf].
  rewrite region_fold_group in Hf. bind_inv Hf as tot Htot. cbn in Htot.
  inversion Hf. exists tot. auto.
Qed.

Section RegionProperties.

Variable py_sum : list float -> float.

Lemma calculate_total_revenue_inv ts total :
  calculate_total_revenue py_sum ts = Returns total ->
  exists amounts, mapM amount ts = Returns amounts /\ total = py_sum amounts.
Proof.
  unfold calculate_total_revenue. intros H. bind_inv H as amounts Ha.
  inversion H. eauto.
Qed.

(** With a total that is not zero, the call returns the sorted entries
    of the groups. *)
Lemma region_wise_sales_nonzero ts total :
  calculate_total_revenue py_sum ts = Returns total ->
  (total =? 0)%float = false ->
  exists stats,
    group_loop Region region_init region_add ts [] = Returns stats /\
    region_wise_sales py_sum ts =
    Returns (py_sorted PrimFloat.ltb
               (fun item => RegionStats.total_sales (snd item)) true
               (map (region_entry total) stats)).
Proof.
  intros Htotal Hz. unfold region_wise_sales. rewrite Htotal. cbn [bind].
  rewrite Hz.
  destruct (calculate_total_revenue_inv _ _ Htotal) as [amounts [Hamounts _]].
  destruct (group_loop_returns Region region_init region_add ts [])
    as [stats Hstats]; [eauto|].
  exists stats. split; [exact Hstats|].
  rewrite region_loop_group, Hstats. cbn [bind].
  rewrite (region_final_entry _ _ Hz). reflexivity.
Qed.

(** [region_wise_sales] on any input.  With a total revenue of zero it
    returns the empty mapping.  Otherwise it returns one entry per region of the
    input; the entry of a region holds the number of its records, its
    total (the amounts of its records added in order) rounded to 2
    decimals, and the percentage: the unrounded region total divided by
    the unrounded total revenue, times 100, rounded to 2 decimals.  The
    entries are those of the regions in the order of their first
    occurrence, rearranged in descending order of the rounded total,
    entries with equal totals keeping their order.  (The order is stated
    for rounded totals that are not NaN, on which [sorted] has a defined
    result; the records with a positive quantity and a positive finite unit
    price never give a NaN total.) *)
Theorem region_wise_sales_spec ts total :
  calculate_total_revenue py_sum ts = Returns total ->
  ((total =? 0)%float = true -> region_wise_sales py_sum ts = Returns []) /\
  ((total =? 0)%float = false ->
   exists res groups,
     region_wise_sales py_sum ts = Returns res /\
     map fst groups = first_seen (map Region ts) /\
     Permutation res groups /\
     (forall r st, In (r, st) res ->
        exists tot,
          accumulate (select Region r ts) 0 = Returns tot /\
          RegionStats.percentage st = PyFloat.round (tot / total * 100)%float 2 /\
          RegionStats.total_sales st = PyFloat.round tot 2 /\
          RegionStats.transaction_count st = len (select Region r ts)) /\
     ((forall r st, In (r, st) res -> is_nan (RegionStats.total_sales st) = false) ->
      StronglySorted
        (fun a b => (RegionStats.total_sales (snd b)
                     <=? RegionStats.total_sales (snd a))%float = true) res /\
      forall v,
        filter (fun e => (RegionStats.total_sales (snd e) =? v)%float) res
        = filter (fun e => (RegionStats.total_sales (snd e) =? v)%float) groups) /\
     (forallb positive_record ts = true ->
      forall r st, In (r, st) res -> is_nan (RegionStats.total_sales st) = false)).
Proof.
  intros Htotal. split.
  { intros Hz. unfold region_wise_sales. rewrite Htotal. cbn [bind].
    rewrite Hz. reflexivity. }
  intros Hz.
  destruct (region_wise_sales_nonzero _ _ Htotal Hz) as [stats [Hstats Hres]].
  pose proof (group_loop_spec _ _ _ _ _ Hstats) as [Hkeys _].
  set (groups := map (region_entry total) stats) in *.
  set (keyf := fun item : string * RegionStats.t => RegionStats.total_sales (snd item)) in *.
  exists (py_sorted PrimFloat.ltb keyf true groups), groups.
  assert (Hentry : forall r st,
            In (r, st) (py_sorted PrimFloat.ltb keyf true groups) ->
            exists tot,
              accumulate (select Region r ts) 0 = Returns tot /\
              RegionStats.percentage st = PyFloat.round (tot / total * 100)%float 2 /\
              RegionStats.total_sales st = PyFloat.round tot 2 /\
              RegionStats.transaction_count st = len (select Region r ts)).
  { intros r st Hin.
    apply (Permutation_in _ (py_sorted_perm _ _ _ _)) in Hin.
    apply in_map_iff in Hin. destruct Hin as [[r' acc] [He Hin]].
    unfold region_entry in He. cbn in He. inversion He; subst r' st; clear He.
    destruct (region_stats_entry _ _ _ _ Hstats Hin) as [tot [Htot Hacc]].
    subst acc. exists tot. cbn. auto. }
  split; [exact Hres|]. split; [|split; [|split; [exact Hentry|split]]].
  - unfold groups. rewrite map_map. cbn. exact Hkeys.
  - apply py_sorted_perm.
  - intros Hnan. split.
    + apply Sorted_StronglySorted.
      * intros a b c Hab Hbc. eapply FloatOrder.leb_trans; eassumption.
      * eapply Sorted_impl_In; [|apply py_sorted_desc; exact FloatOrder.ltb_asym].
        intros [ra a] [rb b] Ha Hb Hab. unfold desc_pair in Hab. cbn in *.
        apply FloatOrder.not_ltb_leb; eauto.
    + intros v. apply py_sorted_stable.
      intros x y Hx Hy. eapply FloatOrder.tie_not_ltb; eassumption.
  - intros Hpos r st Hin.
    destruct (Hentry _ _ Hin) as [tot [Htot [_ [Hr _]]]].
    rewrite Hr. apply nonneg_not_nan, round_nonneg.
    apply (accumulate_nonneg _ 0%float tot
             (select_positive Region r ts Hpos) eq_refl Htot).
Qed.

End RegionProperties.

(** ** The sum of the percentages *)

(** C7, as stated, fails: each of sixty equal regions has the percentage
    1.67, and the sixty of them sum to 100.2. *)
Lemma percentage_sum_counterexample :
  ~ percentage_sum_within_tolerance PyFloat.sum_compensated sixty_regions
  /\ ~ percentage_sum_within_tolerance PyFloat.sum_plain sixty_regions.
Proof.
  split; intros H.
  - destruct (region_wise_sales PyFloat.sum_compensated sixty_regions) as [res|e] eqn:E;
      [|vm_compute in E; discriminate].
    assert (Ht : calculate_total_revenue PyFloat.sum_compensated sixty_regions
                 = Returns 60%float) by (vm_compute; reflexivity).
    specialize (H 60%float res Ht eq_refl E).
    apply Qle_bool_iff in H. revert H.
    vm_compute in E. inversion E; subst res; clear E.
    vm_compute. discriminate.
  - destruct (region_wise_sales PyFloat.sum_plain sixty_regions) as [res|e] eqn:E;
      [|vm_compute in E; discriminate].
    assert (Ht : calculate_total_revenue PyFloat.sum_plain sixty_regions
                 = Returns 60%float) by (vm_compute; reflexivity).
    specialize (H 60%float res Ht eq_refl E).
    apply Qle_bool_iff in H. revert H.
    vm_compute in E. inversion E; subst res; clear E.
    vm_compute. discriminate.
Qed.

(** *** The error of one rounding *)

Lemma round_half_even_div_close (num den : Z) :
  0 < den ->
  2 * Z.abs (PyFloat.round_half_even_div num den * den - num) <= den.
Proof.
  intros Hden. unfold PyFloat.round_half_even_div.
  pose proof (Z_div_mod_full num den ltac:(lia)) as Hdm.
  destruct (Z.div_eucl num den) as [q r]. destruct Hdm as [Hnum Hr].
  destruct Hr as [Hr|Hr]; [|lia].
  destruct (Z.compare_spec (2 * r) den); [destruct (Z.even q)| |]; nia.
Qed.

Lemma Qabs_diff_le (n m : Z) (a b c : positive) :
  Z.abs (n * Zpos b - m * Zpos a) * Zpos c <= Zpos a * Zpos b ->
  (Qabs ((n # a) - (m # b)) <= (1 # c))%Q.
Proof.
  intros H. unfold Qminus, Qplus, Qopp, Qabs, Qle. cbn [Qnum Qden].
  rewrite Pos2Z.inj_mul.
  replace (n * Zpos b + - m * Zpos a) with (n * Zpos b - m * Zpos a) by ring.
  lia.
Qed.

Lemma rounded_value_close (x : float) :
  finite x = true -> (Qabs (rounded_value x 2 - PyFloat.to_Q x) <= (1 # 200))%Q.
Proof.
  unfold finite, rounded_value, PyFloat.to_Q, PyFloat.round_digits, PyFloat.decimal_Q.
  destruct (Prim2SF x) as [s|s| |s m e]; intros Hx; try discriminate Hx; clear Hx.
  - apply Qle_bool_iff. reflexivity.
  - change (Z.to_pos (10 ^ 2)) with 100%positive.
    change (10 ^ 2) with 100.
    destruct (0 <=? e) eqn:He.
    + unfold inject_Z.
      destruct s; cbn [Qopp Qnum Qden]; apply Qabs_diff_le; cbn [Qnum Qden].
      * match goal with
        | |- Z.abs ?d * _ <= _ => replace d with 0 by ring
        end. cbn. lia.
      * match goal with
        | |- Z.abs ?d * _ <= _ => replace d with 0 by ring
        end. cbn. lia.
    + apply Z.leb_gt in He.
      assert (Hden : 0 < 2 ^ (- e)) by (apply Z.pow_pos_nonneg; lia).
      pose proof (round_half_even_div_close (Zpos m * 100) (2 ^ (- e)) Hden) as Hc.
      set (n := PyFloat.round_half_even_div (Zpos m * 100) (2 ^ (- e))) in *.
      destruct s; cbn [Qopp Qnum Qden]; apply Qabs_diff_le; cbn [Qnum Qden];
        rewrite Z2Pos.id by exact Hden.
      * replace (- n * 2 ^ (- e) - - Zpos m * 100)
          with (- (n * 2 ^ (- e) - Zpos m * 100)) by ring.
        rewrite Z.abs_opp. lia.
      * lia.
Qed.

(** ** The amount filter *)

Lemma amount_passes_within (lo hi : option float) (a : float) :
  is_nan a = false -> not_nan_bound lo = true -> not_nan_bound hi = true ->
  amount_passes lo hi a = within lo hi a.
Proof.
  unfold amount_passes, within, not_nan_bound.
  intros Ha Hlo Hhi.
  destruct lo as [l|], hi as [h|];
    rewrite ?negb_true_iff in *; cbn [andb];
    repeat match goal with
           | |- context [(?x <? ?y)%float] =>
             let E := fresh "E" in destruct (x <? y)%float eqn:E
           end;
    repeat match goal with
           | H : (?x <? ?y)%float = true |- _ =>
             rewrite (FloatOrder.ltb_not_leb _ _ H); clear H
           | H : (?x <? ?y)%float = false |- _ =>
             rewrite (FloatOrder.not_ltb_leb x y) by assumption; clear H
           end;
    rewrite ?andb_false_r; reflexivity.
Qed.

(** The amount stage keeps, in order, the records of the region stage's
    output whose amount passes; for amounts and bounds that are numbers,
    passing is lying within the bounds. *)
Lemma amount_filter_keeps_within ts region lo hi out inv s :
  validate_and_filter ts region lo hi = Returns (out, inv, s) ->
  amount_applies lo hi = true ->
  let entering := after_region region (filter is_valid ts) in
  exists amounts,
    mapM amount entering = Returns amounts /\
    out = map fst (filter (fun p => amount_passes lo hi (snd p))
                          (combine entering amounts)) /\
    (not_nan_bound lo = true -> not_nan_bound hi = true ->
     forallb (fun a => negb (is_nan a)) amounts = true ->
     out = map fst (filter (fun p => within lo hi (snd p))
                           (combine entering amounts))).
Proof.
  intros H Happ. apply validate_and_filter_returns_inv in H. cbv zeta in *.
  destruct H as [_ [_ Hout]]. rewrite Happ in Hout.
  destruct (amount_loop_filter _ _ _ _ Hout) as [amounts [Hm Ho]].
  exists amounts. split; [exact Hm|]. split; [exact Ho|].
  intros Hlo Hhi Hnan. rewrite Ho. f_equal.
  apply filter_ext_in. intros [t a] Hin. cbn.
  apply amount_passes_within; try assumption.
  apply in_combine_r in Hin. rewrite forallb_forall in Hnan.
  apply negb_true_iff, Hnan, Hin.
Qed.

(** C5 at a record whose amount is NaN.  The line parses, the record is
    valid (its unit price is not [<= 0]), its amount is NaN, and with a
    minimum of 5000 the amount stage keeps it, although 5000 <= NaN does
    not hold. *)
Theorem amount_filter_keeps_nan :
  parse_transactions PyNum.py_int PyNum.py_float [nan_price_line] = [nan_price_record]
  /\ is_valid nan_price_record = true
  /\ amount nan_price_record = Returns nan
  /\ within (Some 5000%float) None nan = false
  /\ validate_and_filter [nan_price_record] None (Some 5000%float) None
     = Returns ([nan_price_record], 0,
                {| total_input := 1; invalid := 0; filtered_by_region := 0;
                   filtered_by_amount := 0; final_count := 1 |}).
Proof. vm_compute. repeat split. Qed.

(** ** The NaN price in the analyses *)

(** C2 at three regions of which one has a NaN total.  The lines parse,
    the three records are valid (a NaN unit price is not [<= 0]), the total
    revenue is NaN, which is not equal to zero, and the result lists the
    region with the total 1.0 before the region with the total 3.0: the
    entries are not in descending order of the rounded total. *)
Theorem region_order_with_nan :
  parse_transactions PyNum.py_int PyNum.py_float nan_region_lines = nan_region_records
  /\ validate_and_filter nan_region_records None None None
     = Returns (nan_region_records, 0,
                {| total_input := 3; invalid := 0; filtered_by_region := 0;
                   filtered_by_amount := 0; final_count := 3 |})
  /\ calculate_total_revenue PyFloat.sum_plain nan_region_records = Returns nan
  /\ calculate_total_revenue PyFloat.sum_compensated nan_region_records = Returns nan
  /\ (nan =? 0)%float = false
  /\ region_wise_sales PyFloat.sum_plain nan_region_records = Returns nan_region_result
  /\ region_wise_sales PyFloat.sum_compensated nan_region_records
     = Returns nan_region_result
  /\ map (fun e => RegionStats.total_sales (snd e)) nan_region_result = [1; nan; 3]%float
  /\ (1 <? 3)%float = true.
Proof. vm_compute. repeat split. Qed.

(** C4 at two days of which the first has a NaN revenue.  The lines parse,
    the two records are valid, and [find_peak_sales_day] returns the first
    day with its NaN revenue, although the second day has the revenue 8.0:
    the returned revenue is not the maximum of the revenues, and the check
    of the test, which compares it with the maximum it computes itself,
    fails. *)
Theorem peak_day_with_nan :
  parse_transactions PyNum.py_int PyNum.py_float nan_day_lines = nan_day_records
  /\ validate_and_filter nan_day_records None None None
     = Returns (nan_day_records, 0,
                {| total_input := 2; invalid := 0; filtered_by_region := 0;
                   filtered_by_amount := 0; final_count := 2 |})
  /\ daily_sales_trend nan_day_records = Returns nan_day_trend
  /\ find_peak_sales_day nan_day_records = Returns (Some ("2024-12-01", nan, 1))
  /\ (8 <=? nan)%float = false
  /\ max_rev nan_day_trend = 8%float
  /\ check_peak_day (Some ("2024-12-01", nan, 1)) nan_day_trend = false.
Proof. vm_compute. repeat split. Qed.

(** ** The statements at concrete inputs *)

Example example_parse :
  parse_transactions PyNum.py_int PyNum.py_float example_lines = example_records.
Proof. vm_compute. reflexivity. Qed.

Example example_filter :
  validate_and_filter example_records (Some "North") (Some 100%float) None
  = Returns (firstn 2 example_records, 1, example_summary).
Proof. vm_compute. reflexivity. Qed.

Lemma count_conservation_witness :
  total_input example_summary = invalid example_summary + 3
  /\ 3 = final_count example_summary + filtered_by_region example_summary
         + filtered_by_amount example_summary.
Proof.
  pose proof (count_conservation example_records (Some "North") (Some 100%float) None
                (firstn 2 example_records) 1 example_summary
                ltac:(vm_compute; reflexivity)) as H.
  cbv zeta in H. destruct H as (_ & _ & H1 & H2 & _).
  split; [exact H1 | exact H2].
Defined.

Lemma empty_region_is_no_region_witness :
  validate_and_filter example_records (Some "") (Some 100%float) None
  = validate_and_filter example_records None (Some 100%float) None.
Proof.
  exact (proj1 (empty_region_is_no_region example_records (Some 100%float) None)).
Defined.

Lemma unparseable_lines_are_dropped_silently_witness :
  len (parse_transactions PyNum.py_int PyNum.py_float example_lines)
  = len (filter (parseable PyNum.py_int PyNum.py_float) example_lines).
Proof.
  destruct (unparseable_lines_are_dropped_silently
              PyNum.py_int PyNum.py_float example_lines) as (_ & _ & _ & H & _).
  exact H.
Defined.

Lemma parse_idempotent_witness :
  clean_name "Mouse Wireless" = "Mouse Wireless".
Proof.
  destruct (parse_idempotent PyNum.py_int PyNum.py_float) as (_ & H & _).
  apply H; reflexivity.
Defined.

Example example_regions :
  region_wise_sales PyFloat.sum_compensated example_valid
  = Returns [("North", {| RegionStats.total_sales := 500;
                          RegionStats.transaction_count := 2;
                          RegionStats.percentage := 71.43 |});
             ("South", {| RegionStats.total_sales := 200;
                          RegionStats.transaction_count := 1;
                          RegionStats.percentage := 28.57 |})].
Proof. vm_compute. reflexivity. Qed.

Lemma region_wise_sales_spec_witness :
  exists res groups,
    region_wise_sales PyFloat.sum_compensated example_valid = Returns res /\
    map fst groups = ["North"; "South"] /\
    Permutation res groups.
Proof.
  destruct (region_wise_sales_spec PyFloat.sum_compensated example_valid 700%float
              ltac:(vm_compute; reflexivity)) as [_ H].
  destruct (H ltac:(vm_compute; reflexivity)) as (res & groups & H1 & H2 & H3 & _).
  exists res, groups. repeat split; assumption.
Defined.

Example example_peak :
  find_peak_sales_day example_valid = Returns (Some ("2024-12-01", 500%float, 2)).
Proof. vm_compute. reflexivity. Qed.

Example example_trend :
  daily_sales_trend example_valid
  = Returns [("2024-12-01", {| DailyStats.revenue := 500;
                               DailyStats.transaction_count := 2;
                               DailyStats.unique_customers := 2 |});
             ("2024-12-02", {| DailyStats.revenue := 200;
                               DailyStats.transaction_count := 1;
                               DailyStats.unique_customers := 1 |})].
Proof. vm_compute. reflexivity. Qed.

Lemma peak_day_is_first_maximum_witness :
  find_peak_sales_day [] = Returns None /\
  exists date st,
    find_peak_sales_day example_valid
    = Returns (Some (date, DailyStats.revenue st, DailyStats.transaction_count st)).
Proof.
  destruct (peak_day_is_first_maximum example_valid _ example_trend)
    as (H0 & _ & _ & H & _).
  split; [exact H0|].
  destruct (H ltac:(discriminate)) as (date & st & before & after & Hp & _).
  exists date, st. exact Hp.
Defined.

Example example_customers :
  customer_analysis example_valid
  = Returns [("C001", {| CustomerStats.total_spent := 450;
                         CustomerStats.purchase_count := 2;
                         CustomerStats.avg_order_value := 225;
                         CustomerStats.products_bought := ["Mouse Wireless"; "Monitor"] |});
             ("C002", {| CustomerStats.total_spent := 250;
                         CustomerStats.purchase_count := 1;
                         CustomerStats.avg_order_value := 250;
                         CustomerStats.products_bought := ["Keyboard"] |})].
Proof. vm_compute. reflexivity. Qed.

Lemma customer_purchase_count_positive_witness :
  exists customer_stats,
    customer_loop example_valid [] = Returns customer_stats /\
    Forall (fun e => (0 <? CustomerStats.acc_purchase_count (snd e)) = true)
           customer_stats.
Proof.
  exact (proj1 (customer_purchase_count_positive example_valid _ example_customers)).
Defined.

(** * Further properties

    Properties of the functions the specification does not describe
    ([read_sales_data], [top_selling_products], [create_product_mapping],
    the low performers of the report) and of the described ones beyond
    what it says of them. *)

(** ** Reading the file *)

Lemma strip_idempotent (s : string) : PyStr.strip (PyStr.strip s) = PyStr.strip s.
Proof. apply strip_trimmed, strip_is_trimmed. Qed.

Lemma truthy_nonempty (s : string) : PyStr.truthy s = true <-> s <> "".
Proof.
  unfold PyStr.truthy. destruct (String.eqb_spec s ""); cbn; split; congruence.
Qed.

Lemma cleaned_lines_clean (lines : list string) :
  Forall (fun line => line <> "" /\ PyStr.strip line = line)
         (map PyStr.strip
              (filter (fun line => PyStr.truthy (PyStr.strip line)) lines)).
Proof.
  apply Forall_forall. intros line Hin.
  apply in_map_iff in Hin. destruct Hin as [raw [Hs Hin]].
  apply filter_In in Hin. destruct Hin as [_ Ht]. subst line.
  split; [apply truthy_nonempty, Ht | apply strip_idempotent].
Qed.

Lemma Forall_tl {A : Type} (P : A -> Prop) (l : list A) :
  Forall P l -> Forall P (tl l).
Proof. destruct l; intros H; [exact H | inversion H; assumption]. Qed.

Lemma read_loop_result (open_file : encoding -> file_outcome)
  (encodings : list encoding) :
  match read_loop open_file encodings with
  | Got data => Forall (fun line => line <> "" /\ PyStr.strip line = line) data
  | Failed e => e = OtherError
  end.
Proof.
  induction encodings as [|enc rest IH]; cbn [read_loop]; [constructor|].
  destruct (open_file enc) as [lines|[| |]]; try exact IH; try constructor.
  pose proof (cleaned_lines_clean lines) as Hc.
  destruct (map PyStr.strip _) as [|header data]; [constructor|].
  inversion Hc; assumption.
Qed.

(** X1. [read_sales_data] returns no line that is empty or has whitespace
    at its ends, and the only exception that comes out of it is one it
    does not handle.  A file that is not found (no other encoding is then
    tried), a file that none of the three encodings decodes and a file of
    blank lines all give the empty list. *)
Theorem read_sales_data_result (open_file : encoding -> file_outcome) :
  match read_sales_data open_file with
  | Got data => Forall (fun line => line <> "" /\ PyStr.strip line = line) data
  | Failed e => e = OtherError
  end /\
  (open_file utf_8 = Failed FileNotFoundError -> read_sales_data open_file = Got []) /\
  ((forall enc, open_file enc = Failed UnicodeDecodeError) ->
   read_sales_data open_file = Got []) /\
  (forall lines, decoded_as open_file lines ->
     Forall (fun line => blank line = true) lines ->
     read_sales_data open_file = Got []).
Proof.
  split; [apply read_loop_result|]. split; [|split].
  - intros H. unfold read_sales_data. cbn. rewrite H. reflexivity.
  - intros H. unfold read_sales_data. cbn. rewrite !H. reflexivity.
  - intros lines Hd Hb.
    assert (Hf : filter (fun line => PyStr.truthy (PyStr.strip line)) lines = []).
    { clear Hd. induction Hb as [|line lines Hl _ IH]; [reflexivity|].
      cbn [filter]. unfold blank in Hl. apply negb_true_iff in Hl.
      rewrite Hl. exact IH. }
    unfold read_sales_data. cbn.
    destruct Hd as [H|[[H1 H]|[H1 [H2 H]]]];
      rewrite ?H1, ?H2, H, Hf; reflexivity.
Qed.

(** *** Blank lines *)

Lemma filter_insert_blank (i : nat) (line : string) (lines : list string) :
  blank line = true ->
  filter (fun line => PyStr.truthy (PyStr.strip line)) (insert_at i line lines)
  = filter (fun line => PyStr.truthy (PyStr.strip line)) lines.
Proof.
  intros Hb. unfold insert_at.
  rewrite <- (firstn_skipn i lines) at 3.
  rewrite !filter_app. cbn [filter].
  unfold blank in Hb. apply negb_true_iff in Hb. rewrite Hb. reflexivity.
Qed.

Lemma read_loop_ext (o1 o2 : encoding -> file_outcome) (encodings : list encoding) :
  (forall enc,
      match o1 enc, o2 enc with
      | Got l1, Got l2 =>
        filter (fun line => PyStr.truthy (PyStr.strip line)) l1
        = filter (fun line => PyStr.truthy (PyStr.strip line)) l2
      | Failed e1, Failed e2 => e1 = e2
      | _, _ => False
      end) ->
  read_loop o1 encodings = read_loop o2 encodings.
Proof.
  intros H. induction encodings as [|enc rest IH]; cbn [read_loop]; [reflexivity|].
  specialize (H enc).
  destruct (o1 enc) as [l1|e1], (o2 enc) as [l2|e2]; try contradiction.
  - rewrite H. reflexivity.
  - subst e2. destruct e1; [exact IH | reflexivity | reflexivity].
Qed.

(** X2. A blank line put anywhere into the file, before the header line
    too, does not change what [read_sales_data] returns. *)
Theorem read_sales_data_blank_line (open_file : encoding -> file_outcome)
  (i : nat) (line : string) :
  blank line = true ->
  read_sales_data (fun enc => with_lines (insert_at i line) (open_file enc))
  = read_sales_data open_file.
Proof.
  intros Hb. apply read_loop_ext. intros enc. unfold with_lines.
  destruct (open_file enc) as [lines|e]; [|reflexivity].
  apply filter_insert_blank, Hb.
Qed.

(** ** Lines and fields *)

Lemma split_nonempty (sep : ascii) (s : string) : PyStr.split sep s <> [].
Proof.
  destruct s as [|c s]; cbn; [discriminate|].
  destruct (Ascii.eqb c sep); [discriminate|].
  destruct (PyStr.split sep s); discriminate.
Qed.

Lemma split_cons (sep c : ascii) (s : string) :
  PyStr.split sep (String c s) =
  if Ascii.eqb c sep then "" :: PyStr.split sep s
  else map_first (String c) (PyStr.split sep s).
Proof.
  cbn [PyStr.split]. destruct (Ascii.eqb c sep); [reflexivity|].
  pose proof (split_nonempty sep s).
  destruct (PyStr.split sep s); [congruence | reflexivity].
Qed.

Lemma space_not_sep (sep c : ascii) :
  PyStr.is_space sep = false -> PyStr.is_space c = true -> Ascii.eqb c sep = false.
Proof.
  intros Hs Hc. destruct (Ascii.eqb_spec c sep); [congruence | reflexivity].
Qed.

Lemma split_lstrip (sep : ascii) (s : string) :
  PyStr.is_space sep = false ->
  PyStr.split sep (PyStr.lstrip s) = map_first PyStr.lstrip (PyStr.split sep s).
Proof.
  intros Hsep. induction s as [|c s IH]; [reflexivity|].
  rewrite split_cons. cbn [PyStr.lstrip].
  destruct (PyStr.is_space c) eqn:Ec.
  - rewrite (space_not_sep _ _ Hsep Ec), IH.
    pose proof (split_nonempty sep s).
    destruct (PyStr.split sep s) as [|f fs]; [congruence|].
    cbn. rewrite Ec. reflexivity.
  - rewrite split_cons. destruct (Ascii.eqb c sep); [reflexivity|].
    pose proof (split_nonempty sep s).
    destruct (PyStr.split sep s) as [|f fs]; [congruence|].
    cbn. rewrite Ec. reflexivity.
Qed.

(** A string that [rstrip] empties has no separator. *)
Lemma rstrip_empty_split (sep : ascii) (s : string) :
  PyStr.is_space sep = false -> PyStr.rstrip s = "" -> PyStr.split sep s = [s].
Proof.
  intros Hsep. induction s as [|c s IH]; [reflexivity|].
  cbn [PyStr.rstrip]. destruct (PyStr.rstrip s) eqn:Er; [|discriminate].
  destruct (PyStr.is_space c) eqn:Ec; [|discriminate]. intros _.
  rewrite split_cons, (space_not_sep _ _ Hsep Ec), IH; reflexivity.
Qed.

Lemma split_single (sep : ascii) (s f : string) :
  PyStr.split sep s = [f] -> f = s.
Proof.
  revert f. induction s as [|c s IH]; intros f; [cbn; congruence|].
  rewrite split_cons. destruct (Ascii.eqb c sep).
  - pose proof (split_nonempty sep s).
    destruct (PyStr.split sep s); [congruence | discriminate].
  - destruct (PyStr.split sep s) as [|g [|h gs]] eqn:E; cbn; try discriminate.
    intros H. inversion H. f_equal. apply IH. reflexivity.
Qed.

Lemma map_last_cons {A : Type} (g : A -> A) (a : A) (l : list A) :
  l <> [] -> map_last g (a :: l) = a :: map_last g l.
Proof. destruct l; [congruence | reflexivity]. Qed.

Lemma map_last_nonempty {A : Type} (g : A -> A) (l : list A) :
  l <> [] -> map_last g l <> [].
Proof.
  destruct l as [|a [|b l]]; cbn; congruence.
Qed.

Lemma split_rstrip (sep : ascii) (s : string) :
  PyStr.is_space sep = false ->
  PyStr.split sep (PyStr.rstrip s) = map_last PyStr.rstrip (PyStr.split sep s).
Proof.
  intros Hsep. induction s as [|c s IH]; [reflexivity|].
  pose proof (split_nonempty sep s) as Hne.
  cbn [PyStr.rstrip]. destruct (PyStr.rstrip s) as [|b r] eqn:Er.
  - rewrite split_cons, (rstrip_empty_split sep s Hsep Er).
    destruct (PyStr.is_space c) eqn:Ec.
    + rewrite (space_not_sep _ _ Hsep Ec). cbn. rewrite Er, Ec. reflexivity.
    + rewrite split_cons. destruct (Ascii.eqb c sep); cbn; rewrite Er, ?Ec; reflexivity.
  - rewrite (split_cons sep c (String b r)), IH, (split_cons sep c s).
    destruct (Ascii.eqb c sep).
    + rewrite map_last_cons by exact Hne. reflexivity.
    + destruct (PyStr.split sep s) as [|f [|g fs]] eqn:E; [congruence| |].
      * apply split_single in E. subst f. cbn. rewrite Er. reflexivity.
      * reflexivity.
Qed.

Lemma lstrip_idempotent (s : string) : PyStr.lstrip (PyStr.lstrip s) = PyStr.lstrip s.
Proof.
  induction s as [|c s IH]; [reflexivity|]. cbn [PyStr.lstrip].
  destruct (PyStr.is_space c) eqn:Ec; [exact IH|]. cbn. rewrite Ec. reflexivity.
Qed.

Lemma rstrip_idempotent (s : string) : PyStr.rstrip (PyStr.rstrip s) = PyStr.rstrip s.
Proof.
  destruct (PyStr.last (PyStr.rstrip s)) as [c|] eqn:E.
  - apply (rstrip_last _ c E). apply (rstrip_last_not_space s c E).
  - destruct (PyStr.rstrip s) as [|a r]; [reflexivity|].
    exfalso. clear -E. revert a E. induction r as [|b r IH]; intros a E.
    + discriminate.
    + apply (IH b). exact E.
Qed.

Lemma lstrip_rstrip (s : string) :
  PyStr.lstrip (PyStr.rstrip s) = PyStr.rstrip (PyStr.lstrip s).
Proof.
  induction s as [|c s IH]; [reflexivity|].
  cbn [PyStr.lstrip]. destruct (PyStr.is_space c) eqn:Ec.
  - rewrite <- IH. cbn [PyStr.rstrip].
    destruct (PyStr.rstrip s); rewrite ?Ec; cbn; rewrite ?Ec; reflexivity.
  - cbn [PyStr.rstrip].
    destruct (PyStr.rstrip s); rewrite ?Ec; cbn; rewrite ?Ec; reflexivity.
Qed.

Lemma strip_lstrip (s : string) : PyStr.strip (PyStr.lstrip s) = PyStr.strip s.
Proof. unfold PyStr.strip. rewrite lstrip_idempotent. reflexivity. Qed.

Lemma strip_rstrip (s : string) : PyStr.strip (PyStr.rstrip s) = PyStr.strip s.
Proof.
  unfold PyStr.strip. rewrite lstrip_rstrip, rstrip_idempotent. reflexivity.
Qed.

Lemma split_strip (s : string) :
  PyStr.split "|" (PyStr.strip s)
  = map_last PyStr.rstrip (map_first PyStr.lstrip (PyStr.split "|" s)).
Proof.
  unfold PyStr.strip. rewrite split_rstrip, split_lstrip; reflexivity.
Qed.

Section ReadThenParse.

Variable to_int : string -> option Z.
Variable to_float : string -> option float.

(** Stripping a line changes its first and its last field only, which
    the parser strips itself. *)
Lemma parse_line_strip (line : string) :
  parse_line to_int to_float (PyStr.strip line) = parse_line to_int to_float line.
Proof.
  unfold parse_line. rewrite split_strip.
  destruct (PyStr.split "|" line)
    as [|f1 [|f2 [|f3 [|f4 [|f5 [|f6 [|f7 [|f8 [|f9 l]]]]]]]]]; try reflexivity.
  - cbn [map_first map_last].
    rewrite strip_lstrip, strip_rstrip. reflexivity.
  - destruct l as [|f10 l]; reflexivity.
Qed.

Lemma parse_line_blank (line : string) :
  blank line = true -> parse_line to_int to_float line = None.
Proof.
  unfold blank, PyStr.truthy. rewrite negb_involutive. intros H.
  apply String.eqb_eq in H. rewrite <- parse_line_strip, H. reflexivity.
Qed.

Lemma parse_cleaned (lines : list string) :
  parse_transactions to_int to_float
    (map PyStr.strip (filter (fun line => PyStr.truthy (PyStr.strip line)) lines))
  = parse_transactions to_int to_float lines.
Proof.
  induction lines as [|line lines IH]; [reflexivity|].
  cbn [filter]. destruct (PyStr.truthy (PyStr.strip line)) eqn:E.
  - cbn [map parse_transactions]. rewrite parse_line_strip, IH. reflexivity.
  - cbn [parse_transactions]. rewrite parse_line_blank, IH; [reflexivity|].
    unfold blank. rewrite E. reflexivity.
Qed.

Lemma parse_after_header (lines : list string) :
  parse_transactions to_int to_float
    (tl (map PyStr.strip (filter (fun line => PyStr.truthy (PyStr.strip line)) lines)))
  = parse_transactions to_int to_float (after_header lines).
Proof.
  induction lines as [|line lines IH]; [reflexivity|].
  cbn [filter after_header]. unfold blank.
  destruct (PyStr.truthy (PyStr.strip line)); cbn [negb]; [|exact IH].
  cbn [map tl]. apply parse_cleaned.
Qed.

(** X3. Reading, then parsing.  The records parsed from what
    [read_sales_data] returns are the records parsed from the raw lines of
    the file that follow its first non-blank line: removing the blank
    lines and stripping the others changes nothing for the parser, which
    reads a stripped line as it reads the line itself; only the header is
    taken away. *)
Theorem parse_of_read_lines (open_file : encoding -> file_outcome)
  (lines : list string) :
  decoded_as open_file lines ->
  exists data,
    read_sales_data open_file = Got data /\
    parse_transactions to_int to_float data
    = parse_transactions to_int to_float (after_header lines) /\
    (forall line, parse_line to_int to_float (PyStr.strip line)
                  = parse_line to_int to_float line).
Proof.
  intros Hd.
  exists (tl (map PyStr.strip
                  (filter (fun line => PyStr.truthy (PyStr.strip line)) lines))).
  split; [|split; [apply parse_after_header | apply parse_line_strip]].
  unfold read_sales_data. cbn.
  destruct Hd as [H|[[H1 H]|[H1 [H2 H]]]]; rewrite ?H1, ?H2, H;
    destruct (map PyStr.strip _); reflexivity.
Qed.

End ReadThenParse.

(** ** The fields of the parsed records *)

Lemma split_fields_without_sep (sep : ascii) (s : string) :
  Forall (fun f => has_char sep f = false) (PyStr.split sep s).
Proof.
  induction s as [|c s IH]; [repeat constructor|].
  rewrite split_cons. destruct (Ascii.eqb c sep) eqn:E.
  - constructor; [reflexivity | exact IH].
  - destruct (PyStr.split sep s) as [|f fs]; [constructor|].
    inversion IH; subst. constructor; [|assumption].
    unfold has_char in *. cbn. rewrite E. assumption.
Qed.

Lemma lstrip_without (c : ascii) (s : string) :
  has_char c s = false -> has_char c (PyStr.lstrip s) = false.
Proof.
  unfold has_char. induction s as [|a s IH]; [auto|].
  cbn [PyStr.lstrip]. intros H. destruct (PyStr.is_space a); [|exact H].
  cbn in H. apply orb_false_iff in H. apply IH, H.
Qed.

Lemma rstrip_without (c : ascii) (s : string) :
  has_char c s = false -> has_char c (PyStr.rstrip s) = false.
Proof.
  unfold has_char. induction s as [|a s IH]; [auto|].
  cbn [list_ascii_of_string existsb PyStr.rstrip].
  intros H. apply orb_false_iff in H. destruct H as [H1 H2].
  specialize (IH H2).
  destruct (PyStr.rstrip s) as [|b r].
  - destruct (PyStr.is_space a); [reflexivity|]. cbn. rewrite H1. reflexivity.
  - cbn [list_ascii_of_string existsb] in *. rewrite H1. exact IH.
Qed.

Lemma strip_without (c : ascii) (s : string) :
  has_char c s = false -> has_char c (PyStr.strip s) = false.
Proof. intros H. apply rstrip_without, lstrip_without, H. Qed.

Lemma has_char_append (c : ascii) (a b : string) :
  has_char c (a ++ b)%string = has_char c a || has_char c b.
Proof.
  unfold has_char. induction a as [|x a IH]; [reflexivity|].
  cbn. rewrite IH, orb_assoc. reflexivity.
Qed.

Lemma replace_without (c old : ascii) (new s : string) :
  has_char c new = false -> has_char c s = false ->
  has_char c (PyStr.replace old new s) = false.
Proof.
  intros Hn. induction s as [|a s IH]; [auto|].
  cbn [PyStr.replace]. intros H.
  assert (H2 : has_char c s = false /\ Ascii.eqb a c = false).
  { unfold has_char in *. cbn in H. apply orb_false_iff in H. tauto. }
  destruct H2 as [H2 H1]. destruct (Ascii.eqb a old).
  - rewrite has_char_append, Hn. apply IH, H2.
  - unfold has_char in *. cbn. rewrite H1. apply IH, H2.
Qed.

Lemma strip_clean_field (f : string) :
  has_char "|" f = false -> clean_field (PyStr.strip f) = true.
Proof.
  intros H. unfold clean_field.
  rewrite strip_is_trimmed, (strip_without _ _ H). reflexivity.
Qed.

Section ParsedFields.

Variable to_int : string -> option Z.
Variable to_float : string -> option float.

Lemma parse_line_clean (line : string) (t : transaction) :
  parse_line to_int to_float line = Some t -> clean_record t = true.
Proof.
  intros H. apply parse_line_some in H.
  destruct H as (f1 & f2 & f3 & f4 & f5 & f6 & f7 & f8 & q & p & Hs & _ & _ & Ht).
  pose proof (split_fields_without_sep "|" line) as Hf. rewrite Hs in Hf.
  repeat match goal with
         | H : Forall _ (_ :: _) |- _ => inversion H; clear H; subst
         end.
  unfold clean_record, required_fields, clean_name.
  cbn [TransactionID Date ProductID ProductName CustomerID Region forallb].
  rewrite !strip_clean_field
    by (try apply replace_without; solve [reflexivity | assumption]).
  unfold PyStr.strip.
  apply rstrip_no_comma, lstrip_no_comma, replace_comma_no_comma.
Qed.

(** X4. In every record [parse_transactions] produces, the six string
    fields have no whitespace at their ends and no [|] in them, and the
    product name has no comma. *)
Theorem parsed_records_are_clean (lines : list string) :
  forallb clean_record (parse_transactions to_int to_float lines) = true.
Proof.
  induction lines as [|line lines IH]; [reflexivity|].
  cbn [parse_transactions].
  destruct (parse_line to_int to_float line) as [t|] eqn:E; [|exact IH].
  cbn [forallb]. rewrite (parse_line_clean _ _ E). exact IH.
Qed.

End ParsedFields.

(** ** The filter as a whole *)

Lemma filter_filter {A : Type} (p q : A -> bool) (l : list A) :
  filter p (filter q l) = filter (fun a => q a && p a) l.
Proof.
  induction l as [|a l IH]; [reflexivity|]. cbn [filter].
  destruct (q a); cbn [filter andb]; [destruct (p a)|]; rewrite IH; reflexivity.
Qed.

Lemma filter_all {A : Type} (p : A -> bool) (l : list A) :
  Forall (fun a => p a = true) l -> filter p l = l.
Proof.
  induction 1 as [|a l Ha _ IH]; [reflexivity|].
  cbn [filter]. rewrite Ha, IH. reflexivity.
Qed.

Lemma filter_none_len {A : Type} (p : A -> bool) (l : list A) :
  Forall (fun a => p a = true) l -> len (filter (fun a => negb (p a)) l) = 0.
Proof.
  induction 1 as [|a l Ha _ IH]; [reflexivity|].
  cbn [filter]. rewrite Ha. exact IH.
Qed.

Lemma amount_loop_test (lo hi : option float) (current next : list transaction) :
  amount_loop lo hi current = Returns next ->
  next = filter (fun t => match amount t with
                          | Returns a => amount_passes lo hi a
                          | Raises _ => false
                          end) current.
Proof.
  revert next. induction current as [|t ts IH]; cbn [amount_loop filter]; intros next H.
  - inversion H. reflexivity.
  - bind_inv H as a Ha. bind_inv H as rest Hr. inversion H; subst next; clear H.
    rewrite Ha, <- (IH _ Hr). reflexivity.
Qed.

Lemma after_region_filter (region : option string) (valid : list transaction) :
  after_region region valid = filter (region_ok region) valid.
Proof.
  unfold after_region, region_ok. destruct region as [r|].
  - destruct (PyStr.truthy r); [reflexivity|].
    symmetry. apply filter_all, Forall_forall. reflexivity.
  - symmetry. apply filter_all, Forall_forall. reflexivity.
Qed.

Lemma validate_and_filter_kept ts region lo hi out inv s :
  validate_and_filter ts region lo hi = Returns (out, inv, s) ->
  out = filter (kept region lo hi) ts.
Proof.
  intros H. apply validate_and_filter_returns_inv in H. cbv zeta in H.
  destruct H as [_ [_ Hout]]. rewrite after_region_filter, filter_filter in Hout.
  unfold kept, amount_ok.
  destruct (amount_applies lo hi).
  - apply amount_loop_test in Hout. rewrite filter_filter in Hout. exact Hout.
  - subst out. apply filter_ext. intros t. rewrite andb_true_r. reflexivity.
Qed.

(** X5. The records [validate_and_filter] returns are the input records
    that pass one test, in the order of the input: valid, of the region
    asked for when one is given, and passed by the amount test when a
    bound is given.  So every returned record is valid, every one has the
    region asked for, and the count returned beside the records is the
    summary's [invalid]. *)
Theorem result_is_one_filter ts region lo hi out inv s :
  validate_and_filter ts region lo hi = Returns (out, inv, s) ->
  out = filter (kept region lo hi) ts /\
  Forall (fun t => is_valid t = true) out /\
  (forall r, region = Some r -> r <> "" -> Forall (fun t => Region t = r) out) /\
  inv = invalid s.
Proof.
  intros H. pose proof (validate_and_filter_kept _ _ _ _ _ _ _ H) as Hk.
  split; [exact Hk|]. split; [|split].
  - subst out. apply Forall_forall. intros t Ht. apply filter_In in Ht.
    destruct Ht as [_ Ht]. unfold kept in Ht.
    apply andb_true_iff in Ht. destruct Ht as [Ht _].
    apply andb_true_iff in Ht. tauto.
  - intros r Hr Hne. subst out region. apply Forall_forall. intros t Ht.
    apply filter_In in Ht. destruct Ht as [_ Ht]. unfold kept in Ht.
    apply andb_true_iff in Ht. destruct Ht as [Ht _].
    apply andb_true_iff in Ht. destruct Ht as [_ Ht].
    unfold region_ok, PyStr.truthy in Ht.
    destruct (String.eqb_spec r ""); [contradiction|]. cbn in Ht.
    apply String.eqb_eq, Ht.
  - apply validate_and_filter_returns_inv in H. cbv zeta in H.
    destruct H as [_ [Hs _]]. subst s. reflexivity.
Qed.

Lemma filtered_amounts_return ts region lo hi out inv s :
  validate_and_filter ts region lo hi = Returns (out, inv, s) ->
  exists amounts, mapM amount out = Returns amounts.
Proof.
  intros H. pose proof (validate_and_filter_kept _ _ _ _ _ _ _ H) as Hk.
  unfold validate_and_filter in H. rewrite validate_filter in H.
  bind_inv H as amounts Ha.
  rewrite Hk. unfold kept.
  rewrite <- (filter_filter (fun t => amount_ok lo hi t)
                            (fun t => is_valid t && region_ok region t) ts).
  rewrite <- (filter_filter (region_ok region) is_valid ts).
  apply mapM_filter, mapM_filter. eauto.
Qed.

(** *** A second pass *)

Lemma amount_loop_all (lo hi : option float) (l : list transaction) :
  Forall (fun t => match amount t with
                   | Returns a => amount_passes lo hi a
                   | Raises _ => false
                   end = true) l ->
  amount_loop lo hi l = Returns l.
Proof.
  induction 1 as [|t l Ht _ IH]; [reflexivity|].
  cbn [amount_loop]. destruct (amount t) as [a|e]; [|discriminate].
  cbn [bind]. rewrite IH. cbn [bind]. rewrite Ht. reflexivity.
Qed.

(** X6. [validate_and_filter] applied with the same arguments to its own
    result returns that result unchanged: no record is invalid and none is
    filtered out. *)
Theorem second_pass_keeps_all ts region lo hi out inv s :
  validate_and_filter ts region lo hi = Returns (out, inv, s) ->
  validate_and_filter out region lo hi = Returns (out, 0, unchanged_summary out).
Proof.
  intros H. pose proof (validate_and_filter_kept _ _ _ _ _ _ _ H) as Hk.
  assert (Hall : Forall (fun t => kept region lo hi t = true) out).
  { subst out. apply Forall_forall. intros t Ht. apply filter_In in Ht. tauto. }
  assert (Hvalid : Forall (fun t => is_valid t = true) out).
  { eapply Forall_impl; [|exact Hall]. intros t Ht. unfold kept in Ht.
    apply andb_true_iff in Ht. destruct Ht as [Ht _].
    apply andb_true_iff in Ht. tauto. }
  assert (Hregion : Forall (fun t => region_ok region t = true) out).
  { eapply Forall_impl; [|exact Hall]. intros t Ht. unfold kept in Ht.
    apply andb_true_iff in Ht. destruct Ht as [Ht _].
    apply andb_true_iff in Ht. tauto. }
  assert (Hamount : Forall (fun t => amount_ok lo hi t = true) out).
  { eapply Forall_impl; [|exact Hall]. intros t Ht. unfold kept in Ht.
    apply andb_true_iff in Ht. tauto. }
  destruct (filtered_amounts_return _ _ _ _ _ _ _ H) as [amounts Hm].
  unfold validate_and_filter. rewrite validate_filter.
  rewrite (filter_all _ _ Hvalid), (filter_none_len _ _ Hvalid), Hm. cbn [bind].
  rewrite region_stage_after_region, after_region_filter, (filter_all _ _ Hregion).
  rewrite Z.sub_diag. unfold amount_stage, amount_ok in *.
  destruct (amount_applies lo hi).
  - rewrite (amount_loop_all _ _ _ Hamount). cbn [bind].
    rewrite Z.sub_diag. reflexivity.
  - reflexivity.
Qed.

(** *** Amounts that are numbers *)

Lemma valid_finite_positive (t : transaction) :
  is_valid t = true -> finite (UnitPrice t) = true -> positive_record t = true.
Proof.
  unfold is_valid, positive_record, finite. intros Hv Hf.
  repeat (apply andb_true_iff in Hv; destruct Hv as [Hv ?]).
  apply negb_true_iff in Hv.
  match goal with H : negb (UnitPrice t <=? 0)%float = true |- _ =>
    apply negb_true_iff in H; rename H into Hp end.
  rewrite leb_spec in Hp. rewrite !ltb_spec.
  change (Prim2SF infinity) with (S754_infinity false).
  change (Prim2SF 0) with (S754_zero false) in *.
  assert (Hq : (0 <? Quantity t) = true) by (apply Z.ltb_lt; apply Z.leb_gt in Hv; lia).
  rewrite Hq. cbn [andb].
  destruct (Prim2SF (UnitPrice t)) as [sp|sp| |[|] m e]; try discriminate; reflexivity.
Qed.

Lemma within_open (a : float) : within None None a = true.
Proof. reflexivity. Qed.

(** X7. When the unit prices of the input are finite numbers and no bound
    is NaN, the result holds exactly the input records that are valid, of
    the region asked for, and whose amount lies within the bounds. *)
Theorem amount_filter_in_range ts region lo hi out inv s :
  validate_and_filter ts region lo hi = Returns (out, inv, s) ->
  Forall (fun t => finite (UnitPrice t) = true) ts ->
  not_nan_bound lo = true -> not_nan_bound hi = true ->
  forall t,
    In t out <->
    In t ts /\ is_valid t = true /\ region_ok region t = true /\
    exists a, amount t = Returns a /\ within lo hi a = true.
Proof.
  intros H Hfin Hlo Hhi t.
  pose proof (validate_and_filter_kept _ _ _ _ _ _ _ H) as Hk.
  assert (Hamounts : forall x, In x ts -> is_valid x = true ->
                               exists a, amount x = Returns a /\ is_nan a = false).
  { intros x Hx Hv.
    unfold validate_and_filter in H. rewrite validate_filter in H.
    bind_inv H as amounts Ha.
    assert (Hr : exists amounts, mapM amount (filter is_valid ts) = Returns amounts)
      by eauto.
    apply mapM_returns_iff in Hr. rewrite Forall_forall in Hr.
    destruct (Hr x) as [a Hxa]; [apply filter_In; auto|].
    exists a. split; [exact Hxa|].
    apply nonneg_not_nan. apply (amount_nonneg x); [|exact Hxa].
    apply valid_finite_positive; [exact Hv|].
    rewrite Forall_forall in Hfin. apply Hfin, Hx. }
  assert (Hok : forall x a, amount x = Returns a -> is_nan a = false ->
                            amount_ok lo hi x = within lo hi a).
  { intros x a Hx Hn. unfold amount_ok. rewrite Hx.
    destruct (amount_applies lo hi) eqn:Happ.
    - apply amount_passes_within; assumption.
    - destruct lo, hi; try discriminate. reflexivity. }
  subst out. rewrite filter_In. unfold kept. split.
  - intros [Hin Hkept].
    apply andb_true_iff in Hkept. destruct Hkept as [Hkept Ha].
    apply andb_true_iff in Hkept. destruct Hkept as [Hv Hr].
    destruct (Hamounts _ Hin Hv) as [a [Hta Hn]].
    repeat split; try assumption.
    exists a. split; [exact Hta|]. rewrite <- (Hok _ _ Hta Hn). exact Ha.
  - intros [Hin [Hv [Hr [a [Hta Hw]]]]].
    split; [exact Hin|]. rewrite Hv, Hr. cbn [andb].
    destruct (Hamounts _ Hin Hv) as [a' [Hta' Hn]].
    rewrite Hta in Hta'. inversion Hta'; subst a'.
    rewrite (Hok _ _ Hta Hn). exact Hw.
Qed.

(** ** Sums over the groups *)

Lemma Zsum_app (l1 l2 : list Z) : Zsum (l1 ++ l2) = Zsum l1 + Zsum l2.
Proof. induction l1 as [|z l1 IH]; cbn [Zsum app]; lia. Qed.

Lemma Zsum_perm (l1 l2 : list Z) : Permutation l1 l2 -> Zsum l1 = Zsum l2.
Proof. induction 1; cbn [Zsum]; lia. Qed.

Lemma Zsum_ones {A : Type} (l : list A) : Zsum (map (fun _ => 1) l) = len l.
Proof.
  induction l as [|a l IH]; [reflexivity|]. cbn [map Zsum]. rewrite len_cons. lia.
Qed.

Lemma mem_cons (k x : string) (seen : list string) :
  mem k (x :: seen) = (k =? x)%string || mem k seen.
Proof. reflexivity. Qed.

Section GroupSums.

Variable keyf : transaction -> string.
Variable g : transaction -> Z.

Lemma select_cons_other (k : string) (t : transaction) (ts : list transaction) :
  keyf t <> k -> select keyf k (t :: ts) = select keyf k ts.
Proof.
  intros H. unfold select. cbn [filter].
  destruct (String.eqb_spec (keyf t) k); [contradiction | reflexivity].
Qed.

Lemma select_cons_same (t : transaction) (ts : list transaction) :
  select keyf (keyf t) (t :: ts) = t :: select keyf (keyf t) ts.
Proof. unfold select. cbn [filter]. rewrite String.eqb_refl. reflexivity. Qed.

Lemma unseen_split (k : string) (seen : list string) (ts : list transaction) :
  mem k seen = false ->
  Zsum (map g (filter (fun t => negb (mem (keyf t) seen)) ts))
  = Zsum (map g (select keyf k ts))
    + Zsum (map g (filter (fun t => negb (mem (keyf t) (k :: seen))) ts)).
Proof.
  intros Hk. induction ts as [|t ts IH]; [reflexivity|].
  unfold select in *. cbn [filter]. rewrite mem_cons.
  destruct (String.eqb_spec (keyf t) k) as [E|E].
  - rewrite E, Hk. cbn [negb orb map Zsum]. lia.
  - cbn [orb]. destruct (mem (keyf t) seen); cbn [negb map Zsum]; lia.
Qed.

Lemma group_sum_unseen (seen : list string) (ts : list transaction) :
  Zsum (map (fun k => Zsum (map g (select keyf k ts)))
            (new_keys seen (map keyf ts)))
  = Zsum (map g (filter (fun t => negb (mem (keyf t) seen)) ts)).
Proof.
  revert seen. induction ts as [|t ts IH]; intros seen; [reflexivity|].
  cbn [map new_keys filter]. destruct (mem (keyf t) seen) eqn:E; cbn [negb].
  - rewrite <- IH. f_equal. apply map_ext_in. intros k Hk.
    rewrite select_cons_other; [reflexivity|].
    apply new_keys_not_seen in Hk. apply mem_In in E.
    intros Heq. rewrite <- Heq in Hk. tauto.
  - cbn [map Zsum]. rewrite select_cons_same. cbn [map Zsum].
    rewrite (unseen_split (keyf t) seen ts E), <- IH.
    rewrite <- !Z.add_assoc. do 2 f_equal.
    f_equal. apply map_ext_in. intros k Hk.
    rewrite select_cons_other; [reflexivity|].
    apply new_keys_not_seen in Hk. cbn in Hk.
    intros Heq. rewrite <- Heq in Hk. tauto.
Qed.

(** Every record is in the group of exactly one key. *)
Lemma group_sum (ts : list transaction) :
  Zsum (map (fun k => Zsum (map g (select keyf k ts))) (first_seen (map keyf ts)))
  = Zsum (map g ts).
Proof.
  unfold first_seen. rewrite group_sum_unseen. f_equal. f_equal.
  apply filter_all, Forall_forall. reflexivity.
Qed.

End GroupSums.

(** ** Top selling products *)

Lemma product_loop_group ts d :
  product_loop ts d = group_loop ProductName product_init product_add ts d.
Proof.
  revert d. induction ts as [|t rest IH]; intros d; simpl; [reflexivity|].
  destruct (amount t); simpl; [apply IH | reflexivity].
Qed.

Lemma product_fold_group sel s :
  fold_group product_add sel s =
  (tot <- accumulate sel (ProductStats.revenue s) ;;
   Returns {| ProductStats.quantity := ProductStats.quantity s + total_quantity sel;
              ProductStats.revenue := tot |}).
Proof.
  revert s. induction sel as [|t rest IH]; intros s; cbn [fold_group accumulate].
  - cbn [bind]. destruct s; cbn. rewrite Z.add_0_r. reflexivity.
  - destruct (amount t) as [a|e]; cbn [bind]; [|reflexivity].
    rewrite IH. cbn. destruct (accumulate rest _); cbn [bind]; [|reflexivity].
    unfold total_quantity. cbn [map Zsum]. do 2 f_equal. lia.
Qed.

Lemma product_stats_entry ts stats name acc :
  group_loop ProductName product_init product_add ts [] = Returns stats ->
  In (name, acc) stats ->
  select ProductName name ts <> [] /\
  exists rev,
    accumulate (select ProductName name ts) 0 = Returns rev /\
    acc = {| ProductStats.quantity := total_quantity (select ProductName name ts);
             ProductStats.revenue := rev |}.
Proof.
  intros Hstats Hin.
  pose proof (group_loop_spec _ _ _ _ _ Hstats) as [_ [_ Hentries]].
  destruct (Hentries _ _ Hin) as [Hne Hf]. split; [exact Hne|].
  rewrite product_fold_group in Hf. bind_inv Hf as rev Hrev. cbn in Hrev.
  inversion Hf. exists rev. auto.
Qed.

(** The result is a slice of the ranking: all the tuples, sorted. *)
Lemma top_selling_products_inv ts n res :
  top_selling_products ts n = Returns res ->
  exists stats,
    group_loop ProductName product_init product_add ts [] = Returns stats /\
    res = slice_to n (product_ranking stats).
Proof.
  unfold top_selling_products. intros H. bind_inv H as stats Hs.
  rewrite product_loop_group in Hs. inversion H. eauto.
Qed.

Lemma firstn_incl {A : Type} (k : nat) (l : list A) (a : A) :
  In a (firstn k l) -> In a l.
Proof.
  intros H. rewrite <- (firstn_skipn k l). apply in_or_app. left. exact H.
Qed.

Lemma slice_to_firstn {A : Type} (n : Z) (l : list A) :
  exists k, slice_to n l = firstn k l /\ (0 <= n -> k = Z.to_nat n).
Proof.
  unfold slice_to. destruct (n <? 0) eqn:E.
  - exists (Z.to_nat (len l + n)). split; [reflexivity|]. apply Z.ltb_lt in E. lia.
  - exists (Z.to_nat n). auto.
Qed.

Lemma slice_to_incl {A : Type} (n : Z) (l : list A) (a : A) :
  In a (slice_to n l) -> In a l.
Proof.
  destruct (slice_to_firstn n l) as [k [Hk _]]. rewrite Hk. apply firstn_incl.
Qed.

Lemma new_keys_length (seen l : list string) :
  (List.length (new_keys seen l) <= List.length l)%nat.
Proof.
  revert seen. induction l as [|k l IH]; intros seen; cbn [new_keys]; [lia|].
  destruct (mem k seen); cbn [List.length];
    [specialize (IH seen) | specialize (IH (k :: seen))]; lia.
Qed.

Lemma StronglySorted_app_pairs {A : Type} (R : A -> A -> Prop) (l1 l2 : list A) :
  StronglySorted R (l1 ++ l2) -> forall x y, In x l1 -> In y l2 -> R x y.
Proof.
  induction l1 as [|a l1 IH]; cbn [app]; intros Hs x y Hx Hy; [destruct Hx|].
  inversion Hs as [|? ? Hs' Hall]; subst. destruct Hx as [Hx|Hx].
  - subst x. rewrite Forall_forall in Hall. apply Hall, in_or_app. right. exact Hy.
  - apply IH; assumption.
Qed.

Lemma NoDup_firstn {A : Type} (k : nat) (l : list A) : NoDup l -> NoDup (firstn k l).
Proof.
  intros H. rewrite <- (firstn_skipn k l) in H. apply NoDup_app_remove_r in H. exact H.
Qed.

Lemma Z_ltb_asym (x y : Z) : (x <? y) = true -> (y <? x) = false.
Proof. intros H. apply Z.ltb_lt in H. apply Z.ltb_ge. lia. Qed.

Section TopSelling.

Variable ts : list transaction.
Variable stats : list (string * ProductStats.acc).
Hypothesis Hstats :
  group_loop ProductName product_init product_add ts [] = Returns stats.

Lemma groups_names :
  map tuple_name (map product_tuple stats) = distinct ProductName ts.
Proof.
  rewrite map_map.
  pose proof (group_loop_spec _ _ _ _ _ Hstats) as [Hkeys _]. exact Hkeys.
Qed.

Lemma ranking_perm : Permutation (product_ranking stats) (map product_tuple stats).
Proof. apply py_sorted_perm. Qed.

Lemma ranking_names_NoDup : NoDup (map tuple_name (product_ranking stats)).
Proof.
  apply (Permutation_NoDup (Permutation_sym (Permutation_map tuple_name ranking_perm))).
  rewrite groups_names. apply new_keys_NoDup.
Qed.

Lemma ranking_entry name qty rev :
  In (name, qty, rev) (product_ranking stats) ->
  select ProductName name ts <> [] /\
  qty = total_quantity (select ProductName name ts) /\
  accumulate (select ProductName name ts) 0 = Returns rev.
Proof.
  intros Hin. apply (Permutation_in _ ranking_perm) in Hin.
  apply in_map_iff in Hin. destruct Hin as [[name' acc] [He Hin]].
  unfold product_tuple in He. cbn in He. inversion He; subst name' qty rev; clear He.
  destruct (product_stats_entry _ _ _ _ Hstats Hin) as [Hne [rev [Hrev Hacc]]].
  subst acc. cbn. auto.
Qed.

Lemma ranking_sorted :
  StronglySorted (fun a b => tuple_quantity b <= tuple_quantity a)
                 (product_ranking stats).
Proof.
  apply Sorted_StronglySorted.
  - intros a b c Hab Hbc. lia.
  - eapply Sorted_impl; [|apply py_sorted_desc; exact Z_ltb_asym].
    intros a b Hab. unfold desc_pair in Hab. apply Z.ltb_ge in Hab. exact Hab.
Qed.

Lemma ranking_stable (q : Z) :
  filter (fun x => tuple_quantity x =? q) (product_ranking stats)
  = filter (fun x => tuple_quantity x =? q) (map product_tuple stats).
Proof.
  apply py_sorted_stable. intros x y Hx Hy.
  apply Z.eqb_eq in Hx, Hy. apply Z.ltb_ge. lia.
Qed.

Lemma ranking_length : len (product_ranking stats) = len (distinct ProductName ts).
Proof.
  unfold len. rewrite (Permutation_length ranking_perm).
  rewrite <- groups_names, !length_map. reflexivity.
Qed.

Lemma ranking_total :
  Zsum (map tuple_quantity (product_ranking stats)) = total_quantity ts.
Proof.
  rewrite (Zsum_perm _ _ (Permutation_map tuple_quantity ranking_perm)).
  unfold total_quantity. rewrite <- (group_sum ProductName Quantity ts).
  fold (distinct ProductName ts). rewrite <- groups_names.
  rewrite !map_map. f_equal. apply map_ext_in. intros [name acc] Hin.
  destruct (product_stats_entry _ _ _ _ Hstats Hin) as [_ [rev [_ Hacc]]].
  subst acc. reflexivity.
Qed.

Lemma ranking_full : slice_to (len ts) (product_ranking stats) = product_ranking stats.
Proof.
  unfold slice_to. pose proof (len_nonneg ts) as H0.
  destruct (len ts <? 0) eqn:E; [apply Z.ltb_lt in E; lia|].
  apply firstn_all2. pose proof ranking_length as Hl.
  unfold len, distinct, first_seen in *.
  pose proof (new_keys_length [] (map ProductName ts)) as Hn.
  rewrite length_map in Hn. lia.
Qed.

End TopSelling.

(** X8. [top_selling_products] lists a product name at most once.  The
    tuple of a product holds the sum of the quantities of its records and
    the sum of their amounts, added in the order of the input and not
    rounded. *)
Theorem top_selling_products_entries ts n res :
  top_selling_products ts n = Returns res ->
  NoDup (map tuple_name res) /\
  (forall name qty rev, In (name, qty, rev) res ->
     let mine := select ProductName name ts in
     mine <> [] /\
     qty = total_quantity mine /\
     accumulate mine 0 = Returns rev).
Proof.
  intros H. destruct (top_selling_products_inv _ _ _ H) as [stats [Hstats Hres]].
  subst res. split.
  - destruct (slice_to_firstn n (product_ranking stats)) as [k [Hk _]].
    rewrite Hk, <- firstn_map. apply NoDup_firstn.
    apply (ranking_names_NoDup ts stats Hstats).
  - intros name qty rev Hin. cbv zeta.
    apply slice_to_incl in Hin. apply (ranking_entry ts stats Hstats), Hin.
Qed.

(** X9. The result of [top_selling_products] is the slice [[:n]] of the
    ranking of all the products, which is what the function returns for an
    [n] as large as the input.  The ranking holds one tuple per product
    name, in descending order of quantity, products with equal quantities
    in the order of their first occurrence; its quantities add up to the
    quantity of the whole input.  For [n >= 0] no product that is left out
    has a greater quantity than one that is listed. *)
Theorem top_selling_products_ranking ts n res :
  top_selling_products ts n = Returns res ->
  exists ranking groups,
    top_selling_products ts (len ts) = Returns ranking /\
    res = slice_to n ranking /\
    map tuple_name groups = distinct ProductName ts /\
    Permutation ranking groups /\
    StronglySorted (fun a b => tuple_quantity b <= tuple_quantity a) ranking /\
    (forall q, filter (fun x => tuple_quantity x =? q) ranking
               = filter (fun x => tuple_quantity x =? q) groups) /\
    Zsum (map tuple_quantity ranking) = total_quantity ts /\
    (0 <= n -> forall x y, In x res -> In y ranking -> ~ In y res ->
               tuple_quantity y <= tuple_quantity x).
Proof.
  intros H. destruct (top_selling_products_inv _ _ _ H) as [stats [Hstats Hres]].
  exists (product_ranking stats), (map product_tuple stats).
  pose proof (ranking_sorted stats) as Hsorted.
  split; [|split; [exact Hres|split; [|split; [|split; [|split; [|split]]]]]].
  - unfold top_selling_products. rewrite product_loop_group, Hstats. cbn [bind].
    f_equal. apply (ranking_full ts stats Hstats).
  - apply (groups_names ts stats Hstats).
  - apply ranking_perm.
  - exact Hsorted.
  - apply ranking_stable.
  - apply (ranking_total ts stats Hstats).
  - intros Hn x y Hx Hy Hny. subst res.
    destruct (slice_to_firstn n (product_ranking stats)) as [k [Hk _]].
    rewrite Hk in *.
    rewrite <- (firstn_skipn k) in Hsorted, Hy.
    apply in_app_or in Hy. destruct Hy as [Hy|Hy]; [contradiction|].
    apply (StronglySorted_app_pairs _ _ _ Hsorted x y Hx Hy).
Qed.

(** X10. With [k] distinct product names, [top_selling_products] returns
    [min(n, k)] tuples for [n >= 0], hence at most [n], and [max(0, k + n)]
    for a negative [n], for which the slice drops the last [-n] tuples of
    the ranking.  For [0 <= n <= m] the result for [n] is the first [n]
    tuples of the result for [m]. *)
Theorem top_selling_products_size ts n res :
  top_selling_products ts n = Returns res ->
  let k := len (distinct ProductName ts) in
  len res = (if n <? 0 then Z.max 0 (k + n) else Z.min n k) /\
  (0 <= n -> len res <= n) /\
  (forall m more, 0 <= n -> n <= m ->
                  top_selling_products ts m = Returns more ->
                  res = slice_to n more).
Proof.
  intros H. cbv zeta.
  destruct (top_selling_products_inv _ _ _ H) as [stats [Hstats Hres]].
  pose proof (ranking_length ts stats Hstats) as Hlen.
  set (ranking := product_ranking stats) in *.
  assert (Hsize : len res = (if n <? 0 then Z.max 0 (len ranking + n)
                             else Z.min n (len ranking))).
  { subst res. unfold slice_to, len. destruct (n <? 0) eqn:E;
      rewrite length_firstn; [apply Z.ltb_lt in E | apply Z.ltb_ge in E]; lia. }
  split; [rewrite <- Hlen; exact Hsize|]. split.
  - intros Hn. rewrite Hsize. destruct (n <? 0) eqn:E; [apply Z.ltb_lt in E|]; lia.
  - intros m more Hn Hm Hmore.
    destruct (top_selling_products_inv _ _ _ Hmore) as [stats' [Hstats' Hres']].
    rewrite Hstats in Hstats'. inversion Hstats'; subst stats'; clear Hstats'.
    fold ranking in Hres'. subst res more. unfold slice_to.
    assert (En : (n <? 0) = false) by (apply Z.ltb_ge; lia).
    assert (Em : (m <? 0) = false) by (apply Z.ltb_ge; lia).
    rewrite En, Em, firstn_firstn. f_equal. lia.
Qed.

(** ** Sets of strings *)

Lemma set_add_In (x y : string) (s : list string) :
  In x (set_add y s) <-> x = y \/ In x s.
Proof.
  induction s as [|z s IH]; cbn [set_add].
  - cbn. intuition congruence.
  - destruct (String.eqb_spec y z) as [E|E].
    + subst z. cbn. intuition congruence.
    + cbn [In]. rewrite IH. intuition congruence.
Qed.

Lemma set_add_app (y : string) (s : list string) :
  set_add y s = if mem y s then s else s ++ [y].
Proof.
  unfold mem. induction s as [|z s IH]; cbn [set_add existsb]; [reflexivity|].
  destruct (String.eqb_spec y z) as [E|E]; cbn [orb app]; [reflexivity|].
  rewrite IH. destruct (existsb (String.eqb y) s); reflexivity.
Qed.

(** The set the loop collects holds the values in the order of their
    first occurrence. *)
Lemma collect_new_keys (f : transaction -> string) (sel : list transaction)
  (s : list string) :
  collect f sel s = s ++ new_keys s (map f sel).
Proof.
  revert s. induction sel as [|t sel IH]; intros s; cbn [collect map new_keys].
  - rewrite app_nil_r. reflexivity.
  - rewrite IH, set_add_app. destruct (mem (f t) s) eqn:E; [reflexivity|].
    rewrite <- app_assoc. cbn [app]. do 2 f_equal.
    apply new_keys_ext. intros x. unfold mem.
    rewrite existsb_app. cbn. rewrite orb_false_r. apply orb_comm.
Qed.

Lemma collect_distinct (f : transaction -> string) (sel : list transaction) :
  collect f sel [] = distinct f sel.
Proof. apply collect_new_keys. Qed.

Lemma distinct_NoDup (f : transaction -> string) (sel : list transaction) :
  NoDup (distinct f sel).
Proof. apply new_keys_NoDup. Qed.

Lemma distinct_In (f : transaction -> string) (sel : list transaction) (x : string) :
  In x (distinct f sel) <-> exists t, In t sel /\ f t = x.
Proof.
  unfold distinct, first_seen. split.
  - intros H. apply new_keys_not_seen in H. destruct H as [H _].
    apply in_map_iff in H. destruct H as [t [Ht Hin]]. eauto.
  - intros [t [Hin Ht]]. apply new_keys_complete; [|intros []].
    subst x. apply in_map, Hin.
Qed.

Lemma distinct_len (f : transaction -> string) (sel : list transaction) :
  len (distinct f sel) <= len sel /\ (sel <> [] -> 1 <= len (distinct f sel)).
Proof.
  split.
  - pose proof (new_keys_length [] (map f sel)) as H.
    rewrite length_map in H. unfold len, distinct, first_seen. lia.
  - intros Hne. apply len_pos_nonempty. unfold distinct.
    apply first_seen_nonempty. destruct sel; [congruence | discriminate].
Qed.

Lemma select_In (keyf : transaction -> string) (k : string)
  (ts : list transaction) (t : transaction) :
  In t (select keyf k ts) <-> In t ts /\ keyf t = k.
Proof.
  unfold select. rewrite filter_In. split; intros [H1 H2]; split;
    try assumption; apply String.eqb_eq; assumption.
Qed.

(** ** The groups of the three analyses *)

Lemma mapM_map_eq {A B C : Type} (f : A -> outcome B) (g : A -> C) (h : B -> C)
  (l : list A) (bs : list B) :
  (forall a b, f a = Returns b -> h b = g a) ->
  mapM f l = Returns bs -> map h bs = map g l.
Proof.
  intros Hf. revert bs. induction l as [|a l IH]; simpl; intros bs H.
  - inversion H; reflexivity.
  - bind_inv H as b0 Hb0. bind_inv H as bs0 Hbs0. inversion H; subst; clear H.
    simpl. rewrite (Hf _ _ Hb0). f_equal. apply IH, Hbs0.
Qed.

(** The counts of the groups add up to the number of records. *)
Lemma group_counts {V : Type} (keyf : transaction -> string)
  (count : V -> Z) (ts : list transaction) (stats : list (string * V)) :
  map fst stats = first_seen (map keyf ts) ->
  (forall k v, In (k, v) stats -> count v = len (select keyf k ts)) ->
  Zsum (map (fun e => count (snd e)) stats) = len ts.
Proof.
  intros Hkeys Hcount.
  rewrite <- (Zsum_ones ts), <- (group_sum keyf (fun _ => 1) ts), <- Hkeys.
  rewrite map_map. f_equal. apply map_ext_in. intros [k v] Hin.
  cbn [fst snd]. rewrite (Hcount _ _ Hin), Zsum_ones. reflexivity.
Qed.

(** *** Customers *)

Lemma customer_stats_entry ts stats c acc :
  group_loop CustomerID customer_init customer_add ts [] = Returns stats ->
  In (c, acc) stats ->
  select CustomerID c ts <> [] /\
  exists spent,
    accumulate (select CustomerID c ts) 0 = Returns spent /\
    acc = {| CustomerStats.acc_total_spent := spent;
             CustomerStats.acc_purchase_count := len (select CustomerID c ts);
             CustomerStats.products_set :=
               distinct ProductName (select CustomerID c ts) |}.
Proof.
  intros Hstats Hin.
  pose proof (group_loop_spec _ _ _ _ _ Hstats) as [_ [_ Hentries]].
  destruct (Hentries _ _ Hin) as [Hne Hf]. split; [exact Hne|].
  rewrite customer_fold_group in Hf. bind_inv Hf as spent Hs. cbn in Hs.
  exists spent. split; [exact Hs|]. inversion Hf. cbn.
  rewrite collect_distinct. reflexivity.
Qed.

Lemma customer_analysis_inv ts res :
  customer_analysis ts = Returns res ->
  exists stats final,
    group_loop CustomerID customer_init customer_add ts [] = Returns stats /\
    mapM customer_final stats = Returns final /\
    res = py_sorted PrimFloat.ltb
            (fun item => CustomerStats.total_spent (snd item)) true final.
Proof.
  unfold customer_analysis. intros H.
  bind_inv H as stats Hs. bind_inv H as final Hf.
  rewrite customer_loop_group in Hs. inversion H. eauto.
Qed.

Lemma customer_final_fields item entry :
  customer_final item = Returns entry ->
  fst entry = fst item /\
  CustomerStats.total_spent (snd entry)
  = PyFloat.round (CustomerStats.acc_total_spent (snd item)) 2 /\
  CustomerStats.purchase_count (snd entry)
  = CustomerStats.acc_purchase_count (snd item) /\
  CustomerStats.products_bought (snd entry) = CustomerStats.products_set (snd item).
Proof.
  destruct item as [c acc]. unfold customer_final. intros H.
  bind_inv H as avg Ha. inversion H. cbn. auto.
Qed.

Lemma customer_entry ts res c st :
  customer_analysis ts = Returns res -> In (c, st) res ->
  let mine := select CustomerID c ts in
  mine <> [] /\
  CustomerStats.purchase_count st = len mine /\
  CustomerStats.products_bought st = distinct ProductName mine /\
  exists spent, accumulate mine 0 = Returns spent /\
                CustomerStats.total_spent st = PyFloat.round spent 2.
Proof.
  intros H Hin. cbv zeta.
  destruct (customer_analysis_inv _ _ H) as [stats [final [Hstats [Hfinal Hres]]]].
  subst res. apply (Permutation_in _ (py_sorted_perm _ _ _ _)) in Hin.
  destruct (mapM_In _ _ _ _ Hfinal Hin) as [[c' acc] [Hin' Hf]].
  apply customer_final_fields in Hf. cbn in Hf.
  destruct Hf as [Hc [Ht [Hp Hb]]]. subst c'.
  destruct (customer_stats_entry _ _ _ _ Hstats Hin') as [Hne [spent [Hs Hacc]]].
  subst acc. cbn in *. repeat split; try assumption. eauto.
Qed.

(** X11. [customer_analysis] returns one entry per customer id of the
    input.  Where no rounded total is NaN the entries are in descending
    order of [total_spent], entries with equal totals in the order of the
    customers' first occurrence; no total is NaN for records with a
    positive quantity and a positive finite unit price. *)
Theorem customer_analysis_order ts res :
  customer_analysis ts = Returns res ->
  exists groups,
    map fst groups = distinct CustomerID ts /\
    Permutation res groups /\
    NoDup (map fst res) /\
    ((forall c st, In (c, st) res -> is_nan (CustomerStats.total_spent st) = false) ->
     StronglySorted
       (fun a b => (CustomerStats.total_spent (snd b)
                    <=? CustomerStats.total_spent (snd a))%float = true) res /\
     forall v,
       filter (fun e => (CustomerStats.total_spent (snd e) =? v)%float) res
       = filter (fun e => (CustomerStats.total_spent (snd e) =? v)%float) groups) /\
    (forallb positive_record ts = true ->
     forall c st, In (c, st) res -> is_nan (CustomerStats.total_spent st) = false).
Proof.
  intros H.
  destruct (customer_analysis_inv _ _ H) as [stats [final [Hstats [Hfinal Hres]]]].
  pose proof (group_loop_spec _ _ _ _ _ Hstats) as [Hkeys [Hnodup _]].
  assert (Hfst : map fst final = map fst stats).
  { apply (mapM_map_fst _ _ _ (fun a b Hab => proj1 (customer_final_fields a b Hab))
                        Hfinal). }
  exists final. split; [rewrite Hfst; exact Hkeys|].
  split; [subst res; apply py_sorted_perm|]. split; [|split].
  - subst res.
    apply (Permutation_NoDup
             (Permutation_sym (Permutation_map fst (py_sorted_perm _ _ true final)))).
    rewrite Hfst. exact Hnodup.
  - intros Hnan. subst res. split.
    + apply Sorted_StronglySorted.
      * intros a b c Hab Hbc. eapply FloatOrder.leb_trans; eassumption.
      * eapply Sorted_impl_In; [|apply py_sorted_desc; exact FloatOrder.ltb_asym].
        intros [ca a] [cb b] Ha Hb Hab. unfold desc_pair in Hab. cbn in *.
        apply FloatOrder.not_ltb_leb; eauto.
    + intros v. apply py_sorted_stable.
      intros x y Hx Hy. eapply FloatOrder.tie_not_ltb; eassumption.
  - intros Hpos c st Hin.
    destruct (customer_entry _ _ _ _ H Hin) as [_ [_ [_ [spent [Hs Ht]]]]].
    rewrite Ht. apply nonneg_not_nan, round_nonneg.
    apply (accumulate_nonneg _ 0%float spent
             (select_positive CustomerID c ts Hpos) eq_refl Hs).
Qed.

(** X12. In the entry of a customer, [products_bought] holds each product
    name of the customer's records once and nothing else, so it has at
    least one and at most [purchase_count] elements.  The purchase counts
    of all the entries add up to the number of records. *)
Theorem customer_products_and_counts ts res :
  customer_analysis ts = Returns res ->
  (forall c st, In (c, st) res ->
     NoDup (CustomerStats.products_bought st) /\
     (forall p, In p (CustomerStats.products_bought st) <->
                exists t, In t ts /\ CustomerID t = c /\ ProductName t = p) /\
     1 <= len (CustomerStats.products_bought st)
       <= CustomerStats.purchase_count st) /\
  Zsum (map (fun e => CustomerStats.purchase_count (snd e)) res) = len ts.
Proof.
  intros H. split.
  - intros c st Hin.
    destruct (customer_entry _ _ _ _ H Hin) as [Hne [Hcount [Hprod _]]].
    rewrite Hprod, Hcount. split; [apply distinct_NoDup|]. split.
    + intros p. rewrite distinct_In. split.
      * intros [t [Ht Hp]]. apply select_In in Ht. exists t. tauto.
      * intros [t [Ht [Hc Hp]]]. exists t. rewrite select_In. tauto.
    + pose proof (distinct_len ProductName (select CustomerID c ts)) as [H1 H2].
      specialize (H2 Hne). lia.
  - destruct (customer_analysis_inv _ _ H) as [stats [final [Hstats [Hfinal Hres]]]].
    pose proof (group_loop_spec _ _ _ _ _ Hstats) as [Hkeys _].
    subst res.
    rewrite (Zsum_perm _ _ (Permutation_map _ (py_sorted_perm _ _ true final))).
    rewrite (mapM_map_eq customer_final
               (fun e => CustomerStats.acc_purchase_count (snd e))
               (fun e => CustomerStats.purchase_count (snd e)) stats final
               (fun a b Hab => proj1 (proj2 (proj2 (customer_final_fields a b Hab))))
               Hfinal).
    apply (group_counts CustomerID CustomerStats.acc_purchase_count ts stats Hkeys).
    intros k v Hin.
    destruct (customer_stats_entry _ _ _ _ Hstats Hin) as [_ [spent [_ Hacc]]].
    subst v. reflexivity.
Qed.

(** *** Days *)

Lemma daily_stats_entry ts stats d acc :
  group_loop Date daily_init daily_add ts [] = Returns stats ->
  In (d, acc) stats ->
  select Date d ts <> [] /\
  exists tot,
    accumulate (select Date d ts) 0 = Returns tot /\
    acc = {| DailyStats.acc_revenue := tot;
             DailyStats.acc_transaction_count := len (select Date d ts);
             DailyStats.customers_set := distinct CustomerID (select Date d ts) |}.
Proof.
  intros Hstats Hin.
  pose proof (group_loop_spec _ _ _ _ _ Hstats) as [_ [_ Hentries]].
  destruct (Hentries _ _ Hin) as [Hne Hf]. split; [exact Hne|].
  rewrite daily_fold_group in Hf. bind_inv Hf as tot Hs. cbn in Hs.
  exists tot. split; [exact Hs|]. inversion Hf. cbn.
  rewrite collect_distinct. reflexivity.
Qed.

Lemma string_ltb_irrefl (s : string) : (s <? s)%string = false.
Proof.
  destruct (s <? s)%string eqn:E; [|reflexivity].
  pose proof (string_ltb_asym _ _ E). congruence.
Qed.

Lemma string_leb_ltb (s1 s2 : string) :
  (s1 <=? s2)%string = true -> s1 <> s2 -> (s1 <? s2)%string = true.
Proof.
  unfold String.leb, String.ltb. intros H Hne.
  destruct (String.compare s1 s2) eqn:E; try reflexivity; try discriminate.
  apply String.compare_eq_iff in E. contradiction.
Qed.

Lemma StronglySorted_strict {A : Type} (key : A -> string) (l : list A) :
  NoDup (map key l) ->
  StronglySorted (fun a b => (key a <=? key b)%string = true) l ->
  StronglySorted (fun a b => (key a <? key b)%string = true) l.
Proof.
  induction l as [|a l IH]; intros Hn Hs; [constructor|].
  inversion Hn as [|? ? Hnot Hn']; subst.
  inversion Hs as [|? ? Hs' Hall]; subst.
  constructor; [apply IH; assumption|].
  rewrite Forall_forall in *. intros b Hb.
  apply string_leb_ltb; [apply Hall, Hb|].
  intros E. apply Hnot. rewrite E. apply in_map, Hb.
Qed.

(** X13. [daily_sales_trend] returns one entry per date of the input, in
    strictly ascending order of the date strings.  The entry of a date
    counts the records of that date and the distinct customer ids among
    them, at least one and at most the number of records; the transaction
    counts of all the entries add up to the number of records. *)
Theorem daily_sales_trend_days ts trend :
  daily_sales_trend ts = Returns trend ->
  Permutation (map fst trend) (distinct Date ts) /\
  StronglySorted (fun a b => (fst a <? fst b)%string = true) trend /\
  (forall d e, In (d, e) trend ->
     let mine := select Date d ts in
     mine <> [] /\
     DailyStats.transaction_count e = len mine /\
     DailyStats.unique_customers e = len (distinct CustomerID mine) /\
     1 <= DailyStats.unique_customers e <= DailyStats.transaction_count e) /\
  Zsum (map (fun e => DailyStats.transaction_count (snd e)) trend) = len ts.
Proof.
  intros H. destruct (daily_trend_inv _ _ H) as [stats [Hstats Htrend]].
  pose proof (group_loop_spec _ _ _ _ _ Hstats) as [Hkeys [Hnodup _]].
  assert (Hfst : map fst (map daily_final stats) = map fst stats).
  { rewrite map_map. apply map_ext. intros [d acc]. reflexivity. }
  assert (Hperm : Permutation (map fst trend) (distinct Date ts)).
  { subst trend. unfold distinct. rewrite <- Hkeys, <- Hfst.
    apply Permutation_map, py_sorted_perm. }
  split; [exact Hperm|]. split; [|split].
  - apply StronglySorted_strict.
    + apply (Permutation_NoDup (Permutation_sym Hperm)), distinct_NoDup.
    + apply Sorted_StronglySorted.
      * intros a b c Hab Hbc. eapply string_leb_trans; eassumption.
      * subst trend.
        eapply Sorted_impl; [|apply py_sorted_asc; exact string_ltb_asym].
        intros a b Hab. apply string_not_ltb_leb, Hab.
  - intros d e Hin. cbv zeta. subst trend.
    apply (Permutation_in _ (py_sorted_perm _ _ _ _)) in Hin.
    apply in_map_iff in Hin. destruct Hin as [[d' acc] [Hfin Hin]].
    unfold daily_final in Hfin. inversion Hfin; subst d' e; clear Hfin.
    destruct (daily_stats_entry _ _ _ _ Hstats Hin) as [Hne [tot [_ Hacc]]].
    subst acc. cbn.
    pose proof (distinct_len CustomerID (select Date d ts)) as [H1 H2].
    specialize (H2 Hne). repeat split; try assumption; lia.
  - subst trend.
    rewrite (Zsum_perm _ _ (Permutation_map _ (py_sorted_perm _ _ false _))).
    rewrite map_map.
    rewrite (map_ext _ (fun e => DailyStats.acc_transaction_count (snd e)))
      by (intros [d acc]; reflexivity).
    apply (group_counts Date DailyStats.acc_transaction_count ts stats Hkeys).
    intros k v Hin.
    destruct (daily_stats_entry _ _ _ _ Hstats Hin) as [_ [tot [_ Hacc]]].
    subst v. reflexivity.
Qed.

(** *** Regions *)

Section RegionCounts.

Variable py_sum : list float -> float.

(** X14. [region_wise_sales] returns the empty mapping exactly when the
    total revenue compares equal to zero or the input is empty.  Its keys
    are distinct, and with a total that is not zero the transaction counts
    of the regions add up to the number of records. *)
Theorem region_counts_add_up ts total res :
  calculate_total_revenue py_sum ts = Returns total ->
  region_wise_sales py_sum ts = Returns res ->
  (res = [] <-> (total =? 0)%float = true \/ ts = []) /\
  NoDup (map fst res) /\
  ((total =? 0)%float = false ->
   Zsum (map (fun e => RegionStats.transaction_count (snd e)) res) = len ts).
Proof.
  intros Htotal Hres.
  destruct (total =? 0)%float eqn:Hz.
  - unfold region_wise_sales in Hres. rewrite Htotal in Hres. cbn [bind] in Hres.
    rewrite Hz in Hres. inversion Hres; subst res.
    split; [tauto|]. split; [constructor | discriminate].
  - destruct (region_wise_sales_nonzero py_sum _ _ Htotal Hz) as [stats [Hstats Hres']].
    rewrite Hres in Hres'. inversion Hres'; subst res; clear Hres'.
    pose proof (group_loop_spec _ _ _ _ _ Hstats) as [Hkeys [Hnodup _]].
    assert (Hfst : map fst (map (region_entry total) stats) = map fst stats).
    { rewrite map_map. reflexivity. }
    split; [|split].
    + split.
      * intros Hnil. right.
        pose proof (Permutation_length
                      (py_sorted_perm PrimFloat.ltb
                         (fun item => RegionStats.total_sales (snd item)) true
                         (map (region_entry total) stats))) as Hl.
        rewrite Hnil, length_map in Hl. destruct stats; [|discriminate].
        destruct ts as [|t ts]; [reflexivity|]. discriminate Hkeys.
      * intros [Ht|Ht]; [discriminate|]. subst ts. cbn in Hstats.
        inversion Hstats. reflexivity.
    + apply (Permutation_NoDup
               (Permutation_sym (Permutation_map fst (py_sorted_perm _ _ true _)))).
      rewrite Hfst. exact Hnodup.
    + intros _.
      rewrite (Zsum_perm _ _ (Permutation_map _ (py_sorted_perm _ _ true _))).
      rewrite map_map.
      apply (group_counts Region RegionStats.acc_transaction_count ts stats Hkeys).
      intros k v Hin.
      destruct (region_stats_entry _ _ _ _ Hstats Hin) as [tot [_ Hacc]].
      subst v. reflexivity.
Qed.

End RegionCounts.

(** ** The regions printed before filtering *)

Lemma region_set_collect (ts : list transaction) (s : list string) :
  region_set ts s
  = collect Region (filter (fun t => PyStr.truthy (Region t)) ts) s.
Proof.
  revert s. induction ts as [|t ts IH]; intros s; cbn [region_set filter];
    [reflexivity|].
  destruct (PyStr.truthy (Region t)); cbn [collect]; apply IH.
Qed.

(** A list of distinct strings has one sorted arrangement. *)
Lemma strictly_sorted_unique (l1 l2 : list string) :
  StronglySorted (fun a b => (a <? b)%string = true) l1 ->
  StronglySorted (fun a b => (a <? b)%string = true) l2 ->
  Permutation l1 l2 -> l1 = l2.
Proof.
  revert l2. induction l1 as [|a l1 IH]; intros l2 H1 H2 Hp.
  - apply Permutation_nil in Hp. congruence.
  - destruct l2 as [|b l2]; [apply Permutation_sym, Permutation_nil in Hp; discriminate|].
    inversion H1 as [|? ? H1' Ha]; subst. inversion H2 as [|? ? H2' Hb]; subst.
    rewrite Forall_forall in Ha, Hb.
    assert (Hab : a = b).
    { assert (Hina : In a (b :: l2)) by (apply (Permutation_in _ Hp); left; reflexivity).
      assert (Hinb : In b (a :: l1))
        by (apply (Permutation_in _ (Permutation_sym Hp)); left; reflexivity).
      destruct Hina as [Hina|Hina]; [congruence|].
      destruct Hinb as [Hinb|Hinb]; [congruence|].
      pose proof (string_ltb_asym _ _ (Ha _ Hinb)) as Hc.
      rewrite (Hb _ Hina) in Hc. discriminate. }
    subst b. f_equal. apply IH; try assumption.
    apply (Permutation_cons_inv Hp).
Qed.

Lemma sorted_strings_strict (l : list string) :
  NoDup l ->
  StronglySorted (fun a b => (a <? b)%string = true)
                 (py_sorted String.ltb (fun r => r) false l).
Proof.
  intros Hn. apply (StronglySorted_strict (fun r => r)).
  - rewrite map_id.
    apply (Permutation_NoDup (Permutation_sym (py_sorted_perm _ _ false l))), Hn.
  - apply Sorted_StronglySorted.
    + intros a b c Hab Hbc. eapply string_leb_trans; eassumption.
    + eapply Sorted_impl; [|apply py_sorted_asc; exact string_ltb_asym].
      intros a b Hab. apply string_not_ltb_leb, Hab.
Qed.

Lemma region_set_distinct (ts : list transaction) :
  region_set ts []
  = distinct Region (filter (fun t => PyStr.truthy (Region t)) ts).
Proof. rewrite region_set_collect. apply collect_distinct. Qed.

Lemma available_regions_In (valid : list transaction) (r : string) :
  In r (available_regions valid) <->
  r <> "" /\ exists t, In t valid /\ Region t = r.
Proof.
  unfold available_regions. rewrite region_set_distinct. split.
  - intros H. apply (Permutation_in _ (py_sorted_perm _ _ _ _)) in H.
    apply distinct_In in H. destruct H as [t [Ht Hr]].
    apply filter_In in Ht. destruct Ht as [Hin Htruthy]. subst r.
    split; [apply truthy_nonempty, Htruthy | eauto].
  - intros [Hne [t [Hin Hr]]].
    apply (Permutation_in _ (Permutation_sym (py_sorted_perm _ _ _ _))).
    apply distinct_In. exists t. split; [|exact Hr].
    apply filter_In. split; [exact Hin|]. subst r. apply truthy_nonempty, Hne.
Qed.

(** X15. The list of regions [validate_and_filter] prints before it
    filters holds the regions of the valid records, each once, in strictly
    ascending order; it is the same in whatever order the set yields its
    elements.  A region filter alone (a non-empty region, no bounds)
    returns records exactly for the regions of that list. *)
Theorem available_regions_spec (ts : list transaction) :
  let valid := filter is_valid ts in
  StronglySorted (fun a b => (a <? b)%string = true) (available_regions valid) /\
  (forall r, In r (available_regions valid) <->
             exists t, In t ts /\ is_valid t = true /\ Region t = r) /\
  (forall s, Permutation s (region_set valid []) ->
             py_sorted String.ltb (fun r => r) false s = available_regions valid) /\
  (forall r out inv s,
      r <> "" ->
      validate_and_filter ts (Some r) None None = Returns (out, inv, s) ->
      (out <> [] <-> In r (available_regions valid))).
Proof.
  cbv zeta.
  assert (Hnodup : NoDup (region_set (filter is_valid ts) [])).
  { rewrite region_set_distinct. apply distinct_NoDup. }
  split; [apply sorted_strings_strict, Hnodup|]. split; [|split].
  - intros r. rewrite available_regions_In. split.
    + intros [_ [t [Ht Hr]]]. apply filter_In in Ht. exists t. tauto.
    + intros [t [Hin [Hv Hr]]]. split.
      * subst r. unfold is_valid in Hv.
        repeat (apply andb_true_iff in Hv; destruct Hv as [Hv ?]).
        match goal with H : forallb _ _ = true |- _ =>
          cbn in H; repeat (apply andb_true_iff in H; destruct H as [? H]) end.
        apply truthy_nonempty. assumption.
      * exists t. split; [apply filter_In; auto | exact Hr].
  - intros s Hs. apply strictly_sorted_unique.
    + apply sorted_strings_strict.
      apply (Permutation_NoDup (Permutation_sym Hs)), Hnodup.
    + apply sorted_strings_strict, Hnodup.
    + eapply Permutation_trans; [apply py_sorted_perm|].
      eapply Permutation_trans; [exact Hs|].
      apply Permutation_sym, py_sorted_perm.
  - intros r out inv s Hne H.
    pose proof (validate_and_filter_kept _ _ _ _ _ _ _ H) as Hk.
    rewrite available_regions_In.
    assert (Hkept : forall t, kept (Some r) None None t
                              = is_valid t && (Region t =? r)%string).
    { intros t. unfold kept, region_ok, amount_ok. cbn.
      apply truthy_nonempty in Hne. rewrite Hne, andb_true_r. reflexivity. }
    split.
    + intros Hout. split; [exact Hne|].
      destruct out as [|t out]; [congruence|].
      assert (Hin : In t (filter (kept (Some r) None None) ts))
        by (rewrite <- Hk; left; reflexivity).
      apply filter_In in Hin. destruct Hin as [Hin Hkt].
      rewrite Hkept in Hkt. apply andb_true_iff in Hkt. destruct Hkt as [Hv Hr].
      exists t. split; [apply filter_In; auto | apply String.eqb_eq, Hr].
    + intros [_ [t [Hin Hr]]]. apply filter_In in Hin. destruct Hin as [Hin Hv].
      assert (Hin' : In t out).
      { rewrite Hk. apply filter_In. split; [exact Hin|].
        rewrite Hkept, Hv. apply String.eqb_eq, Hr. }
      intros E. rewrite E in Hin'. destruct Hin'.
Qed.

(** ** The low performers of the report *)

Lemma dict_set_update (k : string) (q : Z) (d : list (string * Z)) :
  dict_set k (dict_get_default k 0 d + q) d = Dict.update k 0 (fun v => v + q) d.
Proof.
  unfold dict_get_default.
  induction d as [|[k' v] d IH]; cbn [dict_set Dict.update Dict.get]; [reflexivity|].
  destruct (k =? k')%string eqn:E; [reflexivity|].
  f_equal. rewrite <- IH. clear IH.
  generalize (match Dict.get k d with Some v0 => v0 | None => 0 end + q).
  intros z. reflexivity.
Qed.

Lemma product_sales_keys (ts : list transaction) (d : list (string * Z)) :
  map fst (product_sales_loop ts d)
  = map fst d ++ new_keys (map fst d) (map ProductName ts).
Proof.
  revert d. induction ts as [|t ts IH]; intros d; cbn [product_sales_loop map new_keys].
  - rewrite app_nil_r. reflexivity.
  - rewrite dict_set_update, IH, update_keys.
    destruct (mem (ProductName t) (map fst d)) eqn:E; [reflexivity|].
    rewrite <- app_assoc. cbn [app]. do 2 f_equal.
    apply new_keys_ext. intros x. unfold mem.
    rewrite existsb_app. cbn. rewrite orb_false_r. apply orb_comm.
Qed.

Lemma product_sales_get (ts : list transaction) (d : list (string * Z)) (k : string) :
  Dict.get k (product_sales_loop ts d) =
  match Dict.get k d, select ProductName k ts with
  | None, [] => None
  | None, sel => Some (total_quantity sel)
  | Some v, sel => Some (v + total_quantity sel)
  end.
Proof.
  revert d. induction ts as [|t ts IH]; intros d.
  - cbn. destruct (Dict.get k d); [f_equal; lia | reflexivity].
  - cbn [product_sales_loop]. rewrite dict_set_update, IH, get_update.
    unfold select. cbn [filter]. rewrite (String.eqb_sym (ProductName t) k).
    destruct (k =? ProductName t)%string eqn:E.
    + apply String.eqb_eq in E. subst k.
      fold (select ProductName (ProductName t) ts).
      unfold total_quantity. cbn [map Zsum].
      destruct (Dict.get (ProductName t) d) as [v|];
        destruct (select ProductName (ProductName t) ts); cbn [map Zsum];
        f_equal; lia.
    + reflexivity.
Qed.

Lemma product_sales_entry (ts : list transaction) (name : string) (qty : Z) :
  In (name, qty) (product_sales_loop ts []) ->
  select ProductName name ts <> [] /\
  qty = total_quantity (select ProductName name ts).
Proof.
  intros Hin.
  assert (Hg : Dict.get name (product_sales_loop ts []) = Some qty).
  { apply get_In; [|exact Hin]. rewrite product_sales_keys. apply new_keys_NoDup. }
  rewrite product_sales_get in Hg. cbn [Dict.get] in Hg.
  destruct (select ProductName name ts); [discriminate|].
  split; [discriminate | congruence].
Qed.

(** X16. The low performers of the report: at most three products, each
    once, in ascending order of quantity, with the sum of the quantities
    of the product's records; no product that is left out has a smaller
    quantity than one that is listed.  The quantities are those
    [top_selling_products] reports for the same products. *)
Theorem low_performers_spec (ts : list transaction) :
  len (low_performers ts) = Z.min 3 (len (distinct ProductName ts)) /\
  NoDup (map fst (low_performers ts)) /\
  StronglySorted (fun a b => snd a <= snd b) (low_performers ts) /\
  (forall name qty, In (name, qty) (low_performers ts) ->
     select ProductName name ts <> [] /\
     qty = total_quantity (select ProductName name ts)) /\
  (forall name, In name (map ProductName ts) ->
     ~ In name (map fst (low_performers ts)) ->
     forall e, In e (low_performers ts) ->
       snd e <= total_quantity (select ProductName name ts)) /\
  (forall ranking, top_selling_products ts (len ts) = Returns ranking ->
     forall name qty, In (name, qty) (low_performers ts) ->
       exists rev, In (name, qty, rev) ranking).
Proof.
  unfold low_performers. cbv zeta.
  set (sales := product_sales_loop ts []).
  set (sorted := py_sorted Z.ltb snd false sales).
  assert (Hperm : Permutation sorted sales) by apply py_sorted_perm.
  assert (Hkeys : map fst sales = distinct ProductName ts).
  { unfold sales. rewrite product_sales_keys. reflexivity. }
  assert (Hnodup : NoDup (map fst sorted)).
  { apply (Permutation_NoDup (Permutation_sym (Permutation_map fst Hperm))).
    rewrite Hkeys. apply distinct_NoDup. }
  assert (Hsorted : StronglySorted (fun a b => snd a <= snd b) sorted).
  { apply Sorted_StronglySorted.
    - intros a b c Hab Hbc. lia.
    - eapply Sorted_impl; [|apply py_sorted_asc; exact Z_ltb_asym].
      intros a b Hab. unfold asc_pair in Hab. apply Z.ltb_ge in Hab. exact Hab. }
  assert (Hentry : forall name qty, In (name, qty) sorted ->
            select ProductName name ts <> [] /\
            qty = total_quantity (select ProductName name ts)).
  { intros name qty Hin. apply (Permutation_in _ Hperm) in Hin.
    apply product_sales_entry, Hin. }
  assert (Hslice : slice_to 3 sorted = firstn 3 sorted) by reflexivity.
  rewrite Hslice.
  split; [|split; [|split; [|split; [|split]]]].
  - unfold len. rewrite length_firstn, (Permutation_length Hperm).
    rewrite <- Hkeys, length_map. lia.
  - rewrite <- firstn_map. apply NoDup_firstn, Hnodup.
  - rewrite <- (firstn_skipn 3 sorted) in Hsorted.
    clear -Hsorted. revert Hsorted. generalize (firstn 3 sorted) (skipn 3 sorted).
    intros l1 l2. induction l1 as [|a l1 IH]; cbn [app]; intros H; [constructor|].
    inversion H as [|? ? Hs Hall]; subst. constructor; [apply IH, Hs|].
    rewrite Forall_forall in *. intros x Hx. apply Hall, in_or_app. left. exact Hx.
  - intros name qty Hin. apply Hentry, (firstn_incl 3), Hin.
  - intros name Hname Hnot e He.
    assert (Hin : In name (map fst sorted)).
    { apply (Permutation_in _ (Permutation_sym (Permutation_map fst Hperm))).
      rewrite Hkeys. apply distinct_In.
      apply in_map_iff in Hname. destruct Hname as [t [Ht Hin]]. eauto. }
    apply in_map_iff in Hin. destruct Hin as [[name' qty] [Hn Hin]].
    cbn in Hn. subst name'.
    destruct (Hentry _ _ Hin) as [_ Hq]. rewrite <- Hq.
    rewrite <- (firstn_skipn 3 sorted) in Hsorted, Hin.
    apply in_app_or in Hin. destruct Hin as [Hin|Hin].
    + exfalso. apply Hnot. apply in_map_iff. exists (name, qty). auto.
    + apply (StronglySorted_app_pairs _ _ _ Hsorted e (name, qty) He Hin).
  - intros ranking Hrank name qty Hin.
    apply (firstn_incl 3), Hentry in Hin. destruct Hin as [Hne Hq].
    destruct (top_selling_products_inv _ _ _ Hrank) as [stats [Hstats Hres]].
    rewrite (ranking_full ts stats Hstats) in Hres.
    pose proof (group_loop_spec _ _ _ _ _ Hstats) as [Hk _].
    assert (Hin : In name (map fst stats)).
    { rewrite Hk. apply (distinct_In ProductName).
      destruct (select ProductName name ts) as [|t sel] eqn:E; [congruence|].
      exists t. apply (select_In ProductName name ts t). rewrite E. left. reflexivity. }
    apply in_map_iff in Hin. destruct Hin as [[name' acc] [Hn Hin]].
    cbn in Hn. subst name'.
    destruct (product_stats_entry _ _ _ _ Hstats Hin) as [_ [rev [_ Hacc]]].
    exists rev. subst ranking.
    apply (Permutation_in _ (Permutation_sym (py_sorted_perm _ _ _ _))).
    apply in_map_iff. exists (name, acc). split; [|exact Hin].
    subst acc qty. reflexivity.
Qed.

(** ** The product mapping *)

Lemma product_key_eqb_eq (a b : product_key) :
  product_key_eqb a b = true <-> a = b.
Proof.
  destruct a as [n|s], b as [m|r]; cbn; try (split; discriminate).
  - rewrite Z.eqb_eq. split; congruence.
  - rewrite String.eqb_eq. split; congruence.
Qed.

Lemma product_key_eqb_refl (a : product_key) : product_key_eqb a a = true.
Proof. apply product_key_eqb_eq. reflexivity. Qed.

Lemma product_key_eqb_trans (a b c : product_key) :
  product_key_eqb a b = true -> product_key_eqb a c = product_key_eqb b c.
Proof. intros H. apply product_key_eqb_eq in H. subst. reflexivity. Qed.

Lemma product_get_set (k k0 : product_key) (v : product_info) (m : product_mapping) :
  product_get k (product_set k0 v m) =
  if product_key_eqb k k0 then Some v else product_get k m.
Proof.
  induction m as [|[k' v'] m IH]; cbn [product_set product_get]; [reflexivity|].
  destruct (product_key_eqb k0 k') eqn:E; cbn [product_get].
  - apply product_key_eqb_eq in E. subst k'.
    destruct (product_key_eqb k k0); reflexivity.
  - rewrite IH. destruct (product_key_eqb k k') eqn:E1; [|reflexivity].
    apply product_key_eqb_eq in E1. subst k'.
    destruct (product_key_eqb k k0) eqn:E2; [|reflexivity].
    apply product_key_eqb_eq in E2. subst k0.
    rewrite product_key_eqb_refl in E. discriminate.
Qed.

Lemma product_set_keys (k : product_key) (v : product_info) (m : product_mapping) :
  map fst (product_set k v m) =
  if existsb (product_key_eqb k) (map fst m) then map fst m else map fst m ++ [k].
Proof.
  induction m as [|[k' v'] m IH]; cbn [product_set map fst existsb app]; [reflexivity|].
  destruct (product_key_eqb k k'); cbn [map fst orb]; [reflexivity|].
  rewrite IH. destruct (existsb (product_key_eqb k) (map fst m)); reflexivity.
Qed.

Lemma mapping_loop_get (k : product_key) (ps : list api_product) (m : product_mapping) :
  product_get k (mapping_loop ps m) =
  match last_info k ps with
  | Some v => Some v
  | None => product_get k m
  end.
Proof.
  revert m. induction ps as [|p ps IH]; intros m; cbn [mapping_loop last_info];
    [reflexivity|].
  unfold has_id. destruct (p_id p) as [k0|]; rewrite IH.
  - destruct (last_info k ps); [reflexivity|]. rewrite product_get_set.
    destruct (product_key_eqb k k0); reflexivity.
  - destruct (last_info k ps); reflexivity.
Qed.

Lemma new_ids_ext (s1 s2 : list product_key) (ps : list api_product) :
  (forall k, existsb (product_key_eqb k) s1 = existsb (product_key_eqb k) s2) ->
  new_ids s1 ps = new_ids s2 ps.
Proof.
  revert s1 s2. induction ps as [|p ps IH]; intros s1 s2 H; cbn [new_ids];
    [reflexivity|].
  destruct (p_id p) as [k|]; [|apply IH, H].
  rewrite (H k). destruct (existsb (product_key_eqb k) s2); [apply IH, H|].
  f_equal. apply IH. intros x. cbn [existsb]. rewrite H. reflexivity.
Qed.

Lemma mapping_loop_keys (ps : list api_product) (m : product_mapping) :
  map fst (mapping_loop ps m) = map fst m ++ new_ids (map fst m) ps.
Proof.
  revert m. induction ps as [|p ps IH]; intros m; cbn [mapping_loop new_ids].
  - rewrite app_nil_r. reflexivity.
  - destruct (p_id p) as [k|]; [|apply IH].
    rewrite IH, product_set_keys.
    destruct (existsb (product_key_eqb k) (map fst m)) eqn:E; [reflexivity|].
    rewrite <- app_assoc. cbn [app]. do 2 f_equal.
    apply new_ids_ext. intros x.
    rewrite existsb_app. cbn [existsb]. rewrite orb_false_r. apply orb_comm.
Qed.

Lemma existsb_key_In (k : product_key) (l : list product_key) :
  existsb (product_key_eqb k) l = true <-> In k l.
Proof.
  rewrite existsb_exists. split.
  - intros [x [Hx He]]. apply product_key_eqb_eq in He. subst. exact Hx.
  - intros H. exists k. split; [exact H | apply product_key_eqb_refl].
Qed.

Lemma new_ids_not_seen (seen : list product_key) (ps : list api_product)
  (k : product_key) :
  In k (new_ids seen ps) -> ~ In k seen.
Proof.
  revert seen. induction ps as [|p ps IH]; intros seen; cbn [new_ids]; [tauto|].
  destruct (p_id p) as [k0|]; [|apply IH].
  destruct (existsb (product_key_eqb k0) seen) eqn:E; [apply IH|].
  intros [H|H].
  - subst k0. rewrite <- existsb_key_In. congruence.
  - apply IH in H. cbn in H. tauto.
Qed.

Lemma new_ids_NoDup (seen : list product_key) (ps : list api_product) :
  NoDup (new_ids seen ps).
Proof.
  revert seen. induction ps as [|p ps IH]; intros seen; cbn [new_ids]; [constructor|].
  destruct (p_id p) as [k|]; [|apply IH].
  destruct (existsb (product_key_eqb k) seen); [apply IH|].
  constructor; [|apply IH].
  intros H. apply new_ids_not_seen in H. cbn in H. tauto.
Qed.

Lemma new_ids_length (seen : list product_key) (ps : list api_product) :
  (List.length (new_ids seen ps) <= List.length ps)%nat.
Proof.
  revert seen. induction ps as [|p ps IH]; intros seen; cbn [new_ids List.length];
    [lia|].
  destruct (p_id p) as [k|]; [|specialize (IH seen); lia].
  destruct (existsb (product_key_eqb k) seen); cbn [List.length];
    [specialize (IH seen) | specialize (IH (k :: seen))]; lia.
Qed.

Lemma last_info_some (k : product_key) (ps : list api_product) :
  is_some (last_info k ps) = existsb (has_id k) ps.
Proof.
  induction ps as [|p ps IH]; cbn [last_info existsb]; [reflexivity|].
  rewrite <- IH. destruct (last_info k ps); cbn [is_some].
  - rewrite orb_true_r. reflexivity.
  - rewrite orb_false_r. destruct (has_id k p); reflexivity.
Qed.

Lemma create_product_mapping_get (api_products : list api_product) (k : product_key) :
  product_get k (create_product_mapping api_products) = last_info k api_products.
Proof.
  unfold create_product_mapping. rewrite mapping_loop_get.
  destruct (last_info k api_products); reflexivity.
Qed.

(** X17. In the mapping [create_product_mapping] builds, an id is mapped
    to the values of the last product of the list that has this id, and an
    id no product has is not a key.  The keys are the ids in the order of
    their first occurrence, each once; products without an id are skipped,
    so the mapping has at most as many entries as the list has products. *)
Theorem create_product_mapping_lookup (api_products : list api_product) :
  (forall k, product_get k (create_product_mapping api_products)
             = last_info k api_products) /\
  map fst (create_product_mapping api_products) = new_ids [] api_products /\
  NoDup (map fst (create_product_mapping api_products)) /\
  len (create_product_mapping api_products) <= len api_products.
Proof.
  unfold create_product_mapping.
  pose proof (mapping_loop_keys api_products []) as Hkeys. cbn [map app] in Hkeys.
  split; [|split; [exact Hkeys|split]].
  - intros k. apply create_product_mapping_get.
  - rewrite Hkeys. apply new_ids_NoDup.
  - pose proof (new_ids_length [] api_products) as Hl.
    rewrite <- Hkeys, length_map in Hl. unfold len. lia.
Qed.

(** ** Enrichment with the mapping of a product list *)

Section EnrichmentWithMapping.

Variable to_int : string -> option Z.

Lemma matched_info_lookup_key (product_map : product_mapping) (t : transaction) :
  matched_info to_int product_map t = product_get (lookup_key to_int t) product_map.
Proof.
  unfold matched_info, lookup_key.
  destruct (to_int (PyStr.replace "P" "" (ProductID t))); reflexivity.
Qed.

(** X18. Enrichment with the mapping built from a product list: the record
    itself is unchanged; it gets the values of the last product whose id
    is the key looked up for it, and is flagged [enriched = true] exactly
    when the list has a product with that id.  With an empty product list
    (the API gave nothing) every record is kept and flagged
    [enriched = false]. *)
Theorem enrichment_with_product_list (api_products : list api_product)
  (t : transaction) :
  let e := enrich to_int (create_product_mapping api_products) t in
  base e = t /\
  info e = last_info (lookup_key to_int t) api_products /\
  (enriched e = true <->
   exists p, In p api_products /\ p_id p = Some (lookup_key to_int t)) /\
  (forall valid_transactions,
      enrich_all to_int (create_product_mapping []) valid_transactions
      = map (fun t => {| base := t; info := None; enriched := false |})
            valid_transactions).
Proof.
  cbv zeta.
  assert (Hm : matched_info to_int (create_product_mapping api_products) t
               = last_info (lookup_key to_int t) api_products).
  { rewrite matched_info_lookup_key.
    apply create_product_mapping_get. }
  unfold enrich. rewrite Hm.
  pose proof (last_info_some (lookup_key to_int t) api_products) as Hs.
  split; [|split; [|split]].
  - destruct (last_info _ _); reflexivity.
  - destruct (last_info _ _); reflexivity.
  - assert (He : existsb (has_id (lookup_key to_int t)) api_products = true <->
                 exists p, In p api_products /\ p_id p = Some (lookup_key to_int t)).
    { rewrite existsb_exists. split; intros [p [Hin Hp]]; exists p; split;
        try exact Hin; unfold has_id in *.
      - destruct (p_id p) as [k|]; [|discriminate].
        apply product_key_eqb_eq in Hp. congruence.
      - rewrite Hp. apply product_key_eqb_refl. }
    rewrite <- He, <- Hs. destruct (last_info _ _); cbn; split; congruence.
  - intros valid_transactions. unfold enrich_all. apply map_ext. intros t0.
    unfold enrich. rewrite matched_info_lookup_key. reflexivity.
Qed.

End EnrichmentWithMapping.

(** ** Integers as floats

    The conversion of a positive integer below [2^63] gives a positive
    finite float: it neither overflows nor rounds to zero. *)

Lemma shr_1_half mrs :
  0 <= shr_m mrs ->
  0 <= shr_m (shr_1 mrs) /\
  2 * shr_m (shr_1 mrs) <= shr_m mrs < 2 * (shr_m (shr_1 mrs) + 1).
Proof.
  destruct mrs as [m r s]. cbn. destruct m as [|[p|p|]|p]; cbn; lia.
Qed.

Lemma iter_shr_1_div (p : positive) mrs :
  0 <= shr_m mrs ->
  0 <= shr_m (iter_pos shr_1 p mrs) /\
  2 ^ Zpos p * shr_m (iter_pos shr_1 p mrs) <= shr_m mrs
  < 2 ^ Zpos p * (shr_m (iter_pos shr_1 p mrs) + 1).
Proof.
  revert mrs. induction p as [p IH|p IH|]; intros mrs H; cbn [iter_pos].
  - destruct (shr_1_half mrs H) as [H0 H1].
    destruct (IH _ H0) as [H2 H3]. destruct (IH _ H2) as [H4 H5].
    split; [exact H4|].
    replace (Zpos p~1) with (Zpos p + Zpos p + 1) by lia.
    rewrite !Z.pow_add_r by lia. change (2 ^ 1) with 2.
    assert (Hp : 0 < 2 ^ Zpos p) by (apply Z.pow_pos_nonneg; lia).
    set (P := 2 ^ Zpos p) in *. nia.
  - destruct (IH _ H) as [H2 H3]. destruct (IH _ H2) as [H4 H5].
    split; [exact H4|].
    replace (Zpos p~0) with (Zpos p + Zpos p) by lia.
    rewrite !Z.pow_add_r by lia.
    assert (Hp : 0 < 2 ^ Zpos p) by (apply Z.pow_pos_nonneg; lia).
    set (P := 2 ^ Zpos p) in *. nia.
  - change (2 ^ 1) with 2. apply shr_1_half, H.
Qed.

Lemma digits2_pos_bounds (p : positive) :
  2 ^ (Zpos (digits2_pos p) - 1) <= Zpos p < 2 ^ Zpos (digits2_pos p).
Proof.
  induction p as [p IH|p IH|]; cbn [digits2_pos]; [| |cbn; lia].
  - rewrite Pos2Z.inj_succ.
    replace (Z.succ (Zpos (digits2_pos p)) - 1) with (Z.succ (Zpos (digits2_pos p) - 1)) by lia.
    rewrite !Z.pow_succ_r by lia. lia.
  - rewrite Pos2Z.inj_succ.
    replace (Z.succ (Zpos (digits2_pos p)) - 1) with (Z.succ (Zpos (digits2_pos p) - 1)) by lia.
    rewrite !Z.pow_succ_r by lia. lia.
Qed.

Lemma digits2_pos_le (p : positive) (k : Z) :
  0 <= k -> Zpos p < 2 ^ k -> Zpos (digits2_pos p) <= k.
Proof.
  intros Hk Hp. pose proof (digits2_pos_bounds p) as [Hl _].
  destruct (Z.le_gt_cases (Zpos (digits2_pos p)) k) as [H|H]; [exact H|].
  exfalso. assert (2 ^ k <= 2 ^ (Zpos (digits2_pos p) - 1))
    by (apply Z.pow_le_mono_r; lia). lia.
Qed.

Lemma iter_xO_value (m d : positive) : Zpos (Pos.iter xO m d) = Zpos m * 2 ^ Zpos d.
Proof.
  induction d as [|d IH] using Pos.peano_ind.
  - cbn. lia.
  - rewrite Pos.iter_succ, Pos2Z.inj_succ, Z.pow_succ_r by lia.
    rewrite Pos2Z.inj_xO, IH. lia.
Qed.

(** One shift: a mantissa >= 1 with an exponent >= emin stays >= 1. *)
Lemma shr_fexp_positive (m e : Z) (l : location) :
  1 <= m -> emin <= e ->
  let r := shr_fexp prec emax m e l in
  1 <= shr_m (fst r) <= m /\
  emin <= snd r <= Z.max e (Zdigits2 m + e - prec).
Proof.
  intros Hm He. cbv zeta. unfold shr_fexp, shr.
  assert (H0 : shr_m (shr_record_of_loc m l) = m).
  { destruct l as [|[| |]]; reflexivity. }
  destruct m as [|p|p]; try lia. cbn [Zdigits2].
  pose proof (digits2_pos_bounds p) as [Hd1 Hd2].
  set (d := Zpos (digits2_pos p)) in *.
  assert (Hdpos : 1 <= d) by (unfold d; lia).
  unfold fexp. unfold SpecFloat.emin, prec, emax in *.
  destruct (Z.max (d + e - 53) (3 - 1024 - 53) - e) as [|k|k] eqn:Ek;
    cbn [fst snd]; rewrite ?H0; try lia.
  destruct (iter_shr_1_div k (shr_record_of_loc (Zpos p) l)) as [H1 H2];
    [rewrite H0; lia|].
  rewrite H0 in H2.
  assert (Hk : Zpos k <= d - 1) by lia.
  assert (Hpow : 2 ^ Zpos k <= 2 ^ (d - 1)) by (apply Z.pow_le_mono_r; lia).
  assert (Hp : 0 < 2 ^ Zpos k) by (apply Z.pow_pos_nonneg; lia).
  set (P := 2 ^ Zpos k) in *.
  set (m' := shr_m (iter_pos shr_1 k (shr_record_of_loc (Zpos p) l))) in *.
  split; [|lia]. nia.
Qed.

Lemma round_nearest_even_bounds (m : Z) (l : location) :
  m <= round_nearest_even m l <= m + 1.
Proof.
  unfold round_nearest_even. destruct l as [|[| |]]; try destruct (Z.even m); lia.
Qed.

Lemma Zdigits2_le (m k : Z) : 0 <= k -> 0 <= m < 2 ^ k -> Zdigits2 m <= k.
Proof.
  intros Hk Hm. destruct m as [|p|p]; cbn [Zdigits2]; try lia.
  apply digits2_pos_le; lia.
Qed.

(** Rounding a mantissa below [2^63] with an exponent in [emin, 0]. *)
Lemma binary_round_aux_small (m e : Z) :
  1 <= m < 2 ^ 63 -> emin <= e <= 0 ->
  exists m' e', binary_round_aux prec emax false m e loc_Exact = S754_finite false m' e'.
Proof.
  intros Hm He. unfold binary_round_aux.
  pose proof (shr_fexp_positive m e loc_Exact ltac:(lia) ltac:(lia)) as H1.
  cbv zeta in H1.
  destruct (shr_fexp prec emax m e loc_Exact) as [mrs1 e1]. cbn [fst snd] in H1.
  pose proof (round_nearest_even_bounds (shr_m mrs1) (loc_of_shr_record mrs1)) as Hr.
  set (m2 := round_nearest_even (shr_m mrs1) (loc_of_shr_record mrs1)) in *.
  pose proof (shr_fexp_positive m2 e1 loc_Exact ltac:(lia) ltac:(lia)) as H2.
  cbv zeta in H2.
  destruct (shr_fexp prec emax m2 e1 loc_Exact) as [mrs3 e3]. cbn [fst snd] in H2.
  assert (Hd1 : Zdigits2 m <= 63) by (apply Zdigits2_le; lia).
  assert (Hd2 : Zdigits2 m2 <= 64).
  { apply Zdigits2_le; [lia|]. change (2 ^ 64) with (2 * 2 ^ 63). lia. }
  destruct (shr_m mrs3) as [|p|p] eqn:E; try lia.
  unfold prec, emax in *.
  assert (He3 : (e3 <=? 1024 - 53) = true) by (apply Z.leb_le; lia).
  rewrite He3. eauto.
Qed.

Lemma binary_normalize_small (n : Z) :
  1 <= n < 2 ^ 63 ->
  exists m e, binary_normalize prec emax n 0 false = S754_finite false m e.
Proof.
  intros Hn. destruct n as [|p|p]; try lia. cbn [binary_normalize].
  unfold binary_round, shl_align.
  pose proof (digits2_pos_bounds p) as [Hd1 Hd2].
  assert (Hd : Zpos (digits2_pos p) <= 63) by (apply digits2_pos_le; lia).
  set (d := Zpos (digits2_pos p)) in *.
  unfold fexp, SpecFloat.emin, prec, emax.
  destruct (Z.max (d + 0 - 53) (3 - 1024 - 53) - 0) as [|k|k] eqn:Ek.
  - apply binary_round_aux_small; unfold SpecFloat.emin, prec, emax; lia.
  - apply binary_round_aux_small; unfold SpecFloat.emin, prec, emax; lia.
  - apply binary_round_aux_small; [|unfold SpecFloat.emin, prec, emax; lia].
    rewrite iter_xO_value. split; [nia|].
    assert (Hk : Zpos k = 53 - d) by lia.
    assert (Hpow : 2 ^ d * 2 ^ Zpos k = 2 ^ 53).
    { rewrite <- Z.pow_add_r by lia. f_equal. lia. }
    assert (Hp : 0 < 2 ^ Zpos k) by (apply Z.pow_pos_nonneg; lia).
    assert (2 ^ 53 < 2 ^ 63) by (apply Z.pow_lt_mono_r; lia).
    nia.
Qed.

(** [float(n)] for [1 <= n < 2^63]. *)
Lemma of_int_small (n : Z) :
  1 <= n < 2 ^ 63 ->
  exists q m e, PyFloat.of_int n = Returns q /\ Prim2SF q = S754_finite false m e.
Proof.
  intros Hn. destruct (binary_normalize_small n Hn) as [m [e Hsf]].
  exists (SF2Prim (S754_finite false m e)), m, e.
  unfold PyFloat.of_int. rewrite Hsf. split; [reflexivity|].
  apply Prim2SF_SF2Prim. rewrite <- Hsf.
  assert (Hz : Uint63.to_Z (Uint63.of_Z n) = n).
  { rewrite Uint63.of_Z_spec. apply Z.mod_small.
    change Uint63.wB with (2 ^ 63). lia. }
  rewrite <- Hz at 1. rewrite <- of_uint63_spec. apply Prim2SF_valid.
Qed.

(** ** Calls that return *)

Lemma of_int_small_nonzero (n : Z) :
  1 <= n < 2 ^ 63 ->
  exists q, PyFloat.of_int n = Returns q /\ (q =? 0)%float = false.
Proof.
  intros Hn. destruct (of_int_small n Hn) as [q [m [e [Hq Hsf]]]].
  exists q. split; [exact Hq|]. rewrite eqb_spec, Hsf. reflexivity.
Qed.

Lemma amount_small (t : transaction) :
  1 <= Quantity t < 2 ^ 63 -> exists a, amount t = Returns a.
Proof.
  intros H. destruct (of_int_small_nonzero _ H) as [q [Hq _]].
  unfold amount. rewrite Hq. cbn [bind]. eauto.
Qed.

Lemma is_valid_quantity (t : transaction) : is_valid t = true -> 1 <= Quantity t.
Proof.
  unfold is_valid. intros H.
  repeat (apply andb_true_iff in H; destruct H as [H ?]).
  apply negb_true_iff, Z.leb_gt in H. lia.
Qed.

(** X19. [validate_and_filter] returns, whatever the filters, when every
    quantity is below [2^63]: the exception it can raise is the
    [OverflowError] of a quantity too large to be converted to a float. *)
Theorem validate_and_filter_total ts region lo hi :
  Forall (fun t => Quantity t < 2 ^ 63) ts ->
  exists out s,
    validate_and_filter ts region lo hi =
    Returns (out, len (filter (fun t => negb (is_valid t)) ts), s).
Proof.
  intros Hq. apply validate_and_filter_returns.
  apply Forall_forall. intros t Ht. apply filter_In in Ht. destruct Ht as [Hin Hv].
  apply amount_small. rewrite Forall_forall in Hq.
  pose proof (is_valid_quantity t Hv). specialize (Hq t Hin). lia.
Qed.

Lemma filter_len_le {A : Type} (p : A -> bool) (l : list A) : len (filter p l) <= len l.
Proof.
  rewrite (len_filter_split p l).
  pose proof (len_nonneg (filter (fun a => negb (p a)) l)). lia.
Qed.

Lemma customer_final_returns ts stats :
  group_loop CustomerID customer_init customer_add ts [] = Returns stats ->
  len ts < 2 ^ 63 ->
  exists final, mapM customer_final stats = Returns final.
Proof.
  intros Hstats Hlen. apply mapM_returns_iff, Forall_forall.
  intros [c acc] Hin.
  destruct (customer_stats_entry _ _ _ _ Hstats Hin) as [Hne [spent [_ Hacc]]].
  pose proof (len_pos_nonempty _ Hne) as Hpos.
  pose proof (filter_len_le (fun t => (CustomerID t =? c)%string) ts) as Hle.
  fold (select CustomerID c ts) in Hle.
  destruct (of_int_small_nonzero (len (select CustomerID c ts)) ltac:(lia))
    as [q [Hq Hz]].
  subst acc. unfold customer_final, avg_value. cbn.
  assert (Hlt : (0 <? len (select CustomerID c ts)) = true) by (apply Z.ltb_lt; lia).
  rewrite Hlt, Hq. cbn [bind]. unfold PyFloat.div. rewrite Hz. cbn [bind]. eauto.
Qed.

Section AnalysesReturn.

Variable py_sum : list float -> float.

Lemma analyses_return_on (out : list transaction) (n : Z) :
  (exists amounts, mapM amount out = Returns amounts) ->
  len out < 2 ^ 63 ->
  (exists total, calculate_total_revenue py_sum out = Returns total) /\
  (exists res, region_wise_sales py_sum out = Returns res) /\
  (exists res, top_selling_products out n = Returns res) /\
  (exists res, customer_analysis out = Returns res) /\
  (exists trend, daily_sales_trend out = Returns trend) /\
  (exists peak, find_peak_sales_day out = Returns peak).
Proof.
  intros Hm Hlen.
  assert (Htotal : exists total, calculate_total_revenue py_sum out = Returns total).
  { destruct Hm as [amounts Hm]. unfold calculate_total_revenue.
    rewrite Hm. cbn [bind]. eauto. }
  assert (Hdaily : exists trend, daily_sales_trend out = Returns trend).
  { destruct (group_loop_returns Date daily_init daily_add out [] Hm) as [stats Hs].
    unfold daily_sales_trend. rewrite daily_loop_group, Hs. cbn [bind]. eauto. }
  split; [exact Htotal|]. split; [|split; [|split; [|split; [exact Hdaily|]]]].
  - destruct Htotal as [total Htotal].
    destruct (total =? 0)%float eqn:Hz.
    + exists []. unfold region_wise_sales. rewrite Htotal. cbn [bind].
      rewrite Hz. reflexivity.
    + destruct (region_wise_sales_nonzero py_sum _ _ Htotal Hz) as [stats [_ Hres]].
      eauto.
  - destruct (group_loop_returns ProductName product_init product_add out [] Hm)
      as [stats Hs].
    unfold top_selling_products. rewrite product_loop_group, Hs. cbn [bind]. eauto.
  - destruct (group_loop_returns CustomerID customer_init customer_add out [] Hm)
      as [stats Hs].
    destruct (customer_final_returns _ _ Hs Hlen) as [final Hf].
    unfold customer_analysis. rewrite customer_loop_group, Hs. cbn [bind].
    rewrite Hf. cbn [bind]. eauto.
  - destruct Hdaily as [trend Ht]. unfold find_peak_sales_day. rewrite Ht.
    cbn [bind]. destruct trend; eauto.
Qed.

(** X20. On the records [validate_and_filter] has returned, no analysis
    raises: the total revenue, the sales by region, the top products, the
    customer analysis, the daily trend and the peak day all return (for an
    input of fewer than [2^63] records, a bound every list meets). *)
Theorem analyses_return_after_filter ts region lo hi out inv s (n : Z) :
  validate_and_filter ts region lo hi = Returns (out, inv, s) ->
  len ts < 2 ^ 63 ->
  (exists total, calculate_total_revenue py_sum out = Returns total) /\
  (exists res, region_wise_sales py_sum out = Returns res) /\
  (exists res, top_selling_products out n = Returns res) /\
  (exists res, customer_analysis out = Returns res) /\
  (exists trend, daily_sales_trend out = Returns trend) /\
  (exists peak, find_peak_sales_day out = Returns peak).
Proof.
  intros H Hlen. apply analyses_return_on.
  - apply (filtered_amounts_return _ _ _ _ _ _ _ H).
  - pose proof (validate_and_filter_kept _ _ _ _ _ _ _ H) as Hk.
    pose proof (filter_len_le (kept region lo hi) ts). subst out. lia.
Qed.

End AnalysesReturn.

(** ** Positive sums

    The amount of a valid record whose price is a number is greater than
    zero, and so is the plain sum of such amounts. *)

Lemma Zdigits2_lower (j m : Z) : 0 <= j -> 2 ^ j <= m -> j + 1 <= Zdigits2 m.
Proof.
  intros Hj Hm.
  assert (Hp : 0 < 2 ^ j) by (apply Z.pow_pos_nonneg; lia).
  destruct m as [|p|p]; try lia. cbn [Zdigits2].
  pose proof (digits2_pos_bounds p) as [_ Hu].
  destruct (Z.le_gt_cases (j + 1) (Zpos (digits2_pos p))) as [H|H]; [exact H|].
  exfalso. assert (2 ^ Zpos (digits2_pos p) <= 2 ^ j)
    by (apply Z.pow_le_mono_r; lia). lia.
Qed.

Lemma Zdigits2_mono (m n : Z) : 1 <= m <= n -> Zdigits2 m <= Zdigits2 n.
Proof.
  intros H. destruct m as [|p|p]; try lia. cbn [Zdigits2].
  pose proof (digits2_pos_bounds p) as [Hl _].
  assert (Zpos (digits2_pos p) - 1 + 1 <= Zdigits2 n); [|lia].
  apply Zdigits2_lower; lia.
Qed.

(** One shift of a mantissa whose magnitude is above the least exponent:
    the mantissa stays >= 1 and the magnitude does not decrease. *)
Lemma shr_fexp_digits (m e : Z) (l : location) :
  1 <= m -> emin < Zdigits2 m + e ->
  let r := shr_fexp prec emax m e l in
  1 <= shr_m (fst r) /\ Zdigits2 m + e <= Zdigits2 (shr_m (fst r)) + snd r.
Proof.
  intros Hm He. cbv zeta. unfold shr_fexp, shr.
  assert (H0 : shr_m (shr_record_of_loc m l) = m).
  { destruct l as [|[| |]]; reflexivity. }
  destruct m as [|p|p]; try lia. cbn [Zdigits2] in *.
  pose proof (digits2_pos_bounds p) as [Hd1 Hd2].
  set (d := Zpos (digits2_pos p)) in *.
  assert (Hdpos : 1 <= d) by (unfold d; lia).
  unfold fexp. unfold SpecFloat.emin, prec, emax in *.
  destruct (Z.max (d + e - 53) (3 - 1024 - 53) - e) as [|k|k] eqn:Ek;
    cbn [fst snd]; rewrite ?H0; cbn [Zdigits2]; fold d; try lia.
  destruct (iter_shr_1_div k (shr_record_of_loc (Zpos p) l)) as [H1 H2];
    [rewrite H0; lia|].
  rewrite H0 in H2.
  assert (Hk : Zpos k <= d - 1) by lia.
  assert (Hp : 0 < 2 ^ Zpos k) by (apply Z.pow_pos_nonneg; lia).
  assert (Hpow : 2 ^ (d - 1) = 2 ^ (d - 1 - Zpos k) * 2 ^ Zpos k).
  { rewrite <- Z.pow_add_r by lia. f_equal. lia. }
  assert (Hq : 0 < 2 ^ (d - 1 - Zpos k)) by (apply Z.pow_pos_nonneg; lia).
  set (P := 2 ^ Zpos k) in *. set (Q := 2 ^ (d - 1 - Zpos k)) in *.
  set (m' := shr_m (iter_pos shr_1 k (shr_record_of_loc (Zpos p) l))) in *.
  assert (Hm' : Q <= m') by nia.
  split; [lia|].
  assert (d - 1 - Zpos k + 1 <= Zdigits2 m') by (apply Zdigits2_lower; [lia|exact Hm']).
  lia.
Qed.

Lemma binary_round_aux_above (m e : Z) (l : location) :
  1 <= m -> emin < Zdigits2 m + e ->
  rounds_above m e (binary_round_aux prec emax false m e l).
Proof.
  intros Hm He. unfold binary_round_aux.
  pose proof (shr_fexp_digits m e l Hm He) as H1. cbv zeta in H1.
  destruct (shr_fexp prec emax m e l) as [mrs1 e1]. cbn [fst snd] in H1.
  pose proof (round_nearest_even_bounds (shr_m mrs1) (loc_of_shr_record mrs1)) as Hr.
  set (m2 := round_nearest_even (shr_m mrs1) (loc_of_shr_record mrs1)) in *.
  assert (Hd2 : Zdigits2 (shr_m mrs1) <= Zdigits2 m2) by (apply Zdigits2_mono; lia).
  pose proof (shr_fexp_digits m2 e1 loc_Exact ltac:(lia) ltac:(lia)) as H2.
  cbv zeta in H2.
  destruct (shr_fexp prec emax m2 e1 loc_Exact) as [mrs3 e3]. cbn [fst snd] in H2.
  destruct (shr_m mrs3) as [|p|p] eqn:E; try lia.
  destruct (e3 <=? emax - prec); cbn [rounds_above]; [lia | exact I].
Qed.

Lemma binary_round_above (p : positive) (e : Z) :
  emin < Zdigits2 (Zpos p) + e ->
  rounds_above (Zpos p) e (binary_round prec emax false p e).
Proof.
  intros He. unfold binary_round, shl_align.
  cbn [Zdigits2] in He.
  pose proof (digits2_pos_bounds p) as [Hd1 Hd2].
  set (d := Zpos (digits2_pos p)) in *.
  assert (Hdpos : 1 <= d) by (unfold d; lia).
  destruct (fexp prec emax (d + e) - e) as [|k|k] eqn:Ek.
  - apply binary_round_aux_above; [lia | cbn [Zdigits2]; exact He].
  - apply binary_round_aux_above; [lia | cbn [Zdigits2]; exact He].
  - assert (Hv : Zpos (shift_pos k p) = Zpos p * 2 ^ Zpos k)
      by (unfold shift_pos; apply iter_xO_value).
    assert (Hp : 0 < 2 ^ Zpos k) by (apply Z.pow_pos_nonneg; lia).
    assert (Hpow : 2 ^ (d - 1 + Zpos k) = 2 ^ (d - 1) * 2 ^ Zpos k)
      by (apply Z.pow_add_r; lia).
    assert (Hdig : d - 1 + Zpos k + 1 <= Zdigits2 (Zpos (shift_pos k p))).
    { apply Zdigits2_lower; [lia|]. rewrite Hv, Hpow.
      apply Z.mul_le_mono_nonneg_r; lia. }
    assert (He' : fexp prec emax (d + e) = e - Zpos k) by lia.
    rewrite He'.
    pose proof (binary_round_aux_above (Zpos (shift_pos k p)) (e - Zpos k) loc_Exact
                  ltac:(lia) ltac:(lia)) as H.
    cbv beta iota. change (Pos.iter xO p k) with (shift_pos k p).
    set (r := binary_round_aux prec emax false (Zpos (shift_pos k p)) (e - Zpos k)
                loc_Exact) in *.
    clearbody r. destruct r as [s|[|]| |[|] m' e']; try exact H.
    cbn [rounds_above Zdigits2] in *. fold d. lia.
Qed.

Lemma rounds_above_positive (m e : Z) (x : spec_float) :
  rounds_above m e x -> positive_sf x = true.
Proof. destruct x as [s|[|]| |[|] m' e']; cbn; tauto. Qed.

(** A valid finite float has an exponent that is not below the least. *)
Lemma valid_exponent (x : float) (s : bool) (m : positive) (e : Z) :
  Prim2SF x = S754_finite s m e -> emin <= e.
Proof.
  intros H. pose proof (Prim2SF_valid x) as Hv. rewrite H in Hv.
  unfold valid_binary, bounded, canonical_mantissa in Hv.
  apply andb_true_iff in Hv. destruct Hv as [Hv _]. apply Z.eqb_eq in Hv.
  unfold fexp in Hv. lia.
Qed.

Lemma SFadd_positive (x y : float) :
  nonneg x = true -> positive_sf (Prim2SF y) = true ->
  positive_sf (SFadd prec emax (Prim2SF x) (Prim2SF y)) = true.
Proof.
  unfold nonneg. intros Hx Hy.
  pose proof (valid_exponent x) as Hex. pose proof (valid_exponent y) as Hey.
  destruct (Prim2SF x) as [sx|[|]| |[|] mx ex]; try discriminate;
    destruct (Prim2SF y) as [sy|[|]| |[|] my ey]; try discriminate;
    try reflexivity.
  specialize (Hex _ _ _ eq_refl). specialize (Hey _ _ _ eq_refl).
  cbn [SFadd cond_Zopp].
  set (a := fst (shl_align mx ex (Z.min ex ey))).
  set (b := fst (shl_align my ey (Z.min ex ey))).
  change (Zpos a + Zpos b) with (Zpos (a + b)). cbn [binary_normalize].
  apply (rounds_above_positive (Zpos (a + b)) (Z.min ex ey)).
  apply binary_round_above. cbn [Zdigits2]. lia.
Qed.

Lemma ltb_zero_positive (x : float) : (0 <? x)%float = positive_sf (Prim2SF x).
Proof.
  rewrite ltb_spec, Prim2SF_zero.
  destruct (Prim2SF x) as [s|[|]| |[|] m e]; reflexivity.
Qed.

Lemma positive_nonneg (x : float) : (0 <? x)%float = true -> nonneg x = true.
Proof.
  rewrite ltb_zero_positive. unfold nonneg.
  destruct (Prim2SF x) as [s|[|]| |[|] m e]; cbn; congruence.
Qed.

Lemma add_positive (x y : float) :
  nonneg x = true -> (0 <? y)%float = true -> (0 <? x + y)%float = true.
Proof.
  rewrite !ltb_zero_positive, add_spec. apply SFadd_positive.
Qed.

(** The plain sum of positive floats, one at least, is positive. *)
Lemma sum_plain_positive (l : list float) :
  l <> [] -> Forall (fun x => (0 <? x)%float = true) l ->
  (0 <? PyFloat.sum_plain l)%float = true.
Proof.
  unfold PyFloat.sum_plain. intros Hne Hall.
  destruct l as [|x l]; [congruence|]. cbn [fold_left].
  inversion Hall as [|? ? Hx Hl]; subst.
  assert (H0 : (0 <? 0 + x)%float = true) by (apply add_positive; [reflexivity|exact Hx]).
  revert H0. generalize (0 + x)%float. clear Hx Hall Hne.
  induction Hl as [|y l Hy _ IH]; intros acc Hacc; cbn [fold_left]; [exact Hacc|].
  apply IH, add_positive; [apply positive_nonneg, Hacc | exact Hy].
Qed.

(** [float(n)] for [1 <= n < 2^63] is at least 1. *)
Lemma of_int_small_above (n : Z) :
  1 <= n < 2 ^ 63 ->
  exists q m e, PyFloat.of_int n = Returns q /\ Prim2SF q = S754_finite false m e /\
                1 <= Zdigits2 (Zpos m) + e.
Proof.
  intros Hn. destruct (binary_normalize_small n Hn) as [m [e Hsf]].
  exists (SF2Prim (S754_finite false m e)), m, e.
  unfold PyFloat.of_int. rewrite Hsf. split; [reflexivity|]. split.
  - apply Prim2SF_SF2Prim. rewrite <- Hsf.
    assert (Hz : Uint63.to_Z (Uint63.of_Z n) = n).
    { rewrite Uint63.of_Z_spec. apply Z.mod_small.
      change Uint63.wB with (2 ^ 63). lia. }
    rewrite <- Hz at 1. rewrite <- of_uint63_spec. apply Prim2SF_valid.
  - destruct n as [|p|p]; try lia. cbn [binary_normalize] in Hsf.
    pose proof (binary_round_above p 0) as H. rewrite Hsf in H.
    cbn [rounds_above] in H.
    assert (1 <= Zdigits2 (Zpos p)) by (cbn [Zdigits2]; lia).
    unfold SpecFloat.emin, prec, emax in H. lia.
Qed.

Lemma SFmul_positive (q p : float) (m : positive) (e : Z) :
  Prim2SF q = S754_finite false m e -> 1 <= Zdigits2 (Zpos m) + e ->
  positive_sf (Prim2SF p) = true ->
  positive_sf (SFmul prec emax (Prim2SF q) (Prim2SF p)) = true.
Proof.
  intros Hq Hd Hp. rewrite Hq.
  pose proof (valid_exponent p) as Hep.
  destruct (Prim2SF p) as [sp|[|]| |[|] mp ep]; try discriminate; [reflexivity|].
  specialize (Hep _ _ _ eq_refl). cbn [SFmul xorb].
  change (Zpos m * Zpos mp)%Z with (Zpos (m * mp)).
  apply (rounds_above_positive (Zpos (m * mp)) (e + ep)).
  cbn [Zdigits2] in Hd.
  pose proof (digits2_pos_bounds m) as [Hm1 _].
  pose proof (digits2_pos_bounds mp) as [Hp1 _].
  set (dm := Zpos (digits2_pos m)) in *. set (dp := Zpos (digits2_pos mp)) in *.
  assert (Hdm : 1 <= dm) by (unfold dm; lia).
  assert (Hdp : 1 <= dp) by (unfold dp; lia).
  assert (Hpow : 2 ^ (dm - 1 + (dp - 1)) = 2 ^ (dm - 1) * 2 ^ (dp - 1))
    by (apply Z.pow_add_r; lia).
  assert (Hdig : dm - 1 + (dp - 1) + 1 <= Zdigits2 (Zpos (m * mp))).
  { apply Zdigits2_lower; [lia|]. rewrite Hpow, Pos2Z.inj_mul.
    apply Z.mul_le_mono_nonneg; try lia; apply Z.pow_nonneg; lia. }
  apply binary_round_aux_above; [lia|]. lia.
Qed.

(** The amount of a valid record whose price is a number is positive. *)
Lemma amount_positive (t : transaction) :
  is_valid t = true -> Quantity t < 2 ^ 63 -> is_nan (UnitPrice t) = false ->
  exists a, amount t = Returns a /\ (0 <? a)%float = true.
Proof.
  intros Hv Hq Hn. pose proof (is_valid_quantity t Hv) as Hq1.
  destruct (of_int_small_above (Quantity t) ltac:(lia)) as [q [m [e [Hof [Hsf Hd]]]]].
  unfold amount. rewrite Hof. cbn [bind]. eexists. split; [reflexivity|].
  rewrite ltb_zero_positive, mul_spec. apply (SFmul_positive q _ m e Hsf Hd).
  unfold is_valid in Hv.
  repeat (apply andb_true_iff in Hv; destruct Hv as [Hv ?]).
  match goal with H : negb (UnitPrice t <=? 0)%float = true |- _ =>
    apply negb_true_iff in H; rename H into Hp end.
  rewrite leb_spec in Hp. change (Prim2SF 0) with (S754_zero false) in Hp.
  rewrite FloatOrder.is_nan_rank in Hn. unfold FloatRank.rank in Hn.
  destruct (Prim2SF (UnitPrice t)) as [sp|[|]| |[|] mp ep]; try discriminate;
    reflexivity.
Qed.

Lemma amounts_positive (ts : list transaction) :
  Forall (fun t => is_valid t = true /\ Quantity t < 2 ^ 63 /\
                   is_nan (UnitPrice t) = false) ts ->
  exists amounts, mapM amount ts = Returns amounts /\
                  List.length amounts = List.length ts /\
                  Forall (fun a => (0 <? a)%float = true) amounts.
Proof.
  induction 1 as [|t ts [Hv [Hq Hn]] _ [amounts [Hm [Hlen Hall]]]].
  - exists []. repeat split. constructor.
  - destruct (amount_positive t Hv Hq Hn) as [a [Ha Hpos]].
    exists (a :: amounts). cbn [mapM]. rewrite Ha. cbn [bind]. rewrite Hm. cbn [bind].
    split; [reflexivity|]. split; [cbn; congruence|]. constructor; assumption.
Qed.

Section PositiveTotal.

Variable py_sum : list float -> float.

(** X21. For a non-empty list of valid records with quantities below
    [2^63] and unit prices that are not NaN, and a [sum] that gives a
    positive result on positive numbers (as the plain sum of Python up to
    3.11 does, see [sum_plain_positive]), the total revenue is greater
    than zero: the assertion [total_revenue > 0] of the test passes, and
    [region_wise_sales] does not take its branch for a total of zero but
    returns one entry per region of the input, which is at least one. *)
Theorem total_revenue_positive (ts : list transaction) :
  (forall l, l <> [] -> Forall (fun x => (0 <? x)%float = true) l ->
             (0 <? py_sum l)%float = true) ->
  ts <> [] ->
  Forall (fun t => is_valid t = true /\ Quantity t < 2 ^ 63 /\
                   is_nan (UnitPrice t) = false) ts ->
  exists total region_stats,
    calculate_total_revenue py_sum ts = Returns total /\
    (0 <? total)%float = true /\
    region_wise_sales py_sum ts = Returns region_stats /\
    Permutation (map fst region_stats) (distinct Region ts) /\
    region_stats <> [].
Proof.
  intros Hsum Hne Hall.
  destruct (amounts_positive ts Hall) as [amounts [Hm [Hlen Hpos]]].
  assert (Htotal : calculate_total_revenue py_sum ts = Returns (py_sum amounts)).
  { unfold calculate_total_revenue. rewrite Hm. reflexivity. }
  assert (Hgt : (0 <? py_sum amounts)%float = true).
  { apply Hsum; [|exact Hpos]. destruct amounts; [|discriminate].
    destruct ts; [congruence | discriminate]. }
  assert (Hz : (py_sum amounts =? 0)%float = false).
  { rewrite ltb_zero_positive in Hgt. rewrite eqb_spec, Prim2SF_zero.
    destruct (Prim2SF (py_sum amounts)) as [s|[|]| |[|] m e]; try discriminate;
      reflexivity. }
  destruct (region_wise_sales_nonzero py_sum ts _ Htotal Hz) as [stats [Hstats Hres]].
  exists (py_sum amounts). eexists. split; [exact Htotal|]. split; [exact Hgt|].
  split; [exact Hres|].
  assert (Hkeys : Permutation
            (map fst (py_sorted PrimFloat.ltb
                        (fun item => RegionStats.total_sales (snd item)) true
                        (map (region_entry (py_sum amounts)) stats)))
            (distinct Region ts)).
  { eapply Permutation_trans; [apply Permutation_map, py_sorted_perm|].
    rewrite map_map.
    destruct (group_loop_spec Region region_init region_add ts stats Hstats)
      as [Hk _].
    unfold distinct. rewrite <- Hk.
    erewrite map_ext; [apply Permutation_refl|]. intros [r acc]. reflexivity. }
  split; [exact Hkeys|].
  intros Hnil. rewrite Hnil in Hkeys. cbn [map] in Hkeys.
  apply Permutation_nil in Hkeys.
  apply (first_seen_nonempty (map Region ts)); [|exact Hkeys].
  destruct ts; [congruence | discriminate].
Qed.

End PositiveTotal.

(** * The sum of the percentages, by value

    The floats of the code as exact numbers: what one rounding, one
    addition, one division and one [round] change, and what that makes of
    the sum of the percentages. *)

(** ** Rounding, by value *)

Lemma p2_pos (e : Z) : (0 < p2 e)%Q.
Proof. apply Qpower_0_lt. reflexivity. Qed.

Lemma p2_add (a b : Z) : (p2 (a + b) == p2 a * p2 b)%Q.
Proof. apply Qpower_plus. discriminate. Qed.

Lemma p2_Z (j : Z) : 0 <= j -> (p2 j == inject_Z (2 ^ j))%Q.
Proof. intros H. unfold p2. rewrite Zpower_Qpower by exact H. reflexivity. Qed.

Lemma p2_le (a b : Z) : a <= b -> (p2 a <= p2 b)%Q.
Proof.
  intros H. replace b with (a + (b - a)) by lia. rewrite p2_add.
  rewrite (p2_Z (b - a)) by lia.
  assert (H1 : 1 <= 2 ^ (b - a)) by (pose proof (Z.pow_pos_nonneg 2 (b - a)); lia).
  pose proof (p2_pos a) as Hp.
  assert (H2 : (1 <= inject_Z (2 ^ (b - a)))%Q).
  { change 1%Q with (inject_Z 1). rewrite <- Zle_Qle. exact H1. }
  setoid_replace (p2 a) with (p2 a * 1)%Q at 1 by ring.
  apply Qmult_le_l; assumption.
Qed.

Lemma p2_succ (e : Z) : (p2 (e + 1) == 2 * p2 e)%Q.
Proof. rewrite p2_add. change (p2 1) with 2%Q. ring. Qed.

(** A mantissa [m] at the exponent [e + j] stands for [m * 2^j] at the
    exponent [e]. *)
Lemma p2_shift (m e j : Z) :
  0 <= j -> (inject_Z (m * 2 ^ j) * p2 e == inject_Z m * p2 (e + j))%Q.
Proof.
  intros Hj. rewrite p2_add, (p2_Z j Hj), inject_Z_mult. ring.
Qed.

(** What [shr_fexp] returns: the mantissa shifted right by [j] places,
    [j] being what the exponent lacks to the one of the format. *)
Lemma shr_fexp_floor (m e : Z) (l : location) :
  0 <= m ->
  let r := shr_fexp prec emax m e l in
  let j := Z.max 0 (fexp prec emax (Zdigits2 m + e) - e) in
  snd r = e + j /\
  0 <= shr_m (fst r) /\
  2 ^ j * shr_m (fst r) <= m < 2 ^ j * (shr_m (fst r) + 1).
Proof.
  intros Hm. cbv zeta. unfold shr_fexp, shr.
  assert (H0 : shr_m (shr_record_of_loc m l) = m).
  { destruct l as [|[| |]]; reflexivity. }
  destruct (fexp prec emax (Zdigits2 m + e) - e) as [|k|k] eqn:Ek; cbn [fst snd].
  - rewrite H0. change (Z.max 0 0) with 0. change (2 ^ 0) with 1. lia.
  - replace (Z.max 0 (Zpos k)) with (Zpos k) by lia.
    destruct (iter_shr_1_div k (shr_record_of_loc m l)) as [H1 H2];
      [rewrite H0; exact Hm|].
    rewrite H0 in H2. split; [reflexivity|]. split; [exact H1|]. exact H2.
  - rewrite H0. replace (Z.max 0 (Zneg k)) with 0 by lia. change (2 ^ 0) with 1. lia.
Qed.

Lemma Zdigits2_upper (m : Z) : 0 <= m -> m < 2 ^ Zdigits2 m.
Proof.
  intros H. destruct m as [|p|p]; try lia; cbn [Zdigits2]; [cbn; lia|].
  apply digits2_pos_bounds.
Qed.

Lemma Zdigits2_nonneg (m : Z) : 0 <= Zdigits2 m.
Proof. destruct m; cbn; lia. Qed.

Lemma fexp_mono (a b : Z) : a <= b -> fexp prec emax a <= fexp prec emax b.
Proof. unfold fexp. lia. Qed.

Lemma fexp_emin (a : Z) : emin <= fexp prec emax a.
Proof. unfold fexp. lia. Qed.

(** After a shift by [j] and a rounding up by at most one, the magnitude
    has grown by one binary place at most. *)
Lemma digits_after_shift (m m1 m2 e j : Z) :
  0 <= m -> 0 <= j -> 0 <= m1 ->
  2 ^ j * m1 <= m -> 0 <= m2 <= m1 + 1 ->
  Zdigits2 m2 + (e + j) <= Z.max (Zdigits2 m + e) (e + j) + 1.
Proof.
  intros Hm Hj Hm1 Hfl Hm2.
  pose proof (Zdigits2_upper m Hm) as Hu. pose proof (Zdigits2_nonneg m) as Hd.
  set (d := Zdigits2 m) in *.
  assert (Hp : 0 < 2 ^ j) by (apply Z.pow_pos_nonneg; lia).
  destruct (Z.le_gt_cases j d) as [Hjd|Hjd].
  - assert (Hpow : 2 ^ d = 2 ^ j * 2 ^ (d - j)).
    { rewrite <- Z.pow_add_r by lia. f_equal. lia. }
    assert (Hq : 0 < 2 ^ (d - j)) by (apply Z.pow_pos_nonneg; lia).
    assert (H1 : m1 < 2 ^ (d - j)) by nia.
    assert (H2 : Zdigits2 m2 <= d - j + 1).
    { apply Zdigits2_le; [lia|]. rewrite Z.pow_add_r by lia. change (2 ^ 1) with 2. lia. }
    lia.
  - assert (Hlt : 2 ^ d < 2 ^ j) by (apply Z.pow_lt_mono_r; lia).
    assert (H1 : m1 = 0) by nia.
    assert (H2 : Zdigits2 m2 <= 1) by (apply Zdigits2_le; [lia|]; change (2 ^ 1) with 2; lia).
    lia.
Qed.

(** The rounding of a number [x] that lies from [m * 2^e] to below
    [(m + 1) * 2^e]: the result is zero or finite with a magnitude within
    [2 * 2^E] of [x], or it is infinite; [E] is the exponent of the format
    one binary place above [m * 2^e], where that is above [e]. *)
Lemma binary_round_aux_value (sx : bool) (m e : Z) (l : location) (x : Q) :
  0 <= m ->
  (inject_Z m * p2 e <= x)%Q -> (x < (inject_Z m + 1) * p2 e)%Q ->
  let r := binary_round_aux prec emax sx m e l in
  let E := Z.max e (fexp prec emax (Zdigits2 m + e + 1)) in
  (r = S754_infinity sx /\ emax - prec < E) \/
  ((r = S754_zero sx \/ exists m' e', r = S754_finite sx m' e') /\
   (x - 2 * p2 E <= sf_mag r)%Q /\ (sf_mag r <= x + 2 * p2 E)%Q).
Proof.
  intros Hm Hlo Hhi. cbv zeta. unfold binary_round_aux.
  pose proof (shr_fexp_floor m e l Hm) as H1. cbv zeta in H1.
  destruct (shr_fexp prec emax m e l) as [mrs1 e1]. cbn [fst snd] in H1.
  destruct H1 as [He1 [Hm1 Hfl1]].
  set (j1 := Z.max 0 (fexp prec emax (Zdigits2 m + e) - e)) in *.
  pose proof (round_nearest_even_bounds (shr_m mrs1) (loc_of_shr_record mrs1)) as Hr.
  set (m1 := shr_m mrs1) in *.
  set (m2 := round_nearest_even m1 (loc_of_shr_record mrs1)) in *.
  pose proof (shr_fexp_floor m2 e1 loc_Exact ltac:(lia)) as H3. cbv zeta in H3.
  destruct (shr_fexp prec emax m2 e1 loc_Exact) as [mrs3 e3]. cbn [fst snd] in H3.
  destruct H3 as [He3 [Hm3 Hfl3]].
  set (j3 := Z.max 0 (fexp prec emax (Zdigits2 m2 + e1) - e1)) in *.
  set (m3 := shr_m mrs3) in *.
  set (E := Z.max e (fexp prec emax (Zdigits2 m + e + 1))).
  assert (Hj1 : 0 <= j1) by (unfold j1; lia).
  assert (Hj3 : 0 <= j3) by (unfold j3; lia).
  (* the exponents *)
  assert (HeE1 : e1 <= E).
  { unfold E, j1 in *. pose proof (fexp_mono (Zdigits2 m + e) (Zdigits2 m + e + 1)). lia. }
  assert (Hemin1 : emin <= e1 \/ j1 = 0).
  { unfold j1 in *. pose proof (fexp_emin (Zdigits2 m + e)). lia. }
  assert (HeE3 : e3 <= E).
  { pose proof (digits_after_shift m m1 m2 e j1 Hm Hj1 Hm1 ltac:(lia) ltac:(lia)) as Hd.
    rewrite <- He1 in Hd.
    pose proof (fexp_mono _ _ Hd) as Hf.
    assert (Hcase : j3 = 0 \/ e3 = fexp prec emax (Zdigits2 m2 + e1)) by (unfold j3 in *; lia).
    destruct Hcase as [Hc|Hc]; [lia|]. rewrite Hc.
    eapply Z.le_trans; [exact Hf|].
    unfold E, j1 in *. unfold fexp, SpecFloat.emin, prec, emax in *. lia. }
  (* the values *)
  assert (Hv1 : (inject_Z m1 * p2 e1 <= x)%Q /\ (x < (inject_Z m1 + 1) * p2 e1)%Q).
  { rewrite He1. rewrite <- (p2_shift m1 e j1 Hj1).
    assert (Ha : (inject_Z (m1 * 2 ^ j1) <= inject_Z m)%Q) by (rewrite <- Zle_Qle; lia).
    assert (Hb : (inject_Z m + 1 <= inject_Z ((m1 + 1) * 2 ^ j1))%Q).
    { change 1%Q with (inject_Z 1). rewrite <- inject_Z_plus, <- Zle_Qle. lia. }
    pose proof (p2_pos e) as Hp. split.
    - eapply Qle_trans; [|exact Hlo]. apply Qmult_le_compat_r; [exact Ha|].
      apply Qlt_le_weak, Hp.
    - eapply Qlt_le_trans; [exact Hhi|].
      setoid_replace ((inject_Z m1 + 1) * p2 (e + j1))%Q
        with (inject_Z ((m1 + 1) * 2 ^ j1) * p2 e)%Q.
      + apply Qmult_le_compat_r; [exact Hb|]. apply Qlt_le_weak, Hp.
      + rewrite (p2_shift (m1 + 1) e j1 Hj1), inject_Z_plus. reflexivity. }
  assert (Hv3 : (inject_Z m3 * p2 e3 <= inject_Z m2 * p2 e1)%Q /\
                (inject_Z m2 * p2 e1 < (inject_Z m3 + 1) * p2 e3)%Q).
  { rewrite He3. rewrite <- (p2_shift m3 e1 j3 Hj3).
    pose proof (p2_pos e1) as Hp. split.
    - apply Qmult_le_compat_r; [|apply Qlt_le_weak, Hp]. rewrite <- Zle_Qle. lia.
    - setoid_replace ((inject_Z m3 + 1) * p2 (e1 + j3))%Q
        with (inject_Z ((m3 + 1) * 2 ^ j3) * p2 e1)%Q.
      + apply Qmult_lt_compat_r; [exact Hp|]. rewrite <- Zlt_Qlt. lia.
      + rewrite (p2_shift (m3 + 1) e1 j3 Hj3), inject_Z_plus. reflexivity. }
  assert (Hm2 : (inject_Z m1 <= inject_Z m2)%Q /\ (inject_Z m2 <= inject_Z m1 + 1)%Q).
  { change 1%Q with (inject_Z 1). rewrite <- inject_Z_plus, <- !Zle_Qle. lia. }
  pose proof (p2_le e1 E HeE1) as HpE1. pose proof (p2_le e3 E HeE3) as HpE3.
  pose proof (p2_pos e1) as Hp1. pose proof (p2_pos e3) as Hp3.
  assert (Hbound : (x - 2 * p2 E <= inject_Z m3 * p2 e3)%Q /\
                   (inject_Z m3 * p2 e3 <= x + 2 * p2 E)%Q).
  { destruct Hv1 as [Hv1a Hv1b]. destruct Hv3 as [Hv3a Hv3b]. destruct Hm2 as [Hm2a Hm2b].
    set (P1 := p2 e1) in *. set (P3 := p2 e3) in *. set (PE := p2 E) in *.
    set (q1 := inject_Z m1) in *. set (q2 := inject_Z m2) in *. set (q3 := inject_Z m3) in *.
    assert (Hq2a : (q1 * P1 <= q2 * P1)%Q) by (apply Qmult_le_compat_r; lra).
    assert (Hq2b : (q2 * P1 <= (q1 + 1) * P1)%Q) by (apply Qmult_le_compat_r; lra).
    split; lra. }
  destruct m3 as [|p3|p3] eqn:Em3; try lia.
  - right. split; [left; reflexivity|]. cbn [sf_mag].
    change (inject_Z 0) with 0%Q in Hbound. destruct Hbound as [Ha Hb]. split; lra.
  - destruct (e3 <=? emax - prec) eqn:Ele.
    + right. split; [right; eauto|]. cbn [sf_mag]. exact Hbound.
    + left. split; [reflexivity|]. apply Z.leb_gt in Ele. lia.
Qed.

(** An exact mantissa that needs no shift is returned as it is. *)
Lemma binary_round_aux_exact (sx : bool) (p : positive) (e : Z) :
  fexp prec emax (Zdigits2 (Zpos p) + e) <= e ->
  binary_round_aux prec emax sx (Zpos p) e loc_Exact
  = if e <=? emax - prec then S754_finite sx p e else S754_infinity sx.
Proof.
  intros H. unfold binary_round_aux, shr_fexp, shr.
  destruct (fexp prec emax (Zdigits2 (Zpos p) + e) - e) as [|k|k] eqn:Ek; try lia;
    cbn [shr_record_of_loc shr_m loc_of_shr_record round_nearest_even];
    rewrite Ek; reflexivity.
Qed.

(** ** The value of a float *)

Lemma to_Q_mag (x : float) :
  nonneg x = true -> (PyFloat.to_Q x == sf_mag (Prim2SF x))%Q.
Proof.
  unfold nonneg, PyFloat.to_Q.
  destruct (Prim2SF x) as [s|[|]| |[|] m e]; cbn [nonneg_sf sf_mag]; try discriminate;
    intros _; try reflexivity.
  destruct (0 <=? e) eqn:He.
  - apply Z.leb_le in He. rewrite inject_Z_mult, (p2_Z e He). reflexivity.
  - apply Z.leb_gt in He.
    assert (Hp : 0 < 2 ^ (- e)) by (apply Z.pow_pos_nonneg; lia).
    rewrite Qmake_Qdiv, Z2Pos.id by exact Hp.
    assert (E : (p2 e == / inject_Z (2 ^ (- e)))%Q).
    { replace e with (- (- e)) at 1 by lia. unfold p2. rewrite Qpower_opp.
      apply Qinv_comp. symmetry. apply Zpower_Qpower. lia. }
    rewrite E. reflexivity.
Qed.

Lemma pos_finite_nonneg (x : float) : pos_finite x = true -> nonneg x = true.
Proof.
  unfold pos_finite, nonneg. destruct (Prim2SF x) as [s|[|]| |[|] m e]; cbn; congruence.
Qed.

Lemma pos_finite_finite (x : float) : pos_finite x = true -> finite x = true.
Proof.
  unfold pos_finite, finite. destruct (Prim2SF x) as [s|[|]| |[|] m e]; cbn; congruence.
Qed.

Lemma mag_pos (m : positive) (e : Z) : (0 < inject_Z (Zpos m) * p2 e)%Q.
Proof.
  apply Qmult_lt_0_compat; [|apply p2_pos]. change 0%Q with (inject_Z 0).
  rewrite <- Zlt_Qlt. lia.
Qed.

Lemma pos_finite_value (x : float) : pos_finite x = true -> (0 < PyFloat.to_Q x)%Q.
Proof.
  intros H. rewrite (to_Q_mag x (pos_finite_nonneg x H)). unfold pos_finite in H.
  destruct (Prim2SF x) as [s|[|]| |[|] m e]; try discriminate. apply mag_pos.
Qed.

Lemma nonneg_value (x : float) : nonneg x = true -> (0 <= PyFloat.to_Q x)%Q.
Proof.
  intros H. rewrite (to_Q_mag x H). unfold nonneg in H.
  destruct (Prim2SF x) as [s|[|]| |[|] m e]; try discriminate; cbn [sf_mag];
    try apply Qle_refl. apply Qlt_le_weak, mag_pos.
Qed.

Lemma valid_exponent_upper (x : float) (s : bool) (m : positive) (e : Z) :
  Prim2SF x = S754_finite s m e -> e <= emax - prec.
Proof.
  intros H. pose proof (Prim2SF_valid x) as Hv. rewrite H in Hv.
  unfold valid_binary, bounded in Hv.
  apply andb_true_iff in Hv. destruct Hv as [_ Hv]. apply Z.leb_le in Hv. exact Hv.
Qed.

(** The magnitude of a mantissa: [2^(D-1) <= m * 2^e < 2^D], [D] being the
    number of its binary digits plus [e]. *)
Lemma mag_digits (p : positive) (e : Z) :
  (p2 (Zdigits2 (Zpos p) + e - 1) <= inject_Z (Zpos p) * p2 e)%Q /\
  (inject_Z (Zpos p) * p2 e <= p2 (Zdigits2 (Zpos p) + e))%Q.
Proof.
  cbn [Zdigits2]. pose proof (digits2_pos_bounds p) as [Hl Hu].
  set (d := Zpos (digits2_pos p)) in *.
  assert (Hd : 1 <= d) by (unfold d; lia).
  pose proof (p2_pos e) as Hp. split.
  - replace (d + e - 1) with (e + (d - 1)) by lia.
    rewrite p2_add, (p2_Z (d - 1)) by lia. rewrite (Qmult_comm (p2 e)).
    apply Qmult_le_compat_r; [|apply Qlt_le_weak, Hp]. rewrite <- Zle_Qle. exact Hl.
  - replace (d + e) with (e + d) by lia.
    rewrite p2_add, (p2_Z d) by lia. rewrite (Qmult_comm (p2 e)).
    apply Qmult_le_compat_r; [|apply Qlt_le_weak, Hp]. rewrite <- Zle_Qle. lia.
Qed.

Lemma Zdigits2_shift (p d : positive) :
  Zdigits2 (Zpos p * 2 ^ Zpos d) = Zdigits2 (Zpos p) + Zpos d.
Proof.
  cbn [Zdigits2]. pose proof (digits2_pos_bounds p) as [Hl Hu].
  set (dp := Zpos (digits2_pos p)) in *.
  assert (Hd : 1 <= dp) by (unfold dp; lia).
  assert (Hp : 0 < 2 ^ Zpos d) by (apply Z.pow_pos_nonneg; lia).
  apply Z.le_antisymm.
  - apply Zdigits2_le; [lia|]. rewrite Z.pow_add_r by lia. nia.
  - assert (dp - 1 + Zpos d + 1 <= Zdigits2 (Zpos p * 2 ^ Zpos d)); [|lia].
    apply Zdigits2_lower; [lia|]. rewrite Z.pow_add_r by lia.
    apply Z.mul_le_mono_nonneg_r; lia.
Qed.

(** [shl_align] keeps the value and the magnitude, and lowers the exponent
    to the one asked for where that is lower. *)
Lemma shl_align_value (p : positive) (e e' : Z) :
  let r := shl_align p e e' in
  (inject_Z (Zpos (fst r)) * p2 (snd r) == inject_Z (Zpos p) * p2 e)%Q /\
  snd r = Z.min e e' /\
  Zdigits2 (Zpos (fst r)) + snd r = Zdigits2 (Zpos p) + e.
Proof.
  cbv zeta. unfold shl_align.
  destruct (e' - e) as [|k|k] eqn:Ek; cbn [fst snd].
  - split; [reflexivity|]. lia.
  - split; [reflexivity|]. lia.
  - rewrite iter_xO_value. split; [|split; [lia|]].
    + rewrite (p2_shift (Zpos p) e' (Zpos k)) by lia.
      replace (e' + Zpos k) with e by lia. reflexivity.
    + rewrite Zdigits2_shift. lia.
Qed.

Lemma rel_err_p2 : (rel_err == p2 (-49))%Q.
Proof. reflexivity. Qed.

Lemma p2_max (a b : Z) : (p2 (Z.max a b) <= p2 a + p2 b)%Q.
Proof.
  pose proof (p2_pos a). pose proof (p2_pos b).
  destruct (Z.max_spec a b) as [[_ ->]|[_ ->]]; lra.
Qed.

(** The rounding of an integer mantissa at an exponent of the format. *)
Lemma binary_round_value (sx : bool) (p : positive) (e : Z) :
  emin <= e ->
  let r := binary_round prec emax sx p e in
  let x := (inject_Z (Zpos p) * p2 e)%Q in
  r = S754_infinity sx \/
  (exists m' e', r = S754_finite sx m' e') /\
  (x - rel_err * x <= sf_mag r)%Q /\ (sf_mag r <= x + rel_err * x)%Q.
Proof.
  intros He. cbv zeta. unfold binary_round.
  pose proof (shl_align_value p e (fexp prec emax (Zpos (digits2_pos p) + e))) as Hs.
  cbv zeta in Hs.
  destruct (shl_align p e (fexp prec emax (Zpos (digits2_pos p) + e))) as [mz ez].
  cbn [fst snd] in Hs. destruct Hs as [Hval [Hez Hdig]].
  change (Zpos (digits2_pos p)) with (Zdigits2 (Zpos p)) in *.
  set (D := Zdigits2 (Zpos p) + e) in *.
  pose proof (mag_pos p e) as Hxpos.
  set (x := (inject_Z (Zpos p) * p2 e)%Q) in *.
  destruct (Z.le_gt_cases (fexp prec emax D) e) as [Hc|Hc].
  - (* the mantissa is brought to the exponent of the format: exact *)
    rewrite binary_round_aux_exact by (rewrite Hdig; fold D; lia).
    destruct (ez <=? emax - prec); [right|left; reflexivity].
    split; [eauto|]. cbn [sf_mag].
    set (v := (inject_Z (Zpos mz) * p2 ez)%Q) in *. unfold rel_err. split; lra.
  - (* the mantissa is too long: it is shifted and rounded *)
    assert (Hez' : ez = e) by lia. clear Hez. subst ez.
    assert (HfD : fexp prec emax D = D - 53)
      by (unfold fexp, SpecFloat.emin, prec, emax in *; lia).
    pose proof (binary_round_aux_value sx (Zpos mz) e loc_Exact x ltac:(lia)) as Hr.
    cbv zeta in Hr.
    pose proof (p2_pos e) as Hpe.
    assert (H1 : (inject_Z (Zpos mz) * p2 e <= x)%Q) by (rewrite Hval; apply Qle_refl).
    assert (H2 : (x < (inject_Z (Zpos mz) + 1) * p2 e)%Q).
    { rewrite <- Hval. set (a := inject_Z (Zpos mz)). set (b := p2 e) in *. lra. }
    specialize (Hr H1 H2).
    assert (HE : Z.max e (fexp prec emax (Zdigits2 (Zpos mz) + e + 1)) = D - 52).
    { rewrite Hdig. fold D. unfold fexp, SpecFloat.emin, prec, emax in *. lia. }
    rewrite HE in Hr.
    assert (Hx : (2 * p2 (D - 52) <= rel_err * x)%Q).
    { pose proof (mag_digits p e) as [Hl _]. fold D in Hl. fold x in Hl.
      replace (D - 52) with ((D - 1) + (-51)) by lia. rewrite p2_add.
      rewrite rel_err_p2.
      assert (E51 : (2 * p2 (-51) == p2 (-50))%Q) by reflexivity.
      assert (E50 : (p2 (-50) <= p2 (-49))%Q) by (apply p2_le; lia).
      pose proof (p2_pos (D - 1)) as Hp1.
      set (a := p2 (D - 1)) in *. set (b := p2 (-51)) in *.
      set (c := p2 (-49)) in *. set (c' := p2 (-50)) in *.
      assert (Hac : (a * c <= x * c)%Q).
      { apply Qmult_le_compat_r; [exact Hl|]. unfold c. apply Qlt_le_weak, p2_pos. }
      assert (Hab : (2 * (a * b) == a * c')%Q) by (rewrite <- E51; ring).
      assert (Hcc : (a * c' <= a * c)%Q).
      { rewrite !(Qmult_comm a). apply Qmult_le_compat_r; [exact E50|].
        apply Qlt_le_weak, Hp1. }
      lra. }
    destruct Hr as [[Hinf _]|[Hsh [Hlo Hhi]]]; [left; exact Hinf|].
    right. split; [|split; lra].
    destruct Hsh as [Hz|Hf]; [|exact Hf].
    exfalso. rewrite Hz in Hlo. cbn [sf_mag] in Hlo.
    assert (Hre : (rel_err * x <= (1 # 2) * x)%Q).
    { apply Qmult_le_compat_r; [unfold rel_err; apply Qle_bool_iff; reflexivity|].
      apply Qlt_le_weak, Hxpos. }
    lra.
Qed.

(** ** Addition, multiplication and division, by value *)

Lemma to_Q_finite (z : float) (m : positive) (e : Z) :
  Prim2SF z = S754_finite false m e ->
  (PyFloat.to_Q z == inject_Z (Zpos m) * p2 e)%Q.
Proof.
  intros H. rewrite to_Q_mag; [rewrite H; reflexivity|].
  unfold nonneg. rewrite H. reflexivity.
Qed.

Lemma to_Q_zero (z : float) (s : bool) :
  Prim2SF z = S754_zero s -> (PyFloat.to_Q z == 0)%Q.
Proof. intros H. unfold PyFloat.to_Q. rewrite H. reflexivity. Qed.

Lemma p2_rel (k : Z) (x : Q) : (p2 k <= x)%Q -> (p2 (k - 49) <= rel_err * x)%Q.
Proof.
  intros H. replace (k - 49) with (k + (-49)) by lia. rewrite p2_add, rel_err_p2.
  rewrite (Qmult_comm (p2 (-49))). apply Qmult_le_compat_r; [exact H|].
  apply Qlt_le_weak, p2_pos.
Qed.

Lemma p2_double (k : Z) : (2 * p2 k == p2 (k + 1))%Q.
Proof. rewrite p2_succ. reflexivity. Qed.

(** The sum of two positive finite floats. *)
Lemma add_finite_value (x y : float) :
  pos_finite x = true -> pos_finite y = true ->
  Prim2SF (x + y) = S754_infinity false \/
  (pos_finite (x + y) = true /\
   (PyFloat.to_Q x + PyFloat.to_Q y
    - rel_err * (PyFloat.to_Q x + PyFloat.to_Q y) <= PyFloat.to_Q (x + y))%Q /\
   (PyFloat.to_Q (x + y)
    <= PyFloat.to_Q x + PyFloat.to_Q y
       + rel_err * (PyFloat.to_Q x + PyFloat.to_Q y))%Q).
Proof.
  unfold pos_finite at 1 2. intros Hx Hy.
  destruct (Prim2SF x) as [sx|sx| |[|] mx ex] eqn:Ex; try discriminate.
  destruct (Prim2SF y) as [sy|sy| |[|] my ey] eqn:Ey; try discriminate.
  pose proof (valid_exponent x _ _ _ Ex) as Hex.
  pose proof (valid_exponent y _ _ _ Ey) as Hey.
  rewrite (to_Q_finite x _ _ Ex), (to_Q_finite y _ _ Ey).
  pose proof (add_spec x y) as Hs. unfold SF64add in Hs. rewrite Ex, Ey in Hs.
  cbn [SFadd cond_Zopp] in Hs.
  pose proof (shl_align_value mx ex (Z.min ex ey)) as Ha.
  pose proof (shl_align_value my ey (Z.min ex ey)) as Hb.
  cbv zeta in Ha, Hb.
  destruct (shl_align mx ex (Z.min ex ey)) as [a ea].
  destruct (shl_align my ey (Z.min ex ey)) as [b eb].
  cbn [fst snd] in *.
  destruct Ha as [Hva [Hea _]]. destruct Hb as [Hvb [Heb _]].
  replace (Z.min ex (Z.min ex ey)) with (Z.min ex ey) in Hea by lia.
  replace (Z.min ey (Z.min ex ey)) with (Z.min ex ey) in Heb by lia.
  subst ea eb.
  change (Zpos a + Zpos b) with (Zpos (a + b)) in Hs. cbn [binary_normalize] in Hs.
  pose proof (binary_round_value false (a + b) (Z.min ex ey) ltac:(lia)) as Hr.
  cbv zeta in Hr. rewrite <- Hs in Hr.
  assert (Hsum : (inject_Z (Zpos (a + b)) * p2 (Z.min ex ey)
                  == inject_Z (Zpos mx) * p2 ex + inject_Z (Zpos my) * p2 ey)%Q).
  { rewrite <- Hva, <- Hvb. rewrite Pos2Z.inj_add, inject_Z_plus. ring. }
  destruct Hr as [Hinf|[[m' [e' Hf]] [Hlo Hhi]]]; [left; exact Hinf|].
  right. split; [unfold pos_finite; rewrite Hf; reflexivity|].
  rewrite (to_Q_finite _ _ _ Hf). rewrite Hf in Hlo, Hhi. cbn [sf_mag] in Hlo, Hhi.
  set (v := (inject_Z (Zpos (a + b)) * p2 (Z.min ex ey))%Q) in *.
  set (s := (inject_Z (Zpos mx) * p2 ex + inject_Z (Zpos my) * p2 ey)%Q) in *.
  set (w := (inject_Z (Zpos m') * p2 e')%Q) in *.
  unfold rel_err in *. split; lra.
Qed.

(** The sum of a float that is zero or positive and finite, and a positive
    finite float. *)
Lemma add_value (x y : float) :
  nonneg x = true -> finite x = true -> pos_finite y = true ->
  Prim2SF (x + y) = S754_infinity false \/
  (pos_finite (x + y) = true /\
   (PyFloat.to_Q x + PyFloat.to_Q y
    - rel_err * (PyFloat.to_Q x + PyFloat.to_Q y) <= PyFloat.to_Q (x + y))%Q /\
   (PyFloat.to_Q (x + y)
    <= PyFloat.to_Q x + PyFloat.to_Q y
       + rel_err * (PyFloat.to_Q x + PyFloat.to_Q y))%Q).
Proof.
  intros Hn Hf Hy.
  destruct (pos_finite x) eqn:Hx; [apply add_finite_value; assumption|].
  assert (Hz : exists s, Prim2SF x = S754_zero s).
  { unfold nonneg, finite, pos_finite in *.
    destruct (Prim2SF x) as [s|[|]| |[|] m e]; try discriminate; eauto. }
  destruct Hz as [s Hz].
  assert (Hs : Prim2SF (x + y) = Prim2SF y).
  { rewrite add_spec. unfold SF64add. rewrite Hz. unfold pos_finite in Hy.
    destruct (Prim2SF y) as [sy|sy| |[|] my ey]; try discriminate. reflexivity. }
  right. split; [unfold pos_finite in *; rewrite Hs; exact Hy|].
  assert (Hq : (PyFloat.to_Q (x + y) == PyFloat.to_Q y)%Q)
    by (unfold PyFloat.to_Q; rewrite Hs; reflexivity).
  pose proof (to_Q_zero x s Hz) as H0. pose proof (pos_finite_value y Hy) as Hp.
  rewrite Hq, H0. unfold rel_err. split; lra.
Qed.

(** An infinite total stays infinite. *)
Lemma add_infinity (x y : float) :
  Prim2SF x = S754_infinity false -> nonneg y = true ->
  Prim2SF (x + y) = S754_infinity false.
Proof.
  intros Hx Hy. rewrite add_spec. unfold SF64add. rewrite Hx. unfold nonneg in Hy.
  destruct (Prim2SF y) as [sy|[|]| |[|] my ey]; try discriminate; reflexivity.
Qed.

Lemma abs_err_p2 : (abs_err == 2 * p2 emin)%Q.
Proof. unfold abs_err. rewrite p2_double. reflexivity. Qed.

(** The bound of a rounding whose exponent is the one of the format, or
    the least one: relative to the value, or absolute. *)
Lemma round_error_bound (D : Z) (x : Q) :
  (p2 (D - 1) <= x)%Q ->
  (2 * p2 (fexp prec emax (D + 1)) <= rel_err * x + abs_err)%Q.
Proof.
  intros Hx. unfold fexp.
  pose proof (p2_max (D + 1 - prec) emin) as Hm.
  pose proof (p2_rel (D - 1) x Hx) as Hr.
  assert (Hle : (p2 (D + 1 - prec) <= p2 (D - 1 - 49))%Q) by (apply p2_le; unfold prec; lia).
  assert (Hd : (2 * p2 (D + 1 - prec) <= p2 (D - 1 - 49))%Q).
  { rewrite p2_double. apply p2_le. unfold prec. lia. }
  rewrite abs_err_p2.
  set (a := p2 (Z.max (D + 1 - prec) emin)) in *.
  set (b := p2 (D + 1 - prec)) in *. set (c := p2 emin) in *.
  set (d := p2 (D - 1 - 49)) in *. unfold rel_err in *. lra.
Qed.

Lemma p2_large (k : Z) : 10 <= k -> (1024 <= p2 k)%Q.
Proof. intros H. eapply Qle_trans; [|apply (p2_le 10 k H)]. apply Qle_bool_iff. reflexivity. Qed.

Lemma Prim2SF_100 : Prim2SF 100 = S754_finite false 7036874417766400 (-46).
Proof. reflexivity. Qed.

(** The product with 100 of a float that is zero or positive, and small. *)
Lemma mul_100_value (x : float) :
  nonneg x = true -> finite x = true -> (PyFloat.to_Q x <= 4)%Q ->
  nonneg (x * 100) = true /\ finite (x * 100) = true /\
  (100 * PyFloat.to_Q x - (rel_err * (100 * PyFloat.to_Q x) + abs_err)
   <= PyFloat.to_Q (x * 100))%Q /\
  (PyFloat.to_Q (x * 100)
   <= 100 * PyFloat.to_Q x + (rel_err * (100 * PyFloat.to_Q x) + abs_err))%Q.
Proof.
  intros Hn Hf Hx4.
  pose proof (mul_spec x 100) as Hs. unfold SF64mul in Hs. rewrite Prim2SF_100 in Hs.
  pose proof (p2_pos (-1073)) as Hae. fold abs_err in Hae.
  unfold nonneg, finite in Hn, Hf.
  destruct (Prim2SF x) as [s|[|]| |[|] mx ex] eqn:Ex; try discriminate.
  - cbn [SFmul] in Hs.
    rewrite (to_Q_zero x s Ex), (to_Q_zero (x * 100) _ Hs).
    unfold nonneg, finite. rewrite Hs. unfold rel_err.
    split; [reflexivity|]. split; [reflexivity|]. split; lra.
  - cbn [SFmul xorb] in Hs.
    pose proof (valid_exponent_upper x _ _ _ Ex) as Hup.
    pose proof (to_Q_finite x _ _ Ex) as HX. rewrite HX in Hx4. rewrite HX.
    set (M := 7036874417766400%positive) in *.
    set (p := (mx * M)%positive) in *. set (e := ex + -46) in *.
    set (v := (inject_Z (Zpos p) * p2 e)%Q).
    assert (Hv : (v == 100 * (inject_Z (Zpos mx) * p2 ex))%Q).
    { unfold v, p, e. rewrite Pos2Z.inj_mul, inject_Z_mult, p2_add.
      assert (E100 : (inject_Z (Zpos M) * p2 (-46) == 100)%Q) by reflexivity.
      rewrite <- E100. ring. }
    pose proof (mag_pos p e) as Hvpos. fold v in Hvpos.
    pose proof (mag_digits p e) as [Hdl _]. fold v in Hdl.
    set (D := Zdigits2 (Zpos p) + e) in *.
    set (X := (inject_Z (Zpos mx) * p2 ex)%Q) in *.
    destruct (Z.le_gt_cases (fexp prec emax D) e) as [Hc|Hc].
    + rewrite binary_round_aux_exact in Hs by exact Hc.
      assert (Hle : (e <=? emax - prec) = true)
        by (apply Z.leb_le; unfold e, emax, prec in *; lia).
      rewrite Hle in Hs.
      rewrite (to_Q_finite _ _ _ Hs). fold v.
      unfold nonneg, finite. rewrite Hs. unfold rel_err.
      split; [reflexivity|]. split; [reflexivity|]. split; lra.
    + pose proof (binary_round_aux_value false (Zpos p) e loc_Exact v ltac:(lia)) as Hr.
      cbv zeta in Hr. fold D in Hr.
      assert (H1 : (inject_Z (Zpos p) * p2 e <= v)%Q) by apply Qle_refl.
      assert (H2 : (v < (inject_Z (Zpos p) + 1) * p2 e)%Q).
      { unfold v. pose proof (p2_pos e). set (a := inject_Z (Zpos p)).
        set (b := p2 e) in *. lra. }
      specialize (Hr H1 H2). rewrite <- Hs in Hr.
      assert (HE : Z.max e (fexp prec emax (D + 1)) = fexp prec emax (D + 1)).
      { pose proof (fexp_mono D (D + 1) ltac:(lia)). lia. }
      rewrite HE in Hr.
      pose proof (round_error_bound D v Hdl) as Hb.
      destruct Hr as [[_ Hbig]|[Hsh [Hlo Hhi]]].
      * exfalso.
        assert (HD : 1024 <= D) by (unfold fexp, SpecFloat.emin, prec, emax in Hbig; lia).
        pose proof (p2_large (D - 1) ltac:(lia)) as Hl.
        set (P := p2 (D - 1)) in *. lra.
      * assert (Hform : nonneg (x * 100) = true /\ finite (x * 100) = true /\
                        (PyFloat.to_Q (x * 100) == sf_mag (Prim2SF (x * 100)))%Q).
        { destruct Hsh as [Hz|[m' [e' Hfin]]].
          - unfold nonneg, finite. rewrite Hz. repeat split.
            rewrite (to_Q_zero _ _ Hz). reflexivity.
          - unfold nonneg, finite. rewrite Hfin. repeat split.
            rewrite (to_Q_finite _ _ _ Hfin). reflexivity. }
        destruct Hform as [Hn' [Hf' Hq]].
        split; [exact Hn'|]. split; [exact Hf'|]. rewrite Hq.
        set (w := sf_mag (Prim2SF (x * 100))) in *.
        set (B := p2 (fexp prec emax (D + 1))) in *.
        unfold rel_err in *. split; lra.
Qed.

Lemma round_error_bound2 (D : Z) (x : Q) :
  (p2 (D - 1) <= x)%Q ->
  (2 * p2 (fexp prec emax (D + 2)) <= rel_err * x + abs_err)%Q.
Proof.
  intros Hx. unfold fexp.
  pose proof (p2_max (D + 2 - prec) emin) as Hm.
  pose proof (p2_rel (D - 1) x Hx) as Hr.
  assert (Hd : (2 * p2 (D + 2 - prec) <= p2 (D - 1 - 49))%Q).
  { rewrite p2_double. apply p2_le. unfold prec. lia. }
  rewrite abs_err_p2.
  set (a := p2 (Z.max (D + 2 - prec) emin)) in *.
  set (b := p2 (D + 2 - prec)) in *. set (c := p2 emin) in *.
  set (d := p2 (D - 1 - 49)) in *. unfold rel_err in *. lra.
Qed.

(** What the division of two mantissas returns: the quotient [q] of the
    first one, shifted left by [s] places, by the second one, at an
    exponent that is at most the one of the format. *)
Lemma SFdiv_core_facts (m1 m2 : positive) (e1 e2 : Z) :
  let r := SFdiv_core_binary prec emax (Zpos m1) e1 (Zpos m2) e2 in
  let q := fst (fst r) in
  let e' := snd (fst r) in
  let s := e1 - e2 - e' in
  let Dd := Zdigits2 (Zpos m1) + e1 - (Zdigits2 (Zpos m2) + e2) in
  0 <= s /\ 0 <= q /\
  e' <= fexp prec emax Dd /\
  q * Zpos m2 <= Zpos m1 * 2 ^ s < (q + 1) * Zpos m2 /\
  Zdigits2 q + e' <= Z.max (Dd + 1) e'.
Proof.
  cbv zeta. unfold SFdiv_core_binary.
  set (d1 := Zdigits2 (Zpos m1)). set (d2 := Zdigits2 (Zpos m2)).
  set (e' := Z.min (fexp prec emax (d1 + e1 - (d2 + e2))) (e1 - e2)).
  set (s := e1 - e2 - e').
  assert (Hs : 0 <= s) by (unfold s, e'; lia).
  set (m' := match s with Zpos _ => Z.shiftl (Zpos m1) s | 0 => Zpos m1 | Zneg _ => 0 end).
  assert (Hm' : m' = Zpos m1 * 2 ^ s).
  { unfold m'. destruct s as [|k|k] eqn:Es; try lia.
    apply Z.shiftl_mul_pow2. lia. }
  pose proof (Z_div_mod m' (Zpos m2) ltac:(lia)) as Hdm.
  destruct (Z.div_eucl m' (Zpos m2)) as [q r]. cbn [fst snd].
  destruct Hdm as [Heq Hr].
  assert (Hp : 0 < 2 ^ s) by (apply Z.pow_pos_nonneg; lia).
  assert (Hq : 0 <= q) by nia.
  assert (Hfl : q * Zpos m2 <= Zpos m1 * 2 ^ s < (q + 1) * Zpos m2)
    by (rewrite <- Hm'; nia).
  split; [exact Hs|]. split; [exact Hq|]. split; [unfold e'; lia|].
  split; [exact Hfl|].
  change (Zdigits2 q + e' <= Z.max (d1 + e1 - (d2 + e2) + 1) e').
  (* the digits of the quotient *)
  pose proof (digits2_pos_bounds m1) as [_ Hu1].
  pose proof (digits2_pos_bounds m2) as [Hl2 _].
  change (Zpos (digits2_pos m1)) with d1 in Hu1.
  change (Zpos (digits2_pos m2)) with d2 in Hl2.
  assert (Hd1 : 1 <= d1) by (unfold d1; cbn; lia).
  assert (Hd2 : 1 <= d2) by (unfold d2; cbn; lia).
  assert (Hp2 : 0 < 2 ^ (d2 - 1)) by (apply Z.pow_pos_nonneg; lia).
  assert (Hm1s : m' < 2 ^ (d1 + s)) by (rewrite Hm', Z.pow_add_r by lia; nia).
  assert (Hq2 : q * 2 ^ (d2 - 1) < 2 ^ (d1 + s)) by nia.
  destruct (Z.le_gt_cases (d2 - 1) (d1 + s)) as [Hc|Hc].
  - assert (Hpow : 2 ^ (d1 + s) = 2 ^ (d1 + s - (d2 - 1)) * 2 ^ (d2 - 1)).
    { rewrite <- Z.pow_add_r by lia. f_equal. lia. }
    assert (Hq3 : q < 2 ^ (d1 + s - (d2 - 1))) by nia.
    assert (Hdq : Zdigits2 q <= d1 + s - (d2 - 1)) by (apply Zdigits2_le; lia).
    unfold s in Hdq. lia.
  - assert (Hlt : 2 ^ (d1 + s) < 2 ^ (d2 - 1)) by (apply Z.pow_lt_mono_r; lia).
    assert (Hq0 : q = 0) by nia. subst q. cbn [Zdigits2]. lia.
Qed.

(** The quotient of two positive finite floats, where it is small. *)
Lemma div_value (x y : float) (R : Q) :
  pos_finite x = true -> pos_finite y = true ->
  (R * PyFloat.to_Q y == PyFloat.to_Q x)%Q -> (R <= 4)%Q ->
  nonneg (x / y) = true /\ finite (x / y) = true /\
  (R - (rel_err * R + abs_err) <= PyFloat.to_Q (x / y))%Q /\
  (PyFloat.to_Q (x / y) <= R + (rel_err * R + abs_err))%Q.
Proof.
  unfold pos_finite at 1 2. intros Hx Hy HR HR4.
  destruct (Prim2SF x) as [sx|sx| |[|] mx ex] eqn:Ex; try discriminate.
  destruct (Prim2SF y) as [sy|sy| |[|] my ey] eqn:Ey; try discriminate.
  rewrite (to_Q_finite x _ _ Ex), (to_Q_finite y _ _ Ey) in HR.
  pose proof (div_spec x y) as Hs. unfold SF64div in Hs. rewrite Ex, Ey in Hs.
  cbn [SFdiv xorb] in Hs.
  pose proof (SFdiv_core_facts mx my ex ey) as Hc. cbv zeta in Hc.
  destruct (SFdiv_core_binary prec emax (Zpos mx) ex (Zpos my) ey) as [[q e'] l].
  cbn [fst snd] in Hc. destruct Hc as [Hs0 [Hq0 [He' [Hfl Hdq]]]].
  set (s := ex - ey - e') in *.
  set (Dd := Zdigits2 (Zpos mx) + ex - (Zdigits2 (Zpos my) + ey)) in *.
  pose proof (mag_pos my ey) as HY. pose proof (mag_pos mx ex) as HX.
  set (X := (inject_Z (Zpos mx) * p2 ex)%Q) in *.
  set (Y := (inject_Z (Zpos my) * p2 ey)%Q) in *.
  (* the quotient, as a number of the form q * 2^e' *)
  assert (HXs : (X == inject_Z (Zpos mx * 2 ^ s) * p2 (e' + ey))%Q).
  { rewrite (p2_shift (Zpos mx) (e' + ey) s Hs0). unfold X.
    replace (e' + ey + s) with ex by (unfold s; lia). reflexivity. }
  assert (Hpe : (0 < p2 (e' + ey))%Q) by apply p2_pos.
  assert (Hlo : (inject_Z q * p2 e' <= R)%Q).
  { apply (Qmult_le_r _ _ Y HY). rewrite HR, HXs. unfold Y.
    setoid_replace (inject_Z q * p2 e' * (inject_Z (Zpos my) * p2 ey))%Q
      with (inject_Z (q * Zpos my) * p2 (e' + ey))%Q
      by (rewrite inject_Z_mult, p2_add; ring).
    apply Qmult_le_compat_r; [|apply Qlt_le_weak, Hpe]. rewrite <- Zle_Qle. lia. }
  assert (Hhi : (R < (inject_Z q + 1) * p2 e')%Q).
  { apply (Qmult_lt_r _ _ Y HY). rewrite HR, HXs. unfold Y.
    setoid_replace ((inject_Z q + 1) * p2 e' * (inject_Z (Zpos my) * p2 ey))%Q
      with (inject_Z ((q + 1) * Zpos my) * p2 (e' + ey))%Q
      by (rewrite inject_Z_mult, inject_Z_plus, p2_add; ring).
    apply Qmult_lt_compat_r; [exact Hpe|]. rewrite <- Zlt_Qlt. lia. }
  (* its magnitude *)
  assert (HRl : (p2 (Dd - 1) <= R)%Q).
  { pose proof (mag_digits mx ex) as [Hxl _]. pose proof (mag_digits my ey) as [_ Hyu].
    fold X in Hxl. fold Y in Hyu.
    apply (Qmult_le_r _ _ Y HY). rewrite HR.
    eapply Qle_trans; [|exact Hxl].
    replace (Zdigits2 (Zpos mx) + ex - 1) with (Dd - 1 + (Zdigits2 (Zpos my) + ey))
      by (unfold Dd; lia).
    rewrite p2_add. rewrite !(Qmult_comm (p2 (Dd - 1))).
    apply Qmult_le_compat_r; [exact Hyu|]. apply Qlt_le_weak, p2_pos. }
  pose proof (binary_round_aux_value false q e' l R Hq0 Hlo Hhi) as Hr.
  cbv zeta in Hr. rewrite <- Hs in Hr.
  set (E := Z.max e' (fexp prec emax (Zdigits2 q + e' + 1))) in *.
  assert (HEF : E <= fexp prec emax (Dd + 2)).
  { unfold E. unfold fexp, SpecFloat.emin, prec, emax in *. lia. }
  pose proof (p2_le _ _ HEF) as HpEF.
  pose proof (round_error_bound2 Dd R HRl) as Hb.
  pose proof (p2_pos (-1073)) as Hae. fold abs_err in Hae.
  destruct Hr as [[_ Hbig]|[Hsh [Hl Hh]]].
  - exfalso.
    assert (HD : 1023 <= Dd) by (unfold fexp, SpecFloat.emin, prec, emax in *; lia).
    pose proof (p2_large (Dd - 1) ltac:(lia)) as Hlarge.
    set (P := p2 (Dd - 1)) in *. lra.
  - assert (Hform : nonneg (x / y) = true /\ finite (x / y) = true /\
                    (PyFloat.to_Q (x / y) == sf_mag (Prim2SF (x / y)))%Q).
    { destruct Hsh as [Hz|[m' [e'' Hfin]]].
      - unfold nonneg, finite. rewrite Hz. repeat split.
        rewrite (to_Q_zero _ _ Hz). reflexivity.
      - unfold nonneg, finite. rewrite Hfin. repeat split.
        rewrite (to_Q_finite _ _ _ Hfin). reflexivity. }
    destruct Hform as [Hn' [Hf' Hq]].
    split; [exact Hn'|]. split; [exact Hf'|]. rewrite Hq.
    set (w := sf_mag (Prim2SF (x / y))) in *.
    set (B := p2 E) in *. set (F := p2 (fexp prec emax (Dd + 2))) in *.
    unfold rel_err in *. split; lra.
Qed.

(** ** Sums of amounts, by value *)

Lemma positive_record_amount (t : transaction) :
  positive_record t = true -> Quantity t < 2 ^ 63 -> positive_amount t.
Proof.
  unfold positive_record. intros Hp Hq.
  apply andb_true_iff in Hp. destruct Hp as [Hp _].
  apply andb_true_iff in Hp. destruct Hp as [Hq0 Hp]. apply Z.ltb_lt in Hq0.
  destruct (of_int_small_above (Quantity t) ltac:(lia)) as [q [m [e [Hof [Hsf Hd]]]]].
  unfold positive_amount, amount. rewrite Hof. cbn [bind]. eexists. split; [reflexivity|].
  rewrite ltb_zero_positive, mul_spec. apply (SFmul_positive q _ m e Hsf Hd).
  rewrite <- ltb_zero_positive. exact Hp.
Qed.

Lemma positive_float_cases (a : float) :
  (0 <? a)%float = true -> pos_finite a = true \/ Prim2SF a = S754_infinity false.
Proof.
  rewrite ltb_zero_positive. unfold pos_finite.
  destruct (Prim2SF a) as [s|[|]| |[|] m e]; cbn; try discriminate; auto.
Qed.

Lemma finite_not_infinity (x : float) :
  finite x = true -> Prim2SF x <> S754_infinity false.
Proof. unfold finite. intros H E. rewrite E in H. discriminate. Qed.

(** Once infinite, a total of positive amounts stays infinite. *)
Lemma accumulate_infinity (sel : list transaction) (acc tot : float) :
  Forall positive_amount sel ->
  Prim2SF acc = S754_infinity false ->
  accumulate sel acc = Returns tot -> Prim2SF tot = S754_infinity false.
Proof.
  intros Hall. revert acc. induction Hall as [|t sel [a [Ha Hpos]] _ IH]; intros acc Hacc H.
  - cbn in H. inversion H; subst. exact Hacc.
  - cbn [accumulate] in H. rewrite Ha in H. cbn [bind] in H.
    apply (IH (acc + a)%float); [|exact H].
    apply add_infinity; [exact Hacc|]. apply positive_nonneg, Hpos.
Qed.

Lemma len_nil {A : Type} : len (@nil A) = 0.
Proof. reflexivity. Qed.

(** The total of positive amounts added one after the other, where it is
    finite: each addition rounds by a relative error of [rel_err] at
    most. *)
Lemma accumulate_value (sel : list transaction) (acc tot : float) :
  Forall positive_amount sel ->
  nonneg acc = true -> finite acc = true ->
  accumulate sel acc = Returns tot -> finite tot = true ->
  (2 * (inject_Z (len sel) * rel_err) <= 1)%Q ->
  nonneg tot = true /\
  (sel <> [] -> pos_finite tot = true) /\
  (PyFloat.to_Q acc + exact_total sel
   - inject_Z (len sel) * rel_err * (PyFloat.to_Q acc + exact_total sel)
   <= PyFloat.to_Q tot)%Q /\
  (PyFloat.to_Q tot
   <= PyFloat.to_Q acc + exact_total sel
      + 2 * (inject_Z (len sel) * rel_err) * (PyFloat.to_Q acc + exact_total sel))%Q.
Proof.
  intros Hall. revert acc.
  induction Hall as [|t sel [a [Ha Hpos]] Hall IH]; intros acc Hn Hf H Hfin Hlen.
  - cbn in H. inversion H; subst tot. split; [exact Hn|]. split; [congruence|].
    unfold exact_total. cbn [map Qsum]. change (inject_Z (len (@nil transaction))) with 0%Q.
    split; lra.
  - cbn [accumulate] in H. rewrite Ha in H. cbn [bind] in H.
    rewrite len_cons, inject_Z_plus in Hlen. rewrite len_cons, inject_Z_plus.
    change (inject_Z 1) with 1%Q in *.
    assert (Hk : (0 <= inject_Z (len sel))%Q).
    { change 0%Q with (inject_Z 0). rewrite <- Zle_Qle. apply len_nonneg. }
    (* the amount and the first sum are finite *)
    destruct (positive_float_cases a Hpos) as [Hpa|Hinf].
    2:{ exfalso. apply (finite_not_infinity tot Hfin).
        apply (accumulate_infinity sel (acc + a)%float tot Hall); [|exact H].
        rewrite add_spec. unfold SF64add. rewrite Hinf.
        unfold nonneg, finite in Hn, Hf.
        destruct (Prim2SF acc) as [s|[|]| |[|] m e]; try discriminate; reflexivity. }
    destruct (add_value acc a Hn Hf Hpa) as [Hinf|[Hps [Hlo Hhi]]].
    { exfalso. apply (finite_not_infinity tot Hfin).
      apply (accumulate_infinity sel (acc + a)%float tot Hall Hinf H). }
    assert (Hlen' : (2 * (inject_Z (len sel) * rel_err) <= 1)%Q)
      by (unfold rel_err in *; lra).
    destruct (IH (acc + a)%float (pos_finite_nonneg _ Hps) (pos_finite_finite _ Hps)
                H Hfin Hlen') as [Hnt [Hpt [Hl Hh]]].
    pose proof (nonneg_value acc Hn) as HA. pose proof (pos_finite_value a Hpa) as Hav.
    assert (HS : (0 <= exact_total sel)%Q).
    { clear - Hall. unfold exact_total.
      induction Hall as [|t sel [a [Ha Hpos]] _ IH]; cbn [map Qsum]; [apply Qle_refl|].
      unfold exact_amount at 1. rewrite Ha.
      pose proof (nonneg_value a (positive_nonneg a Hpos)). lra. }
    assert (Het : (exact_total (t :: sel) == PyFloat.to_Q a + exact_total sel)%Q).
    { unfold exact_total. cbn [map Qsum]. unfold exact_amount at 1. rewrite Ha.
      reflexivity. }
    split; [exact Hnt|]. split.
    { intros _. destruct sel as [|t' sel'].
      - cbn in H. inversion H; subst tot. exact Hps.
      - apply Hpt. discriminate. }
    rewrite Het.
    set (A := PyFloat.to_Q acc) in *. set (av := PyFloat.to_Q a) in *.
    set (S := exact_total sel) in *. set (W := PyFloat.to_Q (acc + a)) in *.
    set (T := PyFloat.to_Q tot) in *. set (k := inject_Z (len sel)) in *.
    unfold rel_err in *. split; nra.
Qed.

(** ** One percentage, by value *)

Lemma decimals_read_back : forallb decimal_read_back_close percent_decimals = true.
Proof. vm_compute. reflexivity. Qed.

Lemma decimal_read_back (n : Z) :
  0 <= n <= 10010 ->
  (Qabs (PyFloat.to_Q (PyFloat.of_decimal false n (-2)) - (n # 100))
   <= 1 # 1099511627776)%Q.
Proof.
  intros Hn. apply Qle_bool_iff.
  change (decimal_read_back_close n = true).
  pose proof decimals_read_back as H. rewrite forallb_forall in H. apply H.
  unfold percent_decimals. apply in_map_iff. exists (Z.to_nat n).
  split; [lia|]. apply in_seq. lia.
Qed.

Lemma abs_err_small : (0 < abs_err)%Q /\ (abs_err <= 1 # 1152921504606846976)%Q.
Proof.
  split; [apply p2_pos|]. unfold abs_err.
  eapply Qle_trans; [apply (p2_le (-1073) (-60)); lia|].
  apply Qle_bool_iff. reflexivity.
Qed.

Lemma Qabs_le_iff (x y : Q) : (Qabs x <= y)%Q <-> (- y <= x)%Q /\ (x <= y)%Q.
Proof. apply Qabs_Qle_condition. Qed.

(** [round(x, 2)] of a float that is zero or positive and at most 100.1:
    the result is within [0.005 + 2^-40] of [x]. *)
Lemma round_2_value (q : float) :
  nonneg q = true -> finite q = true -> (PyFloat.to_Q q <= 1001 # 10)%Q ->
  (Qabs (PyFloat.to_Q (PyFloat.round q 2) - PyFloat.to_Q q)
   <= (1 # 200) + (1 # 1099511627776))%Q.
Proof.
  intros Hn Hf Hq.
  pose proof (rounded_value_close q Hf) as Hc.
  pose proof (nonneg_value q Hn) as Hq0.
  unfold PyFloat.round. unfold rounded_value in Hc. unfold nonneg, finite in Hn, Hf.
  destruct (Prim2SF q) as [s|[|]| |[|] m e] eqn:E; try discriminate.
  - setoid_replace (PyFloat.to_Q q - PyFloat.to_Q q)%Q with 0%Q by ring.
    apply Qle_bool_iff. reflexivity.
  - set (n := PyFloat.round_digits q 2) in *.
    change (PyFloat.decimal_Q false n 2) with (n # 100)%Q in Hc.
    change (- (2)) with (-2).
    apply Qabs_le_iff in Hc. destruct Hc as [Hc1 Hc2].
    assert (Hn100 : (inject_Z n == 100 * (n # 100))%Q).
    { rewrite (Qmake_Qdiv n 100). field. }
    assert (Hrange : 0 <= n <= 10010).
    { split.
      - assert (H : (inject_Z (-1) < inject_Z n)%Q).
        { rewrite Hn100. change (inject_Z (-1)) with (-1 # 1)%Q. lra. }
        rewrite <- Zlt_Qlt in H. lia.
      - assert (H : (inject_Z n < inject_Z 10011)%Q).
        { rewrite Hn100. change (inject_Z 10011) with (10011 # 1)%Q. lra. }
        rewrite <- Zlt_Qlt in H. lia. }
    pose proof (decimal_read_back n Hrange) as Hd.
    apply Qabs_le_iff in Hd. destruct Hd as [Hd1 Hd2].
    apply Qabs_le_iff.
    set (P := PyFloat.to_Q (PyFloat.of_decimal false n (-2))) in *.
    set (d := (n # 100)%Q) in *. set (Q0 := PyFloat.to_Q q) in *.
    split; lra.
Qed.

(** The percentage of a region: the region total [r], divided by the
    total [T], times 100, rounded to 2 decimals, is within
    [0.005 + 2^-39] of the exact [100 * r / T]. *)
Lemma percentage_value (r T : float) (rho : Q) :
  pos_finite r = true -> pos_finite T = true ->
  (rho * PyFloat.to_Q T == PyFloat.to_Q r)%Q -> (rho <= 10001 # 10000)%Q ->
  (Qabs (PyFloat.to_Q (PyFloat.round (r / T * 100) 2) - 100 * rho)
   <= (1 # 200) + (1 # 549755813888))%Q.
Proof.
  intros Hr HT Hrho Hle.
  pose proof (pos_finite_value r Hr) as HR. pose proof (pos_finite_value T HT) as HTq.
  assert (Hrho0 : (0 < rho)%Q).
  { destruct (Qlt_le_dec 0 rho) as [H|H]; [exact H|]. exfalso.
    assert (Hneg : (rho * PyFloat.to_Q T <= 0)%Q).
    { setoid_replace 0%Q with (0 * PyFloat.to_Q T)%Q by ring.
      apply Qmult_le_compat_r; [exact H | apply Qlt_le_weak, HTq]. }
    rewrite Hrho in Hneg. lra. }
  destruct abs_err_small as [Ha0 Ha].
  destruct (div_value r T rho Hr HT Hrho ltac:(lra)) as [Hdn [Hdf [Hd1 Hd2]]].
  set (d := (r / T)%float) in *.
  assert (Hd4 : (PyFloat.to_Q d <= 4)%Q) by (unfold rel_err in *; lra).
  destruct (mul_100_value d Hdn Hdf Hd4) as [Hqn [Hqf [Hq1 Hq2]]].
  set (q := (d * 100)%float) in *.
  assert (Hq100 : (PyFloat.to_Q q <= 1001 # 10)%Q) by (unfold rel_err in *; lra).
  pose proof (round_2_value q Hqn Hqf Hq100) as Hp.
  apply Qabs_le_iff in Hp. destruct Hp as [Hp1 Hp2].
  apply Qabs_le_iff.
  set (P := PyFloat.to_Q (PyFloat.round q 2)) in *.
  set (Qv := PyFloat.to_Q q) in *. set (Dv := PyFloat.to_Q d) in *.
  unfold rel_err in *. split; lra.
Qed.

(** ** Exact sums *)

Lemma Qsum_perm (l1 l2 : list Q) : Permutation l1 l2 -> (Qsum l1 == Qsum l2)%Q.
Proof. induction 1; cbn [Qsum]; lra. Qed.

Lemma Qsum_ext_in {A : Type} (f g : A -> Q) (l : list A) :
  (forall a, In a l -> (f a == g a)%Q) -> (Qsum (map f l) == Qsum (map g l))%Q.
Proof.
  induction l as [|a l IH]; intros H; cbn [map Qsum]; [reflexivity|].
  rewrite (H a (or_introl eq_refl)), IH; [reflexivity|].
  intros b Hb. apply H. right. exact Hb.
Qed.

Lemma Qsum_scale {A : Type} (f : A -> Q) (c : Q) (l : list A) :
  (Qsum (map (fun a => f a * c) l) == Qsum (map f l) * c)%Q.
Proof. induction l as [|a l IH]; cbn [map Qsum]; [ring|]. rewrite IH. ring. Qed.

Lemma Qsum_nonneg {A : Type} (f : A -> Q) (l : list A) :
  (forall a, In a l -> (0 <= f a)%Q) -> (0 <= Qsum (map f l))%Q.
Proof.
  induction l as [|a l IH]; intros H; cbn [map Qsum]; [apply Qle_refl|].
  pose proof (H a (or_introl eq_refl)).
  assert (0 <= Qsum (map f l))%Q by (apply IH; intros b Hb; apply H; right; exact Hb).
  lra.
Qed.

(** Sums of values that are close are close. *)
Lemma Qsum_close {A : Type} (f g : A -> Q) (delta : Q) (l : list A) :
  (forall a, In a l -> (Qabs (f a - g a) <= delta)%Q) ->
  (Qabs (Qsum (map f l) - Qsum (map g l)) <= inject_Z (len l) * delta)%Q.
Proof.
  induction l as [|a l IH]; intros H.
  - apply Qle_bool_iff. reflexivity.
  - cbn [map Qsum]. rewrite len_cons, inject_Z_plus. change (inject_Z 1) with 1%Q.
    pose proof (H a (or_introl eq_refl)) as Ha.
    assert (Hl : (Qabs (Qsum (map f l) - Qsum (map g l)) <= inject_Z (len l) * delta)%Q)
      by (apply IH; intros b Hb; apply H; right; exact Hb).
    apply Qabs_le_iff in Ha. apply Qabs_le_iff in Hl. apply Qabs_le_iff.
    set (k := inject_Z (len l)) in *. set (kd := (k * delta)%Q) in *.
    assert (E : ((k + 1) * delta == kd + delta)%Q) by (unfold kd; ring).
    rewrite E. destruct Ha, Hl. split; lra.
Qed.

(** Sums of values within the same factors of others. *)
Lemma Qsum_between {A : Type} (f g : A -> Q) (lo hi : Q) (l : list A) :
  (forall a, In a l -> (lo * g a <= f a)%Q /\ (f a <= hi * g a)%Q) ->
  (lo * Qsum (map g l) <= Qsum (map f l))%Q /\
  (Qsum (map f l) <= hi * Qsum (map g l))%Q.
Proof.
  induction l as [|a l IH]; intros H; cbn [map Qsum]; [split; lra|].
  destruct (H a (or_introl eq_refl)) as [H1 H2].
  destruct IH as [I1 I2]; [intros b Hb; apply H; right; exact Hb|].
  split; lra.
Qed.

Section GroupSumsQ.

Variable keyf : transaction -> string.
Variable g : transaction -> Q.

Lemma unseen_split_Q (k : string) (seen : list string) (ts : list transaction) :
  mem k seen = false ->
  (Qsum (map g (filter (fun t => negb (mem (keyf t) seen)) ts))
   == Qsum (map g (select keyf k ts))
      + Qsum (map g (filter (fun t => negb (mem (keyf t) (k :: seen))) ts)))%Q.
Proof.
  intros Hk. induction ts as [|t ts IH]; [reflexivity|].
  unfold select in *. cbn [filter]. rewrite mem_cons.
  destruct (String.eqb_spec (keyf t) k) as [E|E].
  - rewrite E, Hk. cbn [negb orb map Qsum]. lra.
  - cbn [orb]. destruct (mem (keyf t) seen); cbn [negb map Qsum]; lra.
Qed.

Lemma group_sum_unseen_Q (seen : list string) (ts : list transaction) :
  (Qsum (map (fun k => Qsum (map g (select keyf k ts)))
             (new_keys seen (map keyf ts)))
   == Qsum (map g (filter (fun t => negb (mem (keyf t) seen)) ts)))%Q.
Proof.
  revert seen. induction ts as [|t ts IH]; intros seen; [reflexivity|].
  cbn [map new_keys filter]. destruct (mem (keyf t) seen) eqn:E; cbn [negb].
  - rewrite <- IH. apply Qsum_ext_in. intros k Hk.
    rewrite select_cons_other; [reflexivity|].
    apply new_keys_not_seen in Hk. apply mem_In in E.
    intros Heq. rewrite <- Heq in Hk. tauto.
  - cbn [map Qsum]. rewrite select_cons_same. cbn [map Qsum].
    rewrite (unseen_split_Q (keyf t) seen ts E), <- IH.
    assert (Hext : (Qsum (map (fun k => Qsum (map g (select keyf k (t :: ts))))
                              (new_keys (keyf t :: seen) (map keyf ts)))
                    == Qsum (map (fun k => Qsum (map g (select keyf k ts)))
                                 (new_keys (keyf t :: seen) (map keyf ts))))%Q).
    { apply Qsum_ext_in. intros k Hk.
      rewrite select_cons_other; [reflexivity|].
      apply new_keys_not_seen in Hk. cbn in Hk.
      intros Heq. rewrite <- Heq in Hk. tauto. }
    rewrite Hext. ring.
Qed.

(** Every record is in the group of exactly one key. *)
Lemma group_sum_Q (ts : list transaction) :
  (Qsum (map (fun k => Qsum (map g (select keyf k ts))) (first_seen (map keyf ts)))
   == Qsum (map g ts))%Q.
Proof.
  unfold first_seen. rewrite group_sum_unseen_Q.
  rewrite filter_all; [reflexivity|]. apply Forall_forall. reflexivity.
Qed.

Lemma select_sum_le (k : string) (ts : list transaction) :
  (forall t, In t ts -> (0 <= g t)%Q) ->
  (Qsum (map g (select keyf k ts)) <= Qsum (map g ts))%Q.
Proof.
  unfold select. induction ts as [|t ts IH]; intros H; [apply Qle_refl|].
  cbn [filter].
  pose proof (H t (or_introl eq_refl)).
  assert (Qsum (map g (filter (fun t0 => (keyf t0 =? k)%string) ts)) <= Qsum (map g ts))%Q
    by (apply IH; intros b Hb; apply H; right; exact Hb).
  destruct (keyf t =? k)%string; cbn [map Qsum]; lra.
Qed.

End GroupSumsQ.

Lemma exact_amount_nonneg (t : transaction) :
  positive_amount t -> (0 <= exact_amount t)%Q.
Proof.
  intros [a [Ha Hpos]]. unfold exact_amount. rewrite Ha.
  apply nonneg_value, positive_nonneg, Hpos.
Qed.

Lemma finite_nonzero_value (x : float) :
  finite x = true -> (x =? 0)%float = false -> ~ (PyFloat.to_Q x == 0)%Q.
Proof.
  unfold finite. rewrite eqb_spec, Prim2SF_zero.
  unfold PyFloat.to_Q.
  destruct (Prim2SF x) as [s|s| |s m e] eqn:E; intros Hf Hz; try discriminate.
  clear Hz Hf. intros H.
  assert (Hv : (0 < inject_Z (Zpos m) * p2 e)%Q) by apply mag_pos.
  assert (Hq : ((if 0 <=? e then inject_Z (Zpos m * 2 ^ e)
                 else Zpos m # Z.to_pos (2 ^ (- e))) == inject_Z (Zpos m) * p2 e)%Q).
  { destruct (0 <=? e) eqn:He.
    - apply Z.leb_le in He. rewrite inject_Z_mult, (p2_Z e He). reflexivity.
    - apply Z.leb_gt in He.
      assert (Hp : 0 < 2 ^ (- e)) by (apply Z.pow_pos_nonneg; lia).
      rewrite Qmake_Qdiv, Z2Pos.id by exact Hp.
      assert (E' : (p2 e == / inject_Z (2 ^ (- e)))%Q).
      { replace e with (- (- e)) at 1 by lia. unfold p2. rewrite Qpower_opp.
        apply Qinv_comp. symmetry. apply Zpower_Qpower. lia. }
      rewrite E'. reflexivity. }
  cbv zeta in H.
  set (v := if 0 <=? e then inject_Z (Zpos m * 2 ^ e)
            else Zpos m # Z.to_pos (2 ^ (- e))) in *.
  destruct s; lra.
Qed.

Lemma positive_value_pos_finite (x : float) :
  (0 < PyFloat.to_Q x)%Q -> pos_finite x = true.
Proof.
  unfold PyFloat.to_Q, pos_finite.
  destruct (Prim2SF x) as [s|s| |s m e] eqn:E; try (intros H; lra).
  destruct s; [|reflexivity]. cbv zeta. intros H. exfalso.
  assert (Hv : (0 <= (if 0 <=? e then inject_Z (Zpos m * 2 ^ e)
                      else Zpos m # Z.to_pos (2 ^ (- e))))%Q).
  { destruct (0 <=? e) eqn:He.
    - change 0%Q with (inject_Z 0). rewrite <- Zle_Qle.
      apply Z.leb_le in He. pose proof (Z.pow_pos_nonneg 2 e). lia.
    - unfold Qle. cbn. lia. }
  lra.
Qed.

Lemma round_finite_inv (x : float) (ndigits : Z) :
  finite (PyFloat.round x ndigits) = true -> finite x = true.
Proof.
  unfold PyFloat.round. intros H. unfold finite in *.
  destruct (Prim2SF x) as [s|s| |s m e] eqn:E; try reflexivity;
    rewrite E in H; discriminate.
Qed.

(** ** The sum of the percentages and 100 *)

Lemma len_rel_err {A : Type} (l : list A) :
  len l <= 2 ^ 20 -> (inject_Z (len l) * rel_err <= 1 # 536870912)%Q.
Proof.
  intros H. assert (Hq : (inject_Z (len l) <= inject_Z (2 ^ 20))%Q) by (rewrite <- Zle_Qle; exact H).
  change (inject_Z (2 ^ 20)) with (1048576 # 1)%Q in Hq.
  unfold rel_err. lra.
Qed.

(** The total of at most [2^20] positive amounts, added from 0. *)
Lemma accumulate_close (sel : list transaction) (tot : float) :
  Forall positive_amount sel -> len sel <= 2 ^ 20 ->
  accumulate sel 0 = Returns tot -> finite tot = true ->
  (sel <> [] -> pos_finite tot = true) /\
  (exact_total sel - (1 # 536870912) * exact_total sel <= PyFloat.to_Q tot)%Q /\
  (PyFloat.to_Q tot <= exact_total sel + (1 # 268435456) * exact_total sel)%Q.
Proof.
  intros Hall Hlen H Hfin.
  pose proof (len_rel_err sel Hlen) as Hc.
  destruct (accumulate_value sel 0%float tot Hall eq_refl eq_refl H Hfin)
    as [_ [Hp [Hlo Hhi]]]; [lra|].
  split; [exact Hp|].
  assert (HS : (0 <= exact_total sel)%Q).
  { unfold exact_total. apply Qsum_nonneg. intros t Ht.
    rewrite Forall_forall in Hall. apply exact_amount_nonneg, Hall, Ht. }
  assert (H0 : (PyFloat.to_Q 0 == 0)%Q) by reflexivity.
  assert (Hk : (0 <= inject_Z (len sel))%Q).
  { change 0%Q with (inject_Z 0). rewrite <- Zle_Qle. apply len_nonneg. }
  rewrite H0 in Hlo, Hhi.
  set (S := exact_total sel) in *. set (c := (inject_Z (len sel) * rel_err)%Q) in *.
  assert (HcS : (c * S <= (1 # 536870912) * S)%Q)
    by (apply Qmult_le_compat_r; assumption).
  assert (E1 : (0 + S - c * (0 + S) == S - c * S)%Q) by ring.
  assert (E2 : (0 + S + 2 * c * (0 + S) == S + 2 * (c * S))%Q) by ring.
  rewrite E1 in Hlo. rewrite E2 in Hhi. split; lra.
Qed.

Lemma accumulate_mapM (ts : list transaction) (amounts : list float) (acc : float) :
  mapM amount ts = Returns amounts ->
  accumulate ts acc = Returns (fold_left (fun a x => (a + x)%float) amounts acc).
Proof.
  revert amounts acc. induction ts as [|t ts IH]; intros amounts acc H; cbn in H.
  - inversion H. reflexivity.
  - bind_inv H as a Ha. bind_inv H as rest Hrest. inversion H; subst amounts.
    cbn [accumulate fold_left]. rewrite Ha. cbn [bind]. apply IH, Hrest.
Qed.

(** The plain sum of at most [2^20] positive amounts is within the
    relative error [2^-28] of their exact sum. *)
Lemma sum_plain_accurate (ts : list transaction) (total : float) :
  Forall positive_amount ts -> len ts <= 2 ^ 20 ->
  calculate_total_revenue PyFloat.sum_plain ts = Returns total ->
  finite total = true ->
  (Qabs (PyFloat.to_Q total - exact_total ts) <= (1 # 268435456) * exact_total ts)%Q.
Proof.
  intros Hall Hlen H Hfin.
  destruct (calculate_total_revenue_inv _ _ _ H) as [amounts [Hm Ht]].
  pose proof (accumulate_mapM ts amounts 0%float Hm) as Ha.
  unfold PyFloat.sum_plain in Ht. rewrite <- Ht in Ha.
  destruct (accumulate_close ts total Hall Hlen Ha Hfin) as [_ [Hlo Hhi]].
  assert (HS : (0 <= exact_total ts)%Q).
  { unfold exact_total. apply Qsum_nonneg. intros t Hin.
    rewrite Forall_forall in Hall. apply exact_amount_nonneg, Hall, Hin. }
  apply Qabs_le_iff. split; lra.
Qed.

Section PercentageSumNear.

Variable py_sum : list float -> float.

(** The sum of the percentages where the total revenue is accurate.  For
    at most [2^20] records with positive quantities below [2^63] and
    positive finite unit prices, a total revenue that is finite, not zero
    and within the relative error [2^-26] of the exact sum of the amounts,
    and region totals that are finite, the percentages sum to 100 within
    [0.005 * N + 0.00001], [N] being the number of regions: each
    percentage is within [0.005 + 2^-39] of the exact share of its region,
    and the exact shares sum to 100 up to the rounding of the float
    additions. *)
Lemma percentage_sum_when_accurate ts total res :
  Forall (fun t => positive_record t = true /\ Quantity t < 2 ^ 63) ts ->
  len ts <= 2 ^ 20 ->
  calculate_total_revenue py_sum ts = Returns total ->
  finite total = true -> (total =? 0)%float = false ->
  (Qabs (PyFloat.to_Q total - exact_total ts) <= (1 # 67108864) * exact_total ts)%Q ->
  region_wise_sales py_sum ts = Returns res ->
  (forall r st, In (r, st) res -> finite (RegionStats.total_sales st) = true) ->
  (Qabs (percentage_sum res - 100) <= inject_Z (len res) * (1 # 200) + (1 # 100000))%Q.
Proof.
  intros Hrec Hlen Htotal Hfin Hz Hacc Hres Hfinite.
  assert (Hall : Forall positive_amount ts).
  { eapply Forall_impl; [|exact Hrec]. intros t [Hp Hq].
    apply positive_record_amount; assumption. }
  assert (Hamt : forall t, In t ts -> (0 <= exact_amount t)%Q).
  { intros t Ht. rewrite Forall_forall in Hall. apply exact_amount_nonneg, Hall, Ht. }
  assert (HS0 : (0 <= exact_total ts)%Q) by (apply Qsum_nonneg; exact Hamt).
  (* the total is positive *)
  pose proof (finite_nonzero_value total Hfin Hz) as HTnz.
  apply Qabs_le_iff in Hacc. destruct Hacc as [Hacc1 Hacc2].
  set (S := exact_total ts) in *. set (T := PyFloat.to_Q total) in *.
  assert (HS : (0 < S)%Q).
  { destruct (Qlt_le_dec 0 S) as [H|H]; [exact H|]. exfalso. apply HTnz. lra. }
  assert (HT : (0 < T)%Q) by lra.
  pose proof (positive_value_pos_finite total HT) as HTpos.
  (* the entries *)
  destruct (region_wise_sales_nonzero py_sum _ _ Htotal Hz) as [stats [Hstats Hres']].
  rewrite Hres in Hres'. inversion Hres' as [Hr]; clear Hres'.
  pose proof (group_loop_spec _ _ _ _ _ Hstats) as [Hkeys [Hnodup Hentries]].
  set (keyf := fun item : string * RegionStats.t => RegionStats.total_sales (snd item)) in *.
  assert (Hperm : Permutation res (map (region_entry total) stats))
    by (rewrite Hr; apply py_sorted_perm).
  set (P := fun item : string * RegionStats.acc =>
              PyFloat.to_Q (RegionStats.percentage (snd (region_entry total item)))).
  set (Rv := fun item : string * RegionStats.acc =>
               PyFloat.to_Q (RegionStats.acc_total_sales (snd item))).
  set (Sv := fun item : string * RegionStats.acc =>
               exact_total (select Region (fst item) ts)).
  assert (Hsum : (percentage_sum res == Qsum (map P stats))%Q).
  { unfold percentage_sum.
    rewrite (Qsum_perm _ _ (Permutation_map _ Hperm)), map_map. reflexivity. }
  assert (HlenN : len res = len stats).
  { unfold len. rewrite (Permutation_length Hperm), length_map. reflexivity. }
  assert (HN : len stats <= 2 ^ 20).
  { assert (Hl : List.length (map fst stats) = List.length stats) by apply length_map.
    rewrite Hkeys in Hl. unfold first_seen in Hl.
    pose proof (new_keys_length [] (map Region ts)) as Hn. rewrite length_map in Hn.
    unfold len in *. lia. }
  (* each entry *)
  assert (Hitem : forall item, In item stats ->
            pos_finite (RegionStats.acc_total_sales (snd item)) = true /\
            (Sv item - (1 # 536870912) * Sv item <= Rv item)%Q /\
            (Rv item <= Sv item + (1 # 268435456) * Sv item)%Q /\
            (0 <= Sv item)%Q /\ (Sv item <= S)%Q).
  { intros [r acc] Hin. unfold Rv, Sv. cbn [fst snd].
    destruct (region_stats_entry _ _ _ _ Hstats Hin) as [tot [Htot Heq]].
    destruct (Hentries r acc Hin) as [Hne _].
    subst acc. cbn [RegionStats.acc_total_sales].
    assert (Hft : finite tot = true).
    { apply (round_finite_inv tot 2).
      apply (Hfinite r (snd (region_entry total (r, {| RegionStats.acc_total_sales := tot;
               RegionStats.acc_transaction_count := len (select Region r ts) |})))).
      apply (Permutation_in _ (Permutation_sym Hperm)).
      apply in_map_iff. eexists. split; [|exact Hin]. reflexivity. }
    assert (Hsel : Forall positive_amount (select Region r ts)).
    { apply Forall_forall. intros t Ht. apply filter_In in Ht.
      rewrite Forall_forall in Hall. apply Hall, Ht. }
    assert (Hsl : len (select Region r ts) <= 2 ^ 20).
    { pose proof (filter_len_le (fun t => (Region t =? r)%string) ts). unfold select. lia. }
    destruct (accumulate_close _ tot Hsel Hsl Htot Hft) as [Hp [Hlo Hhi]].
    split; [apply Hp, Hne|]. split; [exact Hlo|]. split; [exact Hhi|]. split.
    - apply Qsum_nonneg. intros t Ht. apply exact_amount_nonneg.
      rewrite Forall_forall in Hsel. apply Hsel, Ht.
    - apply select_sum_le. exact Hamt. }
  (* the percentages and the exact shares *)
  set (rho := fun item : string * RegionStats.acc => (Rv item / T)%Q).
  assert (HTne : ~ (T == 0)%Q) by lra.
  assert (Hshare : forall item, In item stats ->
            (Qabs (P item - 100 * rho item) <= (1 # 200) + (1 # 549755813888))%Q).
  { intros item Hin. destruct (Hitem item Hin) as [Hp [Hlo [Hhi [Hs0 HsS]]]].
    unfold P, region_entry. cbn [snd RegionStats.percentage].
    apply percentage_value; [exact Hp | exact HTpos | |].
    - unfold rho, Rv. fold T. field. exact HTne.
    - unfold rho. apply Qle_shift_div_r; [exact HT|].
      set (Ri := Rv item) in *. set (Si := Sv item) in *. lra. }
  pose proof (Qsum_close P (fun item => 100 * rho item)%Q _ stats Hshare) as Hclose.
  (* the exact shares add up to the sum of the region totals over the total *)
  set (W := Qsum (map (fun item => (100 * rho item)%Q) stats)) in *.
  assert (HW : (W * T == 100 * Qsum (map Rv stats))%Q).
  { pose proof (Qsum_scale (fun item => (100 * rho item)%Q) T stats) as E1.
    pose proof (Qsum_scale Rv 100 stats) as E2.
    assert (E3 : (Qsum (map (fun a => (100 * rho a * T)%Q) stats)
                  == Qsum (map (fun a => (Rv a * 100)%Q) stats))%Q).
    { apply Qsum_ext_in. intros item _. unfold rho. field. exact HTne. }
    fold W in E1. rewrite E3, E2 in E1. rewrite <- E1. ring. }
  assert (HRS : ((1 - (1 # 536870912)) * Qsum (map Sv stats) <= Qsum (map Rv stats))%Q /\
                (Qsum (map Rv stats) <= (1 + (1 # 268435456)) * Qsum (map Sv stats))%Q).
  { apply Qsum_between. intros item Hin.
    destruct (Hitem item Hin) as [_ [Hlo [Hhi _]]]. split; lra. }
  assert (HSS : (Qsum (map Sv stats) == S)%Q).
  { unfold Sv, S, exact_total.
    rewrite <- (group_sum_Q Region exact_amount ts), <- Hkeys, map_map. reflexivity. }
  rewrite HSS in HRS. destruct HRS as [HR1 HR2].
  assert (HWhi : (W <= 100 + (1 # 500000))%Q).
  { apply (Qmult_le_r _ _ T HT). set (WT := (W * T)%Q) in *.
    set (SR := Qsum (map Rv stats)) in *. lra. }
  assert (HWlo : (100 - (1 # 500000) <= W)%Q).
  { apply (Qmult_le_r _ _ T HT). set (WT := (W * T)%Q) in *.
    set (SR := Qsum (map Rv stats)) in *. lra. }
  (* together *)
  rewrite <- Hr, HlenN.
  assert (HNq : (inject_Z (len stats) <= 1048576 # 1)%Q).
  { change (1048576 # 1)%Q with (inject_Z (2 ^ 20)). rewrite <- Zle_Qle. exact HN. }
  assert (HN0 : (0 <= inject_Z (len stats))%Q).
  { change 0%Q with (inject_Z 0). rewrite <- Zle_Qle. apply len_nonneg. }
  apply Qabs_le_iff in Hclose. destruct Hclose as [Hc1 Hc2].
  apply Qabs_le_iff.
  set (N := inject_Z (len stats)) in *. set (SP := Qsum (map P stats)) in *.
  set (PS := percentage_sum res) in *.
  split; lra.
Qed.

End PercentageSumNear.

(** ** Sums and differences of floats of either sign, by value *)

Lemma mag_form (m : positive) (e : Z) :
  ((if 0 <=? e then inject_Z (Zpos m * 2 ^ e) else Zpos m # Z.to_pos (2 ^ (- e)))
   == inject_Z (Zpos m) * p2 e)%Q.
Proof.
  destruct (0 <=? e) eqn:He.
  - apply Z.leb_le in He. rewrite inject_Z_mult, (p2_Z e He). reflexivity.
  - apply Z.leb_gt in He.
    assert (Hp : 0 < 2 ^ (- e)) by (apply Z.pow_pos_nonneg; lia).
    rewrite Qmake_Qdiv, Z2Pos.id by exact Hp.
    assert (E' : (p2 e == / inject_Z (2 ^ (- e)))%Q).
    { replace e with (- (- e)) at 1 by lia. unfold p2. rewrite Qpower_opp.
      apply Qinv_comp. symmetry. apply Zpower_Qpower. lia. }
    rewrite E'. reflexivity.
Qed.

Lemma to_Q_val (x : float) : (PyFloat.to_Q x == sf_val (Prim2SF x))%Q.
Proof.
  unfold PyFloat.to_Q. destruct (Prim2SF x) as [s|s| |s m e]; try reflexivity.
  cbv zeta. pose proof (mag_form m e) as H.
  set (v := if 0 <=? e then inject_Z (Zpos m * 2 ^ e)
            else Zpos m # Z.to_pos (2 ^ (- e))) in *.
  destruct s; cbn [sf_val]; lra.
Qed.

Lemma cond_Zopp_val (s : bool) (m : positive) (e : Z) :
  (inject_Z (cond_Zopp s (Zpos m)) * p2 e == sf_val (S754_finite s m e))%Q.
Proof. destruct s; cbn [cond_Zopp sf_val]; [|reflexivity]. change (- Zpos m) with (Zneg m).
  change (inject_Z (Zneg m)) with (- inject_Z (Zpos m))%Q. ring.
Qed.

(** The rounding of an integer [M] of either sign at an exponent of the
    format. *)
Lemma binary_normalize_value (M e : Z) :
  emin <= e ->
  let r := binary_normalize prec emax M e false in
  let x := (inject_Z M * p2 e)%Q in
  (exists s, r = S754_infinity s) \/
  ((exists s, r = S754_zero s) \/ (exists s m' e', r = S754_finite s m' e')) /\
  (Qabs (sf_val r - x) <= rel_err * Qabs x)%Q.
Proof.
  intros He. cbv zeta. destruct M as [|p|p]; cbn [binary_normalize].
  - right. split; [left; eauto|]. cbn [sf_val].
    assert (E : (inject_Z 0 * p2 e == 0)%Q) by (change (inject_Z 0) with 0%Q; ring).
    pose proof (Qabs_nonneg (inject_Z 0 * p2 e)) as Hn.
    apply Qabs_le_iff.
    set (X := (inject_Z 0 * p2 e)%Q) in *. set (A := Qabs X) in *.
    unfold rel_err. split; lra.
  - pose proof (binary_round_value false p e He) as Hr. cbv zeta in Hr.
    pose proof (mag_pos p e) as Hx.
    destruct Hr as [Hinf|[[m' [e' Hf]] [Hlo Hhi]]]; [left; eauto|].
    right. split; [right; eauto|]. rewrite Hf in *. cbn [sf_val sf_mag] in *.
    set (x := (inject_Z (Zpos p) * p2 e)%Q) in *.
    rewrite (Qabs_pos x) by lra. apply Qabs_le_iff. split; lra.
  - pose proof (binary_round_value true p e He) as Hr. cbv zeta in Hr.
    pose proof (mag_pos p e) as Hx.
    destruct Hr as [Hinf|[[m' [e' Hf]] [Hlo Hhi]]]; [left; eauto|].
    right. split; [right; eauto|]. rewrite Hf in *. cbn [sf_val sf_mag] in *.
    change (inject_Z (Zneg p)) with (- inject_Z (Zpos p))%Q.
    set (v := inject_Z (Zpos p)) in *. set (P := p2 e) in *.
    set (w := (inject_Z (Zpos m') * p2 e')%Q) in *.
    assert (Hneg : (- v * P <= 0)%Q) by lra.
    rewrite (Qabs_neg (- v * P)) by exact Hneg. apply Qabs_le_iff. split; lra.
Qed.

Lemma sf_val_align (s : bool) (m : positive) (e ez : Z) :
  ez <= e ->
  (inject_Z (cond_Zopp s (Zpos (fst (shl_align m e ez)))) * p2 ez
   == sf_val (S754_finite s m e))%Q.
Proof.
  intros H. pose proof (shl_align_value m e ez) as Ha. cbv zeta in Ha.
  destruct (shl_align m e ez) as [a ea]. cbn [fst snd] in *.
  destruct Ha as [Hv [Hea _]]. rewrite Z.min_r in Hea by lia. subst ea.
  destruct s; cbn [cond_Zopp sf_val]; rewrite <- Hv.
  - change (inject_Z (- Zpos a)) with (- inject_Z (Zpos a))%Q. ring.
  - reflexivity.
Qed.

Lemma Qabs_zero_le (r x : Q) (u : Q) :
  (r == x)%Q -> (0 <= u)%Q -> (Qabs (r - x) <= u * Qabs x)%Q.
Proof.
  intros E Hu. pose proof (Qabs_nonneg x) as Hn. apply Qabs_le_iff.
  assert (H : (0 <= u * Qabs x)%Q) by (apply Qmult_le_0_compat; assumption).
  set (B := (u * Qabs x)%Q) in *. split; lra.
Qed.

Lemma rel_err_nonneg : (0 <= rel_err)%Q.
Proof. apply Qle_bool_iff. reflexivity. Qed.

(** The sum of two finite floats, where it is finite. *)
Lemma add_signed_value (x y : float) :
  finite x = true -> finite y = true -> finite (x + y) = true ->
  (Qabs (PyFloat.to_Q (x + y) - (PyFloat.to_Q x + PyFloat.to_Q y))
   <= rel_err * Qabs (PyFloat.to_Q x + PyFloat.to_Q y))%Q.
Proof.
  intros Hx Hy Hxy. rewrite !to_Q_val.
  pose proof (add_spec x y) as Hs. unfold SF64add in Hs.
  unfold finite in Hx, Hy, Hxy. rewrite Hs in Hxy. rewrite Hs. clear Hs.
  pose proof (valid_exponent x) as Hex. pose proof (valid_exponent y) as Hey.
  destruct (Prim2SF x) as [sx|sx| |sx mx ex]; try discriminate;
    destruct (Prim2SF y) as [sy|sy| |sy my ey]; try discriminate.
  - apply Qabs_zero_le; [|apply rel_err_nonneg].
    destruct sx, sy; cbn [SFadd sf_val]; ring.
  - apply Qabs_zero_le; [|apply rel_err_nonneg]. cbn [SFadd sf_val]. ring.
  - apply Qabs_zero_le; [|apply rel_err_nonneg]. cbn [SFadd sf_val]. ring.
  - specialize (Hex _ _ _ eq_refl). specialize (Hey _ _ _ eq_refl).
    cbn [SFadd] in *.
    set (ez := Z.min ex ey) in *.
    set (M := cond_Zopp sx (Zpos (fst (shl_align mx ex ez)))
              + cond_Zopp sy (Zpos (fst (shl_align my ey ez)))) in *.
    assert (HM : (inject_Z M * p2 ez
                  == sf_val (S754_finite sx mx ex) + sf_val (S754_finite sy my ey))%Q).
    { unfold M. rewrite inject_Z_plus.
      rewrite <- (sf_val_align sx mx ex ez) by (unfold ez; lia).
      rewrite <- (sf_val_align sy my ey ez) by (unfold ez; lia). ring. }
    pose proof (binary_normalize_value M ez ltac:(unfold ez; lia)) as Hr.
    cbv zeta in Hr.
    destruct Hr as [[s Hinf]|[_ Hb]]; [rewrite Hinf in Hxy; discriminate|].
    rewrite <- HM. exact Hb.
Qed.

(** The difference of two finite floats, where it is finite. *)
Lemma sub_signed_value (x y : float) :
  finite x = true -> finite y = true -> finite (x - y) = true ->
  (Qabs (PyFloat.to_Q (x - y) - (PyFloat.to_Q x - PyFloat.to_Q y))
   <= rel_err * Qabs (PyFloat.to_Q x - PyFloat.to_Q y))%Q.
Proof.
  intros Hx Hy Hxy. rewrite !to_Q_val.
  pose proof (sub_spec x y) as Hs. unfold SF64sub in Hs.
  unfold finite in Hx, Hy, Hxy. rewrite Hs in Hxy. rewrite Hs. clear Hs.
  pose proof (valid_exponent x) as Hex. pose proof (valid_exponent y) as Hey.
  destruct (Prim2SF x) as [sx|sx| |sx mx ex]; try discriminate;
    destruct (Prim2SF y) as [sy|sy| |sy my ey]; try discriminate.
  - apply Qabs_zero_le; [|apply rel_err_nonneg].
    destruct sx, sy; cbn [SFsub sf_val]; ring.
  - apply Qabs_zero_le; [|apply rel_err_nonneg].
    destruct sy; cbn [SFsub sf_val negb]; ring.
  - apply Qabs_zero_le; [|apply rel_err_nonneg]. cbn [SFsub sf_val]. ring.
  - specialize (Hex _ _ _ eq_refl). specialize (Hey _ _ _ eq_refl).
    cbn [SFsub] in *.
    set (ez := Z.min ex ey) in *.
    set (M := cond_Zopp sx (Zpos (fst (shl_align mx ex ez)))
              - cond_Zopp sy (Zpos (fst (shl_align my ey ez)))) in *.
    assert (HM : (inject_Z M * p2 ez
                  == sf_val (S754_finite sx mx ex) - sf_val (S754_finite sy my ey))%Q).
    { unfold M. unfold Z.sub. rewrite inject_Z_plus, inject_Z_opp.
      rewrite <- (sf_val_align sx mx ex ez) by (unfold ez; lia).
      rewrite <- (sf_val_align sy my ey ez) by (unfold ez; lia). ring. }
    pose proof (binary_normalize_value M ez ltac:(unfold ez; lia)) as Hr.
    cbv zeta in Hr.
    destruct Hr as [[s Hinf]|[_ Hb]]; [rewrite Hinf in Hxy; discriminate|].
    rewrite <- HM. exact Hb.
Qed.

(** A sum or a difference is finite only where both operands are. *)
Lemma add_finite_inv (x y : float) :
  finite (x + y) = true -> finite x = true /\ finite y = true.
Proof.
  unfold finite. rewrite add_spec. unfold SF64add.
  destruct (Prim2SF x) as [sx|[|]| |sx mx ex]; destruct (Prim2SF y) as [sy|[|]| |sy my ey];
    cbn [SFadd]; intros H; try discriminate H; split; reflexivity.
Qed.

Lemma sub_finite_inv (x y : float) :
  finite (x - y) = true -> finite x = true /\ finite y = true.
Proof.
  unfold finite. rewrite sub_spec. unfold SF64sub.
  destruct (Prim2SF x) as [sx|[|]| |sx mx ex]; destruct (Prim2SF y) as [sy|[|]| |sy my ey];
    cbn [SFsub]; intros H; try discriminate H; split; reflexivity.
Qed.

Lemma is_finite_spec (c : float) : is_finite c = finite c.
Proof.
  unfold is_finite, is_infinity, finite.
  rewrite FloatOrder.is_nan_rank, eqb_spec, abs_spec. unfold FloatRank.rank.
  change (Prim2SF infinity) with (S754_infinity false).
  destruct (Prim2SF c) as [s|s| |s m e]; try destruct s; reflexivity.
Qed.

(** ** The compensated sum, by value *)

(** The correction term of one step of the compensated sum: with [t] the
    rounded sum of [a] and [b], the term [(a - t) + b] is of the order of
    the rounding error of [t]. *)
Lemma correction_value (a b t : float) :
  pos_finite a = true -> pos_finite b = true -> pos_finite t = true ->
  (PyFloat.to_Q a + PyFloat.to_Q b - rel_err * (PyFloat.to_Q a + PyFloat.to_Q b)
   <= PyFloat.to_Q t)%Q ->
  (PyFloat.to_Q t
   <= PyFloat.to_Q a + PyFloat.to_Q b + rel_err * (PyFloat.to_Q a + PyFloat.to_Q b))%Q ->
  finite (a - t + b) = true ->
  (Qabs (PyFloat.to_Q (a - t + b)) <= 3 * rel_err * (PyFloat.to_Q a + PyFloat.to_Q b))%Q.
Proof.
  intros Ha Hb Ht Hlo Hhi Hfin.
  destruct (add_finite_inv _ _ Hfin) as [Hd _].
  pose proof (sub_signed_value a t (pos_finite_finite a Ha) (pos_finite_finite t Ht) Hd) as H1.
  pose proof (add_signed_value (a - t) b Hd (pos_finite_finite b Hb) Hfin) as H2.
  pose proof (pos_finite_value a Ha) as HA. pose proof (pos_finite_value b Hb) as HB.
  set (A := PyFloat.to_Q a) in *. set (B := PyFloat.to_Q b) in *.
  set (T := PyFloat.to_Q t) in *. set (D := PyFloat.to_Q (a - t)) in *.
  set (E := PyFloat.to_Q (a - t + b)) in *.
  assert (W1 : (Qabs (A - T) <= B + rel_err * (A + B))%Q).
  { apply Qabs_le_iff. unfold rel_err in *. split; lra. }
  set (w1 := Qabs (A - T)) in *.
  apply Qabs_le_iff in H1. destruct H1 as [H1a H1b].
  assert (W2 : (Qabs (D + B) <= rel_err * (B + rel_err * (A + B)) + rel_err * (A + B))%Q).
  { apply Qabs_le_iff. unfold rel_err in *. split; lra. }
  set (w2 := Qabs (D + B)) in *.
  apply Qabs_le_iff in H2. destruct H2 as [H2a H2b].
  apply Qabs_le_iff. unfold rel_err in *. split; lra.
Qed.

Lemma add_pos_infinity (f x : float) :
  pos_finite f = true -> Prim2SF x = S754_infinity false ->
  Prim2SF (f + x) = S754_infinity false.
Proof.
  unfold pos_finite. intros Hf Hx. rewrite add_spec. unfold SF64add. rewrite Hx.
  destruct (Prim2SF f) as [s|s| |[|] m e]; try discriminate. reflexivity.
Qed.

(** With an infinite running total the compensated sum is not finite. *)
Lemma neumaier_infinite (l : list float) (f c : float) :
  Prim2SF f = S754_infinity false ->
  Forall (fun x => (0 <? x)%float = true) l ->
  finite (PyFloat.neumaier l f c) = false.
Proof.
  intros Hf Hall. revert f c Hf.
  induction Hall as [|x l Hx _ IH]; intros f c Hf.
  - cbn [PyFloat.neumaier].
    assert (Hff : finite f = false) by (unfold finite; rewrite Hf; reflexivity).
    destruct (negb (c =? 0)%float && is_finite c); [|exact Hff].
    destruct (finite (f + c)) eqn:E; [|reflexivity].
    apply add_finite_inv in E. destruct E as [E _]. congruence.
  - cbn [PyFloat.neumaier]. cbv zeta. apply IH.
    apply add_infinity; [exact Hf | apply positive_nonneg, Hx].
Qed.

Lemma Qsum_values_nonneg (l : list float) :
  Forall (fun x => (0 <? x)%float = true) l -> (0 <= Qsum (map PyFloat.to_Q l))%Q.
Proof.
  intros H. apply Qsum_nonneg. intros x Hx. rewrite Forall_forall in H.
  apply nonneg_value, positive_nonneg, H, Hx.
Qed.

Lemma len_Q_bounds {A : Type} (l : list A) (j : Z) :
  0 <= j -> j + len l <= 2 ^ 20 ->
  (0 <= inject_Z j)%Q /\ (inject_Z j <= 1048576 # 1)%Q /\
  (0 <= inject_Z (len l))%Q /\ (inject_Z (len l) <= 1048576 # 1)%Q.
Proof.
  intros Hj H. pose proof (len_nonneg l) as Hl.
  change 0%Q with (inject_Z 0). change (1048576 # 1)%Q with (inject_Z (2 ^ 20)).
  rewrite <- !Zle_Qle. lia.
Qed.

(** The compensated loop against the plain loop: where the compensated
    sum of positive floats is finite, it is within a part in [10^8] of
    the plain sum; [H] bounds the exact sum of the running total and the
    floats to come, [j] counts the floats already added. *)
Lemma neumaier_close (l : list float) :
  forall (f c : float) (j : Z) (H : Q),
    Forall (fun x => (0 <? x)%float = true) l -> pos_finite f = true ->
    0 <= j -> j + len l <= 2 ^ 20 ->
    ((1 + 2 * (inject_Z (len l) * rel_err))
     * (PyFloat.to_Q f + Qsum (map PyFloat.to_Q l)) <= H)%Q ->
    (finite c = true -> (Qabs (PyFloat.to_Q c) <= 4 * (inject_Z j * rel_err) * H)%Q) ->
    finite (PyFloat.neumaier l f c) = true ->
    finite (fold_left (fun a x => (a + x)%float) l f) = true /\
    (Qabs (PyFloat.to_Q (PyFloat.neumaier l f c)
           - PyFloat.to_Q (fold_left (fun a x => (a + x)%float) l f))
     <= (1 # 100000000) * H)%Q.
Proof.
  induction l as [|x l IH]; intros f c j H Hall Hf Hj Hjl Hinv Hc Hfin.
  - cbn [PyFloat.neumaier fold_left] in *.
    split; [apply pos_finite_finite, Hf|].
    pose proof (pos_finite_value f Hf) as HF.
    destruct (len_Q_bounds (@nil float) j Hj Hjl) as [Hj0 [Hj1 _]].
    cbn [map Qsum] in Hinv. change (inject_Z (len (@nil float))) with 0%Q in Hinv.
    set (F := PyFloat.to_Q f) in *.
    assert (HFH : (F <= H)%Q) by lra.
    destruct (negb (c =? 0)%float && is_finite c) eqn:Econd.
    + apply andb_true_iff in Econd. destruct Econd as [_ Hcf].
      rewrite is_finite_spec in Hcf. specialize (Hc Hcf).
      pose proof (add_signed_value f c (pos_finite_finite f Hf) Hcf Hfin) as Ha.
      fold F in Ha.
      assert (HJH : (inject_Z j * H <= (1048576 # 1) * H)%Q)
        by (apply Qmult_le_compat_r; lra).
      set (C := PyFloat.to_Q c) in *. set (R := PyFloat.to_Q (f + c)) in *.
      set (JH := (inject_Z j * H)%Q) in *.
      assert (E1 : (4 * (inject_Z j * rel_err) * H == 4 * rel_err * JH)%Q)
        by (unfold JH; ring).
      rewrite E1 in Hc.
      apply Qabs_le_iff in Hc. destruct Hc as [Hc1 Hc2].
      assert (W : (Qabs (F + C) <= F + 4 * rel_err * JH)%Q).
      { apply Qabs_le_iff. unfold rel_err in *. split; lra. }
      set (w := Qabs (F + C)) in *.
      apply Qabs_le_iff in Ha. destruct Ha as [Ha1 Ha2].
      apply Qabs_le_iff. unfold rel_err in *. split; lra.
    + fold F. apply Qabs_le_iff. split; lra.
  - inversion Hall as [|? ? Hx Hall']; subst.
    cbn [PyFloat.neumaier fold_left] in *. cbv zeta in Hfin.
    rewrite len_cons in Hjl. rewrite len_cons, inject_Z_plus in Hinv.
    change (inject_Z 1) with 1%Q in Hinv. cbn [map Qsum] in Hinv.
    destruct (len_Q_bounds l (j + 1) ltac:(lia) ltac:(lia)) as [_ [_ [Hr0 Hr1]]].
    destruct (len_Q_bounds l j Hj ltac:(lia)) as [Hj0 [Hj1 _]].
    pose proof (pos_finite_value f Hf) as HF.
    pose proof (Qsum_values_nonneg l Hall') as HS.
    set (t := (f + x)%float) in *.
    (* the float added and the new running total are finite *)
    destruct (positive_float_cases x Hx) as [Hxp|Hxinf].
    2:{ exfalso.
        rewrite (neumaier_infinite l t _ (add_pos_infinity f x Hf Hxinf) Hall') in Hfin.
        discriminate. }
    destruct (add_value f x (pos_finite_nonneg f Hf) (pos_finite_finite f Hf) Hxp)
      as [Hinf|[Htp [Hlo Hhi]]].
    { exfalso. rewrite (neumaier_infinite l t _ Hinf Hall') in Hfin. discriminate. }
    fold t in Htp, Hlo, Hhi.
    pose proof (pos_finite_value x Hxp) as HX.
    set (F := PyFloat.to_Q f) in *. set (X := PyFloat.to_Q x) in *.
    set (T := PyFloat.to_Q t) in *. set (S' := Qsum (map PyFloat.to_Q l)) in *.
    set (r := inject_Z (len l)) in *.
    set (G := (F + X + S')%Q).
    assert (HG : (0 < G)%Q) by (unfold G; lra).
    assert (HRG : (r * G <= (1048576 # 1) * G)%Q)
      by (apply Qmult_le_compat_r; lra).
    assert (HRG0 : (0 <= r * G)%Q) by (apply Qmult_le_0_compat; lra).
    assert (Hinv' : (G + 2 * rel_err * (r * G) + 2 * rel_err * G <= H)%Q).
    { eapply Qle_trans; [|exact Hinv]. unfold G. apply Qle_lteq. right. ring. }
    assert (HGH : (G <= H)%Q) by (unfold rel_err in *; lra).
    (* the statement for the rest of the list *)
    assert (Hnext : forall c', 
              (finite c' = true ->
               (Qabs (PyFloat.to_Q c') <= 4 * (inject_Z (j + 1) * rel_err) * H)%Q) ->
              finite (PyFloat.neumaier l t c') = true ->
              finite (fold_left (fun a x => (a + x)%float) l t) = true /\
              (Qabs (PyFloat.to_Q (PyFloat.neumaier l t c')
                     - PyFloat.to_Q (fold_left (fun a x => (a + x)%float) l t))
               <= (1 # 100000000) * H)%Q).
    { intros c' Hc' Hfin'.
      apply (IH t c' (j + 1) H Hall' Htp ltac:(lia) ltac:(lia)); [|exact Hc'|exact Hfin'].
      fold T. fold S'. fold r.
      assert (HY : (T + S' <= G + rel_err * G)%Q) by (unfold G, rel_err in *; lra).
      assert (HRY : (r * (T + S') <= r * (G + rel_err * G))%Q).
      { rewrite !(Qmult_comm r). apply Qmult_le_compat_r; [exact HY | exact Hr0]. }
      assert (E : ((1 + 2 * (r * rel_err)) * (T + S')
                   == (T + S') + 2 * rel_err * (r * (T + S')))%Q) by ring.
      rewrite E.
      assert (E2 : (r * (G + rel_err * G) == r * G + rel_err * (r * G))%Q) by ring.
      rewrite E2 in HRY.
      set (RG := (r * G)%Q) in *. set (RY := (r * (T + S'))%Q) in *.
      unfold rel_err in *. lra. }
    (* the correction *)
    assert (Hcorr : forall a b : float,
              pos_finite a = true -> pos_finite b = true ->
              (PyFloat.to_Q a + PyFloat.to_Q b == F + X)%Q ->
              finite (PyFloat.neumaier l t (c + (a - t + b))) = true ->
              finite (fold_left (fun a x => (a + x)%float) l t) = true /\
              (Qabs (PyFloat.to_Q (PyFloat.neumaier l t (c + (a - t + b)))
                     - PyFloat.to_Q (fold_left (fun a x => (a + x)%float) l t))
               <= (1 # 100000000) * H)%Q).
    { intros a b Ha Hb Hab Hfin'. apply Hnext; [|exact Hfin'].
      intros Hc'. destruct (add_finite_inv _ _ Hc') as [Hcf Hef].
      specialize (Hc Hcf).
      assert (He : (Qabs (PyFloat.to_Q (a - t + b)) <= 3 * rel_err * (F + X))%Q).
      { rewrite <- Hab. apply correction_value; try assumption; fold T; rewrite Hab; assumption. }
      pose proof (add_signed_value c (a - t + b) Hcf Hef Hc') as Hadd.
      rewrite inject_Z_plus. change (inject_Z 1) with 1%Q.
      assert (HJH : (inject_Z j * H <= (1048576 # 1) * H)%Q)
        by (apply Qmult_le_compat_r; lra).
      assert (HJH0 : (0 <= inject_Z j * H)%Q) by (apply Qmult_le_0_compat; lra).
      set (C := PyFloat.to_Q c) in *. set (E := PyFloat.to_Q (a - t + b)) in *.
      set (C' := PyFloat.to_Q (c + (a - t + b))) in *.
      set (JH := (inject_Z j * H)%Q) in *.
      assert (E1 : (4 * (inject_Z j * rel_err) * H == 4 * rel_err * JH)%Q)
        by (unfold JH; ring).
      assert (E2 : (4 * ((inject_Z j + 1) * rel_err) * H
                    == 4 * rel_err * JH + 4 * rel_err * H)%Q) by (unfold JH; ring).
      rewrite E1 in Hc. rewrite E2.
      apply Qabs_le_iff in Hc. destruct Hc as [Hc1 Hc2].
      apply Qabs_le_iff in He. destruct He as [He1 He2].
      assert (W : (Qabs (C + E) <= 4 * rel_err * JH + 3 * rel_err * (F + X))%Q).
      { apply Qabs_le_iff. unfold rel_err in *. split; lra. }
      set (w := Qabs (C + E)) in *.
      apply Qabs_le_iff in Hadd. destruct Hadd as [Hd1 Hd2].
      apply Qabs_le_iff. unfold G, rel_err in *. split; lra. }
    destruct (abs x <=? abs f)%float.
    + apply (Hcorr f x Hf Hxp); [reflexivity | exact Hfin].
    + apply (Hcorr x f Hxp Hf); [unfold F, X; ring | exact Hfin].
Qed.

Lemma amounts_values (ts : list transaction) (amounts : list float) :
  Forall positive_amount ts -> mapM amount ts = Returns amounts ->
  Forall (fun x => (0 <? x)%float = true) amounts /\
  (exact_total ts == Qsum (map PyFloat.to_Q amounts))%Q.
Proof.
  intros Hall. revert amounts.
  induction Hall as [|t ts [a [Ha Hpos]] _ IH]; intros amounts H; cbn in H.
  - inversion H. split; [constructor | reflexivity].
  - rewrite Ha in H. cbn [bind] in H. bind_inv H as rest Hrest.
    inversion H; subst amounts. destruct (IH rest Hrest) as [Hp Hs].
    split; [constructor; assumption|].
    unfold exact_total in *. cbn [map Qsum]. unfold exact_amount at 1. rewrite Ha, Hs.
    reflexivity.
Qed.

(** The compensated sum of at most [2^20] positive amounts is within the
    relative error [2^-26] of their exact sum. *)
Lemma sum_compensated_accurate (ts : list transaction) (total : float) :
  Forall positive_amount ts -> len ts <= 2 ^ 20 ->
  calculate_total_revenue PyFloat.sum_compensated ts = Returns total ->
  finite total = true ->
  (Qabs (PyFloat.to_Q total - exact_total ts) <= (1 # 67108864) * exact_total ts)%Q.
Proof.
  intros Hall Hlen H Hfin.
  destruct (calculate_total_revenue_inv _ _ _ H) as [amounts [Hm Ht]].
  destruct (amounts_values ts amounts Hall Hm) as [Hpos Hex].
  assert (HS : (0 <= exact_total ts)%Q).
  { unfold exact_total. apply Qsum_nonneg. intros t Hin.
    rewrite Forall_forall in Hall. apply exact_amount_nonneg, Hall, Hin. }
  pose proof (mapM_length _ _ _ Hm) as Hl.
  destruct amounts as [|a1 l].
  - cbn in Ht. subst total. cbn [map Qsum] in Hex.
    assert (H0 : (PyFloat.to_Q 0 == 0)%Q) by reflexivity.
    apply Qabs_le_iff. set (S := exact_total ts) in *. split; lra.
  - cbn [PyFloat.sum_compensated] in Ht. rewrite Ht in Hfin.
    pose proof (Forall_inv Hpos) as Ha1. pose proof (Forall_inv_tail Hpos) as Hl'.
    set (f0 := (0 + a1)%float) in *.
    assert (Hlen' : 0 + len l <= 2 ^ 20).
    { unfold len in *. cbn [List.length] in Hl. lia. }
    destruct (positive_float_cases a1 Ha1) as [Hp1|Hinf].
    2:{ exfalso.
        assert (Hf0 : Prim2SF f0 = S754_infinity false).
        { unfold f0. rewrite add_spec. unfold SF64add. rewrite Hinf. reflexivity. }
        rewrite (neumaier_infinite l f0 0%float Hf0 Hl') in Hfin. discriminate. }
    destruct (add_value 0%float a1 eq_refl eq_refl Hp1) as [Hinf|[Hf0 [Hlo Hhi]]].
    { exfalso. fold f0 in Hinf.
      rewrite (neumaier_infinite l f0 0%float Hinf Hl') in Hfin. discriminate. }
    fold f0 in Hf0, Hlo, Hhi.
    assert (H0 : (PyFloat.to_Q 0 == 0)%Q) by reflexivity.
    rewrite H0 in Hlo, Hhi.
    cbn [map Qsum] in Hex.
    pose proof (pos_finite_value a1 Hp1) as HA.
    pose proof (Qsum_values_nonneg l Hl') as HSl.
    destruct (len_Q_bounds l 0 ltac:(lia) Hlen') as [_ [_ [Hr0 Hr1]]].
    set (S := exact_total ts) in *.
    set (Hb := ((1 + (1 # 134217728)) * S)%Q).
    assert (Hinv : ((1 + 2 * (inject_Z (len l) * rel_err))
                    * (PyFloat.to_Q f0 + Qsum (map PyFloat.to_Q l)) <= Hb)%Q).
    { set (F := PyFloat.to_Q f0) in *. set (A := PyFloat.to_Q a1) in *.
      set (Sl := Qsum (map PyFloat.to_Q l)) in *. set (r := inject_Z (len l)) in *.
      assert (HY : (F + Sl <= S + rel_err * S)%Q) by (unfold rel_err in *; lra).
      assert (HRY : (r * (F + Sl) <= r * (S + rel_err * S))%Q).
      { rewrite !(Qmult_comm r). apply Qmult_le_compat_r; [exact HY | exact Hr0]. }
      assert (HRS : (r * S <= (1048576 # 1) * S)%Q) by (apply Qmult_le_compat_r; lra).
      assert (E : ((1 + 2 * (r * rel_err)) * (F + Sl)
                   == (F + Sl) + 2 * rel_err * (r * (F + Sl)))%Q) by ring.
      rewrite E.
      assert (E2 : (r * (S + rel_err * S) == r * S + rel_err * (r * S))%Q) by ring.
      rewrite E2 in HRY.
      set (RS := (r * S)%Q) in *. set (RY := (r * (F + Sl))%Q) in *.
      unfold Hb, rel_err in *. lra. }
    assert (Hc : finite 0 = true ->
                 (Qabs (PyFloat.to_Q 0) <= 4 * (inject_Z 0 * rel_err) * Hb)%Q).
    { intros _. apply Qabs_le_iff. change (inject_Z 0) with 0%Q.
      set (B := Hb) in *. split; lra. }
    destruct (neumaier_close l f0 0%float 0 Hb Hl' Hf0 ltac:(lia) Hlen' Hinv Hc Hfin)
      as [Hpf Hclose].
    rewrite <- Ht in Hclose.
    set (plain := fold_left (fun a x => (a + x)%float) l f0) in *.
    assert (Hplain : calculate_total_revenue PyFloat.sum_plain ts = Returns plain).
    { unfold calculate_total_revenue. rewrite Hm. reflexivity. }
    pose proof (sum_plain_accurate ts plain Hall Hlen Hplain Hpf) as Hp.
    fold S in Hp. apply Qabs_le_iff in Hp. destruct Hp as [Hp1' Hp2'].
    apply Qabs_le_iff in Hclose. destruct Hclose as [Hq1 Hq2].
    apply Qabs_le_iff.
    set (T := PyFloat.to_Q total) in *. set (P := PyFloat.to_Q plain) in *.
    unfold Hb in *. split; lra.
Qed.

(** C7, amended.  For at most [2^20] records with positive quantities
    below [2^63] and positive finite unit prices, a total revenue that is
    finite and not zero, and region totals that are finite, the
    percentages [region_wise_sales] returns sum to 100 within
    [0.005 * N + 0.00001], [N] being the number of regions, under the plain
    [sum] of Python up to 3.11 and under the compensated [sum] of Python
    from 3.12 on.  The sum is the exact sum of the returned floats; each
    percentage is within [0.005 + 2^-39] of the exact share of its region,
    and the exact shares sum to 100 up to the rounding of the float
    additions. *)
Theorem percentage_sum_near_100 (py_sum : list float -> float) ts total res :
  py_sum = PyFloat.sum_plain \/ py_sum = PyFloat.sum_compensated ->
  Forall (fun t => positive_record t = true /\ Quantity t < 2 ^ 63) ts ->
  len ts <= 2 ^ 20 ->
  calculate_total_revenue py_sum ts = Returns total ->
  finite total = true -> (total =? 0)%float = false ->
  region_wise_sales py_sum ts = Returns res ->
  (forall r st, In (r, st) res -> finite (RegionStats.total_sales st) = true) ->
  (Qabs (percentage_sum res - 100) <= inject_Z (len res) * (1 # 200) + (1 # 100000))%Q.
Proof.
  intros Hsum Hrec Hlen Htotal Hfin Hz Hres Hfinite.
  assert (Hall : Forall positive_amount ts).
  { eapply Forall_impl; [|exact Hrec]. intros t [Hp Hq].
    apply positive_record_amount; assumption. }
  apply (percentage_sum_when_accurate py_sum ts total res); try assumption.
  destruct Hsum as [-> | ->].
  - pose proof (sum_plain_accurate ts total Hall Hlen Htotal Hfin) as Hp.
    assert (HS : (0 <= exact_total ts)%Q).
    { unfold exact_total. apply Qsum_nonneg. intros t Hin.
      rewrite Forall_forall in Hall. apply exact_amount_nonneg, Hall, Hin. }
    apply Qabs_le_iff in Hp. destruct Hp as [Hp1 Hp2]. apply Qabs_le_iff.
    set (S := exact_total ts) in *. set (T := PyFloat.to_Q total) in *. split; lra.
  - apply sum_compensated_accurate; assumption.
Qed.

(** ** The checks of the test *)

Section SortedAgain.
Context {A K : Type}.
Variable lt : K -> K -> bool.
Variable key : A -> K.

(** Sorting a list that is in order gives the list itself. *)
Lemma py_sorted_desc_fixed (l : list A) :
  StronglySorted (fun a b => lt (key a) (key b) = false) l ->
  py_sorted lt key true l = l.
Proof.
  unfold py_sorted. induction 1 as [|a l Hs IH Hall]; [reflexivity|].
  cbn [fold_right]. rewrite IH.
  destruct l as [|b l]; [reflexivity|].
  cbn [insert_desc]. inversion Hall as [|? ? Hab _]; subst. rewrite Hab. reflexivity.
Qed.

Lemma py_sorted_asc_fixed (l : list A) :
  StronglySorted (fun a b => lt (key b) (key a) = false) l ->
  py_sorted lt key false l = l.
Proof.
  unfold py_sorted. induction 1 as [|a l Hs IH Hall]; [reflexivity|].
  cbn [fold_right]. rewrite IH.
  destruct l as [|b l]; [reflexivity|].
  cbn [insert_asc]. inversion Hall as [|? ? Hab _]; subst. rewrite Hab. reflexivity.
Qed.

End SortedAgain.

Lemma StronglySorted_map {A B : Type} (f : A -> B) (R : B -> B -> Prop) (l : list A) :
  StronglySorted (fun a b => R (f a) (f b)) l -> StronglySorted R (map f l).
Proof.
  induction 1 as [|a l Hs IH Hall]; cbn [map]; constructor; [exact IH|].
  rewrite Forall_forall in *. intros y Hy. apply in_map_iff in Hy.
  destruct Hy as [x [Hx Hin]]. subst y. apply Hall, Hin.
Qed.

Lemma StronglySorted_impl_all {A : Type} (R R' : A -> A -> Prop) (l : list A) :
  (forall a b, R a b -> R' a b) -> StronglySorted R l -> StronglySorted R' l.
Proof.
  intros HR. induction 1 as [|a l Hs IH Hall]; constructor; [exact IH|].
  eapply Forall_impl; [|exact Hall]. intros b. apply HR.
Qed.

Lemma StronglySorted_firstn {A : Type} (R : A -> A -> Prop) (k : nat) (l : list A) :
  StronglySorted R l -> StronglySorted R (firstn k l).
Proof.
  intros H. revert k. induction H as [|a l Hs IH Hall]; intros k.
  - rewrite firstn_nil. constructor.
  - destruct k as [|k]; cbn [firstn]; constructor; [apply IH|].
    rewrite Forall_forall in *. intros x Hx. apply Hall, (firstn_incl k), Hx.
Qed.

Lemma list_eqb_refl {A : Type} (eqb : A -> A -> bool) (l : list A) :
  Forall (fun a => eqb a a = true) l -> list_eqb eqb l l = true.
Proof.
  induction 1 as [|a l Ha _ IH]; [reflexivity|]. cbn [list_eqb]. rewrite Ha, IH.
  reflexivity.
Qed.

(** Floats that are numbers, sorted in descending order. *)
Lemma float_sorted_desc {A : Type} (key : A -> float) (l : list A) :
  (forall a, In a l -> is_nan (key a) = false) ->
  StronglySorted (fun a b => (key a <? key b)%float = false)
                 (py_sorted PrimFloat.ltb key true l).
Proof.
  intros Hnan.
  assert (Hin : forall a, In a (py_sorted PrimFloat.ltb key true l) ->
                          is_nan (key a) = false).
  { intros a Ha. apply Hnan.
    apply (Permutation_in _ (py_sorted_perm PrimFloat.ltb key true l)), Ha. }
  assert (Hs : StronglySorted (fun a b => (key b <=? key a)%float = true)
                              (py_sorted PrimFloat.ltb key true l)).
  { apply Sorted_StronglySorted.
    - intros a b c Hab Hbc. eapply FloatOrder.leb_trans; eassumption.
    - eapply Sorted_impl_In; [|apply py_sorted_desc; exact FloatOrder.ltb_asym].
      intros a b Ha Hb Hab. unfold desc_pair in Hab.
      apply FloatOrder.not_ltb_leb; auto. }
  revert Hs. generalize (py_sorted PrimFloat.ltb key true l). clear.
  induction 1 as [|a l Hs IH Hall]; constructor; [exact IH|].
  rewrite Forall_forall in *. intros b Hb. specialize (Hall b Hb).
  destruct (key a <? key b)%float eqn:E; [|reflexivity].
  apply FloatOrder.ltb_not_leb in E. congruence.
Qed.

Lemma check_sorted_floats {A : Type} (key : A -> float) (l : list A) :
  (forall a, In a l -> is_nan (key a) = false) ->
  let values := map key (py_sorted PrimFloat.ltb key true l) in
  list_eqb PrimFloat.eqb values (py_sorted PrimFloat.ltb (fun x => x) true values)
  = true.
Proof.
  intros Hnan. cbv zeta.
  rewrite (py_sorted_desc_fixed PrimFloat.ltb (fun x => x)).
  - apply list_eqb_refl, Forall_forall. intros x Hx.
    apply in_map_iff in Hx. destruct Hx as [a [Ha Hin]]. subst x.
    apply (Permutation_in _ (py_sorted_perm _ _ _ _)) in Hin.
    specialize (Hnan a Hin). unfold is_nan in Hnan.
    apply negb_false_iff in Hnan. exact Hnan.
  - apply (StronglySorted_map key (fun x y => (x <? y)%float = false)).
    apply float_sorted_desc, Hnan.
Qed.

(** The maximum of the test: from a number [init], over numbers. *)
Lemma fold_max_spec (revs : list float) (init : float) :
  is_nan init = false ->
  (forall r, In r revs -> is_nan r = false) ->
  let m := fold_left (fun mx r => if (mx <? r)%float then r else mx) revs init in
  (init <=? m)%float = true /\
  (forall r, In r revs -> (r <=? m)%float = true) /\
  (m = init \/ In m revs).
Proof.
  revert init. induction revs as [|x revs IH]; intros init Hi Hn; cbv zeta.
  - cbn. split; [|split; [intros r []| left; reflexivity]].
    revert Hi. generalize init. FloatOrder.order.
  - cbn [fold_left].
    assert (Hx : is_nan x = false) by (apply Hn; left; reflexivity).
    assert (Hn' : forall r, In r revs -> is_nan r = false)
      by (intros r Hr; apply Hn; right; exact Hr).
    destruct (init <? x)%float eqn:E.
    + destruct (IH x Hx Hn') as [H1 [H2 H3]]. cbv zeta in *.
      set (m := fold_left _ revs x) in *.
      split; [|split].
      * apply FloatOrder.ltb_leb in E. eapply FloatOrder.leb_trans; eassumption.
      * intros r [Hr|Hr]; [subst r; exact H1 | apply H2, Hr].
      * right. destruct H3 as [H3|H3]; [left; symmetry; exact H3 | right; exact H3].
    + destruct (IH init Hi Hn') as [H1 [H2 H3]]. cbv zeta in *.
      set (m := fold_left _ revs init) in *.
      split; [exact H1|]. split.
      * intros r [Hr|Hr]; [|apply H2, Hr]. subst r.
        apply (FloatOrder.leb_trans _ init); [|exact H1].
        apply FloatOrder.not_ltb_leb; assumption.
      * destruct H3 as [H3|H3]; [left; exact H3 | right; right; exact H3].
Qed.

Lemma max_rev_fold (daily_stats : list (string * DailyStats.t)) :
  max_rev daily_stats
  = fold_left (fun mx r => if (mx <? r)%float then r else mx)
              (map (fun item => DailyStats.revenue (snd item)) daily_stats) 0%float.
Proof.
  unfold max_rev. generalize 0%float.
  induction daily_stats as [|item l IH]; intros init; [reflexivity|].
  cbn [fold_left map]. apply IH.
Qed.

Lemma trend_revenues_nonneg ts trend d e :
  forallb positive_record ts = true ->
  daily_sales_trend ts = Returns trend -> In (d, e) trend ->
  nonneg (DailyStats.revenue e) = true.
Proof.
  intros Hpos H Hin. destruct (daily_trend_inv _ _ H) as [stats [Hstats Htrend]].
  subst trend. apply (Permutation_in _ (py_sorted_perm _ _ _ _)) in Hin.
  apply in_map_iff in Hin. destruct Hin as [[d' acc] [Hfin Hin]].
  unfold daily_final in Hfin. inversion Hfin; subst d' e; clear Hfin.
  destruct (daily_stats_entry _ _ _ _ Hstats Hin) as [_ [tot [Htot Hacc]]].
  subst acc. cbn. apply round_nonneg.
  apply (accumulate_nonneg _ 0%float tot (select_positive Date d ts Hpos) eq_refl Htot).
Qed.

(** X22. On records with positive quantities and positive finite prices
    the check of the peak day passes: the revenue [find_peak_sales_day]
    returns is equal to the maximum the test computes for itself from 0
    over the daily trend. *)
Theorem test_peak_check_passes ts trend peak :
  forallb positive_record ts = true ->
  daily_sales_trend ts = Returns trend ->
  find_peak_sales_day ts = Returns peak ->
  check_peak_day peak trend = true.
Proof.
  intros Hpos Htrend Hpeak.
  unfold find_peak_sales_day in Hpeak. rewrite Htrend in Hpeak. cbn [bind] in Hpeak.
  destruct trend as [|first rest] eqn:Et; [inversion Hpeak; reflexivity|].
  inversion Hpeak; subst peak; clear Hpeak. cbn [check_peak_day].
  rewrite <- Et in *.
  assert (Hnonneg : forall d e, In (d, e) trend -> nonneg (DailyStats.revenue e) = true).
  { intros d e Hin. eapply trend_revenues_nonneg; eassumption. }
  assert (Hnan : forall r, In r (map (fun item => DailyStats.revenue (snd item)) trend) ->
                           is_nan r = false).
  { intros r Hr. apply in_map_iff in Hr. destruct Hr as [[d e] [Hr Hin]]. subst r.
    apply nonneg_not_nan, (Hnonneg d e Hin). }
  pose proof (py_max_split (fun item => DailyStats.revenue (snd item)) rest first)
    as Hmax. cbv zeta in Hmax.
  destruct Hmax as [before [after [Hsplit [Hbefore Hafter]]]].
  set (best := py_max PrimFloat.ltb
                 (fun item => DailyStats.revenue (snd item)) first rest) in *.
  rewrite <- Et in Hsplit.
  assert (Hbest : In best trend).
  { rewrite Hsplit. apply in_or_app. right. left. reflexivity. }
  assert (Hbn : nonneg (DailyStats.revenue (snd best)) = true).
  { apply (Hnonneg (fst best)). rewrite <- surjective_pairing. exact Hbest. }
  assert (Hall : forall item, In item trend ->
            (DailyStats.revenue (snd item) <=? DailyStats.revenue (snd best))%float = true).
  { intros item Hin.
    assert (Hi : is_nan (DailyStats.revenue (snd item)) = false).
    { apply Hnan, in_map_iff. exists item. auto. }
    apply FloatOrder.not_ltb_leb; [apply nonneg_not_nan, Hbn | exact Hi |].
    rewrite Hsplit in Hin. apply in_app_or in Hin. destruct Hin as [Hin|[Hin|Hin]].
    - apply FloatOrder.leb_false_ltb_false, (Hbefore _ Hin).
    - subst item.
      destruct (DailyStats.revenue (snd best) <? DailyStats.revenue (snd best))%float
        eqn:E; [|reflexivity].
      pose proof (FloatOrder.ltb_asym _ _ E). congruence.
    - apply (Hafter _ Hin). }
  rewrite max_rev_fold.
  destruct (fold_max_spec _ 0%float eq_refl Hnan) as [H0 [Hle Hm]]. cbv zeta in *.
  set (m := fold_left _ _ 0%float) in *.
  apply FloatOrder.leb_antisym_eqb.
  - apply Hle, in_map_iff. exists best. auto.
  - destruct Hm as [Hm|Hm].
    + rewrite Hm. rewrite leb_zero_nonneg. exact Hbn.
    + apply in_map_iff in Hm. destruct Hm as [item [Hm Hin]]. rewrite <- Hm.
      apply Hall, Hin.
Qed.

Section OrderChecks.

Variable py_sum : list float -> float.

(** X23. On records with positive quantities and positive finite prices
    the four order checks of the test pass, whatever [sum] is: the region
    totals and the customer totals come in descending order, at most 3 top
    products come in descending order of quantity, and the dates come in
    ascending order. *)
Theorem test_order_checks_pass ts :
  forallb positive_record ts = true ->
  (forall region_stats, region_wise_sales py_sum ts = Returns region_stats ->
                        check_region_order region_stats = true) /\
  (forall top_products, top_selling_products ts 3 = Returns top_products ->
                        check_top_products top_products = true) /\
  (forall cust_stats, customer_analysis ts = Returns cust_stats ->
                      check_customer_order cust_stats = true) /\
  (forall daily_stats, daily_sales_trend ts = Returns daily_stats ->
                       check_dates_order daily_stats = true).
Proof.
  intros Hpos. split; [|split; [|split]].
  - intros res Hres. unfold check_region_order. cbv zeta.
    unfold region_wise_sales in Hres. bind_inv Hres as total Htotal.
    destruct (total =? 0)%float eqn:Hz; [inversion Hres; reflexivity|].
    destruct (region_wise_sales_nonzero py_sum _ _ Htotal Hz) as [stats [Hstats Hres']].
    unfold region_wise_sales in Hres'. rewrite Htotal in Hres'. cbn [bind] in Hres'.
    rewrite Hz in Hres'. rewrite Hres in Hres'. inversion Hres'; subst res; clear Hres'.
    apply (check_sorted_floats (fun item => RegionStats.total_sales (snd item))).
    intros [r st] Hin. apply in_map_iff in Hin. destruct Hin as [[r' acc] [He Hin]].
    unfold region_entry in He. cbn in He. inversion He; subst r' st; clear He.
    destruct (region_stats_entry _ _ _ _ Hstats Hin) as [tot [Htot Hacc]].
    subst acc. cbn. apply nonneg_not_nan, round_nonneg.
    apply (accumulate_nonneg _ 0%float tot (select_positive Region r ts Hpos) eq_refl Htot).
  - intros top Htop. unfold check_top_products.
    destruct (top_selling_products_inv _ _ _ Htop) as [stats [Hstats Hres]].
    assert (Hlen : (len top <=? 3) = true).
    { subst top. unfold slice_to, len. cbn. rewrite length_firstn. apply Z.leb_le. lia. }
    rewrite Hlen. cbn [andb]. cbv zeta.
    rewrite (py_sorted_desc_fixed Z.ltb (fun x => x)).
    + apply list_eqb_refl, Forall_forall. intros x _. apply Z.eqb_refl.
    + apply (StronglySorted_map (fun p => snd (fst p)) (fun x y => (x <? y) = false)).
      subst top. apply StronglySorted_firstn.
      eapply StronglySorted_impl_all; [|apply (ranking_sorted stats)].
      intros a b Hab. apply Z.ltb_ge. exact Hab.
  - intros res Hres. unfold check_customer_order. cbv zeta.
    destruct (customer_analysis_inv _ _ Hres) as [stats [final [Hstats [Hfinal Hr]]]].
    subst res.
    apply (check_sorted_floats (fun item => CustomerStats.total_spent (snd item))).
    intros [c st] Hin.
    assert (Hin' : In (c, st)
                      (py_sorted PrimFloat.ltb
                         (fun item => CustomerStats.total_spent (snd item)) true final))
      by (apply (Permutation_in _ (Permutation_sym (py_sorted_perm _ _ _ _))), Hin).
    destruct (customer_entry _ _ _ _ Hres Hin') as [_ [_ [_ [spent [Hs Ht]]]]].
    cbn. rewrite Ht. apply nonneg_not_nan, round_nonneg.
    apply (accumulate_nonneg _ 0%float spent
             (select_positive CustomerID c ts Hpos) eq_refl Hs).
  - intros trend Htrend. unfold check_dates_order. cbv zeta.
    destruct (daily_trend_inv _ _ Htrend) as [stats [Hstats Ht]].
    rewrite (py_sorted_asc_fixed String.ltb (fun x => x)).
    + apply list_eqb_refl, Forall_forall. intros x _. apply String.eqb_refl.
    + apply (StronglySorted_map fst (fun x y => (y <? x)%string = false)).
      subst trend.
      assert (Hs : StronglySorted (fun a b => (fst a <=? fst b)%string = true)
                     (py_sorted String.ltb fst false (map daily_final stats))).
      { apply Sorted_StronglySorted.
        - intros a b c Hab Hbc. eapply string_leb_trans; eassumption.
        - eapply Sorted_impl; [|apply py_sorted_asc; exact string_ltb_asym].
          intros a b Hab. apply string_not_ltb_leb, Hab. }
      eapply StronglySorted_impl_all; [|exact Hs].
      intros a b Hab. unfold String.ltb, String.leb in *.
      rewrite (String.compare_antisym (fst b) (fst a)).
      destruct (String.compare (fst a) (fst b)); cbn; congruence.
Qed.

End OrderChecks.

(** ** The further statements at concrete inputs *)

Example example_read :
  read_sales_data example_file
  = Got ["T001|2024-12-01|P101|Mouse,Wireless|10|25.00|C001|North";
         "T002|2024-12-01|P102|Keyboard|5|50.00|C002|North";
         "T003|2024-12-02|P103|Monitor|2|100.00|C001|South"].
Proof. vm_compute. reflexivity. Qed.

Lemma read_sales_data_blank_line_witness :
  read_sales_data (fun enc => with_lines (insert_at 3 "  ") (example_file enc))
  = read_sales_data example_file.
Proof.
  apply (read_sales_data_blank_line example_file 3 "  "). reflexivity.
Defined.

Lemma parse_of_read_lines_witness :
  exists data,
    read_sales_data example_file = Got data /\
    parse_transactions PyNum.py_int PyNum.py_float data = example_valid.
Proof.
  destruct (parse_of_read_lines PyNum.py_int PyNum.py_float
              example_file example_file_lines) as [data [Hr [Hp _]]].
  - right. left. split; reflexivity.
  - exists data. split; [exact Hr|]. rewrite Hp. vm_compute. reflexivity.
Defined.

Lemma result_is_one_filter_witness :
  firstn 2 example_records
  = filter (kept (Some "North") (Some 100%float) None) example_records.
Proof.
  exact (proj1 (result_is_one_filter _ _ _ _ _ _ _ example_filter)).
Defined.

Lemma second_pass_keeps_all_witness :
  validate_and_filter (firstn 2 example_records) (Some "North") (Some 100%float) None
  = Returns (firstn 2 example_records, 0, unchanged_summary (firstn 2 example_records)).
Proof.
  exact (second_pass_keeps_all _ _ _ _ _ _ _ example_filter).
Defined.

Lemma amount_filter_in_range_witness :
  In product_P101 (firstn 2 example_records) <->
  In product_P101 example_records /\
  is_valid product_P101 = true /\
  region_ok (Some "North") product_P101 = true /\
  exists a, amount product_P101 = Returns a /\ within (Some 100%float) None a = true.
Proof.
  apply (amount_filter_in_range _ _ _ _ _ _ _ example_filter);
    [repeat constructor | reflexivity | reflexivity].
Defined.

Lemma validate_and_filter_total_witness :
  exists out s,
    validate_and_filter example_records (Some "North") (Some 100%float) None
    = Returns (out, len (filter (fun t => negb (is_valid t)) example_records), s).
Proof.
  apply validate_and_filter_total. repeat constructor.
Defined.

Lemma analyses_return_after_filter_witness :
  exists res, customer_analysis (firstn 2 example_records) = Returns res.
Proof.
  destruct (analyses_return_after_filter PyFloat.sum_plain
              example_records (Some "North") (Some 100%float) None
              (firstn 2 example_records) 1 example_summary 5
              example_filter eq_refl) as (_ & _ & _ & H & _).
  exact H.
Defined.

Example example_top_products :
  top_selling_products example_valid 2 = Returns example_top.
Proof. vm_compute. reflexivity. Qed.

Lemma top_selling_products_entries_witness :
  NoDup (map tuple_name example_top).
Proof.
  exact (proj1 (top_selling_products_entries _ _ _ example_top_products)).
Defined.

Lemma top_selling_products_ranking_witness :
  exists ranking,
    top_selling_products example_valid (len example_valid) = Returns ranking /\
    example_top = slice_to 2 ranking /\
    Zsum (map tuple_quantity ranking) = total_quantity example_valid.
Proof.
  destruct (top_selling_products_ranking _ _ _ example_top_products)
    as (ranking & groups & H1 & H2 & _ & _ & _ & _ & H3 & _).
  exists ranking. repeat split; assumption.
Defined.

Lemma top_selling_products_size_witness :
  len example_top = Z.min 2 (len (distinct ProductName example_valid)).
Proof.
  exact (proj1 (top_selling_products_size _ _ _ example_top_products)).
Defined.

Lemma customer_analysis_order_witness :
  exists groups,
    map fst groups = distinct CustomerID example_valid /\
    Permutation example_customer_result groups.
Proof.
  destruct (customer_analysis_order example_valid example_customer_result
              example_customers) as (groups & H1 & H2 & _).
  exists groups. split; assumption.
Defined.

Lemma customer_products_and_counts_witness :
  Zsum (map (fun e => CustomerStats.purchase_count (snd e)) example_customer_result)
  = len example_valid.
Proof.
  exact (proj2 (customer_products_and_counts example_valid example_customer_result
                  example_customers)).
Defined.

Lemma daily_sales_trend_days_witness :
  Permutation (map fst example_trend_result) (distinct Date example_valid) /\
  Zsum (map (fun e => DailyStats.transaction_count (snd e)) example_trend_result)
  = len example_valid.
Proof.
  destruct (daily_sales_trend_days example_valid example_trend_result example_trend)
    as (H1 & _ & _ & H2).
  split; assumption.
Defined.

Lemma region_counts_add_up_witness :
  NoDup (map fst example_region_result) /\
  Zsum (map (fun e => RegionStats.transaction_count (snd e)) example_region_result)
  = len example_valid.
Proof.
  destruct (region_counts_add_up PyFloat.sum_compensated example_valid 700%float
              example_region_result
              ltac:(vm_compute; reflexivity) example_regions) as (_ & H1 & H2).
  split; [exact H1 | apply H2; reflexivity].
Defined.

Example example_low_performers :
  low_performers example_valid = [("Monitor", 2); ("Keyboard", 5); ("Mouse Wireless", 10)].
Proof. vm_compute. reflexivity. Qed.

Example example_available_regions :
  available_regions (filter is_valid example_records) = ["North"; "South"].
Proof. vm_compute. reflexivity. Qed.

Example example_mapping :
  create_product_mapping example_products
  = [(IntKey 101, {| title := "Wireless Mouse"; category := "accessories";
                     brand := "Essence"; rating := 4.75 |})].
Proof. vm_compute. reflexivity. Qed.

Example example_enriched :
  enriched (enrich PyNum.py_int (create_product_mapping example_products) product_P101)
  = true.
Proof. vm_compute. reflexivity. Qed.

Lemma total_revenue_positive_witness :
  exists total region_stats,
    calculate_total_revenue PyFloat.sum_plain example_valid = Returns total /\
    (0 <? total)%float = true /\
    region_wise_sales PyFloat.sum_plain example_valid = Returns region_stats /\
    region_stats <> [].
Proof.
  destruct (total_revenue_positive PyFloat.sum_plain example_valid
              sum_plain_positive ltac:(discriminate)
              ltac:(repeat constructor; vm_compute; congruence))
    as (total & region_stats & H1 & H2 & H3 & _ & H4).
  exists total, region_stats. repeat split; assumption.
Defined.

Lemma test_peak_check_passes_witness :
  check_peak_day (Some ("2024-12-01", 500%float, 2)) example_trend_result = true.
Proof.
  exact (test_peak_check_passes example_valid example_trend_result _
           ltac:(vm_compute; reflexivity) example_trend example_peak).
Defined.

Lemma test_order_checks_pass_witness :
  check_region_order example_region_result = true /\
  check_customer_order example_customer_result = true /\
  check_dates_order example_trend_result = true.
Proof.
  destruct (test_order_checks_pass PyFloat.sum_compensated example_valid
              ltac:(vm_compute; reflexivity)) as (H1 & _ & H3 & H4).
  split; [apply H1, example_regions|].
  split; [apply H3, example_customers | apply H4, example_trend].
Defined.

Lemma percentage_sum_near_100_witness :
  (Qabs (percentage_sum example_region_result - 100)
   <= inject_Z (len example_region_result) * (1 # 200) + (1 # 100000))%Q.
Proof.
  apply (percentage_sum_near_100 PyFloat.sum_compensated example_valid 700%float
           example_region_result).
  - right. reflexivity.
  - repeat constructor; vm_compute; reflexivity.
  - vm_compute. discriminate.
  - vm_compute. reflexivity.
  - reflexivity.
  - reflexivity.
  - vm_compute. reflexivity.
  - intros r st Hin. cbn in Hin.
    destruct Hin as [H|[H|[]]]; inversion H; reflexivity.
Defined.
